(** * Lead-enrichment pipeline: domain validation, email ranking, CSV
      round trip, insight trimming and the phase-1 orchestrator.

    The development follows the TypeScript sources module by module:
    - [Js]: the JavaScript string primitives and the regular expressions
      the sources use;
    - [Crawl]: [src/agent/crawl.ts];
    - [EmailExtractor]: [src/agent/emailExtractor.ts];
    - [Icebreaker]: [src/agent/icebreakerGenerator.ts];
    - [Types] and [CsvProcessor]: [src/agent/types.ts],
      [src/agent/csvProcessor.ts];
    - [Enrichment]: [src/api/enrichment.ts];
    - [Analyze], [App], [IcebreakerResponse]: the rest of
      [emailExtractor.ts], the progress callback of [src/App.tsx] and the
      answer parser of [icebreakerGenerator.ts];
    - [FileUpload], [InstantlyExport]: the CSV reader and lead builder of
      [src/components/FileUpload.tsx], the CSV writer of
      [src/utils/instantlyExport.ts];
    - [Spec]: the properties in the words of the specification;
    - [Samples]: data for the worked examples;
    - [Notions], [Reading]: what the further properties are stated with.

    A lead is a record of the values of its properties ([EnrichedLead]);
    where the code goes by the own properties of the object, in [toCSV]
    and in the upload form, it is a [LeadObject], the record with the
    names of the own properties.

    Definitions come first, the theorems about them afterwards. *)

From Stdlib Require Import String Ascii List Bool Arith Lia.
From Stdlib Require Import Permutation Sorted.
Import ListNotations.

Set Implicit Arguments.

(* ================================================================== *)
(** ** JavaScript strings and regular expressions *)
(* ================================================================== *)

Module Js.

(** A JavaScript string is a sequence of UTF-16 code units.  The sources
    only compare code units with ASCII characters and call [trim],
    [toLowerCase] and regular expressions on them; a code unit is modelled
    as an 8-bit character (the Latin-1 range U+0000..U+00FF), on which
    those primitives are given exactly. *)
Abbreviation jsstring := (list ascii).

Definition js (s : string) : jsstring := list_ascii_of_string s.

Fixpoint jseqb (a b : jsstring) : bool :=
  match a, b with
  | [], [] => true
  | x :: a', y :: b' => Ascii.eqb x y && jseqb a' b'
  | _, _ => false
  end.

Definition code (c : ascii) : nat := nat_of_ascii c.

Definition in_range (lo hi : nat) (c : ascii) : bool :=
  (lo <=? code c) && (code c <=? hi).

(** Character classes of the regular expressions. *)
Definition is_lower (c : ascii) : bool := in_range 97 122 c.   (* [a-z] *)
Definition is_upper (c : ascii) : bool := in_range 65 90 c.    (* [A-Z] *)
Definition is_digit (c : ascii) : bool := in_range 48 57 c.    (* [0-9] *)
Definition is_alpha (c : ascii) : bool := is_lower c || is_upper c.
Definition is_char (x : ascii) (c : ascii) : bool := Ascii.eqb x c.
Definition one_of (s : string) (c : ascii) : bool :=
  existsb (Ascii.eqb c) (list_ascii_of_string s).

(** [\s] and the characters removed by [String.prototype.trim]: TAB, LF,
    VT, FF, CR, SPACE and NO-BREAK SPACE (the other white space code
    points lie above U+00FF). *)
Definition is_space (c : ascii) : bool :=
  in_range 9 13 c || (code c =? 32) || (code c =? 160).

(** [String.prototype.toLowerCase] on one code unit: A-Z and the Latin-1
    capitals U+00C0..U+00DE (without the multiplication sign U+00D7). *)
Definition lower_char (c : ascii) : ascii :=
  if is_upper c || (in_range 192 222 c && negb (code c =? 215))
  then ascii_of_nat (code c + 32) else c.

Definition toLowerCase (s : jsstring) : jsstring := map lower_char s.

Fixpoint trimStart (s : jsstring) : jsstring :=
  match s with
  | c :: s' => if is_space c then trimStart s' else s
  | [] => []
  end.

Definition trimEnd (s : jsstring) : jsstring := rev (trimStart (rev s)).

Definition trim (s : jsstring) : jsstring := trimEnd (trimStart s).

Fixpoint startsWith (p s : jsstring) : bool :=
  match p, s with
  | [], _ => true
  | x :: p', y :: s' => Ascii.eqb x y && startsWith p' s'
  | _ :: _, [] => false
  end.

Definition endsWith (p s : jsstring) : bool := startsWith (rev p) (rev s).

(** [s.includes(p)]: [p] occurs in [s] as a contiguous substring. *)
Fixpoint includes (s p : jsstring) : bool :=
  startsWith p s ||
  match s with
  | [] => false
  | _ :: s' => includes s' p
  end.

(** [s.substring(0, n)] for [0 <= n]. *)
Definition substring0 (n : nat) (s : jsstring) : jsstring := firstn n s.

(** [s.split(c)] for a one-character string separator [c]. *)
Fixpoint split_char (c : ascii) (s : jsstring) : list jsstring :=
  match s with
  | [] => [[]]
  | x :: s' =>
      if Ascii.eqb x c then [] :: split_char c s'
      else match split_char c s' with
           | p :: ps => (x :: p) :: ps
           | [] => [[x]]
           end
  end.

(** [a[i]] on an array of strings; [None] is [undefined]. *)
Definition index (A : Type) (l : list A) (i : nat) : option A := nth_error l i.

(** [s.split(c)[0]]: always defined, the text before the first [c]. *)
Definition split_first (c : ascii) (s : jsstring) : jsstring :=
  match split_char c s with
  | p :: _ => p
  | [] => []
  end.

(** *** Regular expressions

    Apart from [domainRegex] in [Crawl], every regular expression of the
    sources is a sequence of quantified character classes, possibly
    anchored.  [atom] is one quantified class [cls{lo,hi}] (greedy);
    [match_here] is the backtracking matcher started at the head of the
    string: each atom first takes as many characters as it may and gives
    them back one at a time until the rest of the pattern matches. *)
Record atom := Atom { cls : ascii -> bool; lo : nat; hi : option nat }.

Definition pattern := list atom.

Definition chr (c : ascii) : atom := Atom (is_char c) 1 (Some 1).   (* c *)
Definition opt (c : ascii) : atom := Atom (is_char c) 0 (Some 1).   (* c? *)
Definition plus (p : ascii -> bool) : atom := Atom p 1 None.        (* [p]+ *)
Definition rep (p : ascii -> bool) (n : nat) (m : option nat) : atom :=
  Atom p n m.                                                       (* [p]{n,m} *)
Definition lit (s : string) : pattern := map chr (list_ascii_of_string s).

(** Length of the longest prefix of [s] inside the class. *)
Fixpoint span (p : ascii -> bool) (s : jsstring) : nat :=
  match s with
  | c :: s' => if p c then S (span p s') else 0
  | [] => 0
  end.

(** Tries the counts [n], [n-1], ..., [lo] in this order. *)
Fixpoint try_down (f : nat -> option nat) (lo n : nat) : option nat :=
  if n <? lo then None
  else match f n with
       | Some r => Some (n + r)
       | None => match n with
                 | O => None
                 | S n' => try_down f lo n'
                 end
       end.

(** [match_here pat dollar s = Some n]: the pattern matches the first [n]
    characters of [s]; with [dollar] the match must end at the end of [s]. *)
Fixpoint match_here (pat : pattern) (dollar : bool) (s : jsstring) : option nat :=
  match pat with
  | [] => if dollar then (match s with [] => Some 0 | _ => None end) else Some 0
  | a :: rest =>
      let m := span (cls a) s in
      let m' := match hi a with Some h => Nat.min m h | None => m end in
      try_down (fun n => match_here rest dollar (skipn n s)) (lo a) m'
  end.

(** First match of an unanchored pattern: start index and length. *)
Fixpoint search_from (pat : pattern) (dollar : bool) (i : nat) (s : jsstring)
  : option (nat * nat) :=
  match match_here pat dollar s with
  | Some n => Some (i, n)
  | None => match s with
            | [] => None
            | _ :: s' => search_from pat dollar (S i) s'
            end
  end.

(** [/pat/.test(s)], with the anchors [^] ([caret]) and [$] ([dollar]). *)
Definition test (caret : bool) (pat : pattern) (dollar : bool) (s : jsstring) : bool :=
  if caret then
    match match_here pat dollar s with Some _ => true | None => false end
  else
    match search_from pat dollar 0 s with Some _ => true | None => false end.

(** [s.replace(/pat/, '')] without the [g] flag: the first match is
    removed. *)
Definition remove_first (caret : bool) (pat : pattern) (dollar : bool) (s : jsstring)
  : jsstring :=
  if caret then
    match match_here pat dollar s with
    | Some n => skipn n s
    | None => s
    end
  else
    match search_from pat dollar 0 s with
    | Some (i, n) => firstn i s ++ skipn (i + n) s
    | None => s
    end.

(** [s.replace(/[cls]/g, '')] for a single character class. *)
Definition remove_all_chars (p : ascii -> bool) (s : jsstring) : jsstring :=
  filter (fun c => negb (p c)) s.

(** [s.match(/pat/g) || []]: the successive non-overlapping matches, left
    to right.  [skip] counts the characters of the current match that are
    still to be passed over.  The patterns used never match the empty
    string. *)
Fixpoint match_all_from (pat : pattern) (skip : nat) (s : jsstring) : list jsstring :=
  match skip with
  | S k => match s with
           | [] => []
           | _ :: s' => match_all_from pat k s'
           end
  | O =>
      match s with
      | [] => []
      | _ :: s' =>
          match match_here pat false s with
          | Some (S n) => firstn (S n) s :: match_all_from pat n s'
          | _ => match_all_from pat 0 s'
          end
      end
  end.

Definition match_all (pat : pattern) (s : jsstring) : list jsstring :=
  match_all_from pat 0 s.

(** [s.split(/pat/)] for a pattern that never matches the empty string:
    [cur] is the piece being accumulated (reversed), [skip] as above. *)
Fixpoint split_re_from (pat : pattern) (skip : nat) (cur : jsstring) (s : jsstring)
  : list jsstring :=
  match s with
  | [] => [rev cur]
  | c :: s' =>
      match skip with
      | S k => split_re_from pat k cur s'
      | O =>
          match match_here pat false s with
          | Some (S n) => rev cur :: split_re_from pat n [] s'
          | _ => split_re_from pat 0 (c :: cur) s'
          end
      end
  end.

Definition split_re (pat : pattern) (s : jsstring) : list jsstring :=
  split_re_from pat 0 [] s.

(** [[...new Set(l)]]: the first occurrence of every value, in insertion
    order. *)
Fixpoint unique (l : list jsstring) : list jsstring :=
  match l with
  | [] => []
  | x :: l' => x :: filter (fun y => negb (jseqb x y)) (unique l')
  end.

(** [l.includes(x)] on an array of strings. *)
Definition mem (x : jsstring) (l : list jsstring) : bool := existsb (jseqb x) l.

(** [l.indexOf(x)]; [None] is [-1]. *)
Fixpoint indexOf (l : list jsstring) (x : jsstring) : option nat :=
  match l with
  | [] => None
  | y :: l' => if jseqb y x then Some 0 else option_map S (indexOf l' x)
  end.

(** Truthiness of an optional string: [undefined] and [''] are falsy. *)
Definition truthy (v : option jsstring) : bool :=
  match v with
  | Some (_ :: _) => true
  | _ => false
  end.

(** *** Plain objects and Maps with string keys

    An object is the list of its own properties in the order of their
    creation, with pairwise distinct keys; a Map is the list of its
    entries in insertion order.  A Map is enumerated in that order
    ([keys]).  An object is not: [Object.keys], [Object.entries] and the
    spread list the properties whose name is an array index first, in
    ascending order, and the others after them in the order of creation
    ([ownKeys]).  What can be observed of an object is the value under
    each name ([get]) and that enumeration. *)
Definition obj (V : Type) := list (jsstring * V).

Definition keys (V : Type) (o : obj V) : list jsstring := map fst o.

(** [o[k]]; [None] when [k] is not an own property. *)
Fixpoint get (V : Type) (o : obj V) (k : jsstring) : option V :=
  match o with
  | [] => None
  | (k', v) :: o' => if jseqb k' k then Some v else get o' k
  end.

(** [m.set(k, v)] on a Map, and the definition of an own property of an
    object (by a literal or a spread): overwrites in place, or appends a
    new entry. *)
Fixpoint set (V : Type) (o : obj V) (k : jsstring) (v : V) : obj V :=
  match o with
  | [] => [(k, v)]
  | (k', v') :: o' => if jseqb k' k then (k', v) :: o' else (k', v') :: set o' k v
  end.

(** The rest object [{ [k]: _, ...rest } = o]. *)
Definition without (V : Type) (k : jsstring) (o : obj V) : obj V :=
  filter (fun kv => negb (jseqb (fst kv) k)) o.

(** [{ ...a, ...b }] *)
Definition spread (V : Type) (a b : obj V) : obj V :=
  fold_left (fun acc kv => set acc (fst kv) (snd kv)) b a.

Definition proto : jsstring := js "__proto__".

(** The assignment [o[k] = v] of a value that is not an object, on an
    object made by a literal: [__proto__] names the accessor inherited
    from [Object.prototype], whose setter ignores such a value, so nothing
    is written; under every other name the value becomes an own
    property. *)
Definition assign (V : Type) (o : obj V) (k : jsstring) (v : V) : obj V :=
  if jseqb k proto then o else set o k v.

(** The names an object made by a literal inherits from
    [Object.prototype]: reading one that is not an own property finds a
    function, and under [__proto__] the prototype itself. *)
Definition prototypeNames : list jsstring :=
  map js [ "constructor"; "__defineGetter__"; "__defineSetter__";
           "hasOwnProperty"; "__lookupGetter__"; "__lookupSetter__";
           "isPrototypeOf"; "propertyIsEnumerable"; "toString"; "valueOf";
           "__proto__"; "toLocaleString" ]%string.

(** Decimal numerals without leading zero compare by length, and those of
    one length digit by digit. *)
Fixpoint digitsLeb (a b : jsstring) : bool :=
  match a, b with
  | x :: a', y :: b' =>
      (code x <? code y) || ((code x =? code y) && digitsLeb a' b')
  | _, _ => true
  end.

Definition indexLeb (a b : jsstring) : bool :=
  (length a <? length b) || ((length a =? length b) && digitsLeb a b).

(** An array index: the decimal numeral, without leading zero, of an
    integer from 0 to 2^32 - 2. *)
Definition isArrayIndex (k : jsstring) : bool :=
  match k with
  | [] => false
  | c :: rest =>
      forallb is_digit k
      && (negb (is_char "0" c) || (length rest =? 0))
      && indexLeb k (js "4294967294")
  end.

Fixpoint insertIndex (k : jsstring) (sorted : list jsstring) : list jsstring :=
  match sorted with
  | [] => [k]
  | x :: rest => if indexLeb k x then k :: sorted else x :: insertIndex k rest
  end.

(** Array indices in ascending order. *)
Definition sortIndices (l : list jsstring) : list jsstring :=
  fold_right insertIndex [] l.

(** [Object.keys(o)]: the array indices in ascending order, then the
    other names in the order of creation. *)
Definition ownKeys (V : Type) (o : obj V) : list jsstring :=
  sortIndices (filter isArrayIndex (keys o))
  ++ filter (fun k => negb (isArrayIndex k)) (keys o).

(** [Object.entries(o)] *)
Definition entries (V : Type) (o : obj V) : obj V :=
  flat_map (fun k => match get o k with Some v => [(k, v)] | None => [] end)
    (ownKeys o).

End Js.

Import Js.

(* ================================================================== *)
(** ** [src/agent/crawl.ts]: domain validation *)
(* ================================================================== *)

Module Crawl.

(** Common valid TLDs - includes traditional, country-code, and new gTLDs. *)
Definition VALID_TLDS : list string := [
  (* Generic TLDs *)
  "com"; "org"; "net"; "edu"; "gov"; "mil"; "int";
  (* Common business TLDs *)
  "biz"; "info"; "pro"; "name"; "mobi"; "app"; "dev"; "io"; "co"; "ai"; "tech";
  "online"; "site"; "website"; "web"; "blog"; "shop"; "store"; "cloud"; "digital";
  "media"; "agency"; "studio"; "design"; "solutions"; "services"; "consulting";
  "software"; "systems"; "group"; "team"; "company"; "business"; "enterprise";
  "global"; "world"; "international"; "network"; "marketing"; "email"; "support";
  (* Industry specific *)
  "clinic"; "dental"; "health"; "healthcare"; "medical"; "hospital"; "doctor";
  "law"; "legal"; "attorney"; "lawyer"; "accountant"; "finance"; "financial";
  "insurance"; "bank"; "capital"; "fund"; "invest"; "money"; "credit";
  "realty"; "property"; "properties"; "estate"; "house"; "homes"; "housing";
  "auto"; "car"; "cars"; "bike"; "travel"; "flights"; "hotel"; "vacation";
  "restaurant"; "cafe"; "pizza"; "food"; "kitchen"; "catering"; "bar";
  "fitness"; "yoga"; "gym"; "training"; "coach"; "academy"; "education"; "school";
  "photography"; "photo"; "gallery"; "art"; "music"; "video"; "film"; "tv";
  "news"; "press"; "report"; "review"; "guide"; "tips"; "how"; "wiki";
  (* Tech specific *)
  "xyz"; "top"; "icu"; "vip"; "club"; "live"; "rocks"; "fun"; "zone"; "space";
  "link"; "click"; "page"; "one"; "plus"; "social"; "chat"; "community"; "forum";
  (* Country code TLDs (common ones) *)
  "uk"; "us"; "ca"; "au"; "nz"; "de"; "fr"; "it"; "es"; "nl"; "be"; "ch"; "at";
  "se"; "no"; "dk"; "fi"; "pl"; "cz"; "ru"; "ua"; "jp"; "cn"; "kr"; "in"; "sg";
  "hk"; "tw"; "my"; "ph"; "th"; "vn"; "id"; "br"; "mx"; "ar"; "cl"; "co"; "pe";
  "za"; "ae"; "il"; "tr"; "ie"; "pt"; "gr"; "hu"; "ro"; "bg"; "hr"; "sk"; "si";
  "ee"; "lv"; "lt"; "is"; "lu"; "mt"; "cy"
]%string.

(** Multi-part TLDs (country-code second-level domains). *)
Definition MULTI_PART_TLDS : list string := [
  "co.uk"; "org.uk"; "me.uk"; "ltd.uk"; "plc.uk"; "ac.uk"; "gov.uk"; "nhs.uk";
  "com.au"; "net.au"; "org.au"; "edu.au"; "gov.au"; "asn.au"; "id.au";
  "co.nz"; "net.nz"; "org.nz"; "govt.nz"; "ac.nz"; "school.nz"; "geek.nz";
  "com.br"; "net.br"; "org.br"; "gov.br"; "edu.br";
  "co.za"; "net.za"; "org.za"; "gov.za"; "edu.za";
  "com.mx"; "net.mx"; "org.mx"; "gob.mx"; "edu.mx";
  "co.jp"; "ne.jp"; "or.jp"; "ac.jp"; "go.jp";
  "com.cn"; "net.cn"; "org.cn"; "gov.cn"; "edu.cn";
  "co.in"; "net.in"; "org.in"; "gov.in"; "ac.in"; "edu.in";
  "com.sg"; "net.sg"; "org.sg"; "gov.sg"; "edu.sg";
  "com.hk"; "net.hk"; "org.hk"; "gov.hk"; "edu.hk";
  "co.kr"; "ne.kr"; "or.kr"; "go.kr"; "ac.kr";
  "com.tw"; "net.tw"; "org.tw"; "gov.tw"; "edu.tw";
  "co.th"; "in.th"; "ac.th"; "go.th"; "or.th";
  "com.my"; "net.my"; "org.my"; "gov.my"; "edu.my";
  "com.ph"; "net.ph"; "org.ph"; "gov.ph"; "edu.ph";
  "co.id"; "web.id"; "or.id"; "go.id"; "ac.id";
  "com.vn"; "net.vn"; "org.vn"; "gov.vn"; "edu.vn";
  "com.ar"; "net.ar"; "org.ar"; "gob.ar"; "edu.ar";
  "com.co"; "net.co"; "org.co"; "gov.co"; "edu.co";
  "co.il"; "net.il"; "org.il"; "gov.il"; "ac.il";
  "com.tr"; "net.tr"; "org.tr"; "gov.tr"; "edu.tr";
  "co.ae"; "net.ae"; "org.ae"; "gov.ae"; "ac.ae";
  "com.ua"; "net.ua"; "org.ua"; "gov.ua"; "edu.ua";
  "com.pl"; "net.pl"; "org.pl"; "gov.pl"; "edu.pl";
  "co.de"; "com.de";
  "com.es"; "org.es"; "gob.es"; "edu.es";
  "com.fr"; "asso.fr"; "gouv.fr";
  "co.it"; "com.it";
  "com.pt"; "org.pt"; "gov.pt"; "edu.pt";
  "com.nl"; "co.nl";
  "com.be"; "co.be";
  "co.at"; "or.at"; "ac.at";
  "co.ch"; "com.ch";
  "co.se"; "com.se";
  "co.no"; "com.no";
  "co.dk"; "com.dk";
  "co.fi"; "com.fi";
  "co.ie"; "com.ie";
  "co.gr"; "com.gr";
  "co.hu"; "com.hu";
  "co.ro"; "com.ro";
  "co.cz"; "com.cz";
  "eu.com"; "us.com"; "uk.com"; "de.com"; "jpn.com"; "br.com"; "cn.com"
]%string.
(** [SET.has(x)] on a set of string literals. *)
Definition has (set : list string) (x : jsstring) : bool :=
  existsb (fun t => jseqb (js t) x) set.

Record DomainValidationResult := mkValidation {
  isValid : bool;
  domain : jsstring;
  tld : jsstring;
  error : option jsstring
}.

(** [/^https?:\/\//] *)
Definition protocol_re : pattern :=
  lit "http" ++ [opt "s"] ++ lit "://".

(** [/^www\./] *)
Definition www_re : pattern := lit "www.".

(** One label [[a-z0-9]([a-z0-9-]*[a-z0-9])?] of [domainRegex]: a non-empty
    run of letters, digits and hyphens that starts and ends with a letter
    or a digit. *)
Definition is_alnum (c : ascii) : bool := is_lower c || is_digit c.

Definition is_label (l : jsstring) : bool :=
  match l with
  | [] => false
  | c :: _ =>
      is_alnum c && is_alnum (last l c)
      && forallb (fun x => is_alnum x || is_char "-" x) l
  end.

(** [domainRegex =
     /^[a-z0-9]([a-z0-9-]*[a-z0-9])?(\.[a-z0-9]([a-z0-9-]*[a-z0-9])?)*\.[a-z]{2,}$/].
    Neither a label nor the final [[a-z]{2,}] contains a dot, so the
    expression accepts exactly the strings whose dot-separated pieces are
    one or more labels followed by a last piece of two or more lower-case
    letters. *)
Definition domainRegex_test (s : jsstring) : bool :=
  let parts := split_char "." s in
  (2 <=? length parts)
  && forallb is_label (removelast parts)
  && test true [rep is_lower 2 None] true (last parts []).

(** [/^[a-z0-9.-]+\.[a-z]{2,}$/] *)
Definition lenient_re : pattern :=
  [plus (fun c => is_alnum c || one_of ".-" c); chr "."; rep is_lower 2 None].

(** The normalisation at the head of [validateDomain]. *)
Definition clean (input : jsstring) : jsstring :=
  let cleaned := toLowerCase (trim input) in
  (* Remove protocol if present *)
  let cleaned := remove_first true protocol_re false cleaned in
  (* Remove www. prefix *)
  let cleaned := remove_first true www_re false cleaned in
  (* Remove any path, query string, or hash *)
  let cleaned := split_first "#" (split_first "?" (split_first "/" cleaned)) in
  (* Remove port if present *)
  split_first ":" cleaned.

Definition validateDomain (input : jsstring) : DomainValidationResult :=
  let cleaned := clean input in
  (* Basic format check *)
  if (length cleaned <? 3) then
    mkValidation false cleaned [] (Some (js "Domain too short"))
  else if negb (domainRegex_test cleaned)
          && negb (test true lenient_re true cleaned) then
    mkValidation false cleaned [] (Some (js "Invalid domain format"))
  (* Check for consecutive dots or hyphens *)
  else if test false (lit "..") false cleaned || test false (lit "--") false cleaned then
    mkValidation false cleaned []
      (Some (js "Invalid domain format (consecutive dots or hyphens)"))
  (* Check if domain starts or ends with hyphen *)
  else if startsWith (js "-") cleaned || endsWith (js "-") cleaned then
    mkValidation false cleaned [] (Some (js "Domain cannot start or end with hyphen"))
  else
    (* Extract TLD *)
    let parts := split_char "." cleaned in
    if length parts <? 2 then
      mkValidation false cleaned [] (Some (js "No TLD found"))
    else
      let last1 := nth (length parts - 1) parts [] in
      let last2 := nth (length parts - 2) parts [] in
      let possibleMultiTld := last2 ++ js "." ++ last1 in
      (* Check for multi-part TLD first (e.g., co.uk, com.au) *)
      if (3 <=? length parts) && has MULTI_PART_TLDS possibleMultiTld then
        mkValidation true cleaned possibleMultiTld None
      (* Check single TLD *)
      else if has VALID_TLDS last1 then
        mkValidation true cleaned last1 None
      (* TLD not in our list - allow if it's 2-10 chars and looks reasonable *)
      else if (2 <=? length last1) && (length last1 <=? 10)
              && test true [plus is_lower] true last1 then
        mkValidation true cleaned last1 None
      else
        mkValidation false cleaned last1
          (Some (js "Invalid or unrecognized TLD: ." ++ last1)).

Definition isLikelyValidDomain (input : jsstring) : bool :=
  isValid (validateDomain input).

(** Normalize a URL to ensure it has a proper protocol. *)
Definition normalizeUrl (url : jsstring) : jsstring :=
  let normalized := toLowerCase (trim url) in
  (* Remove trailing slashes: /\/+$/ *)
  let normalized := remove_first false [plus (is_char "/")] true normalized in
  if negb (startsWith (js "http://") normalized)
     && negb (startsWith (js "https://") normalized)
  then js "https://" ++ normalized
  else normalized.

Section ExtractDomain.

(** The [hostname] of [new URL(s)], a platform primitive; [None] when the
    constructor throws. *)
Variable url_hostname : jsstring -> option jsstring.

(** Extract the domain from a URL. *)
Definition extractDomain (url : jsstring) : jsstring :=
  match url_hostname (normalizeUrl url) with
  | Some hostname => remove_first true www_re false hostname
  | None => url
  end.

End ExtractDomain.

(** Validate multiple domains and return results: the [Map] of the
    verdicts, in insertion order. *)
Definition validateDomains (domains : list jsstring) : obj DomainValidationResult :=
  fold_left (fun results d => set results d (validateDomain d)) domains [].

Definition commonContactPaths : list jsstring :=
  [js "/contact"; js "/contact-us"; js "/about"; js "/about-us"; js "/team";
   js "/company"].

(** Build a contact page URL from a base domain. *)
Definition buildContactUrl (baseUrl : jsstring) : list jsstring :=
  let normalized := normalizeUrl baseUrl in
  map (fun path => normalized ++ path) commonContactPaths.

End Crawl.

Import Crawl.

(* ================================================================== *)
(** ** [src/agent/emailExtractor.ts]: extraction and ranking *)
(* ================================================================== *)

Module EmailExtractor.

(** [[a-zA-Z0-9._%+-]] and [[a-zA-Z0-9.-]] *)
Definition local_cls (c : ascii) : bool :=
  is_alpha c || is_digit c || one_of "._%+-" c.
Definition host_cls (c : ascii) : bool :=
  is_alpha c || is_digit c || one_of ".-" c.

(** [/[a-zA-Z0-9._%+-]+@[a-zA-Z0-9.-]+\.[a-zA-Z]{2,}/] *)
Definition emailPattern : pattern :=
  [plus local_cls; chr "@"; plus host_cls; chr "."; rep is_alpha 2 None].

Definition genericPrefixes : list string := [
  "noreply"; "no-reply"; "donotreply"; "do-not-reply";
  "mailer-daemon"; "postmaster"; "webmaster";
  "example"; "test"; "demo"; "sample"
]%string.

(** [email.split('@')[0]] *)
Definition localPart_of (email : jsstring) : jsstring := split_first "@" email.

(** Check if an email appears to be generic/non-personal. *)
Definition isGenericEmail (email : jsstring) : bool :=
  let localPart := toLowerCase (localPart_of email) in
  existsb (fun prefix => includes localPart (js prefix)) genericPrefixes.

(** Validate email format. *)
Definition isValidEmailFormat (email : jsstring) : bool :=
  (* More strict validation: the same pattern between ^ and $ *)
  if negb (test true emailPattern true email) then false
  (* Check for reasonable length *)
  else if 254 <? length email then false
  (* Check local part length *)
  else if 64 <? length (localPart_of email) then false
  else true.

(** Extract emails from page content. *)
Definition extractEmailsFromContent (content : jsstring) : list jsstring :=
  let matches := match_all emailPattern content in
  filter isValidEmailFormat
    (filter (fun email => negb (isGenericEmail email)) (unique matches)).

Definition personalPatterns : list string :=
  ["hello"; "hi"; "info"; "contact"; "sales"; "team"]%string.

(** Calculate a relevance score for an email.  [emailLower.split('@')[1]] is
    [undefined] when the address has no [@]; calling [includes] on it
    throws a [TypeError], rendered as [None]. *)
Definition calculateEmailScore (email domain : jsstring) : option nat :=
  let emailLower := toLowerCase email in
  let localPart := split_first "@" emailLower in
  match index (split_char "@" emailLower) 1 with
  | None => None
  | Some emailDomain =>
      (* Prefer emails from the same domain; /\.[^.]+$/ strips the TLD *)
      let stripped :=
        remove_first false [chr "."; plus (fun c => negb (is_char "." c))] true
          emailDomain in
      let score := 0 in
      let score :=
        if includes emailDomain domain || includes domain stripped
        then score + 50 else score in
      (* Prefer personal-looking emails *)
      let score :=
        if existsb (fun p => includes localPart (js p)) personalPatterns
        then score + 20 else score in
      (* Prefer shorter local parts (likely real names) *)
      let score := if length localPart <? 15 then score + 10 else score in
      (* Bonus for name-like patterns (first.last, firstlast) *)
      let score :=
        if test true [plus is_lower; chr "."; plus is_lower] true localPart
           || test true [rep is_lower 4 (Some 12)] true localPart
        then score + 15 else score in
      Some score
  end.

(** [items.sort((a, b) => b.score - a.score)].  [Array.prototype.sort] is
    stable and the comparator orders by score alone, so the result is the
    stable arrangement by descending score; it is computed here by
    insertion, an element going in front of the first one that does not
    beat it. *)
Fixpoint insert_desc (x : jsstring * nat) (l : list (jsstring * nat))
  : list (jsstring * nat) :=
  match l with
  | [] => [x]
  | y :: l' => if snd x <? snd y then y :: insert_desc x l' else x :: l
  end.

Definition sort_desc (l : list (jsstring * nat)) : list (jsstring * nat) :=
  fold_right insert_desc [] l.

(** [emails.map(email => ({email, score}))]; [None] when a score throws. *)
Fixpoint scored (domainBase : jsstring) (emails : list jsstring)
  : option (list (jsstring * nat)) :=
  match emails with
  | [] => Some []
  | email :: rest =>
      match calculateEmailScore email domainBase with
      | None => None
      | Some score =>
          match scored domainBase rest with
          | None => None
          | Some items => Some ((email, score) :: items)
          end
      end
  end.

(** Score and rank emails to find the best primary contact. *)
Definition rankEmails (emails : list jsstring) (domain : jsstring)
  : option (list jsstring) :=
  let domainBase := toLowerCase (remove_first true www_re false domain) in
  match scored domainBase emails with
  | None => None
  | Some items => Some (map fst (sort_desc items))
  end.

End EmailExtractor.

(* ================================================================== *)
(** ** [src/agent/icebreakerGenerator.ts]: trimming page text *)
(* ================================================================== *)

Module Icebreaker.

Definition maxLength : nat := 3000.

Definition LF : ascii := ascii_of_nat 10.

(** [/\n\n+/] *)
Definition paragraph_break : pattern := [chr LF; plus (is_char LF)].

(** The [for (const para of paragraphs)] loop on [trimmedContent]. *)
Fixpoint accumulate (trimmedContent : jsstring) (paragraphs : list jsstring)
  : jsstring :=
  match paragraphs with
  | [] => trimmedContent
  | para :: rest =>
      if maxLength <? length (trimmedContent ++ para) then trimmedContent
      else accumulate (trimmedContent ++ para ++ [LF; LF]) rest
  end.

(** Extract key company insights from crawled content. *)
Definition extractCompanyInsights (content : jsstring) : jsstring :=
  let trimmedContent :=
    if maxLength <? length content then
      (* Try to find natural break points *)
      let paragraphs := split_re paragraph_break content in
      let trimmedContent := accumulate [] paragraphs in
      if length trimmedContent =? 0 then substring0 maxLength content
      else trimmedContent
    else content in
  trim trimmedContent.

Definition genericPhrases : list string := [
  "i came across your";
  "i noticed your website";
  "i found your company";
  "i stumbled upon";
  "i was browsing"
]%string.

(** Validate that an icebreaker meets quality standards. *)
Definition validateIcebreaker (icebreaker : jsstring) : bool :=
  (* Check minimum length *)
  if length icebreaker <? 20 then false
  (* Check maximum length (should be concise) *)
  else if 300 <? length icebreaker then false
  else
    (* Check for generic phrases that should be avoided *)
    let lowerIcebreaker := toLowerCase icebreaker in
    if existsb (fun phrase => includes lowerIcebreaker (js phrase)) genericPhrases
    then false
    else true.

End Icebreaker.

(* ================================================================== *)
(** ** [src/agent/types.ts] *)
(* ================================================================== *)

Module Types.

Record DomainValidation := mkDomainValidation {
  dv_isValid : bool;
  dv_domain : jsstring;
  dv_tld : jsstring;
  dv_error : option jsstring
}.

Record Lead := mkLead {
  l_website : jsstring;
  l_company : option jsstring;
  l_name : option jsstring;
  l_extraFields : option (obj jsstring)
}.

Inductive EnrichmentStatus :=
  pending | processing | completed | failed | skipped.

(** [EnrichedLead extends Lead]; an optional field is [None] when it is
    [undefined]. *)
Record EnrichedLead := mkEnrichedLead {
  website : jsstring;
  company : option jsstring;
  name : option jsstring;
  extraFields : option (obj jsstring);
  email : option jsstring;
  icebreaker : option jsstring;
  enrichmentStatus : EnrichmentStatus;
  errorMessage : option jsstring;
  domainValidation : option DomainValidation
}.

(** A lead as the object it is at run time: the values of its properties
    and the names of its own properties in the order of their creation.  A
    property is own from the moment it is written, also when [undefined]
    is written; reading a property goes by its value, the rest of a
    destructuring and [Object.keys] go by the own properties. *)
Record LeadObject := mkLeadObject {
  o_fields : EnrichedLead;
  o_own : list jsstring
}.

Inductive Tone := professional | casual | friendly.

Record EnrichmentConfig := mkConfig {
  maxConcurrency : nat;
  retryAttempts : nat;
  includeIcebreaker : bool;
  icebreakerTone : Tone
}.

Definition DEFAULT_CONFIG : EnrichmentConfig := mkConfig 3 2 true professional.

Definition status_eqb (a b : EnrichmentStatus) : bool :=
  match a, b with
  | pending, pending | processing, processing | completed, completed
  | failed, failed | skipped, skipped => true
  | _, _ => false
  end.

(** The string behind a status value. *)
Definition status_name (s : EnrichmentStatus) : jsstring :=
  match s with
  | pending => js "pending"
  | processing => js "processing"
  | completed => js "completed"
  | failed => js "failed"
  | skipped => js "skipped"
  end.

(** [lead.domainValidation?.isValid], as a condition. *)
Definition hasValidDomain (l : EnrichedLead) : bool :=
  match domainValidation l with
  | Some v => dv_isValid v
  | None => false
  end.

(** [{ ...lead, enrichmentStatus: s }] and the assignments to one field. *)
Definition with_status (s : EnrichmentStatus) (l : EnrichedLead) : EnrichedLead :=
  mkEnrichedLead (website l) (company l) (name l) (extraFields l) (email l)
    (icebreaker l) s (errorMessage l) (domainValidation l).

Definition with_errorMessage (m : option jsstring) (l : EnrichedLead) : EnrichedLead :=
  mkEnrichedLead (website l) (company l) (name l) (extraFields l) (email l)
    (icebreaker l) (enrichmentStatus l) m (domainValidation l).

Definition with_email (e : option jsstring) (l : EnrichedLead) : EnrichedLead :=
  mkEnrichedLead (website l) (company l) (name l) (extraFields l) e
    (icebreaker l) (enrichmentStatus l) (errorMessage l) (domainValidation l).

Definition with_icebreaker (i : option jsstring) (l : EnrichedLead) : EnrichedLead :=
  mkEnrichedLead (website l) (company l) (name l) (extraFields l) (email l)
    i (enrichmentStatus l) (errorMessage l) (domainValidation l).

End Types.

Import Types.

(* ================================================================== *)
(** ** [src/agent/csvProcessor.ts] *)
(* ================================================================== *)

Module CsvProcessor.

Definition websiteAliases : list string := [
  "website"; "url"; "domain"; "site";
  "company_url"; "company_website"; "companyurl";
  "companywebsite"; "web"; "homepage"
]%string.

(** [c.toLowerCase().replace(/[_\s-]/g, '')] *)
Definition normalizeColumn (c : jsstring) : jsstring :=
  remove_all_chars (fun ch => is_char "_" ch || is_space ch || is_char "-" ch)
    (toLowerCase c).

(** The [for (const alias of websiteAliases)] loop. *)
Fixpoint firstAlias (columns normalizedColumns : list jsstring)
    (aliases : list string) : option jsstring :=
  match aliases with
  | [] => None
  | alias :: rest =>
      match indexOf normalizedColumns (js alias) with
      | Some i => index columns i
      | None => firstAlias columns normalizedColumns rest
      end
  end.

(** Find the website column from various possible names. *)
Definition findWebsiteColumn (columns : list jsstring) : option jsstring :=
  firstAlias columns (map normalizeColumn columns) websiteAliases.

(** [for (const [key, value] of Object.entries(rest)) if (value)
    extraFields[key] = value], on [extraFields = {}]. *)
Definition collectExtra (rest : obj jsstring) : obj jsstring :=
  fold_left
    (fun extraFields kv =>
       if truthy (Some (snd kv)) then assign extraFields (fst kv) (snd kv)
       else extraFields)
    (entries rest) [].

(** The body of [records.map] in [parseCSV]; [None] is the thrown
    "CSV must contain a website column" error.  [websiteKey] is one of the
    record's own keys, so [record[websiteKey]] is a string. *)
Definition leadOfRecord (record : obj jsstring) : option Lead :=
  match findWebsiteColumn (ownKeys record) with
  | None => None
  | Some websiteKey =>
      (* const { [websiteKey]: website, company, name, ...rest } = record *)
      let website := match get record websiteKey with Some w => w | None => [] end in
      let company := get record (js "company") in
      let name := get record (js "name") in
      let rest :=
        without (js "name") (without (js "company") (without websiteKey record)) in
      let extraFields := collectExtra rest in
      Some (mkLead website company name
              (if 0 <? length (keys extraFields) then Some extraFields else None))
  end.

(** [records.map(f)] where [f] may throw. *)
Fixpoint mapThrowing (A B : Type) (f : A -> option B) (l : list A) : option (list B) :=
  match l with
  | [] => Some []
  | x :: l' =>
      match f x with
      | None => None
      | Some y => option_map (cons y) (mapThrowing f l')
      end
  end.

(** The callback of [leads.map] in [initializeLeads]. *)
Definition initializeLead (lead : Lead) : EnrichedLead :=
  let validation := validateDomain (l_website lead) in
  let domainValidation :=
    mkDomainValidation (Crawl.isValid validation) (Crawl.domain validation)
      (Crawl.tld validation) (Crawl.error validation) in
  mkEnrichedLead (l_website lead) (l_company lead) (l_name lead)
    (l_extraFields lead) None None
    (if Crawl.isValid validation then pending else skipped)
    (if Crawl.isValid validation then None
     else Some (js "Invalid domain: "
                  ++ match Crawl.error validation with
                     | Some e => e
                     | None => js "undefined"
                     end))
    (Some domainValidation).

(** Initialize leads with pending status and validate domains. *)
Definition initializeLeads (leads : list Lead) : list EnrichedLead :=
  map initializeLead leads.

(** A cell handed to the CSV writer: a string, or [undefined]. *)
Definition cell := option jsstring.

(** The own properties of the object [parseCSV] returns for a record, in
    the order of its literal [{ website, company, name, extraFields }], and
    of the object [initializeLeads] makes of it,
    [{ ...lead, enrichmentStatus, domainValidation, errorMessage }]: each of
    them is written, whatever its value. *)
Definition parsedNames : list jsstring :=
  [js "website"; js "company"; js "name"; js "extraFields"].

Definition initializedNames : list jsstring :=
  parsedNames ++ [js "enrichmentStatus"; js "domainValidation"; js "errorMessage"].

(** [initializeLeads] on the leads of [parseCSV], as objects. *)
Definition initializedObject (lead : Lead) : LeadObject :=
  mkLeadObject (initializeLead lead) initializedNames.

Definition initializedObjects (leads : list Lead) : list LeadObject :=
  map initializedObject leads.

(** [lead[key]] for the properties that hold a string or [undefined]. *)
Definition property (lead : EnrichedLead) (key : jsstring) : cell :=
  if jseqb key (js "website") then Some (website lead)
  else if jseqb key (js "company") then company lead
  else if jseqb key (js "name") then name lead
  else if jseqb key (js "email") then email lead
  else if jseqb key (js "icebreaker") then icebreaker lead
  else if jseqb key (js "enrichmentStatus")
       then Some (status_name (enrichmentStatus lead))
  else if jseqb key (js "errorMessage") then errorMessage lead
  else None.

(** [const { extraFields, domainValidation, ...rest } = lead]: the other
    own properties of the lead with their values, [undefined] included. *)
Definition restOfLead (lead : LeadObject) : obj cell :=
  map (fun key => (key, property (o_fields lead) key))
    (filter (fun key => negb (jseqb key (js "extraFields"))
                        && negb (jseqb key (js "domainValidation")))
       (o_own lead)).

(** [{ ...rest, ...(extraFields || {}) }] *)
Definition flattenLead (lead : LeadObject) : obj cell :=
  spread (restOfLead lead)
    (match extraFields (o_fields lead) with
     | Some e => map (fun kv => (fst kv, Some (snd kv))) e
     | None => []
     end).

Definition enrichedColumns : list jsstring :=
  [js "email"; js "icebreaker"; js "enrichmentStatus"; js "errorMessage"].

Definition flattenedLeads (leads : list LeadObject) : list (obj cell) :=
  map flattenLead leads.

(** Get all unique columns: [Object.keys] of every row, into one [Set]. *)
Definition allColumns (leads : list LeadObject) : list jsstring :=
  unique (concat (map (@ownKeys cell) (flattenedLeads leads))).

(** Order columns: original columns first, then enriched columns. *)
Definition orderedColumns (leads : list LeadObject) : list jsstring :=
  let all := allColumns leads in
  let originalColumns := filter (fun col => negb (mem col enrichedColumns)) all in
  originalColumns ++ filter (fun col => mem col all) enrichedColumns.

Section Library.

(** [parse] of [csv-parse/sync] with the options of [parseCSV]
    ([columns: true], ...): the records of the data rows, keyed by the
    header; [None] when it throws. *)
Variable parse : jsstring -> option (list (obj jsstring)).

(** [stringify] of [csv-stringify/sync] with [header: true] and the given
    [columns]. *)
Variable stringify : list (obj cell) -> list jsstring -> jsstring.

(** Parse a CSV string into Lead objects. *)
Definition parseCSV (csvContent : jsstring) : option (list Lead) :=
  match parse csvContent with
  | None => None
  | Some records => mapThrowing leadOfRecord records
  end.

(** Convert enriched leads back to CSV format. *)
Definition toCSV (leads : list LeadObject) : jsstring :=
  match leads with
  | [] => []
  | _ => stringify (flattenedLeads leads) (orderedColumns leads)
  end.

End Library.

Record EnrichmentStats := mkStats {
  total : nat;
  n_pending : nat;
  n_processing : nat;
  n_completed : nat;
  n_failed : nat;
  n_skipped : nat;
  withEmail : nat;
  withIcebreaker : nat;
  validDomains : nat;
  invalidDomains : nat
}.

Definition count (A : Type) (p : A -> bool) (l : list A) : nat := length (filter p l).

(** Get statistics about enrichment progress. *)
Definition getEnrichmentStats (leads : list EnrichedLead) : EnrichmentStats :=
  mkStats
    (length leads)
    (count (fun l => status_eqb (enrichmentStatus l) pending) leads)
    (count (fun l => status_eqb (enrichmentStatus l) processing) leads)
    (count (fun l => status_eqb (enrichmentStatus l) completed) leads)
    (count (fun l => status_eqb (enrichmentStatus l) failed) leads)
    (count (fun l => status_eqb (enrichmentStatus l) skipped) leads)
    (count (fun l => truthy (email l)) leads)
    (count (fun l => truthy (icebreaker l)) leads)
    (count (fun l => hasValidDomain l) leads)
    (count (fun l => negb (hasValidDomain l)) leads).

Record ValidationStats := mkValidationStats {
  vs_total : nat;
  vs_valid : nat;
  vs_invalid : nat;
  vs_invalidDomains : list (jsstring * jsstring)   (* { website, error } *)
}.

(** The callback of [leads.forEach] in [getValidationStats], on the
    counters [valid], [invalid] and the array [invalidDomains]. *)
Definition tally (acc : nat * nat * list (jsstring * jsstring)) (lead : EnrichedLead)
  : nat * nat * list (jsstring * jsstring) :=
  let '(valid, invalid, invalidDomains) := acc in
  if hasValidDomain lead then (valid + 1, invalid, invalidDomains)
  else
    (valid, invalid + 1,
     invalidDomains
     ++ [(website lead,
          (* lead.domainValidation?.error || 'Unknown validation error' *)
          match domainValidation lead with
          | Some v => if truthy (dv_error v)
                      then match dv_error v with Some e => e | None => [] end
                      else js "Unknown validation error"
          | None => js "Unknown validation error"
          end)]).

(** Get validation statistics for leads. *)
Definition getValidationStats (leads : list EnrichedLead) : ValidationStats :=
  let '(valid, invalid, invalidDomains) := fold_left tally leads (0, 0, []) in
  mkValidationStats (length leads) valid invalid invalidDomains.

Record CsvValidation := mkCsvValidation {
  v_valid : bool;
  v_error : option jsstring;
  v_rowCount : option nat
}.

Definition missingColumnMessage : jsstring :=
  js "CSV must contain a website column. Accepted names: website, url, domain, site, company_url, company_website".

Section Validation.

Variable parse : jsstring -> option (list (obj jsstring)).

(** When [parse] throws on an input: the [message] of the thrown value if
    it is an [Error], [None] for any other thrown value. *)
Variable parseError : jsstring -> option jsstring.

(** [error instanceof Error ? error.message : ...] for what [parseCSV]
    throws: the library's error, or the missing-column [Error] raised for
    a record. *)
Definition thrownMessage (csvContent : jsstring) : option jsstring :=
  match parse csvContent with
  | None => parseError csvContent
  | Some _ => Some missingColumnMessage
  end.

(** Validate CSV structure. *)
Definition validateCSV (csvContent : jsstring) : CsvValidation :=
  match parseCSV parse csvContent with
  | Some leads =>
      if length leads =? 0 then
        mkCsvValidation false (Some (js "CSV file is empty or has no data rows")) None
      else
        (* Check for website values *)
        let leadsWithWebsite :=
          filter (fun lead => truthy (Some (l_website lead))
                              && negb (jseqb (trim (l_website lead)) []))
                 leads in
        if length leadsWithWebsite =? 0 then
          mkCsvValidation false (Some (js "No valid website URLs found in the CSV")) None
        else mkCsvValidation true None (Some (length leadsWithWebsite))
  | None =>
      mkCsvValidation false
        (Some (match thrownMessage csvContent with
               | Some message => message
               | None => js "Failed to parse CSV"
               end))
        None
  end.

End Validation.

End CsvProcessor.

(* ================================================================== *)
(** ** [src/api/enrichment.ts]: the enrichment pipeline *)
(* ================================================================== *)

Module Enrichment.

Record ScrapeResult := mkScrapeResult {
  s_success : bool;
  s_url : jsstring;
  s_markdown : option jsstring;
  s_title : option jsstring;
  s_description : option jsstring;
  s_error : option jsstring
}.

Inductive Confidence := high | medium | low.

Record EmailExtractionResult := mkEmailResult {
  e_success : bool;
  e_emails : list jsstring;
  e_primaryEmail : option jsstring;
  e_confidence : Confidence;
  e_inputTokens : nat;
  e_outputTokens : nat;
  e_error : option jsstring
}.

Record IcebreakerResult := mkIcebreakerResult {
  i_success : bool;
  i_icebreaker : jsstring;
  i_inputTokens : nat;
  i_outputTokens : nat;
  i_error : option jsstring
}.

Record EnrichmentResult := mkResult {
  lead : EnrichedLead;
  scrapeResult : option ScrapeResult;
  emailResult : option EmailExtractionResult;
  icebreakerResult : option IcebreakerResult
}.

Record EnrichOptions := mkOptions {
  opt_generateIcebreaker : bool;
  opt_icebreakerTone : option Tone
}.

(** A thrown value: an [Error] with its message, or anything else. *)
Inductive exn :=
| JsError (message : jsstring)
| JsOther.

(** How an awaited call settles. *)
Inductive outcome (A : Type) :=
| Returned (a : A)
| Threw (e : exn).
Arguments Returned {A} a.
Arguments Threw {A} e.

Inductive Stage := scraping | extracting | icebreaker_stage.

(** What a run does to the outside: requests sent to the backend, calls of
    the progress callback, and updates of the shared [usage] accumulator
    (the [usage] a progress call sees is the sum of the updates before it).
    The progress callback is the caller's; it is taken to return normally.
    Output to the console is left out. *)
Inductive event :=
| ScrapeRequest (url : jsstring)
| ExtractRequest (content domain : jsstring)
| IcebreakerRequest (content : jsstring) (companyName : option jsstring)
    (domain : jsstring) (tone : Tone)
| Progress (stage : Stage) (currentIndex totalCount : nat)
    (currentLead : jsstring) (result : EnrichmentResult)
| AddTokens (inputTokens outputTokens : nat)
| AddScrapedPage.

(** The backend as one lead's processing meets it: whether the module is
    initialised ([isEnrichmentReady()]), and how each POST settles ([fetch]
    followed by [response.json()]).  The processing of one lead never asks
    twice for the same page, so an answer per URL describes any backend. *)
Record Backend := mkBackend {
  ready : bool;
  scrape : jsstring -> outcome ScrapeResult;
  extract : jsstring -> jsstring -> outcome EmailExtractionResult;
  icebreak : jsstring -> option jsstring -> jsstring -> Tone -> outcome IcebreakerResult
}.

(** Computations that emit events and may throw. *)
Definition M (A : Type) : Type := list event * outcome A.

Definition ret (A : Type) (a : A) : M A := ([], Returned a).
Definition throw (A : Type) (e : exn) : M A := ([], Threw e).
Arguments throw {A} e.
Definition emit (e : event) : M unit := ([e], Returned tt).
Definition await (A : Type) (o : outcome A) : M A := ([], o).

Definition bind (A B : Type) (m : M A) (f : A -> M B) : M B :=
  match m with
  | (t, Returned a) => let (t', o) := f a in (t ++ t', o)
  | (t, Threw e) => (t, Threw e)
  end.

(** [try { m } catch (e) { h e }] *)
Definition try_catch (A : Type) (m : M A) (h : exn -> M A) : M A :=
  match m with
  | (t, Returned a) => (t, Returned a)
  | (t, Threw e) => let (t', o) := h e in (t ++ t', o)
  end.

Notation "x <- m ;; k" := (bind m (fun x => k))
  (at level 61, m at next level, right associativity).
Notation "m ;;; k" := (bind m (fun _ => k))
  (at level 61, right associativity).

(** Quick check if content contains email-like patterns (the pattern is
    the one of [extractEmailsFromContent], without the [g] flag). *)
Definition containsEmail (content : jsstring) : bool :=
  test false EmailExtractor.emailPattern false content.

(** [r.success && r.markdown && containsEmail(r.markdown)] *)
Definition foundEmail (r : ScrapeResult) : bool :=
  s_success r && truthy (s_markdown r)
  && match s_markdown r with Some md => containsEmail md | None => false end.

Definition contactPaths : list jsstring :=
  [js "/contact"; js "/contact-us"; js "/about"].

Section Pipeline.

(** The [hostname] of [new URL(s)], see [Crawl.extractDomain]. *)
Variable url_hostname : jsstring -> option jsstring.

Section OneLead.

Variable backend : Backend.

(** Scrape a URL via the backend. *)
Definition scrapeUrl (url : jsstring) : M ScrapeResult :=
  if negb (ready backend) then throw (JsError (js "API not initialized"))
  else emit (ScrapeRequest url) ;;; await (scrape backend url).

(** Extract emails via the backend. *)
Definition extractEmails (content domain : jsstring) : M EmailExtractionResult :=
  if negb (ready backend) then throw (JsError (js "API not initialized"))
  else emit (ExtractRequest content domain) ;;; await (extract backend content domain).

(** Generate icebreaker via the backend. *)
Definition generateIcebreaker (content : jsstring) (companyName : option jsstring)
    (domain : jsstring) (tone : Tone) : M IcebreakerResult :=
  if negb (ready backend) then throw (JsError (js "API not initialized"))
  else emit (IcebreakerRequest content companyName domain tone) ;;;
       await (icebreak backend content companyName domain tone).

(** The [for (const path of contactPaths)] loop of [scrapeForContact]:
    a hit returns at once, a throw is swallowed and the loop goes on. *)
Fixpoint tryContactPaths (normalizedUrl : jsstring) (paths : list jsstring)
    (mainResult : ScrapeResult) : M ScrapeResult :=
  match paths with
  | [] => ret mainResult   (* Return the main page result *)
  | path :: rest =>
      hit <- try_catch
               (result <- scrapeUrl (normalizedUrl ++ path) ;;
                ret (if foundEmail result then Some result else None))
               (fun _ => ret None) ;;
      match hit with
      | Some result => ret result
      | None => tryContactPaths normalizedUrl rest mainResult
      end
  end.

(** Scrape a URL looking for contact information. *)
Definition scrapeForContact (baseUrl : jsstring) : M ScrapeResult :=
  (* First try the main page *)
  mainResult <- scrapeUrl baseUrl ;;
  (* If we found emails in the main page, return it *)
  if foundEmail mainResult then ret mainResult
  else
    (* Try common contact page paths; /\/$/ drops one trailing slash *)
    let normalizedUrl := remove_first false [chr "/"] true baseUrl in
    tryContactPaths normalizedUrl contactPaths mainResult.

Definition set_lead (f : EnrichedLead -> EnrichedLead) (r : EnrichmentResult)
  : EnrichmentResult :=
  mkResult (f (lead r)) (scrapeResult r) (emailResult r) (icebreakerResult r).

(** The [catch (error)] block of [enrichLead], entered with the
    [result] built so far. *)
Definition catchBlock (result : EnrichmentResult) (error : exn) : M EnrichmentResult :=
  ret (set_lead
         (fun l =>
            with_errorMessage
              (Some (match error with
                     | JsError message => message
                     | JsOther => js "Unknown error"
                     end))
              (with_status failed l))
         result).

(** Enrich a single lead. *)
Definition enrichLead (theLead : EnrichedLead) (options : EnrichOptions)
  : M EnrichmentResult :=
  let domain := extractDomain url_hostname (website theLead) in
  let result := mkResult theLead None None None in
  (* Skip invalid domains *)
  if negb (hasValidDomain theLead) then
    ret (set_lead (with_status skipped) result)
  else
    (* Step 1: Scrape the website *)
    let result := set_lead (with_status processing) result in
    try_catch
      (theScrape <- scrapeForContact (website theLead) ;;
       let result :=
         mkResult (lead result) (Some theScrape) (emailResult result)
           (icebreakerResult result) in
       if negb (s_success theScrape) || negb (truthy (s_markdown theScrape)) then
         ret (set_lead
                (fun l =>
                   with_errorMessage
                     (Some (if truthy (s_error theScrape)
                            then match s_error theScrape with
                                 | Some e => e
                                 | None => []
                                 end
                            else js "Failed to scrape website"))
                     (with_status failed l))
                result)
       else
         let markdown :=
           match s_markdown theScrape with Some md => md | None => [] end in
         (* Step 2: Extract emails using AI *)
         try_catch
           (theEmails <- extractEmails markdown domain ;;
            let result :=
              mkResult (lead result) (scrapeResult result) (Some theEmails)
                (icebreakerResult result) in
            let result :=
              if e_success theEmails && truthy (e_primaryEmail theEmails)
              then set_lead (with_email (e_primaryEmail theEmails)) result
              else result in
            (* Step 3: Generate icebreaker if requested *)
            if opt_generateIcebreaker options && truthy (s_markdown theScrape) then
              try_catch
                (theIcebreaker <-
                   generateIcebreaker markdown (company theLead) domain
                     (match opt_icebreakerTone options with
                      | Some t => t
                      | None => professional
                      end) ;;
                 let result :=
                   mkResult (lead result) (scrapeResult result)
                     (emailResult result) (Some theIcebreaker) in
                 let result :=
                   if i_success theIcebreaker
                      && truthy (Some (i_icebreaker theIcebreaker))
                   then set_lead
                          (with_icebreaker (Some (i_icebreaker theIcebreaker)))
                          result
                   else result in
                 ret (set_lead (with_status completed) result))
                (catchBlock result)
            else ret (set_lead (with_status completed) result))
           (catchBlock result))
      (catchBlock result).

(** The [async (lead, batchIndex) => ...] callback of
    [findEmailsForLeads] for the batch that starts at [i]. *)
Definition leadTask (totalCount i batchIndex : nat) (theLead : EnrichedLead)
  : M EnrichmentResult :=
  let globalIndex := i + batchIndex in
  emit (Progress scraping globalIndex totalCount (website theLead)
          (mkResult theLead None None None)) ;;;
  result <- enrichLead theLead (mkOptions false None) ;;
  (* Track usage *)
  match emailResult result with
  | Some r => emit (AddTokens (e_inputTokens r) (e_outputTokens r))
  | None => ret tt
  end ;;;
  match scrapeResult result with
  | Some r => if s_success r then emit AddScrapedPage else ret tt
  | None => ret tt
  end ;;;
  emit (Progress extracting (globalIndex + 1) totalCount (website theLead) result) ;;;
  ret result.

End OneLead.

(** *** Batches

      [world g] is the backend as met by the lead of global index [g].

      Within [Promise.all(batch.map(...))] the callbacks of a batch run
      interleaved.  A [schedule] lists, step by step, which callback of
      the batch emits its next event; [runSchedule] replays it, and fails
      on a schedule that names a finished callback or stops early.  The
      event loop only switches callbacks at an [await]; the schedules
      allow a switch after every event, so they include every order the
      event loop can produce. *)
Variable world : nat -> Backend.

Definition schedule := list nat.

Definition isEmpty (A : Type) (l : list A) : bool :=
  match l with [] => true | _ => false end.

(** Replaces the element of index [j]. *)
Fixpoint update (A : Type) (j : nat) (x : A) (l : list A) : list A :=
  match l, j with
  | [], _ => []
  | _ :: l', O => x :: l'
  | y :: l', S j' => y :: update j' x l'
  end.

Fixpoint runSchedule (A : Type) (sched : schedule) (pending : list (list A))
  : option (list A) :=
  match sched with
  | [] => if forallb (@isEmpty A) pending then Some [] else None
  | j :: sched' =>
      match nth_error pending j with
      | Some (x :: l) => option_map (cons x) (runSchedule sched' (update j l pending))
      | _ => None
      end
  end.

(** [Promise.all]: the array of the values, or a rejection if one of the
    promises rejects. *)
Fixpoint promiseAll (A : Type) (outs : list (outcome A)) : outcome (list A) :=
  match outs with
  | [] => Returned []
  | Returned a :: rest =>
      match promiseAll rest with
      | Returned l => Returned (a :: l)
      | Threw e => Threw e
      end
  | Threw e :: _ => Threw e
  end.

(** [validLeads.slice(i, i + maxConcurrency)] *)
Definition slice (A : Type) (i j : nat) (l : list A) : list A :=
  firstn (j - i) (skipn i l).

(** [batch.map(f)] with [f] receiving the element and its index. *)
Fixpoint mapi_from (A B : Type) (f : A -> nat -> B) (n : nat) (l : list A) : list B :=
  match l with
  | [] => []
  | x :: l' => f x n :: mapi_from f (S n) l'
  end.

Definition mapi (A B : Type) (f : A -> nat -> B) (l : list A) : list B :=
  mapi_from f 0 l.

(** The callbacks of the batch that starts at [i], and their events
    labelled with the global index of their lead. *)
Definition batchTasks (validLeads : list EnrichedLead) (maxConcurrency i : nat)
  : list (M EnrichmentResult) :=
  mapi (fun theLead batchIndex =>
          leadTask (world (i + batchIndex)) (length validLeads) i batchIndex theLead)
       (slice i (i + maxConcurrency) validLeads).

Definition labelled (i : nat) (tasks : list (M EnrichmentResult))
  : list (list (nat * event)) :=
  mapi (fun task batchIndex => map (pair (i + batchIndex)) (fst task)) tasks.

(** The loop [for (let i = 0; i < validLeads.length; i += maxConcurrency)],
    entered at [i] with [results]; it consumes one schedule per batch
    and yields the trace of every batch and the outcome of the loop.
    [None]: the schedules do not describe a run of the loop. *)
Fixpoint batchLoop (validLeads : list EnrichedLead) (maxConcurrency : nat)
    (scheds : list schedule) (i : nat) (results : list EnrichmentResult)
  : option (list (list (nat * event)) * outcome (list EnrichmentResult)) :=
  if length validLeads <=? i then
    match scheds with
    | [] => Some ([], Returned results)
    | _ :: _ => None
    end
  else
    match scheds with
    | [] => None
    | sched :: scheds' =>
        let tasks := batchTasks validLeads maxConcurrency i in
        match runSchedule sched (labelled i tasks) with
        | None => None
        | Some tr =>
            match promiseAll (map snd tasks) with
            | Threw e => match scheds' with
                         | [] => Some ([tr], Threw e)
                         | _ :: _ => None
                         end
            | Returned batchResults =>
                match batchLoop validLeads maxConcurrency scheds' (i + maxConcurrency)
                        (results ++ batchResults) with
                | Some (trs, out) => Some (tr :: trs, out)
                | None => None
                end
            end
        end
    end.

(** Process multiple leads for email discovery only. *)
Definition findEmailsForLeads (leads : list EnrichedLead) (config : EnrichmentConfig)
    (scheds : list schedule)
  : option (list (list (nat * event)) * outcome (list EnrichmentResult)) :=
  let validLeads := filter hasValidDomain leads in
  match batchLoop validLeads (maxConcurrency config) scheds 0 [] with
  | Some (trs, Returned results) =>
      (* Add results for skipped (invalid) leads *)
      let skippedLeads := filter (fun l => negb (hasValidDomain l)) leads in
      Some (trs,
            Returned
              (results
               ++ map (fun l => mkResult (with_status skipped l) None None None)
                    skippedLeads))
  | Some (trs, Threw e) => Some (trs, Threw e)
  | None => None
  end.

End Pipeline.

(** *** Phase 2

      The leads are taken one after the other; [world i] is the backend
      as met while the lead of index [i] is processed.  [scrapedContent]
      is the [Map] from websites to the pages kept from phase 1. *)
Section Phase2.

Variable url_hostname : jsstring -> option jsstring.
Variable world : nat -> Backend.

(** The result entered when there is no page to write from. *)
Definition noContent : IcebreakerResult :=
  mkIcebreakerResult false [] 0 0 (Some (js "No content available")).

(** One turn of the [for] loop of [generateIcebreakersForLeads]. *)
Definition icebreakerStep (scrapedContent : obj jsstring) (config : EnrichmentConfig)
    (totalCount i : nat) (theLead : EnrichedLead) : M EnrichmentResult :=
  let domain := extractDomain url_hostname (website theLead) in
  (* scrapedContent.get(lead.website) || '' *)
  let content :=
    match get scrapedContent (website theLead) with
    | Some c => c
    | None => []
    end in
  emit (Progress icebreaker_stage i totalCount (website theLead)
          (mkResult theLead None None None)) ;;;
  (* If we don't have cached content, scrape again *)
  content <-
    (if negb (truthy (Some content)) then
       theScrape <- scrapeForContact (world i) (website theLead) ;;
       if s_success theScrape && truthy (s_markdown theScrape) then
         emit AddScrapedPage ;;;
         ret (match s_markdown theScrape with Some md => md | None => [] end)
       else ret content
     else ret content) ;;
  theIcebreaker <-
    (if truthy (Some content) then
       generateIcebreaker (world i) content (company theLead) domain
         (icebreakerTone config)
     else ret noContent) ;;
  emit (AddTokens (i_inputTokens theIcebreaker) (i_outputTokens theIcebreaker)) ;;;
  let result :=
    mkResult
      (with_icebreaker
         (* icebreakerResult.icebreaker || undefined *)
         (if truthy (Some (i_icebreaker theIcebreaker))
          then Some (i_icebreaker theIcebreaker) else None)
         theLead)
      None None (Some theIcebreaker) in
  emit (Progress icebreaker_stage (i + 1) totalCount (website theLead) result) ;;;
  ret result.

(** The loop [for (let i = 0; i < leads.length; i++)], entered at [i] with
    the leads still to do and the [results] so far. *)
Fixpoint icebreakerLoop (scrapedContent : obj jsstring) (config : EnrichmentConfig)
    (totalCount i : nat) (todo : list EnrichedLead) (results : list EnrichmentResult)
  : M (list EnrichmentResult) :=
  match todo with
  | [] => ret results
  | theLead :: rest =>
      result <- icebreakerStep scrapedContent config totalCount i theLead ;;
      icebreakerLoop scrapedContent config totalCount (i + 1) rest (results ++ [result])
  end.

(** Generate icebreakers for selected leads. *)
Definition generateIcebreakersForLeads (leads : list EnrichedLead)
    (scrapedContent : obj jsstring) (config : EnrichmentConfig)
  : M (list EnrichmentResult) :=
  icebreakerLoop scrapedContent config (length leads) 0 leads [].

End Phase2.

End Enrichment.

Import EmailExtractor Icebreaker CsvProcessor Enrichment.

(* ================================================================== *)
(** ** [src/agent/emailExtractor.ts], continued: the best address of a page *)
(* ================================================================== *)

Module Analyze.

Inductive Source := page_content | contact_page | inferred.

(** [EmailExtractionResult] of [src/agent/types.ts]. *)
Record Extraction := mkExtraction {
  x_emails : list jsstring;
  x_primaryEmail : option jsstring;
  x_source : Source;
  x_confidence : Confidence
}.

Section Analysis.

(** The [hostname] of [new URL(s)], see [Crawl.extractDomain]. *)
Variable url_hostname : jsstring -> option jsstring.

(** Analyze content and extract the best email.  [None]: a [TypeError],
    from the ranking or from [primaryEmail.split('@')[1]] being
    [undefined]. *)
Definition analyzeAndExtractEmail (content websiteUrl : jsstring) : option Extraction :=
  let emails := extractEmailsFromContent content in
  let domain := extractDomain url_hostname websiteUrl in
  match rankEmails emails domain with
  | None => None
  | Some rankedEmails =>
      match rankedEmails with
      | [] => Some (mkExtraction [] None page_content low)
      | primaryEmail :: _ =>
          match index (split_char "@" primaryEmail) 1 with
          | None => None
          | Some primaryDomain =>
              (* Determine confidence based on domain match *)
              let confidence :=
                if includes primaryDomain domain
                   || includes domain
                        (remove_first false
                           [chr "."; plus (fun c => negb (is_char "." c))] true
                           primaryDomain)
                then high else medium in
              Some (mkExtraction rankedEmails (Some primaryEmail) page_content confidence)
          end
      end
  end.

End Analysis.

End Analyze.

Import Analyze.

(* ================================================================== *)
(** ** [src/App.tsx]: the pages kept between the two phases *)
(* ================================================================== *)

Module App.

(** What the progress callback of [handleFindEmails] does to
    [scrapedContentRef.current]:
    [if (result.scrapeResult?.markdown)
       scrapedContentRef.current.set(result.lead.website, result.scrapeResult.markdown)].
    Its other effects are updates of the component's state. *)
Definition storeScraped (scrapedContent : obj jsstring) (result : EnrichmentResult)
  : obj jsstring :=
  match scrapeResult result with
  | Some theScrape =>
      match s_markdown theScrape with
      | Some markdown =>
          if truthy (Some markdown)
          then set scrapedContent (website (lead result)) markdown
          else scrapedContent
      | None => scrapedContent
      end
  | None => scrapedContent
  end.

(** The map after the progress calls of a trace of phase 1, which
    [handleFindEmails] enters with the map cleared; it is the map that
    [handleGenerateIcebreakers] hands to phase 2. *)
Definition scrapedContentAfter (trace : list event) : obj jsstring :=
  fold_left
    (fun scrapedContent e =>
       match e with
       | Progress _ _ _ _ result => storeScraped scrapedContent result
       | _ => scrapedContent
       end)
    trace [].

End App.

Import App.

(* ================================================================== *)
(** ** [src/agent/icebreakerGenerator.ts], continued: the model's answer *)
(* ================================================================== *)

Module IcebreakerResponse.

(** [IcebreakerResult] of [src/agent/types.ts]. *)
Record ParsedIcebreaker := mkParsed {
  p_icebreaker : jsstring;
  p_context : jsstring;
  p_tone : Tone
}.

(** The class of the first expression: a double or a single quote. *)
Definition is_quote (c : ascii) : bool := (code c =? 34) || is_char "'" c.

(** [s.replace(re, '')] for the expression that matches a quote at the
    start of the string or a quote at its end: with the [g] flag every
    match goes, that is a quote at the start, and a quote at the end
    unless it is that same character. *)
Definition stripQuotes (s : jsstring) : jsstring :=
  let rest := match s with
              | c :: s' => if is_quote c then s' else s
              | [] => []
              end in
  match rev rest with
  | c :: r => if is_quote c then rev r else rest
  | [] => rest
  end.

(** A lower-case letter of a pattern under the [i] flag: the letter or
    its capital. *)
Definition ci (c : ascii) (x : ascii) : bool :=
  is_char c x || is_char (ascii_of_nat (code c - 32)) x.

Definition lit_ci (s : string) : pattern :=
  map (fun c => Atom (ci c) 1 (Some 1)) (list_ascii_of_string s).

(** A class taken any number of times. *)
Definition star (p : ascii -> bool) : atom := Atom p 0 None.

(** The second expression, anchored at the start and under the [i] flag:
    either [icebreaker], or [here], an optional apostrophe, an optional
    [s], white space, optionally [a] or [an] with white space, and
    [icebreaker]; after either, an optional colon and white space.  There
    is one pattern per way through the alternative and the optional
    group, in the order in which the expression tries them. *)
Definition label_end : pattern := [opt ":"; star is_space].

Definition label_plain : pattern := lit_ci "icebreaker" ++ label_end.

Definition label_here (article : bool) : pattern :=
  lit_ci "here" ++ [opt "'"; Atom (ci "s") 0 (Some 1); star is_space]
  ++ (if article
      then [Atom (ci "a") 1 (Some 1); Atom (ci "n") 0 (Some 1); star is_space]
      else [])
  ++ lit_ci "icebreaker" ++ label_end.

Definition stripLabel (s : jsstring) : jsstring :=
  match match_here label_plain false s with
  | Some n => skipn n s
  | None =>
      match match_here (label_here true) false s with
      | Some n => skipn n s
      | None =>
          match match_here (label_here false) false s with
          | Some n => skipn n s
          | None => s
          end
      end
  end.

(** Parse the icebreaker response from Claude. *)
Definition parseIcebreakerResponse (response context : jsstring) (tone : Tone)
  : ParsedIcebreaker :=
  (* Clean up the response *)
  let icebreaker := trim response in
  (* Remove any quotes that might wrap the response *)
  let icebreaker := stripQuotes icebreaker in
  (* Remove any prefix like Icebreaker: or Here's an icebreaker: *)
  let icebreaker := stripLabel icebreaker in
  mkParsed icebreaker context tone.

End IcebreakerResponse.

Import IcebreakerResponse.

(* ================================================================== *)
(** ** [src/components/FileUpload.tsx]: reading an uploaded file *)
(* ================================================================== *)

Module FileUpload.

Definition dquote : ascii := ascii_of_nat 34.
Definition comma : ascii := ascii_of_nat 44.
Definition CR : ascii := ascii_of_nat 13.

(** [currentRow.some(f => f !== '')] *)
Definition someNonEmpty (row : list jsstring) : bool :=
  existsb (fun f => negb (jseqb f [])) row.

(** [currentRow.push(currentField.trim());
     if (currentRow.some(f => f !== '')) rows.push(currentRow)]: the rows
    afterwards. *)
Definition closeRow (rows : list (list jsstring)) (currentRow : list jsstring)
    (currentField : jsstring) : list (list jsstring) :=
  let currentRow := currentRow ++ [trim currentField] in
  if someNonEmpty currentRow then rows ++ [currentRow] else rows.

(** The [for] loop of [parseCSVContent] from position [i] on, [content]
    being the text from [content[i]]; the result is the state after the
    loop.  Where the loop body increments [i] itself the next character is
    stepped over. *)
Fixpoint scan (content : jsstring) (rows : list (list jsstring))
    (currentRow : list jsstring) (currentField : jsstring) (inQuotes : bool)
    {struct content} : list (list jsstring) * list jsstring * jsstring :=
  match content with
  | [] => (rows, currentRow, currentField)
  | char :: rest =>
      if inQuotes then
        if Ascii.eqb char dquote then
          match rest with
          | nextChar :: rest' =>
              if Ascii.eqb nextChar dquote
              then (* escaped quote *)
                scan rest' rows currentRow (currentField ++ [dquote]) true
              else (* end of quoted field *)
                scan rest rows currentRow currentField false
          | [] => scan rest rows currentRow currentField false
          end
        else scan rest rows currentRow (currentField ++ [char]) true
      else
        if Ascii.eqb char dquote then
          (* start of quoted field *)
          scan rest rows currentRow currentField true
        else if Ascii.eqb char comma then
          (* field separator *)
          scan rest rows (currentRow ++ [trim currentField]) [] false
        else if Ascii.eqb char LF then
          (* row separator *)
          scan rest (closeRow rows currentRow currentField) [] [] false
        else if Ascii.eqb char CR then
          match rest with
          | nextChar :: rest' =>
              if Ascii.eqb nextChar LF
              then (* row separator, skip the LF *)
                scan rest' (closeRow rows currentRow currentField) [] [] false
              else scan rest rows currentRow currentField false
          | [] => scan rest rows currentRow currentField false
          end
        else scan rest rows currentRow (currentField ++ [char]) false
  end.

(** [if (currentField || currentRow.length > 0) { ... }] after the loop. *)
Definition lastRow (state : list (list jsstring) * list jsstring * jsstring)
    : list (list jsstring) :=
  let '(rows, currentRow, currentField) := state in
  if truthy (Some currentField) || (0 <? length currentRow)
  then closeRow rows currentRow currentField
  else rows.

(** The end of [parseCSVContent]: [None] is the thrown
    "CSV must have headers and at least one data row". *)
Definition headersAndRows (rows : list (list jsstring))
    : option (list jsstring * list (list jsstring)) :=
  if length rows <? 2 then None
  else match rows with
       | headers :: rest => Some (headers, rest)
       | [] => None
       end.

(** Proper CSV parsing that handles quoted fields with commas. *)
Definition parseCSVContent (content : jsstring)
    : option (list jsstring * list (list jsstring)) :=
  headersAndRows (lastRow (scan content [] [] [] false)).

(** A selected column: [None] is [-1]. *)
Definition column := option nat.

(** [idx !== col] *)
Definition differs (idx : nat) (col : column) : bool :=
  match col with
  | Some i => negb (idx =? i)
  | None => true
  end.

(** [col !== -1 ? row[col] : undefined] *)
Definition cellAt (row : list jsstring) (col : column) : option jsstring :=
  match col with
  | Some i => index row i
  | None => None
  end.

(** [headers.forEach((header, idx) => { if (keep(idx) && row[idx])
    extraFields[header] = row[idx] })], from index [idx] on; [extraFields]
    starts as [{}]. *)
Fixpoint forEachHeader (keep : nat -> bool) (row : list jsstring) (idx : nat)
    (headers : list jsstring) (extraFields : obj jsstring) : obj jsstring :=
  match headers with
  | [] => extraFields
  | header :: rest =>
      forEachHeader keep row (S idx) rest
        (match index row idx with
         | Some v =>
             if keep idx && truthy (Some v) then assign extraFields header v
             else extraFields
         | None => extraFields
         end)
  end.

(** [Object.keys(extraFields).length > 0 ? extraFields : undefined] *)
Definition orUndefined (extraFields : obj jsstring) : option (obj jsstring) :=
  if 0 <? length (keys extraFields) then Some extraFields else None.

(** [`Invalid domain: ${validation.error}`] *)
Definition invalidDomain (validation : DomainValidationResult) : jsstring :=
  js "Invalid domain: "
    ++ match Crawl.error validation with
       | Some e => e
       | None => js "undefined"
       end.

Definition domainValidationOf (validation : DomainValidationResult) : DomainValidation :=
  mkDomainValidation (Crawl.isValid validation) (Crawl.domain validation)
    (Crawl.tld validation) (Crawl.error validation).

(** [headers.findIndex(h => [...].includes(h.toLowerCase()))] *)
Definition companyNames : list jsstring :=
  map js ["company"; "company_name"; "business"; "organization"; "title"]%string.

Fixpoint findIndex (A : Type) (p : A -> bool) (l : list A) : column :=
  match l with
  | [] => None
  | x :: l' => if p x then Some 0 else option_map S (findIndex p l')
  end.

Definition companyColumn (headers : list jsstring) : column :=
  findIndex (fun h => existsb (jseqb (toLowerCase h)) companyNames) headers.

(** The own properties of the leads the two paths of the form build, in
    the order of their literals: the automatic path writes neither [name]
    nor [email], the path of the column selector writes [email], be it
    [undefined]. *)
Definition autoNames : list jsstring :=
  [js "website"; js "company"; js "extraFields"; js "enrichmentStatus";
   js "domainValidation"; js "errorMessage"].

Definition selectedNames : list jsstring :=
  [js "website"; js "company"; js "email"; js "extraFields";
   js "enrichmentStatus"; js "domainValidation"; js "errorMessage"].

(** The body of the loop over the rows in [handleFile], when one column
    looks like a URL; [None] is [continue]. *)
Definition autoLead (headers : list jsstring) (websiteCol : nat)
    (companyCol : column) (row : list jsstring) : option LeadObject :=
  let websiteValue := index row websiteCol in
  if negb (truthy websiteValue) then None
  else
    let website := match websiteValue with Some w => w | None => [] end in
    let validation := validateDomain website in
    let extraFields :=
      forEachHeader (fun idx => differs idx (Some websiteCol) && differs idx companyCol)
        row 0 headers [] in
    Some (mkLeadObject
            (mkEnrichedLead website (cellAt row companyCol) None
               (orUndefined extraFields) None None
               (if Crawl.isValid validation then pending else skipped)
               (if Crawl.isValid validation then None
                else Some (invalidDomain validation))
               (Some (domainValidationOf validation)))
            autoNames).

(** [for (const row of rows) { ...; leads.push(...) }] *)
Definition collect (A B : Type) (f : A -> option B) (l : list A) : list B :=
  flat_map (fun x => match f x with Some y => [y] | None => [] end) l.

Definition autoLeads (headers : list jsstring) (rows : list (list jsstring))
    (websiteCol : nat) : list LeadObject :=
  collect (autoLead headers websiteCol (companyColumn headers)) rows.

(** The body of the loop over the rows in [processWithSelectedColumns]. *)
Definition selectedLead (headers : list jsstring)
    (selectedWebsiteCol selectedCompanyCol selectedEmailCol : column)
    (row : list jsstring) : option LeadObject :=
  let websiteValue := cellAt row selectedWebsiteCol in
  let existingEmail := option_map trim (cellAt row selectedEmailCol) in
  let hasExistingEmail :=
    truthy existingEmail
    && includes (match existingEmail with Some e => e | None => [] end) (js "@") in
  if negb (truthy websiteValue) && negb hasExistingEmail then None
  else
    let website := match websiteValue with Some w => w | None => [] end in
    let validation :=
      if truthy websiteValue then validateDomain website
      else mkValidation false [] [] (Some (js "No domain provided")) in
    let extraFields :=
      forEachHeader
        (fun idx => differs idx selectedWebsiteCol && differs idx selectedCompanyCol
                    && differs idx selectedEmailCol)
        row 0 headers [] in
    let enrichmentStatus :=
      if hasExistingEmail then completed
      else if negb (truthy websiteValue) || negb (Crawl.isValid validation) then skipped
      else pending in
    Some (mkLeadObject
            (mkEnrichedLead
               (if truthy websiteValue then website else [])
               (cellAt row selectedCompanyCol) None
               (orUndefined extraFields)
               (if hasExistingEmail then existingEmail else None)
               None
               enrichmentStatus
               (if truthy websiteValue && negb (Crawl.isValid validation)
                then Some (invalidDomain validation) else None)
               (if truthy websiteValue then Some (domainValidationOf validation)
                else None))
            selectedNames).

(** [processWithSelectedColumns] up to [onUpload(leads)]: [None] when it
    returns without uploading. *)
Definition processWithSelectedColumns (headers : list jsstring)
    (rows : list (list jsstring))
    (selectedWebsiteCol selectedCompanyCol selectedEmailCol : column)
    : option (list LeadObject) :=
  match selectedWebsiteCol, selectedEmailCol with
  | None, None => None
  | _, _ =>
      match collect (selectedLead headers selectedWebsiteCol selectedCompanyCol
                       selectedEmailCol) rows with
      | [] => None
      | leads => Some leads
      end
  end.

End FileUpload.

Import FileUpload.

(* ================================================================== *)
(** ** [src/utils/instantlyExport.ts]: writing CSV text *)
(* ================================================================== *)

Module InstantlyExport.

(** [a.join(sep)] on an array of strings. *)
Definition join (sep : jsstring) (a : list jsstring) : jsstring :=
  match a with
  | [] => []
  | x :: a' => x ++ flat_map (fun y => sep ++ y) a'
  end.

(** [value.replace] of every double quote by two of them. *)
Definition doubleQuotes (value : jsstring) : jsstring :=
  flat_map (fun c => if Ascii.eqb c dquote then [dquote; dquote] else [c]) value.

Definition needsQuotes (value : jsstring) : bool :=
  includes value [comma] || includes value [LF] || includes value [dquote]
  || includes value (js "{").

(** [row[h] || '']: the string of the row's own property, [''] where the
    row neither has nor inherits a property of that name, and [None] for
    what the row inherits from [Object.prototype] and does not have
    itself, a function or the prototype, which is truthy and no string. *)
Definition valueOf (row : obj jsstring) (h : jsstring) : option jsstring :=
  match get row h with
  | Some value => Some value
  | None => if mem h prototypeNames then None else Some []
  end.

(** The callback of [headers.map] in [generateCSV]; [None] is the
    [TypeError] of [value.includes] on a value that is no string. *)
Definition csvValue (row : obj jsstring) (h : jsstring) : option jsstring :=
  match valueOf row h with
  | None => None
  | Some value =>
      Some (if needsQuotes value then dquote :: doubleQuotes value ++ [dquote]
            else value)
  end.

(** Generate CSV string from rows; [None] when a value throws. *)
Definition generateCSV (rows : list (obj jsstring)) (headers : list jsstring)
    : option jsstring :=
  option_map
    (fun lines => join [LF] (join [comma] headers :: lines))
    (mapThrowing
       (fun row => option_map (join [comma]) (mapThrowing (csvValue row) headers))
       rows).

End InstantlyExport.

Import InstantlyExport.

(* ================================================================== *)
(** ** The properties as the specification words them *)
(* ================================================================== *)

Module Spec.

(** *** Ranking score (specification 4.3)

    "+50 if the email's domain is a substring of the target domain or vice
    versa (after stripping the email domain's own TLD for the reverse
    check); +20 if local part contains a role-like token; +10 if local part
    length < 15; +15 if local part matches a name-like shape". *)
Definition bonus (b : bool) (n : nat) : nat := if b then n else 0.

Definition stripTld (emailDomain : jsstring) : jsstring :=
  remove_first false [chr "."; plus (fun c => negb (is_char "." c))] true emailDomain.

Definition domainMatch (emailDomain target : jsstring) : bool :=
  includes emailDomain target || includes target (stripTld emailDomain).

Definition roleToken (localPart : jsstring) : bool :=
  existsb (fun p => includes localPart (js p))
    ["hello"; "hi"; "info"; "contact"; "sales"; "team"]%string.

Definition shortLocal (localPart : jsstring) : bool := length localPart <? 15.

Definition nameShape (localPart : jsstring) : bool :=
  test true [plus is_lower; chr "."; plus is_lower] true localPart
  || test true [rep is_lower 4 (Some 12)] true localPart.

(** The score of an address with an [@]; the parts are taken from the
    lower-cased address. *)
Definition scoreSpec (target email : jsstring) : nat :=
  let parts := split_char "@" (toLowerCase email) in
  let localPart := nth 0 parts [] in
  let emailDomain := nth 1 parts [] in
  bonus (domainMatch emailDomain target) 50 + bonus (roleToken localPart) 20
  + bonus (shortLocal localPart) 10 + bonus (nameShape localPart) 15.

(** *** CSV round trip (specification 8)

    "preserves every original column's values", read generously: every
    non-empty value of the parsed record is the value of some property of
    its row. *)
Definition keepsEveryValue (record : obj jsstring) (row : obj cell) : Prop :=
  forall key value, get record key = Some value -> value <> [] ->
                    exists column, get row column = Some (Some value).

(** The headers under which the pipeline writes values of its own. *)
Definition pipelineColumns : list jsstring :=
  [js "website"; js "enrichmentStatus"; js "errorMessage"].

(** What the round trip does keep of a record in its row: the detected
    website column under the header [website], unless another, non-empty
    column of that very name takes the cell; the columns [company] and
    [name] with their values, empty or not; and of every other column its
    value when that is not empty and the column is not called
    [__proto__].  Otherwise the value is dropped: the row has no property
    of that name, unless the name is one of the pipeline's. *)
Definition keepsOwnColumns (record : obj jsstring) (row : obj cell) : Prop :=
  exists websiteKey site,
    findWebsiteColumn (ownKeys record) = Some websiteKey
    /\ get record websiteKey = Some site
    /\ (websiteKey = js "website" \/ truthy (get record (js "website")) = false ->
        get row (js "website") = Some (Some site))
    /\ forall key value,
         get record key = Some value -> key <> websiteKey ->
         (key = js "company" \/ key = js "name" -> get row key = Some (Some value))
         /\ (key <> js "company" -> key <> js "name" ->
             (value <> [] /\ key <> proto -> get row key = Some (Some value))
             /\ (value = [] \/ key = proto -> ~ In key pipelineColumns ->
                 get row key = None)).

(** *** The scrape step (specification 4.5) *)

(** The URLs a computation asked the backend to scrape, in order. *)
Definition scrapeRequests (trace : list event) : list jsstring :=
  flat_map (fun e => match e with ScrapeRequest url => [url] | _ => [] end) trace.

(** [/\/$/] removed from the base URL. *)
Definition withoutTrailingSlash (baseUrl : jsstring) : jsstring :=
  remove_first false [chr "/"] true baseUrl.

(** "the main page scrape succeeds but contains no email-shaped substring" *)
Definition mainSucceededWithoutEmail (backend : Backend) (baseUrl : jsstring) : Prop :=
  exists r, scrape backend baseUrl = Returned r /\ s_success r = true
            /\ match s_markdown r with
               | Some markdown => containsEmail markdown = false
               | None => True
               end.

(** Some contact-page guess was scraped. *)
Definition contactPageScraped (backend : Backend) (baseUrl : jsstring) : Prop :=
  exists path,
    In path contactPaths
    /\ In (withoutTrailingSlash baseUrl ++ path)
          (scrapeRequests (fst (scrapeForContact backend baseUrl))).

(** A scrape that answers with a page holding an email-shaped substring. *)
Definition isHit (backend : Backend) (url : jsstring) : bool :=
  match scrape backend url with
  | Returned r => foundEmail r
  | Threw _ => false
  end.

(** The guesses are tried in order, up to and including the first hit. *)
Fixpoint upToFirstHit (backend : Backend) (urls : list jsstring) : list jsstring :=
  match urls with
  | [] => []
  | url :: rest => url :: if isHit backend url then [] else upToFirstHit backend rest
  end.

(** *** Failures of one lead (specification 7 (c)) *)

(** "recorded as failed status + errorMessage" *)
Definition recordedAsFailed (result : EnrichmentResult) : Prop :=
  enrichmentStatus (lead result) = failed /\ errorMessage (lead result) <> None.

(** The extraction call answered, and reported a failure. *)
Definition extractionFailed (result : EnrichmentResult) : Prop :=
  exists r, emailResult result = Some r /\ e_success r = false.

(** The scrape step threw, or returned without a usable page. *)
Definition scrapeFailed (backend : Backend) (website : jsstring) : Prop :=
  match snd (scrapeForContact backend website) with
  | Threw _ => True
  | Returned r => s_success r = false \/ truthy (s_markdown r) = false
  end.

(** The scrape step returned a page and the extraction call threw. *)
Definition extractionThrew (backend : Backend) (website domain : jsstring) : Prop :=
  exists r markdown e,
    snd (scrapeForContact backend website) = Returned r
    /\ s_success r = true /\ s_markdown r = Some markdown /\ truthy (Some markdown) = true
    /\ snd (extractEmails backend markdown domain) = Threw e.

(** [ceil(n / k)] *)
Definition ceilDiv (n k : nat) : nat := (n + k - 1) / k.

(** The result entered for a lead that phase 1 skips. *)
Definition skippedResult (l : EnrichedLead) : EnrichmentResult :=
  mkResult (with_status skipped l) None None None.

(** The options of phase 1: [{ generateIcebreaker: false }]. *)
Definition phase1Options : EnrichOptions := mkOptions false None.

(** *** Extraction (specification 4.3) *)

(** The generic roles the specification lists: "(noreply, no-reply,
    donotreply, mailer-daemon, postmaster, webmaster, example, test, demo,
    sample)". *)
Definition genericRoles : list string := [
  "noreply"; "no-reply"; "donotreply"; "mailer-daemon"; "postmaster";
  "webmaster"; "example"; "test"; "demo"; "sample"
]%string.

(** "whose local part contains a generic-role substring" of the list
    [roles]. *)
Definition hasRole (roles : list string) (email : jsstring) : Prop :=
  exists role, In role roles
               /\ includes (toLowerCase (localPart_of email)) (js role) = true.

Definition hasGenericRole (email : jsstring) : Prop := hasRole genericRoles email.

(** The strictness of the claim: "local part at most 64 characters, full
    address at most 254 characters, full strict-regex match". *)
Definition withinBounds (email : jsstring) : Prop :=
  length (localPart_of email) <= 64 /\ length email <= 254
  /\ test true emailPattern true email = true.

(** *** Insight trimming (specification 4.4) *)

(** The first [k] paragraphs, each followed by the blank line the loop
    appends. *)
Definition wholeParagraphs (k : nat) (paragraphs : list jsstring) : jsstring :=
  concat (map (fun para => para ++ [LF; LF]) (firstn k paragraphs)).

(** *** Phase 1 (specification 4.5, 5) *)

(** The result of the lead of global index [g]. *)
Definition resultOf (url_hostname : jsstring -> option jsstring) (world : nat -> Backend)
    (l : EnrichedLead) (g : nat) : EnrichmentResult :=
  match snd (enrichLead url_hostname (world g) l phase1Options) with
  | Returned r => r
  | Threw _ => skippedResult l
  end.

(** The updates of the shared [usage] after a lead's result is in. *)
Definition usageEvents (r : EnrichmentResult) : list event :=
  match emailResult r with
  | Some er => [AddTokens (e_inputTokens er) (e_outputTokens er)]
  | None => []
  end
  ++ match scrapeResult r with
     | Some sr => if s_success sr then [AddScrapedPage] else []
     | None => []
     end.

(** Running the callbacks one after the other is a schedule. *)
Fixpoint oneByOne (A : Type) (j : nat) (pending : list (list A)) : schedule :=
  match pending with
  | [] => []
  | l :: rest => repeat j (length l) ++ oneByOne (S j) rest
  end.

(** The step of the loop that collects [extraFields]. *)
Definition nonEmptyOnly (kv : jsstring * jsstring) (extraFields : obj jsstring) :=
  if truthy (Some (snd kv)) then assign extraFields (fst kv) (snd kv) else extraFields.

End Spec.

Import Spec.

(* ================================================================== *)
(** ** Sample data for the worked examples *)
(* ================================================================== *)

Module Samples.

Definition sampleRecord : obj jsstring :=
  [(js "URL", js "https://acme.io"); (js "company", js "Acme");
   (js "Phone", js "123"); (js "notes", [])].

Definition sampleLead : Lead :=
  mkLead (js "https://acme.io") (Some (js "Acme")) None (Some [(js "Phone", js "123")]).

(** Texts over the budget of [extractCompanyInsights]: one line of 3001
    characters, and two paragraphs of 2000 characters each. *)
Definition longLine : jsstring := repeat "a"%char 3001.

Definition twoParagraphs : jsstring :=
  repeat "a"%char 2000 ++ [LF; LF] ++ repeat "b"%char 2000.

(** A record with columns named by numerals and one called [__proto__]. *)
Definition indexRecord : obj jsstring :=
  [(js "URL", js "https://acme.io"); (js "2024", js "9"); (js "007", js "x");
   (proto, js "y"); (js "7", js "1")].

Definition indexLead : Lead :=
  mkLead (js "https://acme.io") None None
    (Some [(js "7", js "1"); (js "2024", js "9"); (js "007", js "x")]).

Definition sampleValidation (domain tld : string) : option DomainValidation :=
  Some (mkDomainValidation true (js domain) (js tld) None).

Definition sampleLeads : list EnrichedLead :=
  [ mkEnrichedLead (js "https://acme.io") None None None None None pending None
      (sampleValidation "acme.io" "io");
    mkEnrichedLead (js "https://beta.io") None None None None None pending None
      (sampleValidation "beta.io" "io");
    mkEnrichedLead (js "not a domain") None None None None None skipped
      (Some (js "Invalid domain: Invalid domain format"))
      (Some (mkDomainValidation false (js "not a domain") []
               (Some (js "Invalid domain format"))));
    mkEnrichedLead (js "https://gamma.io") None None None None None pending None
      (sampleValidation "gamma.io" "io") ].

(** The first lead's site answers with an address, the second reports a
    failure on every page, the third makes the scrape call throw. *)
Definition sampleWorld (g : nat) : Backend :=
  match g with
  | 0 =>
      mkBackend true
        (fun url => Returned (mkScrapeResult true url (Some (js "Write to sales@acme.io"))
                                None None None))
        (fun _ _ => Returned (mkEmailResult true [js "sales@acme.io"]
                                (Some (js "sales@acme.io")) high 120 15 None))
        (fun _ _ _ _ => Threw JsOther)
  | 1 =>
      mkBackend true
        (fun url => Returned (mkScrapeResult false url None None None (Some (js "timeout"))))
        (fun _ _ => Threw JsOther) (fun _ _ _ _ => Threw JsOther)
  | _ =>
      mkBackend true (fun _ => Threw (JsError (js "Failed to fetch")))
        (fun _ _ => Threw JsOther) (fun _ _ _ _ => Threw JsOther)
  end.

Definition sampleConfig : EnrichmentConfig := mkConfig 2 2 true professional.

(** Two batches; in the first the two callbacks take turns. *)
Definition sampleSchedules : list schedule :=
  [[0; 1; 0; 1; 0; 1; 0; 1; 0; 1; 0; 1]; [0; 0; 0]].

Definition sampleRun :=
  findEmailsForLeads (fun _ => None) sampleWorld sampleLeads sampleConfig sampleSchedules.

End Samples.

Import Samples.

(* ================================================================== *)
(** ** Notions used to state the further properties *)
(* ================================================================== *)

Module Notions.

(** The characters of a host name: [[a-z0-9.-]]. *)
Definition domain_char (c : ascii) : bool := is_alnum c || one_of ".-" c.

(** The events of the lead of global index [g] in a labelled trace, in the
    order in which they occur. *)
Definition eventsOf (g : nat) (trace : list (nat * event)) : list event :=
  map snd (filter (fun x => fst x =? g) trace).

(** A backend that was never initialised. *)
Definition offlineBackend : Backend :=
  mkBackend false (fun _ => Threw JsOther) (fun _ _ => Threw JsOther)
    (fun _ _ _ _ => Threw JsOther).

Definition acmeLead : EnrichedLead :=
  mkEnrichedLead (js "https://acme.io") None None None None None pending None
    (sampleValidation "acme.io" "io").

(** The result phase 2 enters for a lead, given what the generation
    answered: [{ lead: { ...lead, icebreaker: text || undefined },
    icebreakerResult }]. *)
Definition icebreakerResultFor (l : EnrichedLead) (ir : IcebreakerResult)
  : EnrichmentResult :=
  mkResult
    (with_icebreaker
       (if truthy (Some (i_icebreaker ir)) then Some (i_icebreaker ir) else None) l)
    None None (Some ir).

(** The generation requests of a trace, by their content. *)
Definition icebreakerRequests (trace : list event) : list jsstring :=
  flat_map (fun e => match e with
                     | IcebreakerRequest content _ _ _ => [content]
                     | _ => []
                     end) trace.

(** The shared [usage] object of a phase: what a trace adds to
    [inputTokens], [outputTokens] and [scrapedPages]. *)
Definition added (weight : event -> nat) (trace : list event) : nat :=
  list_sum (map weight trace).

Definition inputTokensOf (e : event) : nat :=
  match e with AddTokens inputTokens _ => inputTokens | _ => 0 end.

Definition outputTokensOf (e : event) : nat :=
  match e with AddTokens _ outputTokens => outputTokens | _ => 0 end.

Definition scrapedPageOf (e : event) : nat :=
  match e with AddScrapedPage => 1 | _ => 0 end.

(** A request to the backend. *)
Definition isRequest (e : event) : bool :=
  match e with
  | ScrapeRequest _ | ExtractRequest _ _ | IcebreakerRequest _ _ _ _ => true
  | _ => false
  end.

(** [{ ...lead, icebreaker: value }], as phase 2 builds it, on an object:
    [icebreaker] is an own property afterwards, also when [value] is
    [undefined]. *)
Definition withOwnIcebreaker (value : option jsstring) (lead : LeadObject)
  : LeadObject :=
  mkLeadObject (with_icebreaker value (o_fields lead))
    (if mem (js "icebreaker") (o_own lead) then o_own lead
     else o_own lead ++ [js "icebreaker"]).

(** The columns of a row that [toCSV] lists among the original ones, in
    the order in which [Object.keys] gives them. *)
Definition originalKeys (row : obj cell) : list jsstring :=
  filter (fun column => negb (mem column enrichedColumns)) (ownKeys row).

End Notions.

Import Notions.

(* ================================================================== *)
(** ** Notions used to state what the CSV reader returns *)
(* ================================================================== *)

Module Reading.

(** The text without its carriage returns. *)
Definition dropCR (s : jsstring) : jsstring :=
  filter (fun c => negb (Ascii.eqb c CR)) s.

(** The fields of a line without quotes: the pieces between the commas,
    trimmed. *)
Definition fieldsOf (line : jsstring) : list jsstring :=
  map trim (split_char comma line).

(** The same when the reader already holds the text [currentField] of the
    first field. *)
Definition pendingFields (currentField line : jsstring) : list jsstring :=
  match split_char comma line with
  | f :: fs => trim (currentField ++ f) :: map trim fs
  | [] => []
  end.

(** The rows of a text without quotes, when the reader already holds the
    fields [currentRow] and the text [currentField] of the first row. *)
Definition pendingRows (currentRow : list jsstring) (currentField text : jsstring)
    : list (list jsstring) :=
  match split_char LF text with
  | l :: ls => (currentRow ++ pendingFields currentField l) :: map fieldsOf ls
  | [] => []
  end.

(** A character that means something to the reader outside quotes, the
    carriage return apart. *)
Definition special (c : ascii) : bool :=
  Ascii.eqb c dquote || Ascii.eqb c comma || Ascii.eqb c LF.

(** The string a row has under a header; the empty string when it has no
    property of that name. *)
Definition ownValue (row : obj jsstring) (h : jsstring) : jsstring :=
  match get row h with
  | Some value => value
  | None => []
  end.

(** What is read back of a written value: a value written without quotes
    loses its carriage returns. *)
Definition readBack (value : jsstring) : jsstring :=
  if needsQuotes value then value else dropCR value.

(** [enc] is read as the field text [v], whatever follows it, a quote
    apart. *)
Definition reads (enc v : jsstring) : Prop :=
  forall rest rows currentRow currentField,
    startsWith [dquote] rest = false ->
    scan (enc ++ rest) rows currentRow currentField false
    = scan rest rows currentRow (currentField ++ v) false.

(** Data for the worked examples. *)
Definition uploadedText : jsstring :=
  js "website, company" ++ LF :: js "acme.io ,Acme" ++ [CR; LF; LF]
  ++ js "," ++ LF :: js "beta.io".

Definition exportHeaders : list jsstring := [js "email"; js "note"].

Definition uploadHeaders : list jsstring :=
  [js "site"; js "company"; js "phone"; proto].

Definition uploadRow : list jsstring :=
  [js "acme.io"; js "Acme"; js "123"; js "x"].

Definition exportNote : jsstring :=
  js "x, " ++ dquote :: js "y" ++ [dquote; LF] ++ js "z".

Definition exportRows : list (obj jsstring) :=
  [ [(js "email", js " a@b.io"); (js "note", exportNote)];
    [(js "email", []); (js "note", [])];
    [(js "email", js "c@d.io")] ].

End Reading.

Import Reading.

Unset Implicit Arguments.

(* ================================================================== *)
(** * Theorems *)
(* ================================================================== *)

(** ** Strings and patterns *)

Lemma jseqb_eq (a b : jsstring) : jseqb a b = true <-> a = b.
Proof.
  revert b; induction a as [|x a IH]; intros [|y b]; simpl; split;
    try discriminate; try reflexivity.
  - intros H. apply andb_true_iff in H as [Hx Hab].
    apply Ascii.eqb_eq in Hx. apply IH in Hab. congruence.
  - intros H. injection H as -> ->.
    rewrite Ascii.eqb_refl. simpl. now apply IH.
Qed.

Lemma jseqb_refl (a : jsstring) : jseqb a a = true.
Proof. now apply jseqb_eq. Qed.

Lemma jseqb_neq (a b : jsstring) : jseqb a b = false <-> a <> b.
Proof.
  split.
  - intros H E. apply jseqb_eq in E. congruence.
  - intros H. destruct (jseqb a b) eqn:E; [|reflexivity].
    apply jseqb_eq in E. contradiction.
Qed.

Lemma lower_char_idempotent (c : ascii) : lower_char (lower_char c) = lower_char c.
Proof. destruct c as [[] [] [] [] [] [] [] []]; vm_compute; reflexivity. Qed.

Lemma toLowerCase_fixed (s : jsstring) :
  Forall (fun c => lower_char c = c) s -> toLowerCase s = s.
Proof.
  induction 1 as [|c s Hc _ IH]; simpl; [reflexivity|].
  unfold toLowerCase in IH. now f_equal.
Qed.

Lemma toLowerCase_lowered (s : jsstring) :
  Forall (fun c => lower_char c = c) (toLowerCase s).
Proof.
  induction s as [|c s IH]; simpl; constructor; auto using lower_char_idempotent.
Qed.

(** [split_first c s] is the prefix of [s] that stops before the first [c]. *)
Lemma split_char_nonempty (c : ascii) (s : jsstring) : split_char c s <> [].
Proof.
  destruct s as [|x s]; simpl; [discriminate|].
  destruct (Ascii.eqb x c); [discriminate|].
  destruct (split_char c s); discriminate.
Qed.

Lemma split_first_cons (c x : ascii) (s : jsstring) :
  split_first c (x :: s) = if Ascii.eqb x c then [] else x :: split_first c s.
Proof.
  unfold split_first; simpl.
  destruct (Ascii.eqb x c); [reflexivity|].
  destruct (split_char c s) eqn:E; [|reflexivity].
  now apply split_char_nonempty in E.
Qed.

Lemma split_first_prefix (c : ascii) (s : jsstring) :
  exists rest, s = split_first c s ++ rest.
Proof.
  induction s as [|x s [rest IH]].
  - exists []. reflexivity.
  - rewrite split_first_cons. destruct (Ascii.eqb x c).
    + exists (x :: s). reflexivity.
    + exists rest. simpl. now rewrite <- IH.
Qed.

Lemma split_first_free (c : ascii) (s : jsstring) : ~ In c (split_first c s).
Proof.
  induction s as [|x s IH].
  - simpl. tauto.
  - rewrite split_first_cons. destruct (Ascii.eqb x c) eqn:E; [simpl; tauto|].
    intros [H|H]; [|tauto]. subst. now rewrite Ascii.eqb_refl in E.
Qed.

Lemma split_first_id (c : ascii) (s : jsstring) : ~ In c s -> split_first c s = s.
Proof.
  induction s as [|x s IH]; intros H; [reflexivity|].
  rewrite split_first_cons. destruct (Ascii.eqb x c) eqn:E.
  - apply Ascii.eqb_eq in E. subst. simpl in H. tauto.
  - rewrite IH; [reflexivity|]. simpl in H. tauto.
Qed.

Lemma split_first_incl (c : ascii) (s : jsstring) (x : ascii) :
  In x (split_first c s) -> In x s.
Proof.
  destruct (split_first_prefix c s) as [rest E]. intros H.
  rewrite E. apply in_or_app. now left.
Qed.

Lemma split_first_Forall (P : ascii -> Prop) (c : ascii) (s : jsstring) :
  Forall P s -> Forall P (split_first c s).
Proof.
  rewrite !Forall_forall. intros H x Hx. apply H. eapply split_first_incl; eauto.
Qed.

(** What a successful [try_down] found. *)
Lemma try_down_some (f : nat -> option nat) (lo n r : nat) :
  try_down f lo n = Some r ->
  exists j r', lo <= j /\ j <= n /\ f j = Some r' /\ r = j + r'.
Proof.
  induction n as [|n IH]; simpl.
  - destruct (0 <? lo) eqn:E; [discriminate|]. apply Nat.ltb_ge in E.
    destruct (f 0) eqn:F; [|discriminate]. intros [= <-].
    exists 0, n. repeat split; auto.
  - destruct (S n <? lo) eqn:E; [discriminate|]. apply Nat.ltb_ge in E.
    destruct (f (S n)) eqn:F.
    + intros [= <-]. exists (S n), n0. repeat split; auto.
    + intros H. apply IH in H as (j & r' & H1 & H2 & H3 & H4).
      exists j, r'. repeat split; auto.
Qed.

(** One step of a successful match: the first atom took [j] characters of
    its class and the rest of the pattern matched what follows. *)
Lemma match_here_cons (a : atom) (rest : pattern) (dollar : bool) (s : jsstring) (n : nat) :
  match_here (a :: rest) dollar s = Some n ->
  exists j r, lo a <= j /\ j <= span (cls a) s
              /\ (forall h, hi a = Some h -> j <= h)
              /\ match_here rest dollar (skipn j s) = Some r /\ n = j + r.
Proof.
  simpl. intros H. apply try_down_some in H as (j & r & H1 & H2 & H3 & H4).
  exists j, r. destruct (hi a) as [h|].
  - repeat split; auto; try lia. intros h' [= <-]. lia.
  - repeat split; auto. discriminate.
Qed.

(** Every atom that must take a character finds one of its class. *)
Lemma match_here_needs (pat : pattern) (dollar : bool) (s : jsstring) (n : nat) :
  match_here pat dollar s = Some n ->
  forall a, In a pat -> 1 <= lo a -> exists c, In c s /\ cls a c = true.
Proof.
  revert s n; induction pat as [|b pat IH]; intros s n H a Ha Hlo; [destruct Ha|].
  apply match_here_cons in H as (j & r & H1 & H2 & _ & H3 & _).
  destruct Ha as [->|Ha].
  - destruct s as [|c s]; simpl in H2; [lia|].
    destruct (cls a c) eqn:E; [|lia]. exists c. split; [now left|assumption].
  - destruct (IH _ _ H3 a Ha Hlo) as (c & Hc & Hcls).
    exists c. split; [|assumption].
    rewrite <- (firstn_skipn j s). apply in_or_app. now right.
Qed.

(** A literal pattern only matches strings that start with it. *)
Lemma match_here_lit (l : jsstring) (s : jsstring) (n : nat) :
  match_here (map chr l) false s = Some n -> startsWith l s = true.
Proof.
  revert s n; induction l as [|c l IH]; intros s n H; [reflexivity|].
  simpl map in H. apply match_here_cons in H as (j & r & H1 & H2 & Hh & H3 & _).
  simpl in H1. specialize (Hh 1 eq_refl).
  assert (j = 1) as -> by lia.
  destruct s as [|x s]; simpl in H2; [lia|].
  unfold is_char in H2. simpl. destruct (Ascii.eqb c x) eqn:E; [|lia]. simpl.
  simpl in H3. eauto.
Qed.

Lemma skipn_incl (A : Type) (n : nat) (l : list A) (x : A) :
  In x (skipn n l) -> In x l.
Proof.
  intros H. rewrite <- (firstn_skipn n l). apply in_or_app. now right.
Qed.

Lemma remove_first_caret_incl (pat : pattern) (s : jsstring) (x : ascii) :
  In x (remove_first true pat false s) -> In x s.
Proof.
  unfold remove_first. destruct (match_here pat false s); [apply skipn_incl|auto].
Qed.

(** ** [validateDomain] *)

Section ValidateDomain.

Lemma validateDomain_domain (input : jsstring) :
  domain (validateDomain input) = clean input.
Proof.
  unfold validateDomain.
  repeat match goal with
         | |- context [if ?b then _ else _] => destruct b
         end; reflexivity.
Qed.

(** The characters that end the host part never survive [clean], and every
    character of the result is its own lower case. *)
Lemma clean_shape (input : jsstring) :
  let d := clean input in
  ~ In "/"%char d /\ ~ In "?"%char d /\ ~ In "#"%char d /\ ~ In ":"%char d
  /\ Forall (fun c => lower_char c = c) d.
Proof.
  unfold clean. repeat split.
  - intros H. do 3 apply split_first_incl in H. now apply split_first_free in H.
  - intros H. do 2 apply split_first_incl in H. now apply split_first_free in H.
  - intros H. do 1 apply split_first_incl in H. now apply split_first_free in H.
  - apply split_first_free.
  - do 4 apply split_first_Forall.
    apply Forall_forall. intros x Hx.
    do 2 apply remove_first_caret_incl in Hx.
    pose proof (toLowerCase_lowered (trim input)) as L.
    rewrite Forall_forall in L. auto.
Qed.

Lemma no_protocol (d : jsstring) :
  ~ In "/"%char d -> remove_first true protocol_re false d = d.
Proof.
  intros H. unfold remove_first.
  destruct (match_here protocol_re false d) as [n|] eqn:E; [|reflexivity].
  exfalso. apply H.
  destruct (match_here_needs _ _ _ _ E (chr "/")) as (c & Hc & Hcls).
  - unfold protocol_re, lit. simpl. tauto.
  - simpl. lia.
  - change (Ascii.eqb "/" c = true) in Hcls. apply Ascii.eqb_eq in Hcls. now subst.
Qed.

Lemma no_www (d : jsstring) :
  startsWith (js "www.") d = false -> remove_first true www_re false d = d.
Proof.
  intros H. unfold remove_first.
  destruct (match_here www_re false d) as [n|] eqn:E; [|reflexivity].
  apply match_here_lit in E. unfold js in H. simpl in *. congruence.
Qed.

(** A normalised domain that carries no further [www.] prefix and no white
    space at its ends is left alone by the normalisation. *)
Lemma clean_fixed (d : jsstring) :
  ~ In "/"%char d -> ~ In "?"%char d -> ~ In "#"%char d -> ~ In ":"%char d ->
  Forall (fun c => lower_char c = c) d ->
  startsWith (js "www.") d = false -> trim d = d ->
  clean d = d.
Proof.
  intros H1 H2 H3 H4 HL HW HT. unfold clean.
  rewrite HT, (toLowerCase_fixed d HL), (no_protocol d H1), (no_www d HW).
  rewrite (@split_first_id "/"%char d H1), (@split_first_id "?"%char d H2).
  rewrite (@split_first_id "#"%char d H3). now apply split_first_id.
Qed.

End ValidateDomain.

(** C2, as stated, fails: one [www.] prefix is removed per call, so a
    doubled prefix takes two calls to disappear. *)
Lemma validateDomain_not_idempotent :
  domain (validateDomain (domain (validateDomain (js "www.www.acme.com"))))
  <> domain (validateDomain (js "www.www.acme.com")).
Proof. vm_compute. discriminate. Qed.

(** C2 (amended): for every input [x] whose normalised domain
    [validateDomain(x).domain] neither starts with [www.] nor has white
    space at its ends, validating that domain again returns it unchanged:
    [validateDomain(validateDomain(x).domain).domain = validateDomain(x).domain]. *)
Theorem validateDomain_idempotent_on_settled_domains (x : jsstring) :
  startsWith (js "www.") (domain (validateDomain x)) = false ->
  trim (domain (validateDomain x)) = domain (validateDomain x) ->
  domain (validateDomain (domain (validateDomain x))) = domain (validateDomain x).
Proof.
  rewrite !validateDomain_domain. intros HW HT.
  destruct (clean_shape x) as (H1 & H2 & H3 & H4 & HL).
  now apply clean_fixed.
Qed.

Lemma validateDomain_idempotent_witness :
  startsWith (js "www.") (domain (validateDomain (js "https://www.Acme.IO/contact"))) = false
  /\ trim (domain (validateDomain (js "https://www.Acme.IO/contact")))
     = domain (validateDomain (js "https://www.Acme.IO/contact"))
  /\ domain (validateDomain (domain (validateDomain (js "https://www.Acme.IO/contact"))))
     = domain (validateDomain (js "https://www.Acme.IO/contact")).
Proof.
  split; [vm_compute; reflexivity|]. split; [vm_compute; reflexivity|].
  apply (validateDomain_idempotent_on_settled_domains (js "https://www.Acme.IO/contact"));
    vm_compute; reflexivity.
Defined.

(** The worked examples of the specification. *)
Example validateDomain_acme :
  validateDomain (js "https://www.Acme.IO/contact")
  = mkValidation true (js "acme.io") (js "io") None.
Proof. vm_compute. reflexivity. Qed.

Example validateDomain_not_a_domain :
  isValid (validateDomain (js "not a domain")) = false.
Proof. vm_compute. reflexivity. Qed.

Example validateDomain_co_uk :
  validateDomain (js "shop.example.co.uk")
  = mkValidation true (js "shop.example.co.uk") (js "co.uk") None.
Proof. vm_compute. reflexivity. Qed.

(** ** [getEnrichmentStats] *)

(** C10: the statuses partition the leads, and so does domain validity. *)
Theorem getEnrichmentStats_partition (leads : list EnrichedLead) :
  let s := getEnrichmentStats leads in
  n_pending s + n_processing s + n_completed s + n_failed s + n_skipped s = total s
  /\ validDomains s + invalidDomains s = total s.
Proof.
  simpl. unfold count. induction leads as [|l leads [IH1 IH2]]; [split; reflexivity|].
  simpl. split.
  - destruct (enrichmentStatus l); simpl; lia.
  - destruct (hasValidDomain l); simpl; lia.
Qed.

(** ** [rankEmails] *)

Section RankEmails.

Lemma split_char_two (c : ascii) (s : jsstring) :
  In c s -> exists d, nth_error (split_char c s) 1 = Some d.
Proof.
  induction s as [|x s IH]; intros H; [destruct H|].
  simpl. destruct (Ascii.eqb x c) eqn:E.
  - simpl. pose proof (split_char_nonempty c s) as N.
    destruct (split_char c s) as [|p ps]; [contradiction|]. now exists p.
  - destruct H as [->|H]; [now rewrite Ascii.eqb_refl in E|].
    destruct (IH H) as [d Hd].
    destruct (split_char c s) as [|p ps]; [discriminate|]. now exists d.
Qed.

Lemma split_first_nth (c : ascii) (s : jsstring) :
  split_first c s = nth 0 (split_char c s) [].
Proof. unfold split_first. destruct (split_char c s); reflexivity. Qed.

Lemma at_sign_lowered (email : jsstring) :
  In "@"%char email -> In "@"%char (toLowerCase email).
Proof.
  intros H. unfold toLowerCase. apply in_map_iff. exists "@"%char. now split.
Qed.

(** The code's score is the specification's, and it is defined exactly for
    addresses with an [@]. *)
Lemma calculateEmailScore_spec (email target : jsstring) :
  In "@"%char email -> calculateEmailScore email target = Some (scoreSpec target email).
Proof.
  intros H. apply at_sign_lowered, (split_char_two "@") in H as [d Hd].
  unfold calculateEmailScore, scoreSpec, index, split_first. cbv zeta.
  destruct (split_char "@" (toLowerCase email)) as [|p [|q r]]; try discriminate.
  injection Hd as ->. simpl nth_error. simpl nth.
  unfold domainMatch, roleToken, shortLocal, nameShape, stripTld, personalPatterns, bonus.
  repeat match goal with
         | |- context [if ?b then _ else _] => destruct b
         end; reflexivity.
Qed.

Lemma scored_spec (target : jsstring) (emails : list jsstring) :
  Forall (fun e => In "@"%char e) emails ->
  scored target emails = Some (map (fun e => (e, scoreSpec target e)) emails).
Proof.
  induction 1 as [|e emails He _ IH]; simpl; [reflexivity|].
  now rewrite (calculateEmailScore_spec e target He), IH.
Qed.

Let desc (a b : jsstring * nat) : Prop := snd b <= snd a.

Lemma insert_desc_perm x l : Permutation (insert_desc x l) (x :: l).
Proof.
  induction l as [|y l IH]; simpl; [reflexivity|].
  destruct (snd x <? snd y); [|reflexivity].
  rewrite IH. apply perm_swap.
Qed.

Lemma sort_desc_perm l : Permutation (sort_desc l) l.
Proof.
  induction l as [|x l IH]; simpl; [reflexivity|].
  rewrite insert_desc_perm. now constructor.
Qed.

Lemma insert_desc_sorted x l :
  StronglySorted desc l -> StronglySorted desc (insert_desc x l).
Proof.
  induction 1 as [|y l Hs IH Hy]; simpl.
  - repeat constructor.
  - destruct (snd x <? snd y) eqn:E.
    + apply Nat.ltb_lt in E. constructor; [assumption|].
      apply Forall_forall. intros z Hz.
      apply (Permutation_in _ (insert_desc_perm x l)) in Hz.
      destruct Hz as [<-|Hz]; [unfold desc; lia|].
      rewrite Forall_forall in Hy. auto.
    + apply Nat.ltb_ge in E. constructor; [now constructor|].
      constructor; [exact E|].
      eapply Forall_impl; [|exact Hy]. unfold desc. intros z Hz. lia.
Qed.

Lemma sort_desc_sorted l : StronglySorted desc (sort_desc l).
Proof.
  induction l as [|x l IH]; simpl; [constructor|]. now apply insert_desc_sorted.
Qed.

(** Stability: among the elements of one score the original order stays. *)
Lemma insert_desc_stable v x l :
  filter (fun y => snd y =? v) (insert_desc x l) = filter (fun y => snd y =? v) (x :: l).
Proof.
  induction l as [|y l IH]; [reflexivity|].
  simpl insert_desc. destruct (snd x <? snd y) eqn:E; [|reflexivity].
  apply Nat.ltb_lt in E. simpl in *. rewrite IH.
  destruct (snd y =? v) eqn:Ey, (snd x =? v) eqn:Ex; try reflexivity.
  apply Nat.eqb_eq in Ey, Ex. lia.
Qed.

Lemma sort_desc_stable v l :
  filter (fun y => snd y =? v) (sort_desc l) = filter (fun y => snd y =? v) l.
Proof.
  induction l as [|x l IH]; [reflexivity|].
  simpl sort_desc. rewrite insert_desc_stable. simpl. now rewrite IH.
Qed.

(** Items that carry their own score, read back as plain addresses. *)
Lemma labelled_filter (f : jsstring -> nat) v (l : list (jsstring * nat)) :
  Forall (fun x => snd x = f (fst x)) l ->
  filter (fun e => f e =? v) (map fst l) = map fst (filter (fun x => snd x =? v) l).
Proof.
  induction 1 as [|x l Hx _ IH]; simpl; [reflexivity|].
  rewrite <- Hx. destruct (snd x =? v); simpl; now rewrite IH.
Qed.

Lemma labelled_sorted (f : jsstring -> nat) (l : list (jsstring * nat)) :
  Forall (fun x => snd x = f (fst x)) l ->
  StronglySorted desc l ->
  StronglySorted (fun a b => f b <= f a) (map fst l).
Proof.
  intros HF. induction 1 as [|x l Hs IH Hx]; simpl; [constructor|].
  inversion HF as [|? ? Fx Fl]; subst. constructor; [auto|].
  apply Forall_map. rewrite Forall_forall in *. intros y Hy.
  specialize (Hx y Hy). unfold desc in Hx. rewrite <- Fx, <- (Fl y Hy). exact Hx.
Qed.

Lemma labelled_map (f : jsstring -> nat) (emails : list jsstring) :
  Forall (fun x => snd x = f (fst x)) (map (fun e => (e, f e)) emails).
Proof. apply Forall_map, Forall_forall. reflexivity. Qed.

Lemma map_fst_labelled (f : jsstring -> nat) (emails : list jsstring) :
  map fst (map (fun e => (e, f e)) emails) = emails.
Proof. rewrite map_map. simpl. apply map_id. Qed.

End RankEmails.

(** C6: on addresses with an [@], [rankEmails] returns a rearrangement of
    the candidates in descending order of the additive score (+50 domain
    match in either direction, +20 role-like token, +10 local part shorter
    than 15, +15 name-like shape), candidates of equal score keeping their
    insertion order; and it ranks [jane.doe@acme.com] before
    [info@other.com] for the domain [acme.com]. *)
Theorem rankEmails_orders_by_score (emails : list jsstring) (domain : jsstring) :
  let target := toLowerCase (remove_first true www_re false domain) in
  (Forall (fun e => In "@"%char e) emails ->
   exists ranked,
     rankEmails emails domain = Some ranked
     /\ Permutation ranked emails
     /\ StronglySorted (fun a b => scoreSpec target b <= scoreSpec target a) ranked
     /\ forall v, filter (fun e => scoreSpec target e =? v) ranked
                  = filter (fun e => scoreSpec target e =? v) emails)
  /\ rankEmails [js "info@other.com"; js "jane.doe@acme.com"] (js "acme.com")
     = Some [js "jane.doe@acme.com"; js "info@other.com"].
Proof.
  intros target. split; [|vm_compute; reflexivity].
  intros H. unfold rankEmails. fold target. rewrite (scored_spec target emails H).
  set (items := map (fun e => (e, scoreSpec target e)) emails).
  assert (HF : Forall (fun x => snd x = scoreSpec target (fst x)) (sort_desc items)).
  { eapply Permutation_Forall; [symmetry; apply sort_desc_perm|].
    apply labelled_map. }
  exists (map fst (sort_desc items)). repeat split.
  - apply Permutation_trans with (map fst items).
    + apply Permutation_map, sort_desc_perm.
    + unfold items. now rewrite map_fst_labelled.
  - apply labelled_sorted; [exact HF|apply sort_desc_sorted].
  - intros v. rewrite (labelled_filter _ v _ HF), sort_desc_stable.
    unfold items.
    rewrite <- (labelled_filter _ v _ (labelled_map (scoreSpec target) emails)).
    now rewrite map_fst_labelled.
Qed.

Lemma rankEmails_witness :
  exists ranked,
    rankEmails [js "bob@acme.com"; js "info@other.com"; js "zed@acme.com"]
      (js "www.acme.com") = Some ranked
    /\ Permutation ranked [js "bob@acme.com"; js "info@other.com"; js "zed@acme.com"]
    /\ StronglySorted
         (fun a b => scoreSpec (js "acme.com") b <= scoreSpec (js "acme.com") a) ranked
    /\ forall v,
         filter (fun e => scoreSpec (js "acme.com") e =? v) ranked
         = filter (fun e => scoreSpec (js "acme.com") e =? v)
             [js "bob@acme.com"; js "info@other.com"; js "zed@acme.com"].
Proof.
  apply (proj1 (rankEmails_orders_by_score
                  [js "bob@acme.com"; js "info@other.com"; js "zed@acme.com"]
                  (js "www.acme.com"))).
  repeat constructor; vm_compute; tauto.
Defined.

Example rankEmails_ties_keep_order :
  rankEmails [js "bob@acme.com"; js "info@other.com"; js "zed@acme.com"]
    (js "www.acme.com")
  = Some [js "bob@acme.com"; js "zed@acme.com"; js "info@other.com"].
Proof. vm_compute. reflexivity. Qed.

(** Without an [@] the score, and so the ranking, throws. *)
Example rankEmails_throws :
  rankEmails [js "not-an-address"] (js "acme.com") = None.
Proof. vm_compute. reflexivity. Qed.

(** ** [extractEmailsFromContent] *)

Section ExtractEmails.

Lemma unique_In (e : jsstring) (l : list jsstring) : In e (unique l) <-> In e l.
Proof.
  induction l as [|x l IH]; simpl; [tauto|].
  rewrite filter_In, IH, negb_true_iff, jseqb_neq.
  destruct (list_eq_dec ascii_dec x e); intuition congruence.
Qed.

Lemma unique_NoDup (l : list jsstring) : NoDup (unique l).
Proof.
  induction l as [|x l IH]; simpl; constructor.
  - rewrite filter_In, jseqb_refl. simpl. intuition discriminate.
  - now apply NoDup_filter.
Qed.


Lemma isGenericEmail_spec (email : jsstring) :
  isGenericEmail email = false <-> ~ hasRole genericPrefixes email.
Proof.
  unfold isGenericEmail, hasRole. rewrite <- not_true_iff_false, existsb_exists.
  reflexivity.
Qed.

(** The prefixes of the code are the ten roles of the specification and
    [do-not-reply]. *)
Lemma genericPrefixes_roles (email : jsstring) :
  hasRole genericPrefixes email
  <-> hasGenericRole email
      \/ includes (toLowerCase (localPart_of email)) (js "do-not-reply") = true.
Proof.
  unfold hasGenericRole, hasRole, genericPrefixes, genericRoles. split.
  - intros (role & Hin & H). cbn [In] in Hin.
    destruct Hin as [<-|[<-|[<-|[<-|Hin]]]].
    + left. exists "noreply"%string. cbn [In]. tauto.
    + left. exists "no-reply"%string. cbn [In]. tauto.
    + left. exists "donotreply"%string. cbn [In]. tauto.
    + now right.
    + left. exists role. cbn [In]. tauto.
  - intros [(role & Hin & H)|H].
    + exists role. cbn [In] in *. tauto.
    + exists "do-not-reply"%string. cbn [In]. tauto.
Qed.

Lemma isValidEmailFormat_spec (email : jsstring) :
  isValidEmailFormat email = true <->
  length (localPart_of email) <= 64 /\ length email <= 254
  /\ test true emailPattern true email = true.
Proof.
  unfold isValidEmailFormat.
  destruct (test true emailPattern true email); simpl; [|intuition discriminate].
  destruct (254 <? length email) eqn:E1.
  - apply Nat.ltb_lt in E1. split; [discriminate|]. lia.
  - apply Nat.ltb_ge in E1. destruct (64 <? length (localPart_of email)) eqn:E2.
    + apply Nat.ltb_lt in E2. split; [discriminate|]. lia.
    + apply Nat.ltb_ge in E2. tauto.
Qed.

Lemma extract_In (content e : jsstring) :
  In e (extractEmailsFromContent content) <->
  In e (match_all emailPattern content)
  /\ ~ hasRole genericPrefixes e
  /\ length (localPart_of e) <= 64 /\ length e <= 254
  /\ test true emailPattern true e = true.
Proof.
  unfold extractEmailsFromContent.
  rewrite !filter_In, unique_In, negb_true_iff, isGenericEmail_spec,
    isValidEmailFormat_spec.
  tauto.
Qed.

End ExtractEmails.

(** C7, as stated, fails: the code discards an address whose local part
    holds [do-not-reply], which is none of the generic roles the
    specification lists, holds none of them, and respects the bounds. *)
Lemma do_not_reply_address_is_discarded :
  ~ (forall content e,
       In e (extractEmailsFromContent content) <->
       In e (match_all emailPattern content) /\ ~ hasGenericRole e /\ withinBounds e).
Proof.
  intros H.
  specialize (H (js "Write to do-not-reply@acme.com.") (js "do-not-reply@acme.com")).
  assert (Hin : In (js "do-not-reply@acme.com")
                  (extractEmailsFromContent (js "Write to do-not-reply@acme.com."))).
  { apply H. split; [vm_compute; tauto|]. split.
    - intros (role & Hrole & Hinc). unfold genericRoles in Hrole. cbn [In] in Hrole.
      repeat (destruct Hrole as [<-|Hrole]; [vm_compute in Hinc; discriminate Hinc|]).
      exact Hrole.
    - unfold withinBounds. vm_compute. repeat split; lia. }
  vm_compute in Hin. exact Hin.
Qed.

(** C7 (amended): [extractEmailsFromContent] returns, without repetition,
    exactly the matches of the email pattern in its input whose local part
    holds neither one of the generic roles of the specification nor
    [do-not-reply], and that respect the stricter bounds (local part of at
    most 64 characters, whole address of at most 254, a match of the
    anchored pattern); [noreply@acme.com] is never returned,
    [sales@acme.com] is returned whenever it is matched, as in the mixed
    content shown. *)
Theorem extractEmailsFromContent_filters (content : jsstring) :
  let found := extractEmailsFromContent content in
  NoDup found
  /\ (forall e, In e found <->
        In e (match_all emailPattern content)
        /\ ~ hasGenericRole e
        /\ includes (toLowerCase (localPart_of e)) (js "do-not-reply") = false
        /\ length (localPart_of e) <= 64 /\ length e <= 254
        /\ test true emailPattern true e = true)
  /\ ~ In (js "noreply@acme.com") found
  /\ (In (js "sales@acme.com") (match_all emailPattern content) ->
      In (js "sales@acme.com") found)
  /\ extractEmailsFromContent
       (js "Write to noreply@acme.com, Sales <sales@acme.com> or sales@acme.com.")
     = [js "sales@acme.com"].
Proof.
  cbv zeta. split; [|split; [|split; [|split]]].
  - unfold extractEmailsFromContent. do 2 apply NoDup_filter. apply unique_NoDup.
  - intros e. rewrite extract_In, genericPrefixes_roles.
    destruct (includes (toLowerCase (localPart_of e)) (js "do-not-reply"));
      intuition congruence.
  - rewrite extract_In. intros (_ & H & _). apply H.
    exists "noreply"%string. split; [now left|vm_compute; reflexivity].
  - intros H. apply extract_In. split; [exact H|]. split.
    + apply isGenericEmail_spec. vm_compute. reflexivity.
    + vm_compute. repeat split; lia.
  - vm_compute. reflexivity.
Qed.

Lemma extractEmailsFromContent_witness :
  In (js "sales@acme.com") (match_all emailPattern (js "ask sales@acme.com"))
  /\ In (js "sales@acme.com") (extractEmailsFromContent (js "ask sales@acme.com")).
Proof.
  assert (H : In (js "sales@acme.com") (match_all emailPattern (js "ask sales@acme.com")))
    by (vm_compute; tauto).
  split; [exact H|].
  exact (proj1 (proj2 (proj2 (proj2
           (extractEmailsFromContent_filters (js "ask sales@acme.com"))))) H).
Defined.

(** ** [extractCompanyInsights] *)

Section CompanyInsights.


Lemma trimStart_length (s : jsstring) : length (trimStart s) <= length s.
Proof.
  induction s as [|c s IH]; simpl; [lia|]. destruct (is_space c); simpl; lia.
Qed.

Lemma trim_length (s : jsstring) : length (trim s) <= length s.
Proof.
  unfold trim, trimEnd. rewrite length_rev.
  etransitivity; [apply trimStart_length|]. rewrite length_rev.
  apply trimStart_length.
Qed.

Lemma trimStart_snoc (s : jsstring) (c : ascii) :
  is_space c = true ->
  trimStart (s ++ [c]) = trimStart s ++ [c]
  \/ (trimStart s = [] /\ trimStart (s ++ [c]) = []).
Proof.
  intros Hc. induction s as [|x s IH]; simpl.
  - rewrite Hc. now right.
  - destruct (is_space x); [exact IH|now left].
Qed.

Lemma trimEnd_snoc (s : jsstring) (c : ascii) :
  is_space c = true -> trimEnd (s ++ [c]) = trimEnd s.
Proof.
  intros Hc. unfold trimEnd. rewrite rev_app_distr. simpl. now rewrite Hc.
Qed.

(** White space appended to a text does not survive [trim]. *)
Lemma trim_snoc (s : jsstring) (c : ascii) :
  is_space c = true -> trim (s ++ [c]) = trim s.
Proof.
  intros Hc. unfold trim.
  destruct (trimStart_snoc s c Hc) as [E|[E1 E2]].
  - rewrite E. now apply trimEnd_snoc.
  - now rewrite E1, E2.
Qed.

Lemma trim_blank_line (s : jsstring) : trim (s ++ [LF; LF]) = trim s.
Proof.
  change (s ++ [LF; LF]) with (s ++ [LF] ++ [LF]). rewrite app_assoc.
  rewrite !trim_snoc; reflexivity.
Qed.

Lemma firstn_snoc (A : Type) (d : A) (k : nat) (l : list A) :
  k < length l -> firstn (S k) l = firstn k l ++ [nth k l d].
Proof.
  revert k; induction l as [|x l IH]; intros k Hk; simpl in Hk; [lia|].
  destruct k as [|k]; [reflexivity|].
  change (firstn (S (S k)) (x :: l)) with (x :: firstn (S k) l).
  rewrite IH by lia. reflexivity.
Qed.

Lemma wholeParagraphs_S (k : nat) (paragraphs : list jsstring) :
  k < length paragraphs ->
  wholeParagraphs (S k) paragraphs
  = wholeParagraphs k paragraphs ++ nth k paragraphs [] ++ [LF; LF].
Proof.
  intros Hk. unfold wholeParagraphs.
  rewrite (firstn_snoc _ [] k paragraphs Hk), map_app, concat_app.
  simpl. now rewrite app_nil_r.
Qed.

(** The loop takes whole paragraphs, as many as fit: it returns the
    accumulator followed by the first [k] paragraphs, every one of which
    fitted when it was added, and the next one, if any, does not fit. *)
Lemma accumulate_greedy (paragraphs : list jsstring) (acc : jsstring) :
  exists k,
    k <= length paragraphs
    /\ accumulate acc paragraphs = acc ++ wholeParagraphs k paragraphs
    /\ (forall j, j < k ->
          length (acc ++ wholeParagraphs j paragraphs ++ nth j paragraphs [])
          <= maxLength)
    /\ (k < length paragraphs ->
          maxLength
          < length (acc ++ wholeParagraphs k paragraphs ++ nth k paragraphs [])).
Proof.
  revert acc; induction paragraphs as [|p ps IH]; intros acc.
  - exists 0. simpl. rewrite app_nil_r. repeat split; auto; lia.
  - simpl accumulate. destruct (maxLength <? length (acc ++ p)) eqn:E.
    + apply Nat.ltb_lt in E. exists 0. unfold wholeParagraphs. simpl.
      rewrite app_nil_r. repeat split; auto; lia.
    + apply Nat.ltb_ge in E.
      destruct (IH (acc ++ p ++ [LF; LF])) as (k & Hk & Hacc & Hfit & Hnext).
      exists (S k). unfold wholeParagraphs in *. simpl length. repeat split.
      * lia.
      * rewrite Hacc. simpl. now rewrite <- !app_assoc.
      * intros [|j] Hj; simpl.
        -- exact E.
        -- specialize (Hfit j ltac:(lia)).
           rewrite <- !app_assoc in *. simpl in *. exact Hfit.
      * intros Hlt. specialize (Hnext ltac:(lia)).
        simpl. rewrite <- !app_assoc in *. simpl in *. exact Hnext.
Qed.

Lemma split_re_from_nonempty pat skip cur s : split_re_from pat skip cur s <> [].
Proof.
  revert skip cur; induction s as [|c s IH]; intros skip cur; simpl; [discriminate|].
  destruct skip; [|apply IH].
  destruct (match_here pat false (c :: s)) as [[|n]|]; try apply IH. discriminate.
Qed.

End CompanyInsights.

(** C9: the result never exceeds 3000 characters.  A text within the
    budget is only trimmed.  For a longer text, when the first paragraph
    fits, the result is (the trimmed form of) the first [k >= 1] whole
    paragraphs, where every paragraph taken fitted and the next one, if
    any, would exceed the budget; when the first paragraph alone exceeds
    the budget, the result is the text cut at 3000 characters (and
    trimmed). *)
Theorem extractCompanyInsights_budget (content : jsstring) :
  let out := extractCompanyInsights content in
  let paragraphs := split_re paragraph_break content in
  length out <= 3000
  /\ (length content <= 3000 -> out = trim content)
  /\ (3000 < length content ->
      if length (nth 0 paragraphs []) <=? 3000 then
        exists k,
          1 <= k <= length paragraphs
          /\ out = trim (wholeParagraphs k paragraphs)
          /\ (forall j, j < k ->
                length (wholeParagraphs j paragraphs ++ nth j paragraphs []) <= 3000)
          /\ (k < length paragraphs ->
                3000 < length (wholeParagraphs k paragraphs ++ nth k paragraphs []))
      else out = trim (firstn 3000 content)).
Proof.
  cbv zeta. unfold extractCompanyInsights.
  change maxLength with 3000 in *.
  destruct (3000 <? length content) eqn:Elen.
  2:{ apply Nat.ltb_ge in Elen. split; [|split].
      - etransitivity; [apply trim_length|exact Elen].
      - reflexivity.
      - lia. }
  apply Nat.ltb_lt in Elen.
  set (paragraphs := split_re paragraph_break content).
  destruct (accumulate_greedy paragraphs []) as (k & Hk & Hacc & Hfit & Hnext).
  change maxLength with 3000 in *. simpl in Hacc, Hfit, Hnext.
  assert (Hne : paragraphs <> []) by apply split_re_from_nonempty.
  assert (Hpos : 0 < length paragraphs) by (destruct paragraphs; simpl; [congruence|lia]).
  destruct k as [|k].
  - (* the first paragraph alone exceeds the budget *)
    specialize (Hnext Hpos). unfold wholeParagraphs in Hnext, Hacc. simpl in Hnext, Hacc.
    rewrite Hacc. change (length (@nil ascii) =? 0) with true. cbv iota.
    assert (E : (length (nth 0 paragraphs []) <=? 3000) = false) by (apply Nat.leb_gt; exact Hnext).
    rewrite E. split; [|split].
    + etransitivity; [apply trim_length|]. unfold substring0. apply firstn_le_length.
    + lia.
    + reflexivity.
  - (* at least one whole paragraph was taken *)
    assert (E : (length (nth 0 paragraphs []) <=? 3000) = true).
    { apply Nat.leb_le. apply (Hfit 0). lia. }
    rewrite E, Hacc.
    assert (Hlen : (length (wholeParagraphs (S k) paragraphs) =? 0) = false).
    { apply Nat.eqb_neq. rewrite wholeParagraphs_S by lia.
      rewrite !length_app. simpl. lia. }
    rewrite Hlen. split; [|split].
    + rewrite wholeParagraphs_S by lia. rewrite app_assoc, trim_blank_line.
      etransitivity; [apply trim_length|]. apply Hfit. lia.
    + lia.
    + intros _. exists (S k). repeat split; auto; lia.
Qed.

Lemma extractCompanyInsights_witness :
  (length (js "  About us  ") <= 3000
   /\ extractCompanyInsights (js "  About us  ") = trim (js "  About us  "))
  /\ (3000 < length longLine
      /\ extractCompanyInsights longLine = trim (firstn 3000 longLine))
  /\ (3000 < length twoParagraphs
      /\ exists k,
           1 <= k <= length (split_re paragraph_break twoParagraphs)
           /\ extractCompanyInsights twoParagraphs
              = trim (wholeParagraphs k (split_re paragraph_break twoParagraphs))).
Proof.
  split; [|split].
  - assert (H : length (js "  About us  ") <= 3000) by (vm_compute; lia).
    split; [exact H|].
    exact (proj1 (proj2 (extractCompanyInsights_budget (js "  About us  "))) H).
  - assert (H : 3000 < length longLine) by (apply Nat.ltb_lt; vm_compute; reflexivity).
    split; [exact H|].
    pose proof (proj2 (proj2 (extractCompanyInsights_budget longLine)) H) as T.
    cbv zeta in T.
    assert (C : (length (nth 0 (split_re paragraph_break longLine) []) <=? 3000) = false)
      by (vm_compute; reflexivity).
    rewrite C in T. exact T.
  - assert (H : 3000 < length twoParagraphs)
      by (apply Nat.ltb_lt; vm_compute; reflexivity).
    split; [exact H|].
    pose proof (proj2 (proj2 (extractCompanyInsights_budget twoParagraphs)) H) as T.
    cbv zeta in T.
    assert (C : (length (nth 0 (split_re paragraph_break twoParagraphs) []) <=? 3000) = true)
      by (vm_compute; reflexivity).
    rewrite C in T. destruct T as (k & Hk & E & _).
    exists k. split; [exact Hk|exact E].
Defined.

(** Of the two paragraphs the first alone is kept. *)
Example extractCompanyInsights_two_paragraphs :
  extractCompanyInsights twoParagraphs = repeat "a"%char 2000.
Proof. vm_compute. reflexivity. Qed.

(** ** CSV round trip *)

Section Objects.

Context {V : Type}.

Lemma get_set (o : obj V) (k k' : jsstring) (v : V) :
  get (set o k v) k' = if jseqb k k' then Some v else get o k'.
Proof.
  induction o as [|[k0 v0] o IH]; simpl; [reflexivity|].
  destruct (jseqb k0 k) eqn:E; simpl.
  - apply jseqb_eq in E. subst k0. destruct (jseqb k k'); reflexivity.
  - rewrite IH. destruct (jseqb k0 k') eqn:E0, (jseqb k k') eqn:E1; try reflexivity.
    apply jseqb_eq in E0, E1. subst. now rewrite jseqb_refl in E.
Qed.

Lemma get_keys (o : obj V) (k : jsstring) :
  In k (keys o) <-> exists v, get o k = Some v.
Proof.
  induction o as [|[k0 v0] o IH]; simpl.
  - split; [tauto|]. intros [v H]. discriminate.
  - destruct (jseqb k0 k) eqn:E.
    + apply jseqb_eq in E. split; [eauto|auto].
    + apply jseqb_neq in E. rewrite IH. tauto.
Qed.

Lemma get_none (o : obj V) (k : jsstring) : ~ In k (keys o) -> get o k = None.
Proof.
  intros H. destruct (get o k) eqn:E; [|reflexivity].
  exfalso. apply H, get_keys. eauto.
Qed.

Lemma keys_set (o : obj V) (k : jsstring) (v : V) :
  keys (set o k v) = if mem k (keys o) then keys o else keys o ++ [k].
Proof.
  unfold mem. induction o as [|[k0 v0] o IH]; simpl; [reflexivity|].
  destruct (jseqb k0 k) eqn:E.
  - assert (E' : jseqb k k0 = true) by (apply jseqb_eq; apply jseqb_eq in E; auto).
    now rewrite E'.
  - assert (E' : jseqb k k0 = false).
    { apply jseqb_neq. apply jseqb_neq in E. auto. }
    rewrite E'. simpl. unfold keys in *. rewrite IH.
    destruct (existsb (jseqb k) (map fst o)); reflexivity.
Qed.

Lemma mem_In (k : jsstring) (l : list jsstring) : mem k l = true <-> In k l.
Proof.
  unfold mem. rewrite existsb_exists. split.
  - intros (x & Hx & E). apply jseqb_eq in E. now subst.
  - intros H. exists k. split; [assumption|apply jseqb_refl].
Qed.

Lemma NoDup_set (o : obj V) (k : jsstring) (v : V) :
  NoDup (keys o) -> NoDup (keys (set o k v)).
Proof.
  intros H. rewrite keys_set. destruct (mem k (keys o)) eqn:E; [assumption|].
  apply NoDup_app; [assumption|repeat constructor; simpl; tauto|].
  intros x Hx [<-|[]]. apply mem_In in Hx. congruence.
Qed.

(** An assignment writes nothing under [__proto__]. *)
Lemma get_assign (o : obj V) (k k' : jsstring) (v : V) :
  get (assign o k v) k'
  = if jseqb k proto then get o k' else if jseqb k k' then Some v else get o k'.
Proof. unfold assign. destruct (jseqb k proto); [reflexivity|apply get_set]. Qed.

Lemma NoDup_assign (o : obj V) (k : jsstring) (v : V) :
  NoDup (keys o) -> NoDup (keys (assign o k v)).
Proof. unfold assign. destruct (jseqb k proto); [auto|apply NoDup_set]. Qed.

Lemma get_without (o : obj V) (k0 k : jsstring) :
  get (without k0 o) k = if jseqb k0 k then None else get o k.
Proof.
  unfold without. induction o as [|[k1 v1] o IH]; simpl.
  - now destruct (jseqb k0 k).
  - destruct (jseqb k1 k0) eqn:E; simpl.
    + rewrite IH. apply jseqb_eq in E. subst. now destruct (jseqb k0 k).
    + rewrite IH. destruct (jseqb k1 k) eqn:E1; [|reflexivity].
      apply jseqb_eq in E1. subst.
      destruct (jseqb k0 k) eqn:E2; [|reflexivity].
      apply jseqb_eq in E2. subst. now rewrite jseqb_refl in E.
Qed.

Lemma NoDup_without (o : obj V) (k0 : jsstring) :
  NoDup (keys o) -> NoDup (keys (without k0 o)).
Proof.
  unfold without, keys. induction o as [|[k1 v1] o IH]; simpl; intros H; [constructor|].
  inversion H as [|? ? Hin Hnd]; subst.
  destruct (jseqb k1 k0); simpl; auto.
  constructor; auto. intros Hc. apply Hin.
  apply in_map_iff in Hc as (x & <- & Hx). apply filter_In in Hx as [Hx _].
  now apply in_map.
Qed.

(** [{ ...a, ...b }]: the properties of [b] win. *)
Lemma get_spread (a b : obj V) (k : jsstring) :
  NoDup (keys b) ->
  get (spread a b) k = match get b k with Some v => Some v | None => get a k end.
Proof.
  unfold spread. revert a; induction b as [|[k0 v0] b IH]; intros a H; [reflexivity|].
  simpl in *. inversion H as [|? ? Hin Hnd]; subst.
  rewrite IH by assumption. rewrite get_set.
  destruct (jseqb k0 k) eqn:E; [|reflexivity].
  apply jseqb_eq in E. subst. now rewrite (get_none b k Hin).
Qed.

Lemma keys_spread (a b : obj V) (k : jsstring) :
  In k (keys (spread a b)) <-> In k (keys a) \/ In k (keys b).
Proof.
  unfold spread. revert a; induction b as [|[k0 v0] b IH]; intros a; simpl; [tauto|].
  rewrite IH, keys_set. destruct (mem k0 (keys a)) eqn:E.
  - apply mem_In in E. intuition (subst; auto).
  - rewrite in_app_iff. simpl. tauto.
Qed.

End Objects.

(** *** The order of enumeration *)

Section Enumeration.

Lemma insertIndex_perm (k : jsstring) (l : list jsstring) :
  Permutation (insertIndex k l) (k :: l).
Proof.
  induction l as [|x l IH]; [reflexivity|]. cbn [insertIndex].
  destruct (indexLeb k x); [reflexivity|].
  rewrite IH. apply perm_swap.
Qed.

Lemma sortIndices_perm (l : list jsstring) : Permutation (sortIndices l) l.
Proof.
  induction l as [|x l IH]; [reflexivity|]. cbn [sortIndices fold_right].
  fold (sortIndices l). rewrite insertIndex_perm. now constructor.
Qed.

Lemma filter_partition_perm (A : Type) (p : A -> bool) (l : list A) :
  Permutation (filter p l ++ filter (fun x => negb (p x)) l) l.
Proof.
  induction l as [|x l IH]; [reflexivity|]. cbn [filter].
  destruct (p x); cbn [negb app].
  - now constructor.
  - rewrite <- Permutation_middle. now constructor.
Qed.

(** [Object.keys] lists every own property once. *)
Lemma ownKeys_perm (V : Type) (o : obj V) : Permutation (ownKeys o) (keys o).
Proof.
  unfold ownKeys. rewrite sortIndices_perm. apply filter_partition_perm.
Qed.

Lemma ownKeys_In (V : Type) (o : obj V) (k : jsstring) :
  In k (ownKeys o) <-> In k (keys o).
Proof.
  split; apply Permutation_in; [apply ownKeys_perm|symmetry; apply ownKeys_perm].
Qed.

Lemma ownKeys_NoDup (V : Type) (o : obj V) : NoDup (keys o) -> NoDup (ownKeys o).
Proof.
  intros H. apply (Permutation_NoDup (l := keys o)); [|exact H].
  symmetry. apply ownKeys_perm.
Qed.

(** [Object.entries] lists every own property with its value. *)
Lemma get_picked (V : Type) (o : obj V) (ks : list jsstring) (k : jsstring) :
  get (flat_map (fun k => match get o k with Some v => [(k, v)] | None => [] end) ks) k
  = if mem k ks then get o k else None.
Proof.
  induction ks as [|k0 ks IH]; [reflexivity|]. cbn [flat_map]. unfold mem in *.
  cbn [existsb]. destruct (jseqb k k0) eqn:E.
  - apply jseqb_eq in E. subst k0. cbn [orb].
    destruct (get o k) as [v|] eqn:G; cbn [app get].
    + now rewrite jseqb_refl.
    + rewrite IH. now destruct (existsb (jseqb k) ks).
  - cbn [orb]. destruct (get o k0) as [v|]; cbn [app get]; [|exact IH].
    assert (E' : jseqb k0 k = false).
    { apply jseqb_neq. apply jseqb_neq in E. congruence. }
    now rewrite E'.
Qed.

Lemma get_entries (V : Type) (o : obj V) (k : jsstring) :
  get (entries o) k = get o k.
Proof.
  unfold entries. rewrite get_picked. destruct (mem k (ownKeys o)) eqn:M; [reflexivity|].
  symmetry. apply get_none. intros Hin. apply ownKeys_In, mem_In in Hin. congruence.
Qed.

Lemma keys_entries (V : Type) (o : obj V) : keys (entries o) = ownKeys o.
Proof.
  unfold entries.
  assert (H : forall ks, (forall k, In k ks -> In k (keys o)) ->
                         keys (flat_map (fun k => match get o k with
                                                  | Some v => [(k, v)]
                                                  | None => []
                                                  end) ks) = ks).
  { induction ks as [|k ks IH]; intros Hin; [reflexivity|]. cbn [flat_map].
    destruct (proj1 (get_keys o k) (Hin k (or_introl eq_refl))) as [v ->].
    cbn [app keys map fst]. f_equal. apply IH. intros k' Hk'. apply Hin. now right. }
  apply H. intros k. apply ownKeys_In.
Qed.

Lemma NoDup_entries (V : Type) (o : obj V) :
  NoDup (keys o) -> NoDup (keys (entries o)).
Proof. intros H. rewrite keys_entries. now apply ownKeys_NoDup. Qed.

Lemma digitsLeb_total (a b : jsstring) :
  length a = length b -> digitsLeb a b = false -> digitsLeb b a = true.
Proof.
  revert b. induction a as [|x a IH]; intros [|y b] L H; try discriminate.
  cbn [digitsLeb] in *. cbn [length] in L. injection L as L.
  destruct (code x <? code y) eqn:E1; [discriminate|]. cbn [orb] in H.
  destruct (code y <? code x) eqn:E2; [reflexivity|]. cbn [orb].
  apply Nat.ltb_ge in E1, E2.
  assert (E : code x = code y) by lia.
  rewrite E, Nat.eqb_refl in *. cbn [andb] in *. now apply IH.
Qed.

Lemma indexLeb_total (a b : jsstring) : indexLeb a b = false -> indexLeb b a = true.
Proof.
  unfold indexLeb. intros H. apply orb_false_elim in H as [H1 H2].
  apply Nat.ltb_ge in H1.
  destruct (length b <? length a) eqn:E; [reflexivity|]. apply Nat.ltb_ge in E.
  assert (L : length a = length b) by lia.
  rewrite L, Nat.eqb_refl in *. cbn [orb andb] in *. now apply digitsLeb_total.
Qed.

Lemma insertIndex_sorted (k : jsstring) (l : list jsstring) :
  Sorted (fun a b => indexLeb a b = true) l ->
  Sorted (fun a b => indexLeb a b = true) (insertIndex k l).
Proof.
  induction l as [|x l IH]; intros H; [repeat constructor|]. cbn [insertIndex].
  destruct (indexLeb k x) eqn:E.
  - constructor; [assumption|]. now constructor.
  - inversion H as [|? ? Hs Hh]; subst. constructor; [now apply IH|].
    destruct l as [|y l]; cbn [insertIndex].
    + constructor. now apply indexLeb_total.
    + destruct (indexLeb k y); constructor.
      * now apply indexLeb_total.
      * now inversion Hh.
Qed.

(** The array indices come in ascending order. *)
Lemma sortIndices_sorted (l : list jsstring) :
  Sorted (fun a b => indexLeb a b = true) (sortIndices l).
Proof.
  induction l as [|x l IH]; [constructor|]. cbn [sortIndices fold_right].
  now apply insertIndex_sorted.
Qed.

End Enumeration.

(** *** The website column and the order of [Object.keys] *)

Lemma digit_fixed (ch : ascii) :
  is_digit ch = true ->
  lower_char ch = ch
  /\ (is_char "_" ch || is_space ch || is_char "-" ch) = false.
Proof.
  destruct ch as [b0 b1 b2 b3 b4 b5 b6 b7].
  destruct b0, b1, b2, b3, b4, b5, b6, b7; vm_compute; intros H;
    try discriminate H; split; reflexivity.
Qed.

Lemma normalizeColumn_digits (c : jsstring) :
  forallb is_digit c = true -> normalizeColumn c = c.
Proof.
  unfold normalizeColumn, remove_all_chars, toLowerCase.
  induction c as [|ch c IH]; [reflexivity|]. cbn [forallb map filter].
  intros H. apply andb_true_iff in H as [Hd H].
  destruct (digit_fixed ch Hd) as [-> ->]. cbn [negb]. now rewrite IH.
Qed.

(** No alias is an array index. *)
Lemma alias_not_index (a : string) (c : jsstring) :
  In a websiteAliases -> isArrayIndex c = true ->
  jseqb (normalizeColumn c) (js a) = false.
Proof.
  intros Ha Hc.
  assert (D : forallb is_digit c = true).
  { destruct c as [|ch c]; [discriminate Hc|]. unfold isArrayIndex in Hc.
    apply andb_true_iff in Hc as [Hc _]. now apply andb_true_iff in Hc as [Hc _]. }
  rewrite (normalizeColumn_digits c D). apply jseqb_neq. intros ->.
  assert (H : forallb (fun a => negb (forallb is_digit (js a))) websiteAliases = true)
    by (vm_compute; reflexivity).
  rewrite forallb_forall in H. specialize (H a Ha). rewrite D in H. discriminate H.
Qed.

Lemma indexOf_lt (l : list jsstring) (x : jsstring) (i : nat) :
  indexOf l x = Some i -> i < length l.
Proof.
  revert i. induction l as [|y l IH]; intros i H; [discriminate H|].
  cbn [indexOf] in H. destruct (jseqb y x).
  - injection H as <-. cbn [length]. lia.
  - destruct (indexOf l x) as [j|]; [|discriminate H]. injection H as <-.
    specialize (IH j eq_refl). cbn [length]. lia.
Qed.

Lemma index_indexOf (columns : list jsstring) (x : jsstring) :
  match indexOf (map normalizeColumn columns) x with
  | Some i => index columns i
  | None => None
  end = find (fun c => jseqb (normalizeColumn c) x) columns.
Proof.
  induction columns as [|c columns IH]; [reflexivity|]. cbn [map indexOf find].
  destruct (jseqb (normalizeColumn c) x); [reflexivity|].
  destruct (indexOf (map normalizeColumn columns) x); exact IH.
Qed.

(** One turn of the loop over the aliases picks the first column of that
    normalised name. *)
Lemma firstAlias_step (columns : list jsstring) (a : string) (rest : list string) :
  firstAlias columns (map normalizeColumn columns) (a :: rest)
  = match find (fun c => jseqb (normalizeColumn c) (js a)) columns with
    | Some k => Some k
    | None => firstAlias columns (map normalizeColumn columns) rest
    end.
Proof.
  cbn [firstAlias]. rewrite <- index_indexOf.
  destruct (indexOf (map normalizeColumn columns) (js a)) as [i|] eqn:E; [|reflexivity].
  destruct (index columns i) eqn:I; [reflexivity|].
  apply indexOf_lt in E. rewrite length_map in E.
  unfold index in I. apply nth_error_None in I. lia.
Qed.

Lemma find_app_none (A : Type) (p : A -> bool) (a b : list A) :
  (forall x, In x a -> p x = false) -> find p (a ++ b) = find p b.
Proof.
  induction a as [|x a IH]; intros H; [reflexivity|]. cbn [app find].
  rewrite (H x (or_introl eq_refl)). apply IH. intros y Hy. apply H. now right.
Qed.

Lemma find_filter (A : Type) (p q : A -> bool) (l : list A) :
  (forall x, p x = true -> q x = true) -> find p (filter q l) = find p l.
Proof.
  intros H. induction l as [|x l IH]; [reflexivity|]. cbn [filter find].
  destruct (q x) eqn:Q; cbn [find].
  - now rewrite IH.
  - destruct (p x) eqn:P; [|exact IH]. rewrite (H x P) in Q. discriminate Q.
Qed.

(** [findWebsiteColumn(Object.keys(record))] goes by the order of the
    columns that are not array indices, which [Object.keys] keeps: it
    chooses as on the columns in the order of their creation. *)
Lemma findWebsiteColumn_ownKeys (V : Type) (record : obj V) :
  findWebsiteColumn (ownKeys record) = findWebsiteColumn (keys record).
Proof.
  unfold findWebsiteColumn.
  assert (H : forall aliases,
             (forall a, In a aliases -> In a websiteAliases) ->
             firstAlias (ownKeys record) (map normalizeColumn (ownKeys record)) aliases
             = firstAlias (keys record) (map normalizeColumn (keys record)) aliases);
    [|apply H; auto].
  induction aliases as [|a aliases IH]; intros Hin; [reflexivity|].
  rewrite !firstAlias_step, IH by (intros a' Ha'; apply Hin; now right).
  assert (Ha : In a websiteAliases) by (apply Hin; now left).
  assert (F : find (fun c => jseqb (normalizeColumn c) (js a)) (ownKeys record)
              = find (fun c => jseqb (normalizeColumn c) (js a)) (keys record)).
  { unfold ownKeys. rewrite find_app_none.
    - apply find_filter. intros c Hc.
      destruct (isArrayIndex c) eqn:I; [|reflexivity].
      rewrite (alias_not_index a c Ha I) in Hc. discriminate Hc.
    - intros c Hc. apply (Permutation_in _ (sortIndices_perm _)) in Hc.
      apply filter_In in Hc. destruct Hc as [_ I]. now apply alias_not_index. }
  now rewrite F.
Qed.


Section RoundTrip.


(** The non-empty properties are collected, the empty ones and a property
    called [__proto__] dropped. *)
Lemma get_collect (rest acc : obj jsstring) (k : jsstring) :
  NoDup (keys rest) ->
  get (fold_left (fun e kv => nonEmptyOnly kv e) rest acc) k
  = match get rest k with
    | Some v => if truthy (Some v) && negb (jseqb k proto) then Some v else get acc k
    | None => get acc k
    end.
Proof.
  revert acc; induction rest as [|[k0 v0] rest IH]; intros acc H; [reflexivity|].
  simpl in *. inversion H as [|? ? Hin Hnd]; subst.
  rewrite IH by assumption. unfold nonEmptyOnly. simpl.
  destruct (jseqb k0 k) eqn:E.
  - apply jseqb_eq in E. subst. rewrite (get_none rest k Hin).
    destruct v0; [reflexivity|]. rewrite get_assign, jseqb_refl.
    now destruct (jseqb k proto).
  - destruct v0; [reflexivity|]. rewrite get_assign, E.
    now destruct (jseqb k0 proto).
Qed.

Lemma NoDup_collect (rest acc : obj jsstring) :
  NoDup (keys acc) ->
  NoDup (keys (fold_left (fun e kv => nonEmptyOnly kv e) rest acc)).
Proof.
  revert acc; induction rest as [|kv rest IH]; intros acc H; [assumption|].
  simpl. apply IH. unfold nonEmptyOnly. destruct (truthy (Some (snd kv))); [|assumption].
  now apply NoDup_assign.
Qed.

Lemma get_collectExtra (rest : obj jsstring) (k : jsstring) :
  NoDup (keys rest) ->
  get (collectExtra rest) k
  = match get rest k with
    | Some v => if truthy (Some v) && negb (jseqb k proto) then Some v else None
    | None => None
    end.
Proof.
  intros H. unfold collectExtra.
  change (fun (extraFields : obj jsstring) (kv : jsstring * jsstring) =>
            if truthy (Some (snd kv)) then assign extraFields (fst kv) (snd kv)
            else extraFields)
    with (fun (e : obj jsstring) (kv : jsstring * jsstring) => nonEmptyOnly kv e).
  rewrite (get_collect (entries rest) [] k (NoDup_entries _ rest H)).
  now rewrite get_entries.
Qed.

Lemma get_cells (e : obj jsstring) (k : jsstring) :
  get (map (fun kv => (fst kv, Some (snd kv))) e) k = option_map Some (get e k).
Proof.
  induction e as [|[k0 v0] e IH]; simpl; [reflexivity|].
  destruct (jseqb k0 k); [reflexivity|assumption].
Qed.

Lemma keys_cells (e : obj jsstring) :
  keys (map (fun kv : jsstring * jsstring => (fst kv, Some (snd kv))) e) = keys e.
Proof. unfold keys. rewrite map_map. reflexivity. Qed.

Lemma findWebsiteColumn_In (columns : list jsstring) (k : jsstring) :
  findWebsiteColumn columns = Some k -> In k columns.
Proof.
  unfold findWebsiteColumn. generalize (map normalizeColumn columns) as normalized.
  intros normalized. induction websiteAliases as [|alias rest IH]; simpl; [discriminate|].
  destruct (indexOf normalized (js alias)); [|assumption].
  unfold index. apply nth_error_In.
Qed.


Lemma mapThrowing_Forall2 (A B : Type) (f : A -> option B) (l : list A) (l' : list B) :
  mapThrowing f l = Some l' -> Forall2 (fun x y => f x = Some y) l l'.
Proof.
  revert l'; induction l as [|x l IH]; intros l'; simpl.
  - intros [= <-]. constructor.
  - destruct (f x) as [y|] eqn:E; [|discriminate].
    destruct (mapThrowing f l) as [ys|]; [|discriminate].
    intros [= <-]. constructor; auto.
Qed.

(** The remaining columns of a record, after the three recognised ones. *)
Lemma get_rest (record : obj jsstring) (websiteKey k : jsstring) :
  get (without (js "name") (without (js "company") (without websiteKey record))) k
  = if jseqb (js "name") k then None
    else if jseqb (js "company") k then None
    else if jseqb websiteKey k then None
    else get record k.
Proof. now rewrite !get_without. Qed.

(** The rest of a freshly initialised lead: its five own properties that
    hold a string or [undefined]. *)
Lemma rest_initialized (lead : Lead) :
  restOfLead (initializedObject lead)
  = [ (js "website", Some (l_website lead));
      (js "company", l_company lead);
      (js "name", l_name lead);
      (js "enrichmentStatus",
       Some (status_name (enrichmentStatus (initializeLead lead))));
      (js "errorMessage", errorMessage (initializeLead lead)) ].
Proof. reflexivity. Qed.

(** The cell of a freshly initialised lead under one header. *)
Lemma get_flattened (lead : Lead) (extra : obj jsstring) (k : jsstring) :
  NoDup (keys extra) ->
  (l_extraFields lead = Some extra \/ (l_extraFields lead = None /\ extra = [])) ->
  get (flattenLead (initializedObject lead)) k
  = match get extra k with
    | Some v => Some (Some v)
    | None => get (restOfLead (initializedObject lead)) k
    end.
Proof.
  intros Hnd Hex. unfold flattenLead.
  match goal with |- context [spread _ ?b] => set (cells := b) end.
  assert (E : cells = map (fun kv => (fst kv, Some (snd kv))) extra).
  { unfold cells. simpl. destruct Hex as [-> | [-> ->]]; reflexivity. }
  rewrite E, get_spread by (now rewrite keys_cells).
  rewrite get_cells. now destruct (get extra k).
Qed.

Lemma rest_website (lead : Lead) :
  get (restOfLead (initializedObject lead)) (js "website") = Some (Some (l_website lead)).
Proof. reflexivity. Qed.

Lemma rest_company (lead : Lead) :
  get (restOfLead (initializedObject lead)) (js "company") = Some (l_company lead).
Proof. reflexivity. Qed.

Lemma rest_name (lead : Lead) :
  get (restOfLead (initializedObject lead)) (js "name") = Some (l_name lead).
Proof. reflexivity. Qed.

Lemma leadOfRecord_keeps (record : obj jsstring) (lead : Lead) :
  NoDup (keys record) ->
  leadOfRecord record = Some lead ->
  keepsOwnColumns record (flattenLead (initializedObject lead)).
Proof.
  intros Hnd. unfold leadOfRecord.
  destruct (findWebsiteColumn (ownKeys record)) as [websiteKey|] eqn:Ekey; [|discriminate].
  pose proof (findWebsiteColumn_In _ _ Ekey) as Hin. apply ownKeys_In in Hin.
  apply get_keys in Hin as [site Hsite]. rewrite Hsite.
  set (rest := without (js "name") (without (js "company") (without websiteKey record))).
  assert (Hrest : NoDup (keys rest)) by (unfold rest; now do 3 apply NoDup_without).
  set (extra := collectExtra rest).
  assert (Hextra : NoDup (keys extra)) by (apply NoDup_collect; constructor).
  intros [= <-].
  match goal with
  | |- keepsOwnColumns _ (flattenLead (initializedObject ?l)) => set (lead := l)
  end.
  assert (Hflat : forall k,
             get (flattenLead (initializedObject lead)) k
             = match get extra k with
               | Some v => Some (Some v)
               | None => get (restOfLead (initializedObject lead)) k
               end).
  { intros k. apply get_flattened; [assumption|]. unfold lead. simpl.
    destruct (0 <? length (keys extra)) eqn:E; [now left|right].
    split; [reflexivity|]. apply Nat.ltb_ge in E.
    destruct extra; [reflexivity|simpl in E; lia]. }
  assert (Hget : forall k,
             get extra k
             = match (if jseqb (js "name") k then None
                      else if jseqb (js "company") k then None
                      else if jseqb websiteKey k then None
                      else get record k) with
               | Some v => if truthy (Some v) && negb (jseqb k proto) then Some v else None
               | None => None
               end).
  { intros k. unfold extra. rewrite (get_collectExtra rest k Hrest).
    unfold rest. now rewrite get_rest. }
  exists websiteKey, site. repeat split; try assumption.
  - (* the website cell *)
    intros Hweb. rewrite Hflat, Hget.
    change (jseqb (js "name") (js "website")) with false.
    change (jseqb (js "company") (js "website")) with false. cbv iota.
    assert (E : match (if jseqb websiteKey (js "website") then None
                       else get record (js "website")) with
                | Some v => if truthy (Some v) && negb (jseqb (js "website") proto)
                            then Some v else None
                | None => None
                end = None).
    { destruct (jseqb websiteKey (js "website")) eqn:E; [reflexivity|].
      destruct Hweb as [->|Hweb]; [now rewrite jseqb_refl in E|].
      destruct (get record (js "website")) as [v|]; [|reflexivity].
      now rewrite Hweb. }
    rewrite E, rest_website. reflexivity.
  - (* company and name *)
    intros [->| ->]; rewrite Hflat, Hget.
    + change (jseqb (js "name") (js "company")) with false.
      rewrite jseqb_refl. cbv iota. rewrite rest_company.
      change (l_company lead) with (get record (js "company")). now f_equal.
    + rewrite jseqb_refl. cbv iota. rewrite rest_name.
      change (l_name lead) with (get record (js "name")). now f_equal.
  - (* a value that is kept *)
    intros [Hvalue Hproto]. rewrite Hflat, Hget.
    rewrite (proj2 (jseqb_neq (js "name") key)) by congruence.
    rewrite (proj2 (jseqb_neq (js "company") key)) by congruence.
    rewrite (proj2 (jseqb_neq websiteKey key)) by congruence.
    rewrite H. rewrite (proj2 (jseqb_neq key proto) Hproto).
    destruct value; [congruence|reflexivity].
  - (* a value that is dropped *)
    intros Hdrop Hpipe. rewrite Hflat, Hget.
    rewrite (proj2 (jseqb_neq (js "name") key)) by congruence.
    rewrite (proj2 (jseqb_neq (js "company") key)) by congruence.
    rewrite (proj2 (jseqb_neq websiteKey key)) by congruence.
    rewrite H.
    assert (E : (if truthy (Some value) && negb (jseqb key proto)
                 then Some value else None) = None).
    { destruct Hdrop as [->| ->]; [reflexivity|].
      rewrite jseqb_refl. now rewrite andb_false_r. }
    rewrite E, rest_initialized. unfold pipelineColumns in Hpipe. cbn [In] in Hpipe.
    cbn [get].
    rewrite (proj2 (jseqb_neq (js "website") key)) by tauto.
    rewrite (proj2 (jseqb_neq (js "company") key)) by congruence.
    rewrite (proj2 (jseqb_neq (js "name") key)) by congruence.
    rewrite (proj2 (jseqb_neq (js "enrichmentStatus") key)) by tauto.
    rewrite (proj2 (jseqb_neq (js "errorMessage") key)) by tauto.
    reflexivity.
Qed.

Lemma unique_concat_In (k : jsstring) (ls : list (list jsstring)) (l : list jsstring) :
  In l ls -> In k l -> In k (unique (concat ls)).
Proof. intros H1 H2. apply unique_In, in_concat. eauto. Qed.

(** The columns are the names of the properties of the rows. *)
Lemma allColumns_In (leads : list LeadObject) (column : jsstring) :
  In column (allColumns leads)
  <-> exists row, In row (flattenedLeads leads) /\ In column (keys row).
Proof.
  unfold allColumns. rewrite unique_In, in_concat. split.
  - intros (ks & Hks & Hc). apply in_map_iff in Hks. destruct Hks as (row & <- & Hrow).
    exists row. split; [assumption|]. now apply ownKeys_In.
  - intros (row & Hrow & Hc). exists (ownKeys row). split; [now apply in_map|].
    now apply ownKeys_In.
Qed.

Lemma orderedColumns_In (leads : list LeadObject) (column : jsstring) :
  In column (orderedColumns leads)
  <-> exists row, In row (flattenedLeads leads) /\ In column (keys row).
Proof.
  rewrite <- allColumns_In. unfold orderedColumns. cbv zeta.
  rewrite in_app_iff, !filter_In, mem_In. split.
  - intros [[H _]|[_ H]]; exact H.
  - intros H. destruct (mem column enrichedColumns) eqn:E.
    + right. split; [now apply mem_In|exact H].
    + left. split; [exact H|reflexivity].
Qed.

End RoundTrip.





(** The sample record: the empty [notes] column is not written, [name],
    which the record does not have, is. *)
Example csv_round_trip_sample :
  map (get (flattenLead (initializedObject sampleLead)))
      (orderedColumns (initializedObjects [sampleLead]))
  = [Some (Some (js "https://acme.io")); Some (Some (js "Acme")); Some None;
     Some (Some (js "123")); Some (Some (js "pending")); Some None]
  /\ orderedColumns (initializedObjects [sampleLead])
     = [js "website"; js "company"; js "name"; js "Phone";
        js "enrichmentStatus"; js "errorMessage"].
Proof. vm_compute. split; reflexivity. Qed.

(** Columns whose names are array indices come first, in ascending order,
    and a column called [__proto__] is not written. *)
Example csv_round_trip_index_columns :
  leadOfRecord indexRecord = Some indexLead
  /\ orderedColumns (initializedObjects [indexLead])
     = [js "7"; js "2024"; js "website"; js "company"; js "name"; js "007";
        js "enrichmentStatus"; js "errorMessage"].
Proof. vm_compute. split; reflexivity. Qed.

(** ** The scrape step *)

Section ScrapeStep.

Variable backend : Backend.

Lemma scrapeRequests_app (t1 t2 : list event) :
  scrapeRequests (t1 ++ t2) = scrapeRequests t1 ++ scrapeRequests t2.
Proof. unfold scrapeRequests. now rewrite flat_map_app. Qed.

Lemma fst_bind (A B : Type) (m : M A) (f : A -> M B) :
  fst (bind m f)
  = fst m ++ match snd m with Returned a => fst (f a) | Threw _ => [] end.
Proof.
  destruct m as [t [a|e]]; simpl; [|now rewrite app_nil_r].
  now destruct (f a).
Qed.

(** What one call of [scrapeUrl] does. *)
Lemma scrapeUrl_run (url : jsstring) :
  scrapeUrl backend url
  = if ready backend then ([ScrapeRequest url], scrape backend url)
    else ([], Threw (JsError (js "API not initialized"))).
Proof.
  unfold scrapeUrl. destruct (ready backend); simpl; [|reflexivity].
  now destruct (scrape backend url).
Qed.

(** The contact-page loop, when the backend is initialised: it asks for
    the guesses up to the first hit and returns that hit, or the main
    page's result. *)
Lemma tryContactPaths_requests (normalizedUrl : jsstring) (paths : list jsstring)
    (mainResult : ScrapeResult) :
  ready backend = true ->
  scrapeRequests (fst (tryContactPaths backend normalizedUrl paths mainResult))
  = upToFirstHit backend (map (app normalizedUrl) paths).
Proof.
  intros Hready. induction paths as [|path rest IH]; [reflexivity|].
  simpl tryContactPaths. simpl map. simpl upToFirstHit. unfold isHit.
  rewrite scrapeUrl_run, Hready.
  destruct (scrape backend (normalizedUrl ++ path)) as [r|e]; simpl.
  - destruct (foundEmail r); simpl; [reflexivity|].
    destruct (tryContactPaths backend normalizedUrl rest mainResult) as [t o] eqn:E.
    simpl in *. now rewrite IH.
  - destruct (tryContactPaths backend normalizedUrl rest mainResult) as [t o] eqn:E.
    simpl in *. now rewrite IH.
Qed.

(** The requests of the whole scrape step. *)
Lemma scrapeForContact_requests (baseUrl : jsstring) :
  scrapeRequests (fst (scrapeForContact backend baseUrl))
  = if ready backend then
      baseUrl
      :: match scrape backend baseUrl with
         | Returned r =>
             if foundEmail r then []
             else upToFirstHit backend
                    (map (app (withoutTrailingSlash baseUrl)) contactPaths)
         | Threw _ => []
         end
    else [].
Proof.
  unfold scrapeForContact. rewrite fst_bind, scrapeUrl_run.
  destruct (ready backend) eqn:Hready; [|reflexivity].
  cbn [fst snd]. destruct (scrape backend baseUrl) as [r|e]; [|reflexivity].
  rewrite scrapeRequests_app.
  change (scrapeRequests [ScrapeRequest baseUrl]) with [baseUrl]. cbn [app]. f_equal.
  destruct (foundEmail r); [reflexivity|].
  now apply tryContactPaths_requests.
Qed.

End ScrapeStep.

Lemma span_le (p : ascii -> bool) (s : jsstring) : span p s <= length s.
Proof. induction s as [|c s IH]; simpl; [lia|]. destruct (p c); lia. Qed.

Lemma match_here_le (pat : pattern) (dollar : bool) (s : jsstring) (n : nat) :
  match_here pat dollar s = Some n -> n <= length s.
Proof.
  revert s n; induction pat as [|a pat IH]; intros s n H.
  - simpl in H. destruct dollar; [destruct s; [|discriminate]|];
      injection H as <-; lia.
  - apply match_here_cons in H as (j & r & _ & Hj & _ & Hr & ->).
    apply IH in Hr. rewrite length_skipn in Hr.
    pose proof (span_le (cls a) s). lia.
Qed.

(** A search finds its match inside the string. *)
Lemma search_from_bounds (pat : pattern) (dollar : bool) (z : nat) (s : jsstring)
    (i n : nat) :
  search_from pat dollar z s = Some (i, n) ->
  z <= i /\ (i - z) + n <= length s
  /\ match_here pat dollar (skipn (i - z) s) = Some n.
Proof.
  revert z; induction s as [|c s IH]; intros z; simpl.
  - destruct (match_here pat dollar []) as [m|] eqn:E; [|discriminate].
    intros [= <- <-]. apply match_here_le in E as L. simpl in L.
    rewrite Nat.sub_diag. simpl. repeat split; try lia. assumption.
  - destruct (match_here pat dollar (c :: s)) as [m|] eqn:E.
    + intros [= <- <-]. apply match_here_le in E as L. simpl in L.
      rewrite Nat.sub_diag. simpl. repeat split; try lia. assumption.
    + intros H. apply IH in H as (H1 & H2 & H3).
      replace (i - z) with (S (i - S z)) by lia. simpl. repeat split; try lia.
      assumption.
Qed.

(** [/\/$/] removes at most one character. *)
Lemma withoutTrailingSlash_length (baseUrl : jsstring) :
  length baseUrl <= length (withoutTrailingSlash baseUrl) + 1.
Proof.
  unfold withoutTrailingSlash, remove_first.
  destruct (search_from [chr "/"] true 0 baseUrl) as [[i n]|] eqn:S; [|lia].
  apply search_from_bounds in S as (_ & Hlen & Hm).
  apply match_here_cons in Hm as (j & r & _ & _ & Hhi & Hr & ->).
  specialize (Hhi 1 eq_refl). simpl in Hr.
  destruct (skipn j (skipn (i - 0) baseUrl)); [|discriminate].
  injection Hr as <-. rewrite length_app, length_firstn, length_skipn. lia.
Qed.

(** ** One lead *)

Section OneLeadFacts.

Variable url_hostname : jsstring -> option jsstring.
Variable backend : Backend.

Lemma extractEmails_run (content domain : jsstring) :
  extractEmails backend content domain
  = if ready backend then ([ExtractRequest content domain], extract backend content domain)
    else ([], Threw (JsError (js "API not initialized"))).
Proof.
  unfold extractEmails. destruct (ready backend); simpl; [|reflexivity].
  now destruct (extract backend content domain).
Qed.

Lemma extractEmails_no_scrape (content domain : jsstring) :
  scrapeRequests (fst (extractEmails backend content domain)) = [].
Proof. rewrite extractEmails_run. now destruct (ready backend). Qed.

(** A lead with an invalid domain is skipped at once. *)
Lemma enrichLead_invalid (l : EnrichedLead) (options : EnrichOptions) :
  hasValidDomain l = false ->
  enrichLead url_hostname backend l options = ([], Returned (skippedResult l)).
Proof. intros H. unfold enrichLead. now rewrite H. Qed.

(** The [try]/[catch] of [enrichLead] leaves no exception through. *)
Lemma try_catch_catchBlock (m : M EnrichmentResult) (result : EnrichmentResult) :
  exists t r, try_catch m (catchBlock result) = (t, Returned r).
Proof. destruct m as [t [r|e]]; simpl; eauto. Qed.

Lemma enrichLead_returns (l : EnrichedLead) (options : EnrichOptions) :
  exists t r, enrichLead url_hostname backend l options = (t, Returned r).
Proof.
  unfold enrichLead. destruct (hasValidDomain l); cbn [negb].
  - apply try_catch_catchBlock.
  - unfold ret. eauto.
Qed.

(** The phase-1 processing of a lead with a valid domain, case by case. *)
Lemma enrichLead_phase1 (l : EnrichedLead) :
  hasValidDomain l = true ->
  let domain := extractDomain url_hostname (website l) in
  let started := set_lead (with_status processing) (mkResult l None None None) in
  enrichLead url_hostname backend l phase1Options
  = match scrapeForContact backend (website l) with
    | (t, Threw e) => (t ++ [], snd (catchBlock started e))
    | (t, Returned r) =>
        let scraped := mkResult (lead started) (Some r) None None in
        if negb (s_success r) || negb (truthy (s_markdown r)) then
          (t ++ [],
           Returned
             (set_lead
                (fun l =>
                   with_errorMessage
                     (Some (if truthy (s_error r)
                            then match s_error r with Some e => e | None => [] end
                            else js "Failed to scrape website"))
                     (with_status failed l))
                scraped))
        else
          let markdown := match s_markdown r with Some md => md | None => [] end in
          match extractEmails backend markdown domain with
          | (t', Threw e) => (t ++ t' ++ [], snd (catchBlock scraped e))
          | (t', Returned er) =>
              let extracted := mkResult (lead scraped) (Some r) (Some er) None in
              (t ++ t' ++ [],
               Returned
                 (set_lead (with_status completed)
                    (if e_success er && truthy (e_primaryEmail er)
                     then set_lead (with_email (e_primaryEmail er)) extracted
                     else extracted)))
          end
    end.
Proof.
  intros H. cbv zeta. unfold enrichLead. rewrite H. cbn [negb].
  destruct (scrapeForContact backend (website l)) as [t [r|e]]; [|reflexivity].
  cbn [bind try_catch]. destruct (negb (s_success r) || negb (truthy (s_markdown r))).
  - reflexivity.
  - destruct (extractEmails backend _ _) as [t' [er|e]]; reflexivity.
Qed.

(** A failed scrape step, and an extraction call that throws, leave the
    lead [failed] with its message. *)
Lemma enrichLead_failed (l : EnrichedLead) :
  hasValidDomain l = true ->
  scrapeFailed backend (website l)
  \/ extractionThrew backend (website l) (extractDomain url_hostname (website l)) ->
  exists t r, enrichLead url_hostname backend l phase1Options = (t, Returned r)
              /\ recordedAsFailed r.
Proof.
  intros H Hfail. rewrite (enrichLead_phase1 l H). cbv zeta.
  unfold scrapeFailed, extractionThrew in Hfail.
  destruct (scrapeForContact backend (website l)) as [t [r|e]]; simpl snd in Hfail.
  - destruct Hfail as [Hfail | (r' & md & e & [= <-] & Hs & Hmd & Htr & Hthrow)].
    + assert (E : negb (s_success r) || negb (truthy (s_markdown r)) = true).
      { destruct Hfail as [-> | ->]; [reflexivity|apply orb_true_r]. }
      rewrite E. eexists _, _. split; [reflexivity|]. split; [reflexivity|discriminate].
    + rewrite Hs, Hmd, Htr. cbn [negb orb].
      destruct (extractEmails backend md _) as [t' [er|e']]; simpl in Hthrow;
        [discriminate|].
      eexists _, _. split; [reflexivity|]. split; [reflexivity|discriminate].
  - eexists _, _. split; [reflexivity|]. split; [reflexivity|discriminate].
Qed.

(** Phase 1 asks for no page beyond those of the scrape step. *)
Lemma enrichLead_requests (l : EnrichedLead) :
  hasValidDomain l = true ->
  scrapeRequests (fst (enrichLead url_hostname backend l phase1Options))
  = scrapeRequests (fst (scrapeForContact backend (website l))).
Proof.
  intros H. rewrite (enrichLead_phase1 l H). cbv zeta.
  destruct (scrapeForContact backend (website l)) as [t [r|e]]; cbn [fst].
  - destruct (negb (s_success r) || negb (truthy (s_markdown r))).
    + cbn [fst]. now rewrite app_nil_r.
    + pose proof (extractEmails_no_scrape
                    match s_markdown r with Some md => md | None => [] end
                    (extractDomain url_hostname (website l))) as N.
      destruct (extractEmails backend _ _) as [t' [er|e]]; cbn [fst] in *;
        now rewrite !scrapeRequests_app, N, app_nil_r.
  - now rewrite app_nil_r.
Qed.

End OneLeadFacts.

(** C1, as stated, fails: a main page whose scrape reports failure still
    sends the step to the contact pages. *)
Lemma contact_fallback_after_failed_main :
  ~ (forall backend baseUrl,
        contactPageScraped backend baseUrl -> mainSucceededWithoutEmail backend baseUrl).
Proof.
  intros H.
  set (down := mkScrapeResult false (js "https://acme.io") None None None
                 (Some (js "timeout"))).
  set (backend := mkBackend true (fun _ => Returned down)
                    (fun _ _ => Threw JsOther) (fun _ _ _ _ => Threw JsOther)).
  destruct (H backend (js "https://acme.io")) as (r & Hr & Hsuccess & _).
  - exists (js "/contact"). split; [now left|].
    rewrite scrapeForContact_requests. vm_compute. tauto.
  - simpl in Hr. injection Hr as <-. discriminate Hsuccess.
Qed.

(** C1 (amended): the scrape step asks for the main page first (when the
    backend is initialised).  It goes on to the guesses [/contact],
    [/contact-us], [/about], in this order and up to the first one that
    answers with email-shaped markdown, exactly when the main-page call
    returned and its result is not a success with markdown that holds an
    email-shaped substring, a reported failure included.  No contact page
    is asked for when the main page succeeded with such markdown, when the
    main-page call threw, or when the backend is not initialised.  These
    are all the pages the phase-1 processing of a lead asks for. *)
Theorem scrape_step_fallback (backend : Backend) (baseUrl : jsstring) :
  let requests := scrapeRequests (fst (scrapeForContact backend baseUrl)) in
  let guesses := map (app (withoutTrailingSlash baseUrl)) contactPaths in
  (requests
   = if ready backend then
       baseUrl
       :: match scrape backend baseUrl with
          | Returned r => if foundEmail r then [] else upToFirstHit backend guesses
          | Threw _ => []
          end
     else [])
  /\ (contactPageScraped backend baseUrl <->
      ready backend = true
      /\ exists r, scrape backend baseUrl = Returned r /\ foundEmail r = false)
  /\ (forall url_hostname l,
        hasValidDomain l = true -> website l = baseUrl ->
        scrapeRequests (fst (enrichLead url_hostname backend l phase1Options))
        = requests).
Proof.
  cbv zeta. split; [apply scrapeForContact_requests|].
  split; [|intros url_hostname l Hvalid <-; now apply enrichLead_requests].
  unfold contactPageScraped. rewrite scrapeForContact_requests.
  assert (Hneq : forall path, withoutTrailingSlash baseUrl ++ path = baseUrl ->
                              In path contactPaths -> False).
  { intros path E Hin. apply (f_equal (@length ascii)) in E.
    rewrite length_app in E. pose proof (withoutTrailingSlash_length baseUrl) as L.
    destruct Hin as [<-|[<-|[<-|[]]]]; simpl in E; lia. }
  split.
  - intros (path & Hpath & Hin).
    destruct (ready backend); [|destruct Hin]. split; [reflexivity|].
    destruct Hin as [Hin|Hin]; [exfalso; eauto|].
    destruct (scrape backend baseUrl) as [r|e]; [|destruct Hin].
    exists r. split; [reflexivity|]. destruct (foundEmail r); [destruct Hin|reflexivity].
  - intros (-> & r & -> & ->). exists (js "/contact"). split; [now left|].
    right. simpl. now left.
Qed.

Example scrape_step_sample :
  let down := mkScrapeResult false (js "https://acme.io/") None None None None in
  let page := mkScrapeResult true (js "https://acme.io/contact-us")
                (Some (js "Write to sales@acme.io")) None None None in
  let backend :=
    mkBackend true
      (fun url => if jseqb url (js "https://acme.io/contact-us")
                  then Returned page else Returned down)
      (fun _ _ => Threw JsOther) (fun _ _ _ _ => Threw JsOther) in
  scrapeForContact backend (js "https://acme.io/")
  = ([ScrapeRequest (js "https://acme.io/");
      ScrapeRequest (js "https://acme.io/contact");
      ScrapeRequest (js "https://acme.io/contact-us")],
     Returned page).
Proof. vm_compute. reflexivity. Qed.


(** ** Schedules and batches *)

Section Lists.

Context {A B : Type}.

Lemma mapi_from_shift (F : A -> nat -> B) (i c : nat) (l : list A) :
  mapi_from (fun x b => F x (i + b)) c l = mapi_from F (i + c) l.
Proof.
  revert c; induction l as [|x l IH]; intros c; simpl; [reflexivity|].
  now rewrite IH, Nat.add_succ_r.
Qed.

Lemma mapi_from_app (f : A -> nat -> B) (c : nat) (l1 l2 : list A) :
  mapi_from f c (l1 ++ l2) = mapi_from f c l1 ++ mapi_from f (c + length l1) l2.
Proof.
  revert c; induction l1 as [|x l1 IH]; intros c; simpl.
  - now rewrite Nat.add_0_r.
  - now rewrite IH, Nat.add_succ_r.
Qed.

Lemma length_mapi_from (f : A -> nat -> B) (c : nat) (l : list A) :
  length (mapi_from f c l) = length l.
Proof. revert c; induction l as [|x l IH]; intros c; simpl; auto. Qed.

Lemma nth_error_mapi_from (f : A -> nat -> B) (c : nat) (l : list A) (j : nat) :
  nth_error (mapi_from f c l) j = option_map (fun a => f a (c + j)) (nth_error l j).
Proof.
  revert c j; induction l as [|x l IH]; intros c [|j]; simpl; try reflexivity.
  - now rewrite Nat.add_0_r.
  - now rewrite IH, Nat.add_succ_r.
Qed.

Lemma In_mapi_from (f : A -> nat -> B) (c : nat) (l : list A) (y : B) :
  In y (mapi_from f c l) <-> exists j a, nth_error l j = Some a /\ y = f a (c + j).
Proof.
  split.
  - intros H. apply In_nth_error in H as [j Hj].
    rewrite nth_error_mapi_from in Hj.
    destruct (nth_error l j) as [a|] eqn:E; [|discriminate].
    injection Hj as <-. eauto.
  - intros (j & a & Hj & ->). apply nth_error_In with j.
    now rewrite nth_error_mapi_from, Hj.
Qed.

End Lists.

Lemma map_mapi_from (A B C : Type) (g : B -> C) (f : A -> nat -> B) (c : nat)
    (l : list A) :
  map g (mapi_from f c l) = mapi_from (fun x n => g (f x n)) c l.
Proof. revert c; induction l as [|x l IH]; intros c; simpl; [reflexivity|]. now rewrite IH. Qed.

Lemma mapi_from_ext (A B : Type) (f g : A -> nat -> B) (c : nat) (l : list A) :
  (forall x n, f x n = g x n) -> mapi_from f c l = mapi_from g c l.
Proof.
  intros H. revert c; induction l as [|x l IH]; intros c; simpl; [reflexivity|].
  now rewrite H, IH.
Qed.

Lemma update_middle (A : Type) (p1 p2 : list A) (x y : A) :
  update (length p1) y (p1 ++ x :: p2) = p1 ++ y :: p2.
Proof. induction p1 as [|z p1 IH]; simpl; [reflexivity|]. now rewrite IH. Qed.

(** A schedule that runs to its end emits every event of every callback,
    once. *)
Lemma runSchedule_perm (A : Type) (sched : schedule) (pending : list (list A))
    (tr : list A) :
  runSchedule sched pending = Some tr -> Permutation tr (concat pending).
Proof.
  revert pending tr; induction sched as [|j sched IH]; intros pending tr; simpl.
  - destruct (forallb (@isEmpty A) pending) eqn:E; [|discriminate].
    intros [= <-]. rewrite forallb_forall in E.
    induction pending as [|l pending IHp]; simpl; [constructor|].
    assert (l = []) as ->.
    { specialize (E l (or_introl eq_refl)). now destruct l. }
    apply IHp. intros x Hx. apply E. now right.
  - destruct (nth_error pending j) as [[|x l]|] eqn:E; try discriminate.
    destruct (runSchedule sched (update j l pending)) as [tr'|] eqn:R; [|discriminate].
    intros [= <-]. apply IH in R.
    apply nth_error_split in E as (p1 & p2 & -> & <-).
    rewrite update_middle in R. rewrite concat_app in *. simpl in *.
    now apply Permutation_cons_app.
Qed.


Lemma oneByOne_runs (A : Type) (finished pending : list (list A)) :
  forallb (@isEmpty A) finished = true ->
  runSchedule (oneByOne (length finished) pending) (finished ++ pending)
  = Some (concat pending).
Proof.
  revert finished; induction pending as [|l pending IH]; intros finished Hf.
  - simpl. now rewrite app_nil_r, Hf.
  - induction l as [|x l IHl].
    + simpl. replace (finished ++ [] :: pending) with ((finished ++ [[]]) ++ pending)
        by now rewrite <- app_assoc.
      replace (S (length finished)) with (length (finished ++ [[]]))
        by (rewrite length_app; simpl; lia).
      apply IH. rewrite forallb_app, Hf. reflexivity.
    + simpl. rewrite nth_error_app2, Nat.sub_diag by lia. simpl.
      rewrite update_middle. simpl in IHl. now rewrite IHl.
Qed.

Lemma promiseAll_Returned (A : Type) (l : list A) :
  promiseAll (map (@Returned A) l) = Returned l.
Proof. induction l as [|x l IH]; simpl; [reflexivity|]. now rewrite IH. Qed.

Lemma ceilDiv_0 (k : nat) : 0 < k -> ceilDiv 0 k = 0.
Proof. intros H. unfold ceilDiv. apply Nat.div_small. lia. Qed.

Lemma ceilDiv_step (a k : nat) : 0 < k -> 0 < a -> ceilDiv a k = S (ceilDiv (a - k) k).
Proof.
  intros Hk Ha. unfold ceilDiv. destruct (Nat.le_gt_cases a k) as [L|G].
  - replace (a - k) with 0 by lia. simpl.
    rewrite (Nat.div_small (k - 1) k) by lia.
    replace (a + k - 1) with ((a - 1) + 1 * k) by lia.
    rewrite Nat.div_add by lia. rewrite Nat.div_small by lia. reflexivity.
  - replace (a + k - 1) with ((a - k + k - 1) + 1 * k) by lia.
    rewrite Nat.div_add by lia. lia.
Qed.

Section Phase1.

Variable url_hostname : jsstring -> option jsstring.
Variable world : nat -> Backend.



(** The callback of one lead: its first progress call, the lead's own
    processing, the usage updates, its last progress call; it resolves
    with the lead's result and never rejects. *)
Lemma leadTask_run (backend : Backend) (total i batchIndex : nat) (l : EnrichedLead) :
  exists t r,
    enrichLead url_hostname backend l phase1Options = (t, Returned r)
    /\ leadTask url_hostname backend total i batchIndex l
       = (Progress scraping (i + batchIndex) total (website l) (mkResult l None None None)
          :: t ++ usageEvents r
          ++ [Progress extracting (i + batchIndex + 1) total (website l) r],
          Returned r).
Proof.
  destruct (enrichLead_returns url_hostname backend l phase1Options) as (t & r & E).
  exists t, r. split; [exact E|].
  unfold leadTask, usageEvents. change (mkOptions false None) with phase1Options.
  rewrite E. cbn [emit bind ret app].
  destruct (emailResult r) as [er|], (scrapeResult r) as [sr|];
    try destruct (s_success sr); cbn [emit bind ret app];
    rewrite ?app_nil_r, <- ?app_assoc; reflexivity.
Qed.

Lemma leadTask_result (total i batchIndex : nat) (l : EnrichedLead) (g : nat) :
  snd (leadTask url_hostname (world g) total i batchIndex l) = Returned (resultOf url_hostname world l g).
Proof.
  destruct (leadTask_run (world g) total i batchIndex l) as (t & r & E & ->).
  unfold resultOf. now rewrite E.
Qed.

Variable validLeads : list EnrichedLead.
Variable k : nat.

(** The values [Promise.all] collects for the batch that starts at [i]. *)
Lemma batch_results (i : nat) :
  promiseAll (map snd (batchTasks url_hostname world validLeads k i))
  = Returned (mapi_from (resultOf url_hostname world) i (slice i (i + k) validLeads)).
Proof.
  unfold batchTasks, mapi. rewrite map_mapi_from.
  rewrite (mapi_from_ext _ _ _
             (fun l b => Returned (resultOf url_hostname world l (i + b)))) by (intros; apply leadTask_result).
  rewrite <- (map_mapi_from _ _ _ (@Returned EnrichmentResult)
                (fun l b => resultOf url_hostname world l (i + b))).
  rewrite promiseAll_Returned. f_equal.
  rewrite (mapi_from_shift (resultOf url_hostname world) i 0). now rewrite Nat.add_0_r.
Qed.

Lemma slice_nth (i j : nat) (l : EnrichedLead) :
  nth_error (slice i (i + k) validLeads) j = Some l ->
  j < k /\ nth_error validLeads (i + j) = Some l.
Proof.
  unfold slice. replace (i + k - i) with k by lia. intros H.
  rewrite nth_error_firstn in H.
  destruct (j <? k) eqn:E; [|discriminate]. apply Nat.ltb_lt in E.
  split; [assumption|]. now rewrite nth_error_skipn in H.
Qed.

(** The events of a batch carry the indices of the leads of that batch. *)
Lemma batch_events (i g : nat) (e : event) :
  In (g, e) (concat (labelled i (batchTasks url_hostname world validLeads k i))) ->
  i <= g < i + k
  /\ exists l, nth_error validLeads g = Some l
               /\ In e (fst (leadTask url_hostname (world g) (length validLeads)
                               i (g - i) l)).
Proof.
  intros H. apply in_concat in H as (evs & Hevs & Hin).
  unfold labelled, mapi in Hevs. apply In_mapi_from in Hevs as (j & task & Htask & ->).
  unfold batchTasks, mapi in Htask. rewrite nth_error_mapi_from in Htask.
  destruct (nth_error (slice i (i + k) validLeads) j) as [l|] eqn:E; [|discriminate].
  injection Htask as <-. apply slice_nth in E as [Hj Hl].
  apply in_map_iff in Hin as (e' & [= <- <-] & He). simpl in *.
  split; [lia|]. exists l. split; [assumption|].
  now replace (i + j - i) with j by lia.
Qed.

Lemma batch_events_complete (i j : nat) (l : EnrichedLead) (e : event) :
  j < k -> nth_error validLeads (i + j) = Some l ->
  In e (fst (leadTask url_hostname (world (i + j)) (length validLeads) i j l)) ->
  In (i + j, e) (concat (labelled i (batchTasks url_hostname world validLeads k i))).
Proof.
  intros Hj Hl He. apply in_concat.
  exists (map (pair (i + j))
            (fst (leadTask url_hostname (world (i + j)) (length validLeads) i j l))).
  split; [|now apply in_map].
  unfold labelled, mapi. apply In_mapi_from.
  exists j, (leadTask url_hostname (world (i + j)) (length validLeads) i j l).
  split; [|reflexivity].
  unfold batchTasks, mapi. rewrite nth_error_mapi_from. simpl.
  unfold slice. replace (i + k - i) with k by lia.
  rewrite nth_error_firstn. destruct (j <? k) eqn:E; [|apply Nat.ltb_ge in E; lia].
  now rewrite nth_error_skipn, Hl.
Qed.

Lemma batchLoop_eq (scheds : list schedule) (i : nat) (results : list EnrichmentResult) :
  batchLoop url_hostname world validLeads k scheds i results
  = if length validLeads <=? i then
      match scheds with
      | [] => Some ([], Returned results)
      | _ :: _ => None
      end
    else
      match scheds with
      | [] => None
      | sched :: scheds' =>
          let tasks := batchTasks url_hostname world validLeads k i in
          match runSchedule sched (labelled i tasks) with
          | None => None
          | Some tr =>
              match promiseAll (map snd tasks) with
              | Threw e => match scheds' with
                           | [] => Some ([tr], Threw e)
                           | _ :: _ => None
                           end
              | Returned batchResults =>
                  match batchLoop url_hostname world validLeads k scheds' (i + k)
                          (results ++ batchResults) with
                  | Some (trs, out) => Some (tr :: trs, out)
                  | None => None
                  end
              end
          end
      end.
Proof. destruct scheds; reflexivity. Qed.

Lemma results_from (i : nat) :
  mapi_from (resultOf url_hostname world) i (slice i (i + k) validLeads)
  ++ mapi_from (resultOf url_hostname world) (i + k) (skipn (i + k) validLeads)
  = mapi_from (resultOf url_hostname world) i (skipn i validLeads).
Proof.
  unfold slice. replace (i + k - i) with k by lia. symmetry.
  rewrite <- (firstn_skipn k (skipn i validLeads)) at 1.
  rewrite mapi_from_app, skipn_skipn, (Nat.add_comm k i). f_equal.
  rewrite length_firstn, length_skipn.
  destruct (Nat.le_gt_cases k (length validLeads - i)) as [L|G].
  - now rewrite Nat.min_l by lia.
  - rewrite (skipn_all2 validLeads) by lia. reflexivity.
Qed.

Hypothesis k_positive : 0 < k.

(** Every run of the loop: it returns the results of all leads from [i]
    on, after [ceil((n - i) / k)] batches, the [b]-th of which emits
    exactly the events of the callbacks of the leads [i + b k, ...]. *)
Lemma batchLoop_run (scheds : list schedule) :
  forall i results trs out,
    batchLoop url_hostname world validLeads k scheds i results = Some (trs, out) ->
    out = Returned (results ++ mapi_from (resultOf url_hostname world) i (skipn i validLeads))
    /\ length trs = ceilDiv (length validLeads - i) k
    /\ forall b tr,
         nth_error trs b = Some tr ->
         Permutation tr
           (concat (labelled (i + b * k)
                      (batchTasks url_hostname world validLeads k (i + b * k)))).
Proof.
  induction scheds as [|sched scheds IH]; intros i results trs out;
    rewrite batchLoop_eq; destruct (length validLeads <=? i) eqn:E;
    try discriminate.
  - apply Nat.leb_le in E. intros [= <- <-].
    rewrite skipn_all2 by assumption. simpl. rewrite app_nil_r.
    replace (length validLeads - i) with 0 by lia. rewrite ceilDiv_0 by assumption.
    repeat split. intros [|b] tr; discriminate.
  - apply Nat.leb_gt in E. cbv zeta.
    destruct (runSchedule sched _) as [tr|] eqn:R; [|discriminate].
    rewrite batch_results.
    destruct (batchLoop url_hostname world validLeads k scheds (i + k) _)
      as [[trs' out']|] eqn:L; [|discriminate].
    intros [= <- <-]. apply IH in L as (-> & Hlen & Hperm).
    split; [|split].
    + now rewrite <- app_assoc, results_from.
    + simpl. rewrite Hlen, (ceilDiv_step (length validLeads - i) k) by lia.
      do 2 f_equal. lia.
    + intros [|b] tr'; simpl.
      * intros [= <-]. rewrite Nat.add_0_r. exact (runSchedule_perm _ _ _ _ R).
      * intros Hb. apply Hperm in Hb.
        now replace (i + (k + b * k)) with (i + k + b * k) by lia.
Qed.

(** The loop has runs. *)
Lemma batchLoop_runs (fuel : nat) :
  forall i results,
    length validLeads - i <= fuel ->
    exists scheds trs out,
      batchLoop url_hostname world validLeads k scheds i results = Some (trs, out).
Proof.
  induction fuel as [|fuel IH]; intros i results Hfuel.
  - exists [], [], (Returned results). rewrite batchLoop_eq.
    assert (E : (length validLeads <=? i) = true) by (apply Nat.leb_le; lia).
    now rewrite E.
  - destruct (length validLeads <=? i) eqn:E.
    + exists [], [], (Returned results). rewrite batchLoop_eq. now rewrite E.
    + apply Nat.leb_gt in E.
      set (tasks := batchTasks url_hostname world validLeads k i).
      destruct (IH (i + k) (results ++ mapi_from (resultOf url_hostname world) i (slice i (i + k) validLeads)))
        as (scheds & trs & out & L); [lia|].
      exists (oneByOne 0 (labelled i tasks) :: scheds),
             (concat (labelled i tasks) :: trs), out.
      rewrite batchLoop_eq.
      assert (E' : (length validLeads <=? i) = false) by (apply Nat.leb_gt; lia).
      rewrite E'. cbv zeta. fold tasks.
      pose proof (oneByOne_runs _ [] (labelled i tasks) eq_refl) as O.
      cbn [length app] in O. rewrite O.
      unfold tasks. rewrite batch_results, L. reflexivity.
Qed.

End Phase1.

(** ** Phase 1 *)

Section Phase1Facts.

Variable url_hostname : jsstring -> option jsstring.
Variable world : nat -> Backend.
Variable leads : list EnrichedLead.
Variable config : EnrichmentConfig.

Let k := maxConcurrency config.
Let valid := filter hasValidDomain leads.
Let invalid := filter (fun l => negb (hasValidDomain l)) leads.

Hypothesis k_positive : 0 < k.

Lemma findEmailsForLeads_runs :
  exists scheds trs out,
    findEmailsForLeads url_hostname world leads config scheds = Some (trs, out).
Proof.
  destruct (batchLoop_runs url_hostname world valid k k_positive (length valid) 0 [])
    as (scheds & trs & out & L); [lia|].
  exists scheds. unfold findEmailsForLeads. fold valid. fold k. rewrite L.
  destruct out; eauto.
Qed.

(** Every run of phase 1. *)
Lemma findEmailsForLeads_run (scheds : list schedule)
    (trs : list (list (nat * event))) (out : outcome (list EnrichmentResult)) :
  findEmailsForLeads url_hostname world leads config scheds = Some (trs, out) ->
  out = Returned (mapi_from (resultOf url_hostname world) 0 valid
                  ++ map skippedResult invalid)
  /\ length trs = ceilDiv (length valid) k
  /\ forall b tr,
       nth_error trs b = Some tr ->
       Permutation tr
         (concat (labelled (b * k) (batchTasks url_hostname world valid k (b * k)))).
Proof.
  unfold findEmailsForLeads. fold valid. fold k.
  destruct (batchLoop url_hostname world valid k scheds 0 []) as [[trs' out']|] eqn:L;
    [|discriminate].
  apply (batchLoop_run url_hostname world valid k k_positive) in L
    as (-> & Hlen & Hperm).
  intros [= <- <-]. rewrite Nat.sub_0_r in Hlen. simpl in *.
  repeat split; auto.
Qed.

Lemma valid_is_valid (g : nat) (l : EnrichedLead) :
  nth_error valid g = Some l -> In l leads /\ hasValidDomain l = true.
Proof. intros H. apply nth_error_In in H. now apply filter_In in H. Qed.

Lemma batch_of_event (b : nat) (g : nat) (e : event) :
  In (g, e) (concat (labelled (b * k) (batchTasks url_hostname world valid k (b * k)))) ->
  g / k = b.
Proof.
  intros H. apply batch_events in H as [[H1 H2] _].
  symmetry. apply (Nat.div_unique g k b (g - b * k)); lia.
Qed.

Lemma batch_index (n g : nat) : g < n -> g / k < ceilDiv n k.
Proof.
  intros H. unfold ceilDiv.
  replace (n + k - 1) with ((n - 1) + 1 * k) by lia.
  rewrite Nat.div_add by lia.
  assert (g / k <= (n - 1) / k) by (apply Nat.Div0.div_le_mono; lia). lia.
Qed.

(** The callback of every valid lead runs to its last progress call. *)
Lemma lead_resolves (trs : list (list (nat * event))) (g : nat) (l : EnrichedLead) :
  length trs = ceilDiv (length valid) k ->
  (forall b tr,
      nth_error trs b = Some tr ->
      Permutation tr
        (concat (labelled (b * k) (batchTasks url_hostname world valid k (b * k))))) ->
  nth_error valid g = Some l ->
  In (g, Progress extracting (g + 1) (length valid) (website l)
           (resultOf url_hostname world l g))
     (concat trs).
Proof.
  intros Hlen Hperm Hl.
  assert (Hg : g < length valid) by (apply nth_error_Some; congruence).
  pose proof (batch_index _ _ Hg) as Hb. rewrite <- Hlen in Hb.
  destruct (nth_error trs (g / k)) as [tr|] eqn:E;
    [|apply nth_error_None in E; lia].
  apply in_concat. exists tr. split; [eapply nth_error_In; eauto|].
  apply (Permutation_in _ (Permutation_sym (Hperm _ _ E))).
  pose proof (Nat.div_mod_eq g k) as D.
  assert (Hmod : g mod k < k) by (apply Nat.mod_upper_bound; lia).
  replace g with (g / k * k + g mod k) at 1 by lia.
  apply batch_events_complete with (l := l);
    [assumption|now replace (g / k * k + g mod k) with g by lia|].
  replace (g / k * k + g mod k) with g by lia.
  destruct (leadTask_run url_hostname (world g) (length valid) (g / k * k) (g mod k) l)
    as (t & r & Er & ->).
  unfold resultOf. rewrite Er. cbn [fst snd].
  replace (g / k * k + g mod k) with g by lia.
  right. apply in_or_app. right. apply in_or_app. right. now left.
Qed.

End Phase1Facts.

(** Events of a later block of a concatenation come later. *)
Lemma concat_order (X : Type) (batchOf : X -> nat) (trs : list (list X)) :
  forall base,
    (forall b tr x, nth_error trs b = Some tr -> In x tr -> batchOf x = base + b) ->
    forall p1 p2 x1 x2,
      nth_error (concat trs) p1 = Some x1 ->
      nth_error (concat trs) p2 = Some x2 ->
      batchOf x1 < batchOf x2 -> p1 < p2.
Proof.
  induction trs as [|tr trs IH]; intros base H p1 p2 x1 x2 H1 H2 Hlt.
  - destruct p1; discriminate.
  - simpl in H1, H2.
    assert (Hlater : forall p x, nth_error (concat trs) p = Some x ->
                                 base < batchOf x).
    { intros p x Hx. apply nth_error_In, in_concat in Hx as (tr' & Htr' & Hin).
      apply In_nth_error in Htr' as [b Hb].
      rewrite (H (S b) tr' x Hb Hin). lia. }
    assert (Hnow : forall p x, p < length tr -> nth_error (tr ++ concat trs) p = Some x ->
                               batchOf x = base).
    { intros p x Hp Hx. rewrite nth_error_app1 in Hx by assumption.
      rewrite (H 0 tr x eq_refl (nth_error_In _ _ Hx)). lia. }
    destruct (Nat.lt_ge_cases p1 (length tr)) as [L1|G1],
             (Nat.lt_ge_cases p2 (length tr)) as [L2|G2].
    + rewrite (Hnow _ _ L1 H1), (Hnow _ _ L2 H2) in Hlt. lia.
    + lia.
    + rewrite nth_error_app2 in H1 by assumption. apply Hlater in H1.
      rewrite (Hnow _ _ L2 H2) in Hlt. lia.
    + rewrite nth_error_app2 in H1, H2 by assumption.
      assert (p1 - length tr < p2 - length tr); [|lia].
      apply (IH (S base)) with x1 x2; auto.
      intros b tr' x Hb Hin. rewrite (H (S b) tr' x Hb Hin). lia.
Qed.

Lemma filter_split_length (A : Type) (p : A -> bool) (l : list A) :
  length (filter p l) + length (filter (fun x => negb (p x)) l) = length l.
Proof.
  induction l as [|x l IH]; simpl; [reflexivity|]. destruct (p x); simpl; lia.
Qed.

(** C3: for [maxConcurrency = k > 0] and [n] leads with a valid domain,
    phase 1 has runs, and every run processes the valid leads in exactly
    [ceil(n / k)] batches; batch [b] consists of the callbacks of the
    leads [b k .. b k + k - 1], interleaved and each run to its end; every
    lead resolves (its closing progress call is in the trace); and every
    event of a lead of an earlier batch precedes every event of a lead of
    a later batch. *)
Theorem phase1_batches_are_sequential
    (url_hostname : jsstring -> option jsstring) (world : nat -> Backend)
    (leads : list EnrichedLead) (config : EnrichmentConfig) :
  let k := maxConcurrency config in
  let valid := filter hasValidDomain leads in
  0 < k ->
  (exists scheds trs out,
      findEmailsForLeads url_hostname world leads config scheds = Some (trs, out))
  /\ forall scheds trs out,
       findEmailsForLeads url_hostname world leads config scheds = Some (trs, out) ->
       length trs = ceilDiv (length valid) k
       /\ (forall b tr,
             nth_error trs b = Some tr ->
             Permutation tr
               (concat (labelled (b * k)
                          (batchTasks url_hostname world valid k (b * k)))))
       /\ (forall g l,
             nth_error valid g = Some l ->
             In (g, Progress extracting (g + 1) (length valid) (website l)
                      (resultOf url_hostname world l g))
                (concat trs))
       /\ (forall p1 p2 g1 e1 g2 e2,
             nth_error (concat trs) p1 = Some (g1, e1) ->
             nth_error (concat trs) p2 = Some (g2, e2) ->
             g1 / k < g2 / k -> p1 < p2).
Proof.
  intros k valid Hk. split; [now apply findEmailsForLeads_runs|].
  intros scheds trs out Hrun.
  apply findEmailsForLeads_run in Hrun as (_ & Hlen & Hperm); [|exact Hk].
  fold k valid in Hlen, Hperm. repeat split; try assumption.
  - intros g l Hl. now apply (lead_resolves url_hostname world leads config Hk).
  - intros p1 p2 g1 e1 g2 e2 H1 H2 Hlt.
    apply (concat_order _ (fun x => fst x / k) trs 0) with (g1, e1) (g2, e2); auto.
    intros b tr [g e] Hb Hin. simpl.
    apply (batch_of_event url_hostname world leads config Hk b g e).
    apply (Permutation_in _ (Hperm b tr Hb) Hin).
Qed.

(** C4: a lead whose domain is not valid is skipped by [enrichLead] without
    any call; in every run of phase 1 each event belongs to a lead with a
    valid domain, and the skipped results, the one of this lead among
    them, follow the results of all valid leads. *)
Theorem invalid_leads_are_skipped_without_calls
    (url_hostname : jsstring -> option jsstring) (world : nat -> Backend)
    (leads : list EnrichedLead) (config : EnrichmentConfig) (l : EnrichedLead) :
  let valid := filter hasValidDomain leads in
  let invalid := filter (fun l => negb (hasValidDomain l)) leads in
  0 < maxConcurrency config ->
  In l leads -> hasValidDomain l = false ->
  (forall backend options,
      enrichLead url_hostname backend l options = ([], Returned (skippedResult l)))
  /\ (exists scheds trs out,
         findEmailsForLeads url_hostname world leads config scheds = Some (trs, out))
  /\ forall scheds trs out,
       findEmailsForLeads url_hostname world leads config scheds = Some (trs, out) ->
       (forall g e,
           In (g, e) (concat trs) ->
           exists l', nth_error valid g = Some l' /\ hasValidDomain l' = true /\ l' <> l)
       /\ exists processed,
            out = Returned (processed ++ map skippedResult invalid)
            /\ length processed = length valid
            /\ In (skippedResult l) (map skippedResult invalid)
            /\ enrichmentStatus (lead (skippedResult l)) = skipped.
Proof.
  intros valid invalid Hk Hin Hinvalid. split; [|split].
  - intros backend options. now apply enrichLead_invalid.
  - now apply findEmailsForLeads_runs.
  - intros scheds trs out Hrun.
    apply findEmailsForLeads_run in Hrun as (-> & Hlen & Hperm); [|exact Hk].
    split.
    + intros g e He. apply in_concat in He as (tr & Htr & He).
      apply In_nth_error in Htr as [b Hb].
      apply (Permutation_in _ (Hperm b tr Hb)) in He.
      apply batch_events in He as (_ & l' & Hl' & _).
      exists l'. destruct (valid_is_valid leads g l' Hl') as [_ Hv].
      repeat split; try assumption. intros ->. congruence.
    + exists (mapi_from (resultOf url_hostname world) 0 valid).
      repeat split.
      * apply length_mapi_from.
      * apply in_map, filter_In. split; [assumption|now rewrite Hinvalid].
Qed.

(** C5, as stated, fails: an extraction call that answers with a failure
    leaves the lead [completed], without a message. *)
Lemma reported_extraction_failure_is_not_recorded :
  ~ (forall url_hostname backend l t r,
        hasValidDomain l = true ->
        enrichLead url_hostname backend l phase1Options = (t, Returned r) ->
        extractionFailed r -> recordedAsFailed r).
Proof.
  intros H.
  set (page := mkScrapeResult true (js "https://acme.io")
                 (Some (js "Write to sales@acme.io")) None None None).
  set (noAnswer := mkEmailResult false [] None low 0 0 (Some (js "Unknown AI error"))).
  set (backend := mkBackend true (fun _ => Returned page) (fun _ _ => Returned noAnswer)
                    (fun _ _ _ _ => Threw JsOther)).
  set (l := mkEnrichedLead (js "https://acme.io") None None None None None pending None
              (Some (mkDomainValidation true (js "acme.io") (js "io") None))).
  destruct (enrichLead_returns (fun _ => None) backend l phase1Options) as (t & r & E).
  assert (Hr : emailResult r = Some noAnswer /\ enrichmentStatus (lead r) = completed).
  { vm_compute in E. injection E as _ <-. split; reflexivity. }
  destruct Hr as [Hemail Hstatus].
  destruct (H (fun _ => None) backend l t r eq_refl E) as [Hfailed _].
  - exists noAnswer. split; [assumption|reflexivity].
  - congruence.
Qed.

(** C5 (amended): whatever the backend does for any lead, every run of
    phase 1 returns normally with one result per lead, after all
    [ceil(n / k)] batches; the result of each valid lead is that of its
    own processing, whose callback runs to its closing progress call; and
    a lead whose scrape step fails (it throws, or returns without success
    or without markdown) or whose extraction call throws is recorded as
    [failed] with [errorMessage] set. *)
Theorem lead_failures_are_isolated
    (url_hostname : jsstring -> option jsstring) (world : nat -> Backend)
    (leads : list EnrichedLead) (config : EnrichmentConfig) :
  let k := maxConcurrency config in
  let valid := filter hasValidDomain leads in
  0 < k ->
  (exists scheds trs out,
      findEmailsForLeads url_hostname world leads config scheds = Some (trs, out))
  /\ forall scheds trs out,
       findEmailsForLeads url_hostname world leads config scheds = Some (trs, out) ->
       exists results,
         out = Returned results
         /\ length results = length leads
         /\ length trs = ceilDiv (length valid) k
         /\ forall g l,
              nth_error valid g = Some l ->
              exists t r,
                enrichLead url_hostname (world g) l phase1Options = (t, Returned r)
                /\ nth_error results g = Some r
                /\ In (g, Progress extracting (g + 1) (length valid) (website l) r)
                      (concat trs)
                /\ (scrapeFailed (world g) (website l)
                    \/ extractionThrew (world g) (website l)
                         (extractDomain url_hostname (website l)) ->
                    recordedAsFailed r).
Proof.
  intros k valid Hk. split; [now apply findEmailsForLeads_runs|].
  intros scheds trs out Hrun.
  apply findEmailsForLeads_run in Hrun as (-> & Hlen & Hperm); [|exact Hk].
  fold k valid in Hlen, Hperm. eexists. split; [reflexivity|].
  split; [|split; [assumption|]].
  - rewrite length_app, length_mapi_from, length_map. apply filter_split_length.
  - intros g l Hl.
    destruct (enrichLead_returns url_hostname (world g) l phase1Options) as (t & r & E).
    assert (Hr : resultOf url_hostname world l g = r) by (unfold resultOf; now rewrite E).
    exists t, r. split; [assumption|]. split; [|split].
    + rewrite nth_error_app1
        by (rewrite length_mapi_from; apply nth_error_Some; fold valid; congruence).
      rewrite nth_error_mapi_from. fold valid. rewrite Hl. simpl. now rewrite Hr.
    + rewrite <- Hr. now apply (lead_resolves url_hostname world leads config Hk).
    + intros Hfail. destruct (valid_is_valid leads g l Hl) as [_ Hv].
      destruct (enrichLead_failed url_hostname (world g) l Hv Hfail) as (t' & r' & E' & F).
      rewrite E in E'. injection E' as _ <-. assumption.
Qed.

(** ** A worked run *)


Example sampleRun_outcome :
  match sampleRun with
  | Some (trs, Returned results) =>
      map (map fst) trs = [[0; 1; 0; 1; 0; 1; 0; 1; 0; 1; 0; 1]; [2; 2; 2]]
      /\ map (fun r => (enrichmentStatus (lead r), errorMessage (lead r), email (lead r)))
           results
         = [(completed, None, Some (js "sales@acme.io"));
            (failed, Some (js "timeout"), None);
            (failed, Some (js "Failed to fetch"), None);
            (skipped, Some (js "Invalid domain: Invalid domain format"), None)]
  | _ => False
  end.
Proof. vm_compute. split; reflexivity. Qed.

Lemma sampleRun_defined :
  exists trs out, sampleRun = Some (trs, out).
Proof.
  destruct sampleRun as [[trs out]|] eqn:E; [eauto|].
  vm_compute in E. discriminate E.
Defined.

Lemma phase1_batches_witness :
  0 < maxConcurrency sampleConfig
  /\ exists trs out,
       sampleRun = Some (trs, out)
       /\ length trs = 2
       /\ forall p1 p2 g1 e1 g2 e2,
            nth_error (concat trs) p1 = Some (g1, e1) ->
            nth_error (concat trs) p2 = Some (g2, e2) ->
            g1 / 2 < g2 / 2 -> p1 < p2.
Proof.
  assert (Hk : 0 < maxConcurrency sampleConfig) by (simpl; lia).
  split; [exact Hk|].
  destruct sampleRun_defined as (trs & out & E). exists trs, out.
  destruct (proj2 (phase1_batches_are_sequential
                     (fun _ => None) sampleWorld sampleLeads sampleConfig Hk)
              sampleSchedules trs out E) as (Hlen & _ & _ & Horder).
  split; [exact E|]. split; [exact Hlen|exact Horder].
Defined.

Lemma invalid_leads_witness :
  0 < maxConcurrency sampleConfig
  /\ exists trs out processed,
       sampleRun = Some (trs, out)
       /\ out = Returned (processed
                          ++ map skippedResult
                               (filter (fun l => negb (hasValidDomain l)) sampleLeads))
       /\ length processed = 3.
Proof.
  assert (Hk : 0 < maxConcurrency sampleConfig) by (simpl; lia).
  split; [exact Hk|].
  destruct sampleRun_defined as (trs & out & E).
  destruct (proj2 (proj2 (invalid_leads_are_skipped_without_calls
                            (fun _ => None) sampleWorld sampleLeads sampleConfig
                            (nth 2 sampleLeads (nth 0 sampleLeads (nth 0 sampleLeads
                               (mkEnrichedLead [] None None None None None pending None None))))
                            Hk (or_intror (or_intror (or_introl eq_refl))) eq_refl))
              sampleSchedules trs out E) as (_ & processed & Hout & Hlen & _).
  exists trs, out, processed. split; [exact E|]. split; [exact Hout|exact Hlen].
Defined.

Lemma lead_failures_witness :
  0 < maxConcurrency sampleConfig
  /\ exists trs results,
       sampleRun = Some (trs, Returned results)
       /\ length results = 4
       /\ exists r, nth_error results 1 = Some r /\ recordedAsFailed r.
Proof.
  assert (Hk : 0 < maxConcurrency sampleConfig) by (simpl; lia).
  split; [exact Hk|].
  destruct sampleRun_defined as (trs & out & E).
  destruct (proj2 (lead_failures_are_isolated
                     (fun _ => None) sampleWorld sampleLeads sampleConfig Hk)
              sampleSchedules trs out E) as (results & -> & Hlen & _ & Hleads).
  exists trs, results. split; [exact E|]. split; [exact Hlen|].
  destruct (Hleads 1 (nth 1 sampleLeads (nth 0 sampleLeads
                        (mkEnrichedLead [] None None None None None pending None None)))
              eq_refl) as (t & r & _ & Hr & _ & Hfailed).
  exists r. split; [exact Hr|]. apply Hfailed. left. vm_compute. now left.
Defined.

(* ================================================================== *)
(** * Further properties *)
(* ================================================================== *)

(** ** Domain validation: verdict, error and shape *)

Section DomainShape.

Lemma nth_last (A : Type) (l : list A) (d : A) : nth (length l - 1) l d = last l d.
Proof.
  induction l as [|x l IH]; [reflexivity|].
  destruct l as [|y l]; [reflexivity|].
  change (last (x :: y :: l) d) with (last (y :: l) d). rewrite <- IH.
  cbn [length]. replace (S (S (length l)) - 1) with (S (S (length l) - 1)) by lia.
  reflexivity.
Qed.

Lemma nth_removelast (A : Type) (l : list A) (d : A) :
  2 <= length l -> nth (length l - 2) l d = last (removelast l) d.
Proof.
  intros L. destruct l as [|x l]; [cbn in L; lia|].
  destruct (@exists_last _ (x :: l)) as (l' & y & E); [discriminate|].
  rewrite E in *. rewrite removelast_last, length_app in *. cbn [length] in *.
  replace (length l' + 1 - 2) with (length l' - 1) by lia.
  destruct l' as [|z l']; [cbn in L; lia|].
  rewrite app_nth1 by (cbn [length]; lia). apply nth_last.
Qed.

(** The text before the last separator, and the last piece. *)
Lemma split_char_last (c : ascii) (s : jsstring) :
  2 <= length (split_char c s) ->
  exists host, s = host ++ c :: last (split_char c s) []
               /\ split_char c host = removelast (split_char c s).
Proof.
  induction s as [|x s IH]; intros L; [cbn in L; lia|].
  cbn [split_char] in *. destruct (Ascii.eqb_spec x c) as [->|N].
  - destruct (split_char c s) as [|p ps] eqn:E; [now destruct (split_char_nonempty c s)|].
    destruct ps as [|q ps].
    + exists []. split.
      * f_equal. cbn [last].
        assert (H : s = p).
        { clear IH L. revert p E. induction s as [|y s IHs]; intros p E.
          - cbn in E. now inversion E.
          - cbn [split_char] in E. destruct (Ascii.eqb y c).
            { inversion E as [[E1 E2]]. now destruct (split_char_nonempty c s). }
            destruct (split_char c s) as [|p' ps'] eqn:E'; [now destruct (split_char_nonempty c s)|].
            inversion E; subst. f_equal. now apply IHs. }
        now subst.
      * reflexivity.
    + destruct IH as (host & Hs & Hh); [cbn [length]; lia|].
      exists (c :: host). split.
      * cbn [app]. f_equal. exact Hs.
      * cbn [split_char]. rewrite Ascii.eqb_refl, Hh. reflexivity.
  - destruct (split_char c s) as [|p ps] eqn:E; [now destruct (split_char_nonempty c s)|].
    destruct ps as [|q ps]; [cbn in L; lia|].
    destruct IH as (host & Hs & Hh); [cbn [length]; lia|].
    exists (x :: host). split.
    + cbn [app]. f_equal. exact Hs.
    + cbn [split_char]. destruct (Ascii.eqb_spec x c) as [->|_]; [easy|].
      rewrite Hh. reflexivity.
Qed.

Lemma split_char_Forall (P : ascii -> Prop) (c : ascii) (s : jsstring) :
  P c -> Forall (Forall P) (split_char c s) -> Forall P s.
Proof.
  intros Pc. induction s as [|x s IH]; intros H; [constructor|].
  cbn [split_char] in H. destruct (Ascii.eqb_spec x c) as [->|N].
  - inversion H; subst. constructor; auto.
  - destruct (split_char c s) as [|p ps] eqn:E; [now destruct (split_char_nonempty c s)|].
    inversion H as [|? ? Hp Hps]; subst. inversion Hp; subst.
    constructor; [assumption|]. apply IH. now constructor.
Qed.

Lemma span_firstn (p : ascii -> bool) (s : jsstring) (j : nat) :
  j <= span p s -> forallb p (firstn j s) = true.
Proof.
  revert j. induction s as [|x s IH]; intros j L.
  - now rewrite firstn_nil.
  - destruct j as [|j]; [reflexivity|]. cbn [span] in L. cbn [firstn forallb].
    destruct (p x); [|lia]. cbn. apply IH. lia.
Qed.

(** A string matched up to its end consists of characters of the
    pattern's classes. *)
Lemma match_here_classes (pat : pattern) (s : jsstring) (n : nat) :
  match_here pat true s = Some n ->
  Forall (fun c => existsb (fun a => cls a c) pat = true) s.
Proof.
  revert s n. induction pat as [|a rest IH]; intros s n H.
  - cbn in H. destruct s; [constructor|discriminate].
  - apply match_here_cons in H. destruct H as (j & r & _ & Hj & _ & Hr & _).
    rewrite <- (firstn_skipn j s). apply Forall_app. split.
    + apply span_firstn in Hj. rewrite forallb_forall in Hj. apply Forall_forall.
      intros c Hc. cbn [existsb]. now rewrite (Hj c Hc).
    + apply IH in Hr. revert Hr. apply Forall_impl. intros c Hc. cbn [existsb].
      rewrite Hc. apply orb_true_r.
Qed.

Lemma is_label_chars (l : jsstring) :
  is_label l = true -> Forall (fun c => domain_char c = true) l.
Proof.
  unfold is_label. destruct l as [|c l]; [discriminate|].
  intros H. apply andb_prop in H. destruct H as [_ H].
  rewrite forallb_forall in H. apply Forall_forall. intros x Hx.
  specialize (H x Hx). unfold domain_char.
  apply orb_prop in H. destruct H as [H|H]; rewrite ?H; [reflexivity|].
  unfold is_char in H. apply Ascii.eqb_eq in H. subst x.
  destruct (is_alnum "-"); reflexivity.
Qed.

Lemma lower_run_chars (lo0 : nat) (hi0 : option nat) (s : jsstring) :
  test true [rep is_lower lo0 hi0] true s = true -> forallb is_lower s = true.
Proof.
  unfold test. destruct (match_here _ true s) as [n|] eqn:E; [intros _|discriminate].
  apply match_here_classes in E. apply forallb_forall. rewrite Forall_forall in E.
  intros c Hc. specialize (E c Hc). cbn in E. now rewrite orb_false_r in E.
Qed.

Lemma lower_is_domain_char (c : ascii) : is_lower c = true -> domain_char c = true.
Proof. intros H. unfold domain_char, is_alnum. now rewrite H. Qed.

Lemma strict_chars (d : jsstring) :
  domainRegex_test d = true -> Forall (fun c => domain_char c = true) d.
Proof.
  unfold domainRegex_test. intros H.
  apply andb_prop in H. destruct H as [H Hlast].
  apply andb_prop in H. destruct H as [_ Hlabels].
  apply split_char_Forall with (c := "."%char); [reflexivity|].
  destruct (@exists_last _ (split_char "." d)) as (init & l & E);
    [apply split_char_nonempty|].
  rewrite E in *. rewrite removelast_last in Hlabels. rewrite last_last in Hlast.
  apply Forall_app. split.
  - rewrite forallb_forall in Hlabels. apply Forall_forall. intros p Hp.
    apply is_label_chars. now apply Hlabels.
  - constructor; [|constructor]. apply lower_run_chars in Hlast.
    rewrite forallb_forall in Hlast. apply Forall_forall. intros c Hc.
    apply lower_is_domain_char. now apply Hlast.
Qed.

Lemma lenient_chars (d : jsstring) :
  test true lenient_re true d = true -> Forall (fun c => domain_char c = true) d.
Proof.
  unfold test. destruct (match_here lenient_re true d) as [n|] eqn:E; [intros _|discriminate].
  apply match_here_classes in E. revert E. apply Forall_impl. intros c H.
  cbn [lenient_re existsb cls plus chr rep] in H. rewrite orb_false_r in H.
  apply orb_prop in H. destruct H as [H|H]; [exact H|].
  apply orb_prop in H. destruct H as [H|H].
  - unfold is_char in H. apply Ascii.eqb_eq in H. now subst c.
  - now apply lower_is_domain_char.
Qed.

(** A literal is found by the search exactly when the string includes it. *)
Lemma match_here_lit_complete (l s : jsstring) :
  startsWith l s = true -> match_here (map chr l) false s = Some (length l).
Proof.
  revert s. induction l as [|c l IH]; intros s H; [reflexivity|].
  destruct s as [|x s]; [discriminate|]. cbn [startsWith] in H.
  apply andb_prop in H. destruct H as [Hc Hl]. apply Ascii.eqb_eq in Hc. subst x.
  cbn [map match_here chr cls lo hi span]. unfold is_char at 1. rewrite Ascii.eqb_refl.
  cbn [Nat.min try_down Nat.ltb Nat.leb skipn]. rewrite Nat.min_0_r.
  cbn [skipn]. rewrite (IH s Hl). reflexivity.
Qed.

Lemma search_lit (l s : jsstring) (z : nat) :
  match search_from (map chr l) false z s with Some _ => true | None => false end
  = includes s l.
Proof.
  revert z. induction s as [|x s IH]; intros z.
  - cbn [search_from includes]. destruct (match_here (map chr l) false []) as [n|] eqn:E.
    + apply match_here_lit in E. now rewrite E.
    + destruct (startsWith l []) eqn:S; [|reflexivity].
      apply match_here_lit_complete in S. congruence.
  - cbn [search_from includes]. destruct (match_here (map chr l) false (x :: s)) as [n|] eqn:E.
    + apply match_here_lit in E. now rewrite E.
    + destruct (startsWith l (x :: s)) eqn:S.
      * apply match_here_lit_complete in S. congruence.
      * cbn [orb]. apply IH.
Qed.

Lemma test_lit (l : string) (s : jsstring) :
  test false (lit l) false s = includes s (js l).
Proof. unfold test, lit. apply search_lit. Qed.

Lemma has_In (tlds : list string) (x : jsstring) :
  has tlds x = true -> exists t, In t tlds /\ x = js t.
Proof.
  unfold has. rewrite existsb_exists. intros (t & Ht & E).
  apply jseqb_eq in E. eauto.
Qed.

Lemma known_tlds_shape (t : string) :
  In t VALID_TLDS \/ In t MULTI_PART_TLDS ->
  2 <= length (js t)
  /\ forallb (fun c => is_lower c || is_char "." c) (js t) = true.
Proof.
  assert (H : forallb (fun t => (2 <=? length (js t))
                                && forallb (fun c => is_lower c || is_char "." c) (js t))
                (VALID_TLDS ++ MULTI_PART_TLDS) = true) by (vm_compute; reflexivity).
  rewrite forallb_forall in H. intros Ht.
  specialize (H t). rewrite in_app_iff in H. specialize (H Ht).
  apply andb_prop in H. destruct H as [H1 H2]. apply Nat.leb_le in H1. now split.
Qed.

Lemma validateDomain_accepted (input : jsstring) :
  isValid (validateDomain input) = true -> error (validateDomain input) = None.
Proof.
  unfold validateDomain.
  repeat match goal with
         | |- context [if ?b then _ else _] => destruct b
         end; cbn [isValid error]; intros; try discriminate; reflexivity.
Qed.

Lemma validateDomain_rejected (input : jsstring) :
  isValid (validateDomain input) = false ->
  exists reason, reason <> [] /\ error (validateDomain input) = Some reason.
Proof.
  unfold validateDomain.
  repeat match goal with
         | |- context [if ?b then _ else _] => destruct b
         end; cbn [isValid error]; intros; try discriminate;
    eexists; (split; [|reflexivity]); discriminate.
Qed.

(** An input without text is rejected. *)
Lemma blank_is_invalid (input : jsstring) :
  trim input = [] -> isValid (validateDomain input) = false.
Proof. intros H. unfold validateDomain, clean. rewrite H. reflexivity. Qed.

End DomainShape.

(** X1.  [validateDomain] reports an error exactly when it rejects: an
    accepted input carries no error, a rejected one a non-empty message;
    a rejected input has an empty [tld] unless the message is the one
    about its unrecognised last piece. *)
Theorem validateDomain_error_iff_rejected (input : jsstring) :
  let r := validateDomain input in
  (isValid r = true <-> error r = None)
  /\ (isValid r = false <-> truthy (error r) = true)
  /\ (isValid r = false ->
      tld r = []
      \/ error r = Some (js "Invalid or unrecognized TLD: ." ++ tld r)).
Proof.
  cbv zeta. unfold validateDomain.
  repeat match goal with
         | |- context [if ?b then _ else _] => destruct b
         end; cbn [isValid error tld truthy js list_ascii_of_string app];
    repeat split; intros; try discriminate; try reflexivity; auto.
Qed.

(** X2.  What an accepted domain looks like: at least three characters,
    all of them lower-case letters, digits, dots or hyphens, no two dots
    or two hyphens in a row, no hyphen at either end, and it ends with a
    dot followed by the reported [tld], which has at least two characters,
    all lower-case letters or dots. *)
Theorem validateDomain_valid_shape (input : jsstring) :
  isValid (validateDomain input) = true ->
  let d := domain (validateDomain input) in
  let t := tld (validateDomain input) in
  3 <= length d
  /\ Forall (fun c => domain_char c = true) d
  /\ includes d (js "..") = false /\ includes d (js "--") = false
  /\ startsWith (js "-") d = false /\ endsWith (js "-") d = false
  /\ (exists host, d = host ++ js "." ++ t)
  /\ 2 <= length t
  /\ forallb (fun c => is_lower c || is_char "." c) t = true.
Proof.
  unfold validateDomain. set (d := clean input).
  destruct (length d <? 3) eqn:Hlen; [discriminate|].
  destruct (negb (domainRegex_test d) && negb (test true lenient_re true d)) eqn:Hfmt;
    [discriminate|].
  destruct (test false (lit "..") false d || test false (lit "--") false d) eqn:Hrun;
    [discriminate|].
  destruct (startsWith (js "-") d || endsWith (js "-") d) eqn:Hends; [discriminate|].
  cbv zeta. set (parts := split_char "." d).
  destruct (length parts <? 2) eqn:Hparts; [discriminate|].
  apply Nat.ltb_ge in Hlen, Hparts.
  apply orb_false_elim in Hrun. destruct Hrun as [Hdots Hhyphens].
  rewrite test_lit in Hdots, Hhyphens.
  apply orb_false_elim in Hends. destruct Hends as [Hstart Hend].
  assert (Hchars : Forall (fun c => domain_char c = true) d).
  { destruct (domainRegex_test d) eqn:S; [now apply strict_chars|].
    destruct (test true lenient_re true d) eqn:L; [now apply lenient_chars|discriminate]. }
  destruct (split_char_last "." d Hparts) as (h1 & Hd & Hh1). fold parts in Hd, Hh1.
  rewrite (nth_last _ parts []).
  assert (Hgoal : forall t,
             (exists host, d = host ++ js "." ++ t) ->
             2 <= length t ->
             forallb (fun c => is_lower c || is_char "." c) t = true ->
             3 <= length d
             /\ Forall (fun c => domain_char c = true) d
             /\ includes d (js "..") = false /\ includes d (js "--") = false
             /\ startsWith (js "-") d = false /\ endsWith (js "-") d = false
             /\ (exists host, d = host ++ js "." ++ t)
             /\ 2 <= length t
             /\ forallb (fun c => is_lower c || is_char "." c) t = true)
    by (intros; repeat split; assumption).
  destruct ((3 <=? length parts)
            && has MULTI_PART_TLDS (nth (length parts - 2) parts [] ++ js "." ++ last parts []))
    eqn:Hmulti.
  - intros _. cbn [domain tld].
    apply andb_prop in Hmulti. destruct Hmulti as [H3 Hhas]. apply Nat.leb_le in H3.
    rewrite (nth_removelast _ parts []) in * by lia.
    destruct (has_In _ _ Hhas) as (t & Ht & Et).
    destruct (known_tlds_shape t (or_intror Ht)) as [L2 Lc]. rewrite <- Et in L2, Lc.
    apply Hgoal; [|assumption|assumption].
    assert (Hinit : 2 <= length (split_char "." h1)).
    { rewrite Hh1. destruct (@exists_last _ parts) as (init & y & E);
        [apply split_char_nonempty|].
      rewrite E in *. rewrite removelast_last. rewrite length_app in H3.
      cbn [length] in H3. lia. }
    destruct (split_char_last "." h1 Hinit) as (h2 & Hd2 & _). rewrite Hh1 in Hd2.
    exists h2. rewrite Hd, Hd2. rewrite <- app_assoc. reflexivity.
  - destruct (has VALID_TLDS (last parts [])) eqn:Hsingle.
    + intros _. cbn [domain tld].
      destruct (has_In _ _ Hsingle) as (t & Ht & Et).
      destruct (known_tlds_shape t (or_introl Ht)) as [L2 Lc]. rewrite <- Et in L2, Lc.
      apply Hgoal; [|assumption|assumption]. exists h1. exact Hd.
    + destruct ((2 <=? length (last parts [])) && (length (last parts []) <=? 10)
                && test true [plus is_lower] true (last parts [])) eqn:Hnew;
        [|discriminate].
      intros _. cbn [domain tld].
      apply andb_prop in Hnew. destruct Hnew as [Hnew Hlower].
      apply andb_prop in Hnew. destruct Hnew as [L2 _]. apply Nat.leb_le in L2.
      apply Hgoal; [exists h1; exact Hd|assumption|].
      apply (lower_run_chars 1 None) in Hlower. rewrite forallb_forall in *.
      intros c Hc. now rewrite (Hlower c Hc).
Qed.

Lemma validateDomain_valid_shape_witness :
  isValid (validateDomain (js "https://www.Acme.co.uk/contact")) = true
  /\ domain (validateDomain (js "https://www.Acme.co.uk/contact")) = js "acme.co.uk"
  /\ exists host,
       domain (validateDomain (js "https://www.Acme.co.uk/contact"))
       = host ++ js "." ++ tld (validateDomain (js "https://www.Acme.co.uk/contact")).
Proof.
  split; [vm_compute; reflexivity|]. split; [vm_compute; reflexivity|].
  apply (validateDomain_valid_shape (js "https://www.Acme.co.uk/contact")).
  vm_compute; reflexivity.
Defined.

(** The host may be empty in front of a multi-part TLD. *)
Example validateDomain_bare_multi_part_tld :
  validateDomain (js ".co.uk") = mkValidation true (js ".co.uk") (js "co.uk") None.
Proof. vm_compute. reflexivity. Qed.

(** ** URL normalisation *)

Section NormalizeUrl.

Lemma span_all (p : ascii -> bool) (s : jsstring) :
  forallb p s = true -> span p s = length s.
Proof.
  induction s as [|x s IH]; [reflexivity|]. cbn [forallb span length].
  intros H. apply andb_prop in H. destruct H as [Hx Hs]. rewrite Hx. f_equal. auto.
Qed.

(** [/^[p]+$/] accepts exactly the non-empty strings over [p]. *)
Lemma match_here_plus_end (p : ascii -> bool) (s : jsstring) :
  s <> [] -> forallb p s = true -> match_here [plus p] true s = Some (length s + 0).
Proof.
  intros N H. cbn [match_here plus cls lo hi]. rewrite (span_all p s H).
  destruct s as [|x s]; [congruence|]. cbn [length try_down Nat.ltb Nat.leb].
  change (skipn (S (length s)) (x :: s)) with (skipn (length s) s).
  rewrite skipn_all. reflexivity.
Qed.

Lemma match_here_plus_end_inv (p : ascii -> bool) (s : jsstring) (n : nat) :
  match_here [plus p] true s = Some n -> s <> [] /\ forallb p s = true.
Proof.
  intros H. split.
  - destruct (match_here_needs _ _ _ _ H (plus p) (or_introl eq_refl) (le_n 1))
      as (c & Hc & _).
    intros ->. exact Hc.
  - apply match_here_classes in H. apply forallb_forall. rewrite Forall_forall in H.
    intros c Hc. specialize (H c Hc). cbn in H. now rewrite orb_false_r in H.
Qed.

(** The search returns the leftmost match. *)
Lemma search_from_first (pat : pattern) (dollar : bool) (s : jsstring) :
  forall z i n,
    search_from pat dollar z s = Some (i, n) ->
    forall j, j < i - z -> match_here pat dollar (skipn j s) = None.
Proof.
  induction s as [|x s IH]; intros z i n H j Hj.
  - cbn [search_from] in H. destruct (match_here pat dollar []); [|discriminate].
    inversion H; subst. lia.
  - cbn [search_from] in H. destruct (match_here pat dollar (x :: s)) eqn:E.
    + inversion H; subst. lia.
    + destruct j as [|j]; [exact E|]. cbn [skipn].
      apply (IH (S z) i n H). lia.
Qed.

Lemma search_from_none (pat : pattern) (dollar : bool) (s : jsstring) :
  forall z, search_from pat dollar z s = None ->
            forall j, match_here pat dollar (skipn j s) = None.
Proof.
  induction s as [|x s IH]; intros z H j.
  - cbn [search_from] in H. rewrite skipn_nil.
    destruct (match_here pat dollar []); [discriminate|reflexivity].
  - cbn [search_from] in H. destruct (match_here pat dollar (x :: s)) eqn:E; [discriminate|].
    destruct j as [|j]; [exact E|]. cbn [skipn]. now apply (IH (S z)).
Qed.

Lemma remove_first_incl (pat : pattern) (dollar : bool) (s : jsstring) (x : ascii) :
  In x (remove_first false pat dollar s) -> In x s.
Proof.
  unfold remove_first. destruct (search_from pat dollar 0 s) as [[i n]|]; [|auto].
  rewrite in_app_iff. intros [H|H].
  - rewrite <- (firstn_skipn i s). apply in_or_app. now left.
  - now apply skipn_incl in H.
Qed.

Lemma endsWith_snoc (c : ascii) (s : jsstring) :
  endsWith [c] s = true <-> exists s', s = s' ++ [c].
Proof.
  unfold endsWith. cbn [rev app]. split.
  - destruct (rev s) as [|x r] eqn:E; [discriminate|]. cbn [startsWith].
    rewrite andb_true_r. intros H. apply Ascii.eqb_eq in H. subst x.
    exists (rev r). rewrite <- (rev_involutive s), E. reflexivity.
  - intros (s' & ->). rewrite rev_app_distr. cbn. now rewrite Ascii.eqb_refl.
Qed.

(** After [replace(/\/+$/, '')] no slash is left at the end. *)
Lemma no_trailing_slash (s : jsstring) :
  endsWith (js "/") (remove_first false [plus (is_char "/")] true s) = false.
Proof.
  destruct (endsWith _ _) eqn:E; [exfalso|reflexivity].
  apply (endsWith_snoc "/") in E. destruct E as (s' & E).
  assert (Hslash : forall t, forallb (is_char "/") t = true ->
                   match_here [plus (is_char "/")] true ("/"%char :: t) <> None).
  { intros t Ht. rewrite (match_here_plus_end (is_char "/") ("/"%char :: t));
      [discriminate|discriminate|]. cbn [forallb]. now rewrite Ht. }
  unfold remove_first in E.
  destruct (search_from [plus (is_char "/")] true 0 s) as [[i n]|] eqn:S.
  - pose proof (search_from_first _ _ _ _ _ _ S) as First.
    apply search_from_bounds in S. destruct S as (_ & Hb & Hm).
    rewrite Nat.sub_0_r in *.
    destruct (match_here_plus_end_inv _ _ _ Hm) as [Hne Hall].
    assert (Hn : n = length (skipn i s)).
    { apply match_here_cons in Hm. destruct Hm as (j & r & _ & Hj & _ & Hr & ->).
      cbn [match_here] in Hr. destruct (skipn j (skipn i s)) eqn:K; [|discriminate].
      inversion Hr; subst. apply (f_equal (@length ascii)) in K.
      rewrite length_skipn in K. cbn [length] in K.
      pose proof (span_le (cls (plus (is_char "/"))) (skipn i s)). lia. }
    rewrite length_skipn in Hn.
    rewrite (skipn_all2 (n := i + n)) in E by lia. rewrite app_nil_r in E.
    assert (Hi : i = length s' + 1).
    { apply (f_equal (@length ascii)) in E. rewrite length_app in E. cbn [length] in E.
      rewrite length_firstn in E. lia. }
    apply (Hslash (skipn i s) Hall).
    rewrite <- (First (length s')) by lia.
    f_equal. rewrite <- (firstn_skipn i s) at 2. rewrite E.
    rewrite <- app_assoc. rewrite skipn_app, skipn_all, Nat.sub_diag. reflexivity.
  - apply (Hslash [] eq_refl).
    rewrite <- (search_from_none _ _ _ _ S (length s')). rewrite E.
    rewrite skipn_app, skipn_all, Nat.sub_diag. reflexivity.
Qed.

End NormalizeUrl.

(** X3.  [normalizeUrl] always yields a lower-cased URL that starts with
    [http://] or [https://] and ends with a slash only when it is the bare
    [https://] of an input without text; each of the six URLs of
    [buildContactUrl] is that URL followed by one of the fixed paths. *)
Theorem normalizeUrl_shape (url : jsstring) :
  let r := normalizeUrl url in
  (startsWith (js "http://") r || startsWith (js "https://") r = true)
  /\ Forall (fun c => lower_char c = c) r
  /\ (endsWith (js "/") r = true -> r = js "https://")
  /\ length (buildContactUrl url) = 6
  /\ forall u, In u (buildContactUrl url) <->
               exists path, In path commonContactPaths /\ u = r ++ path.
Proof.
  cbv zeta. unfold normalizeUrl.
  set (n := remove_first false [plus (is_char "/")] true (toLowerCase (trim url))).
  assert (Hlow : Forall (fun c => lower_char c = c) n).
  { apply Forall_forall. intros c Hc. apply remove_first_incl in Hc.
    pose proof (toLowerCase_lowered (trim url)) as L. rewrite Forall_forall in L. auto. }
  assert (Hend : endsWith (js "/") n = false) by apply no_trailing_slash.
  split; [|split; [|split; [|split]]].
  - destruct (startsWith (js "http://") n) eqn:A; [cbn [negb andb]; now rewrite A|].
    destruct (startsWith (js "https://") n) eqn:B; cbn [negb andb].
    + now rewrite A, B.
    + cbn [js list_ascii_of_string app startsWith]. rewrite !Ascii.eqb_refl.
      destruct n; reflexivity.
  - destruct (negb (startsWith (js "http://") n) && negb (startsWith (js "https://") n));
      [|assumption].
    apply Forall_app. split; [|assumption].
    repeat constructor.
  - destruct (negb (startsWith (js "http://") n) && negb (startsWith (js "https://") n));
      [|congruence].
    intros E. destruct n as [|c n]; [reflexivity|]. exfalso.
    apply (endsWith_snoc "/") in E. destruct E as (s' & E).
    assert (endsWith (js "/") (c :: n) = true); [|congruence].
    apply (endsWith_snoc "/").
    destruct (@exists_last _ (c :: n)) as (n' & y & En); [discriminate|].
    rewrite En in *. exists n'. f_equal.
    change (js "https://" ++ n' ++ [y]) with ((js "https://" ++ n') ++ [y]) in E.
    apply app_inj_tail in E. destruct E as [_ ->]. reflexivity.
  - reflexivity.
  - intros u. unfold buildContactUrl. rewrite in_map_iff. unfold normalizeUrl. fold n.
    split; intros (path & H1 & H2); exists path; [split; [exact H2|now symmetry]|].
    split; [now symmetry|exact H1].
Qed.

Example normalizeUrl_not_idempotent :
  normalizeUrl (js "acme.io /") = js "https://acme.io "
  /\ normalizeUrl (normalizeUrl (js "acme.io /")) = js "https://acme.io".
Proof. vm_compute. split; reflexivity. Qed.

(** X4.  [validateDomains] maps every listed input to its own verdict and
    nothing else; an input listed twice has one entry. *)
Theorem validateDomains_lookup (domains : list jsstring) (d : jsstring) :
  get (validateDomains domains) d
  = (if mem d domains then Some (validateDomain d) else None)
  /\ NoDup (keys (validateDomains domains)).
Proof.
  unfold validateDomains.
  assert (G : forall acc,
             get (fold_left (fun results d => set results d (validateDomain d)) domains acc) d
             = if mem d domains then Some (validateDomain d) else get acc d).
  { induction domains as [|d0 ds IH]; intros acc; [reflexivity|].
    cbn [fold_left mem existsb]. rewrite IH. fold (mem d ds).
    destruct (mem d ds); [now rewrite orb_true_r|]. rewrite orb_false_r.
    rewrite get_set. destruct (jseqb d0 d) eqn:E.
    - apply jseqb_eq in E. subst. now rewrite jseqb_refl.
    - apply jseqb_neq in E. destruct (jseqb d d0) eqn:E'; [|reflexivity].
      apply jseqb_eq in E'. congruence. }
  split; [apply G|].
  assert (N : forall acc,
             NoDup (keys acc) ->
             NoDup (keys (fold_left (fun results d => set results d (validateDomain d))
                            domains acc))).
  { clear G. induction domains as [|d0 ds IH]; intros acc H; [exact H|].
    cbn [fold_left]. apply IH. now apply NoDup_set. }
  apply N. constructor.
Qed.

(** ** Addresses found on a page *)

Section AddressShape.

Lemma match_here_split (a : atom) (rest : pattern) (dollar : bool) (s : jsstring) (n : nat) :
  match_here (a :: rest) dollar s = Some n ->
  exists x y r,
    s = x ++ y /\ lo a <= length x /\ (forall h, hi a = Some h -> length x <= h)
    /\ forallb (cls a) x = true /\ match_here rest dollar y = Some r /\ n = length x + r.
Proof.
  intros H. apply match_here_cons in H. destruct H as (j & r & Hlo & Hj & Hhi & Hr & ->).
  exists (firstn j s), (skipn j s), r.
  assert (L : length (firstn j s) = j).
  { rewrite length_firstn. pose proof (span_le (cls a) s). lia. }
  rewrite L. repeat split; auto.
  - now rewrite firstn_skipn.
  - now apply span_firstn.
Qed.

Lemma match_here_chr (c : ascii) (rest : pattern) (dollar : bool) (s : jsstring) (n : nat) :
  match_here (chr c :: rest) dollar s = Some n ->
  exists y r, s = c :: y /\ match_here rest dollar y = Some r /\ n = 1 + r.
Proof.
  intros H. apply match_here_split in H.
  destruct H as (x & y & r & -> & Hlo & Hhi & Hx & Hr & ->).
  cbn [chr lo hi cls] in *. specialize (Hhi 1 eq_refl).
  destruct x as [|x0 [|x1 x]]; cbn [length] in *; try lia.
  cbn [forallb] in Hx. rewrite andb_true_r in Hx. apply Ascii.eqb_eq in Hx. subst x0.
  exists y, r. auto.
Qed.

(** The strings accepted by the anchored address pattern. *)
Lemma emailPattern_shape (e : jsstring) :
  test true emailPattern true e = true ->
  exists l h t,
    e = l ++ js "@" ++ h ++ js "." ++ t
    /\ 1 <= length l /\ forallb local_cls l = true
    /\ 1 <= length h /\ forallb host_cls h = true
    /\ 2 <= length t /\ forallb is_alpha t = true.
Proof.
  unfold test. destruct (match_here emailPattern true e) as [n|] eqn:E; [intros _|discriminate].
  unfold emailPattern in E.
  apply match_here_split in E. destruct E as (l & s1 & r1 & -> & Hl & _ & Hlc & E & _).
  apply match_here_chr in E. destruct E as (s2 & r2 & -> & E & _).
  apply match_here_split in E. destruct E as (h & s3 & r3 & -> & Hh & _ & Hhc & E & _).
  apply match_here_chr in E. destruct E as (s4 & r4 & -> & E & _).
  apply match_here_split in E. destruct E as (t & s5 & r5 & -> & Ht & _ & Htc & E & _).
  cbn [match_here] in E. destruct s5; [|discriminate].
  exists l, h, t. rewrite app_nil_r. cbn [plus rep lo cls] in *. repeat split; auto.
Qed.

Lemma forallb_not_In (p : ascii -> bool) (c : ascii) (s : jsstring) :
  p c = false -> forallb p s = true -> ~ In c s.
Proof.
  intros Hc H Hin. rewrite forallb_forall in H. rewrite (H c Hin) in Hc. discriminate.
Qed.

Lemma split_char_free (c : ascii) (s : jsstring) : ~ In c s -> split_char c s = [s].
Proof.
  induction s as [|x s IH]; intros H; [reflexivity|]. cbn [split_char].
  destruct (Ascii.eqb_spec x c) as [->|N]; [destruct H; now left|].
  rewrite IH; [reflexivity|]. intros Hin. apply H. now right.
Qed.

Lemma split_char_app (c : ascii) (l r : jsstring) :
  ~ In c l -> split_char c (l ++ c :: r) = l :: split_char c r.
Proof.
  induction l as [|x l IH]; intros H.
  - cbn [app split_char]. now rewrite Ascii.eqb_refl.
  - cbn [app split_char]. destruct (Ascii.eqb_spec x c) as [->|N]; [destruct H; now left|].
    rewrite IH; [reflexivity|]. intros Hin. apply H. now right.
Qed.

(** The two sides of an address of that shape. *)
Lemma address_sides (l h t : jsstring) :
  forallb local_cls l = true -> forallb host_cls h = true -> forallb is_alpha t = true ->
  split_char "@" (l ++ js "@" ++ h ++ js "." ++ t) = [l; h ++ js "." ++ t].
Proof.
  intros Hl Hh Ht. cbn [js list_ascii_of_string app].
  rewrite split_char_app by (apply (forallb_not_In local_cls); [reflexivity|exact Hl]).
  rewrite split_char_free; [reflexivity|].
  rewrite in_app_iff. intros [H|[H|H]].
  - revert H. apply (forallb_not_In host_cls); [reflexivity|exact Hh].
  - discriminate.
  - revert H. apply (forallb_not_In is_alpha); [reflexivity|exact Ht].
Qed.

Lemma startsWith_firstn (n : nat) (s : jsstring) : startsWith (firstn n s) s = true.
Proof.
  revert n. induction s as [|x s IH]; intros [|n]; try reflexivity.
  cbn [firstn startsWith]. now rewrite Ascii.eqb_refl, IH.
Qed.

Lemma includes_skipn (i : nat) (s p : jsstring) :
  includes (skipn i s) p = true -> includes s p = true.
Proof.
  revert s. induction i as [|i IH]; intros s H; [exact H|].
  destruct s as [|x s]; [exact H|]. cbn [skipn] in H. cbn [includes].
  rewrite (IH s H). apply orb_true_r.
Qed.

Lemma includes_prefix (s p : jsstring) : startsWith p s = true -> includes s p = true.
Proof. intros H. destruct s; cbn [includes]; now rewrite H. Qed.

(** Every match is a piece of the text. *)
Lemma match_all_from_piece (pat : pattern) (e : jsstring) (s : jsstring) :
  forall skip, In e (match_all_from pat skip s) -> includes s e = true.
Proof.
  induction s as [|x s IH]; intros skip H.
  - destruct skip; contradiction.
  - destruct skip as [|k]; cbn [match_all_from] in H.
    + destruct (match_here pat false (x :: s)) as [[|n]|].
      * cbn [includes]. rewrite (IH _ H). apply orb_true_r.
      * destruct H as [<-|H].
        -- apply includes_prefix. apply startsWith_firstn.
        -- cbn [includes]. rewrite (IH _ H). apply orb_true_r.
      * cbn [includes]. rewrite (IH _ H). apply orb_true_r.
    + cbn [includes]. rewrite (IH _ H). apply orb_true_r.
Qed.

(** Where the search finds nothing there is no match to collect. *)
Lemma match_all_from_none (pat : pattern) (s : jsstring) :
  forall z skip, search_from pat false z s = None -> match_all_from pat skip s = [].
Proof.
  induction s as [|x s IH]; intros z skip H.
  - destruct skip; reflexivity.
  - cbn [search_from] in H.
    destruct (match_here pat false (x :: s)) eqn:E; [discriminate|].
    destruct skip as [|k]; cbn [match_all_from]; [rewrite E|]; now apply (IH (S z)).
Qed.

Lemma extracted_has_at (content : jsstring) :
  Forall (fun e => In "@"%char e) (extractEmailsFromContent content).
Proof.
  apply Forall_forall. intros e He. apply extract_In in He.
  destruct He as (_ & _ & _ & _ & Ht).
  apply emailPattern_shape in Ht. destruct Ht as (l & h & t & -> & _).
  apply in_or_app. right. now left.
Qed.

End AddressShape.

(** X5.  Every address returned by [extractEmailsFromContent] occurs in
    the content as it stands and reads [local@host.tld]: a local part of
    1 to 64 characters of [[a-zA-Z0-9._%+-]], a host of characters of
    [[a-zA-Z0-9.-]], a last piece of two or more letters, at most 254
    characters in all. *)
Theorem extracted_address_shape (content e : jsstring) :
  In e (extractEmailsFromContent content) ->
  includes content e = true
  /\ length e <= 254
  /\ exists l h t,
       e = l ++ js "@" ++ h ++ js "." ++ t
       /\ 1 <= length l <= 64 /\ forallb local_cls l = true
       /\ 1 <= length h /\ forallb host_cls h = true
       /\ 2 <= length t /\ forallb is_alpha t = true.
Proof.
  intros He. apply extract_In in He. destruct He as (Hm & _ & Hlocal & Hlen & Ht).
  split; [now apply (match_all_from_piece emailPattern e content 0)|].
  split; [exact Hlen|].
  destruct (emailPattern_shape e Ht) as (l & h & t & E & Hl & Hlc & Hh & Hhc & Htl & Htc).
  exists l, h, t. repeat split; auto.
  unfold localPart_of in Hlocal. rewrite split_first_nth, E in Hlocal.
  rewrite address_sides in Hlocal by assumption. exact Hlocal.
Qed.

Lemma extracted_address_shape_witness :
  In (js "jane.doe@acme.io") (extractEmailsFromContent (js "Mail jane.doe@acme.io today"))
  /\ includes (js "Mail jane.doe@acme.io today") (js "jane.doe@acme.io") = true.
Proof.
  assert (H : In (js "jane.doe@acme.io")
                (extractEmailsFromContent (js "Mail jane.doe@acme.io today")))
    by (vm_compute; now left).
  split; [exact H|].
  exact (proj1 (extracted_address_shape _ _ H)).
Defined.

(** X6.  A page on which the quick check [containsEmail] fails yields no
    address. *)
Theorem no_address_without_containsEmail (content : jsstring) :
  containsEmail content = false -> extractEmailsFromContent content = [].
Proof.
  unfold containsEmail, test, extractEmailsFromContent, match_all.
  destruct (search_from emailPattern false 0 content) eqn:S; [discriminate|]. intros _.
  now rewrite (match_all_from_none emailPattern content 0 0 S).
Qed.

Lemma no_address_without_containsEmail_witness :
  containsEmail (js "Call us on 555-0100 @ noon") = false
  /\ extractEmailsFromContent (js "Call us on 555-0100 @ noon") = [].
Proof.
  assert (H : containsEmail (js "Call us on 555-0100 @ noon") = false)
    by (vm_compute; reflexivity).
  split; [exact H|]. exact (no_address_without_containsEmail _ H).
Defined.

(** X7.  [analyzeAndExtractEmail] never throws: the addresses it ranks
    come from [extractEmailsFromContent] and all hold an [@].  It reports
    the extracted addresses, reordered; the primary address is the first
    of them and none scores higher; the confidence is [low] exactly when
    no address was found. *)
Theorem analyzeAndExtractEmail_total
    (url_hostname : jsstring -> option jsstring) (content websiteUrl : jsstring) :
  let found := extractEmailsFromContent content in
  let target :=
    toLowerCase (remove_first true www_re false (extractDomain url_hostname websiteUrl)) in
  exists r,
    analyzeAndExtractEmail url_hostname content websiteUrl = Some r
    /\ Permutation (x_emails r) found
    /\ x_source r = page_content
    /\ (x_confidence r = low <-> found = [])
    /\ match x_primaryEmail r with
       | Some primary =>
           (exists others, x_emails r = primary :: others)
           /\ forall e, In e found -> scoreSpec target e <= scoreSpec target primary
       | None => found = []
       end.
Proof.
  cbv zeta. unfold analyzeAndExtractEmail.
  set (found := extractEmailsFromContent content).
  set (dom := extractDomain url_hostname websiteUrl).
  set (target := toLowerCase (remove_first true www_re false dom)).
  pose proof (extracted_has_at content) as Hat. fold found in Hat.
  unfold rankEmails. fold target. rewrite (scored_spec target found Hat).
  set (items := map (fun e => (e, scoreSpec target e)) found).
  assert (Hperm : Permutation (map fst (sort_desc items)) found).
  { rewrite (sort_desc_perm items). unfold items.
    now rewrite (map_fst_labelled (scoreSpec target)). }
  assert (Hsorted : StronglySorted (fun a b => scoreSpec target b <= scoreSpec target a)
                      (map fst (sort_desc items))).
  { apply (labelled_sorted (scoreSpec target)); [|apply sort_desc_sorted].
    apply Forall_forall. intros x Hx.
    apply (Permutation_in _ (sort_desc_perm items)) in Hx.
    pose proof (labelled_map (scoreSpec target) found) as L. rewrite Forall_forall in L.
    now apply L. }
  destruct (map fst (sort_desc items)) as [|primary others] eqn:R.
  - apply Permutation_nil in Hperm.
    eexists. split; [reflexivity|]. cbn. rewrite Hperm. repeat split; auto.
  - assert (Hin : In primary found) by (apply (Permutation_in _ Hperm); now left).
    rewrite Forall_forall in Hat.
    destruct (split_char_two "@" primary (Hat primary Hin)) as [d Hd].
    unfold index. rewrite Hd. eexists. split; [reflexivity|].
    cbn [x_emails x_source x_confidence x_primaryEmail].
    split; [exact Hperm|]. split; [reflexivity|]. split; [|split].
    + split.
      * destruct (_ || _); discriminate.
      * intros E. rewrite E in Hin. destruct Hin.
    + now exists others.
    + intros e He. apply (Permutation_in _ (Permutation_sym Hperm)) in He.
      destruct He as [<-|He]; [lia|].
      inversion Hsorted as [|? ? _ Hall]; subst. rewrite Forall_forall in Hall.
      now apply Hall.
Qed.

(** ** Icebreakers *)

Section Pieces.

Lemma startsWith_split (p s : jsstring) :
  startsWith p s = true <-> exists post, s = p ++ post.
Proof.
  revert s. induction p as [|x p IH]; intros s.
  - split; [intros _; now exists s|reflexivity].
  - destruct s as [|y s]; cbn [startsWith].
    + split; [discriminate|]. intros [post E]. discriminate E.
    + rewrite andb_true_iff, IH. split.
      * intros [E [post ->]]. apply Ascii.eqb_eq in E. subst y. now exists post.
      * intros [post E]. injection E as -> ->. split; [apply Ascii.eqb_refl|now exists post].
Qed.

(** [s.includes(p)]: [p] is a piece of [s]. *)
Lemma includes_split (s p : jsstring) :
  includes s p = true <-> exists pre post, s = pre ++ p ++ post.
Proof.
  induction s as [|x s IH].
  - cbn [includes]. rewrite orb_false_r, startsWith_split. split.
    + intros [post E]. now exists [], post.
    + intros (pre & post & E). destruct pre; [now exists post|discriminate E].
  - cbn [includes]. rewrite orb_true_iff, startsWith_split, IH. split.
    + intros [[post E]|(pre & post & E)].
      * now exists [], post.
      * exists (x :: pre), post. now rewrite E.
    + intros (pre & post & E). destruct pre as [|y pre].
      * left. now exists post.
      * right. injection E as -> E. now exists pre, post.
Qed.

(** A piece of the lower-cased text is the lower-cased form of a piece of
    the text. *)
Lemma lowered_piece (s p : jsstring) :
  includes (toLowerCase s) p = true
  <-> exists pre mid post, s = pre ++ mid ++ post /\ toLowerCase mid = p.
Proof.
  rewrite includes_split. unfold toLowerCase. split.
  - intros (pre' & post' & E). apply map_eq_app in E.
    destruct E as (pre & rest & -> & _ & E). apply map_eq_app in E.
    destruct E as (mid & post & -> & E & _). now exists pre, mid, post.
  - intros (pre & mid & post & -> & <-).
    exists (map lower_char pre), (map lower_char post). now rewrite !map_app.
Qed.

End Pieces.

(** X8.  [validateIcebreaker] accepts exactly the texts of 20 to 300
    characters no piece of which is, up to the case of its letters, one of
    the stock phrases.  Hence every piece of at least 20 characters of an
    accepted text is accepted as well. *)
Theorem validateIcebreaker_verdict (icebreaker : jsstring) :
  (validateIcebreaker icebreaker = true <->
   20 <= length icebreaker <= 300
   /\ forall pre mid post phrase,
        icebreaker = pre ++ mid ++ post -> In phrase genericPhrases ->
        toLowerCase mid <> js phrase)
  /\ forall pre part post,
       icebreaker = pre ++ part ++ post ->
       validateIcebreaker icebreaker = true -> 20 <= length part ->
       validateIcebreaker part = true.
Proof.
  assert (V : forall s,
             validateIcebreaker s = true <->
             20 <= length s <= 300
             /\ forall pre mid post phrase,
                  s = pre ++ mid ++ post -> In phrase genericPhrases ->
                  toLowerCase mid <> js phrase).
  { intros s. unfold validateIcebreaker.
    destruct (length s <? 20) eqn:A;
      [apply Nat.ltb_lt in A; split; [discriminate|lia]|].
    destruct (300 <? length s) eqn:B;
      [apply Nat.ltb_lt in B; split; [discriminate|lia]|].
    apply Nat.ltb_ge in A, B. cbv zeta.
    destruct (existsb _ genericPhrases) eqn:E.
    - split; [discriminate|]. intros (_ & H). apply existsb_exists in E.
      destruct E as (p & Hp & Hinc). apply lowered_piece in Hinc.
      destruct Hinc as (pre & mid & post & Es & Em).
      now destruct (H pre mid post p Es Hp).
    - split; [|reflexivity]. intros _. split; [lia|].
      intros pre mid post p Es Hp Em.
      assert (existsb (fun phrase => includes (toLowerCase s) (js phrase))
                genericPhrases = true); [|congruence].
      apply existsb_exists. exists p. split; [exact Hp|].
      apply lowered_piece. now exists pre, mid, post. }
  split; [apply V|].
  intros pre part post E H L. apply V in H. destruct H as [[_ H300] H].
  apply V. split.
  - split; [exact L|]. rewrite E, !length_app in H300. lia.
  - intros pre' mid post' p E' Hp. apply (H (pre ++ pre') mid (post' ++ post) p); [|exact Hp].
    rewrite E, E'. now rewrite <- !app_assoc.
Qed.

Section Trim.

Lemma trimStart_head (s : jsstring) :
  match trimStart s with
  | [] => True
  | c :: _ => is_space c = false
  end.
Proof.
  induction s as [|x s IH]; [exact I|]. cbn [trimStart].
  destruct (is_space x) eqn:E; [exact IH|exact E].
Qed.

Lemma trimStart_fixed (s : jsstring) :
  match s with [] => True | c :: _ => is_space c = false end -> trimStart s = s.
Proof. destruct s as [|c s]; [reflexivity|]. cbn [trimStart]. now intros ->. Qed.

Lemma trimStart_idempotent (s : jsstring) : trimStart (trimStart s) = trimStart s.
Proof. apply trimStart_fixed, trimStart_head. Qed.

Lemma trimEnd_idempotent (s : jsstring) : trimEnd (trimEnd s) = trimEnd s.
Proof. unfold trimEnd. now rewrite rev_involutive, trimStart_idempotent. Qed.

Lemma trimStart_keeps_last (s : jsstring) (c : ascii) :
  is_space c = false -> trimStart (s ++ [c]) = trimStart s ++ [c].
Proof.
  intros Hc. induction s as [|x s IH]; cbn [app trimStart]; [now rewrite Hc|].
  destruct (is_space x); [exact IH|reflexivity].
Qed.

Lemma trimEnd_keeps_head (c : ascii) (s : jsstring) :
  is_space c = false -> trimEnd (c :: s) = c :: trimEnd s.
Proof.
  intros Hc. unfold trimEnd. cbn [rev]. rewrite (trimStart_keeps_last _ _ Hc).
  now rewrite rev_app_distr.
Qed.

Lemma trimStart_trim (s : jsstring) : trimStart (trim s) = trim s.
Proof.
  unfold trim. pose proof (trimStart_head s) as H.
  destruct (trimStart s) as [|c t]; [reflexivity|].
  rewrite (trimEnd_keeps_head _ _ H). cbn [trimStart]. now rewrite H.
Qed.

Lemma trim_idempotent (s : jsstring) : trim (trim s) = trim s.
Proof.
  unfold trim at 1. rewrite trimStart_trim. unfold trim. apply trimEnd_idempotent.
Qed.

(** The insights fit the budget. *)
Lemma extractCompanyInsights_length (content : jsstring) :
  length (extractCompanyInsights content) <= maxLength.
Proof.
  unfold extractCompanyInsights.
  destruct (maxLength <? length content) eqn:Elen.
  2:{ apply Nat.ltb_ge in Elen. etransitivity; [apply trim_length|exact Elen]. }
  set (paragraphs := split_re paragraph_break content).
  destruct (accumulate_greedy paragraphs []) as (k & Hk & Hacc & Hfit & _).
  cbn [app] in Hacc, Hfit. rewrite Hacc.
  destruct k as [|k].
  - unfold wholeParagraphs. cbn [firstn map concat length Nat.eqb].
    etransitivity; [apply trim_length|]. unfold substring0. apply firstn_le_length.
  - assert (Hlen : (length (wholeParagraphs (S k) paragraphs) =? 0) = false).
    { apply Nat.eqb_neq. rewrite wholeParagraphs_S by lia.
      rewrite !length_app. cbn [length]. lia. }
    rewrite Hlen. rewrite wholeParagraphs_S by lia. rewrite app_assoc, trim_blank_line.
    etransitivity; [apply trim_length|]. apply Hfit. lia.
Qed.

End Trim.

(** X9.  [extractCompanyInsights] is idempotent, and its result has no
    white space at either end. *)
Theorem extractCompanyInsights_idempotent (content : jsstring) :
  let out := extractCompanyInsights content in
  extractCompanyInsights out = out /\ trim out = out.
Proof.
  cbv zeta.
  assert (T : trim (extractCompanyInsights content) = extractCompanyInsights content).
  { unfold extractCompanyInsights. apply trim_idempotent. }
  split; [|exact T].
  pose proof (extractCompanyInsights_length content) as L.
  unfold extractCompanyInsights at 1.
  apply Nat.ltb_ge in L. rewrite L. exact T.
Qed.

(** ** The CSV module *)

Section WebsiteColumn.

Lemma indexOf_Some (l : list jsstring) (x : jsstring) (i : nat) :
  indexOf l x = Some i ->
  exists pre post, l = pre ++ x :: post /\ length pre = i /\ ~ In x pre.
Proof.
  revert i. induction l as [|y l IH]; intros i H; [discriminate|].
  cbn [indexOf] in H. destruct (jseqb y x) eqn:E.
  - inversion H; subst. apply jseqb_eq in E. subst. exists [], l. auto.
  - destruct (indexOf l x) as [j|]; [|discriminate]. inversion H; subst.
    destruct (IH j eq_refl) as (pre & post & -> & L & N).
    exists (y :: pre), post. repeat split; [cbn; now rewrite L|].
    intros [->|Hin]; [now rewrite jseqb_refl in E|auto].
Qed.

Lemma indexOf_None (l : list jsstring) (x : jsstring) :
  indexOf l x = None -> ~ In x l.
Proof.
  induction l as [|y l IH]; intros H; [auto|].
  cbn [indexOf] in H. destruct (jseqb y x) eqn:E; [discriminate|].
  destruct (indexOf l x); [discriminate|].
  intros [->|Hin]; [now rewrite jseqb_refl in E|now apply IH].
Qed.

Lemma firstAlias_Some (columns : list jsstring) (aliases : list string) (k : jsstring) :
  firstAlias columns (map normalizeColumn columns) aliases = Some k ->
  exists pre a post before after,
    aliases = pre ++ a :: post /\ columns = before ++ k :: after
    /\ normalizeColumn k = js a
    /\ (forall a' c, In a' pre -> In c columns -> normalizeColumn c <> js a')
    /\ (forall c, In c before -> normalizeColumn c <> js a).
Proof.
  induction aliases as [|a aliases IH]; intros H; [discriminate|].
  cbn [firstAlias] in H.
  destruct (indexOf (map normalizeColumn columns) (js a)) as [i|] eqn:E.
  - apply indexOf_Some in E. destruct E as (npre & npost & E & L & N).
    apply map_eq_app in E. destruct E as (before & rest & -> & <- & E).
    apply map_eq_cons in E. destruct E as (k' & after & -> & Ek & _).
    unfold index in H. rewrite length_map in L. subst i.
    rewrite nth_error_app2 in H by lia. rewrite Nat.sub_diag in H. cbn in H.
    inversion H; subst k'.
    exists [], a, aliases, before, after.
    split; [reflexivity|]. split; [reflexivity|]. split; [exact Ek|]. split.
    + intros a' c [].
    + intros c Hc Hn. apply N. rewrite <- Hn. now apply in_map.
  - apply indexOf_None in E. destruct (IH H) as (pre & a0 & post & before & after & -> & Hc & Hk & Hpre & Hbefore).
    exists (a :: pre), a0, post, before, after.
    split; [reflexivity|]. split; [exact Hc|]. split; [exact Hk|]. split; [|exact Hbefore].
    intros a' c [<-|Ha'] Hin; [|now apply Hpre].
    intros Hn. apply E. rewrite <- Hn. now apply in_map.
Qed.

Lemma firstAlias_None (columns : list jsstring) (aliases : list string) :
  firstAlias columns (map normalizeColumn columns) aliases = None ->
  forall a c, In a aliases -> In c columns -> normalizeColumn c <> js a.
Proof.
  induction aliases as [|a0 aliases IH]; intros H a c Ha Hc; [destruct Ha|].
  cbn [firstAlias] in H.
  destruct (indexOf (map normalizeColumn columns) (js a0)) as [i|] eqn:E.
  - apply indexOf_Some in E. destruct E as (npre & npost & E & L & _).
    apply map_eq_app in E. destruct E as (before & rest & -> & <- & E).
    apply map_eq_cons in E. destruct E as (k' & after & -> & _ & _).
    unfold index in H. rewrite length_map in L. subst i.
    rewrite nth_error_app2 in H by lia. rewrite Nat.sub_diag in H. discriminate.
  - apply indexOf_None in E. destruct Ha as [<-|Ha]; [|now apply IH].
    intros Hn. apply E. rewrite <- Hn. now apply in_map.
Qed.

Lemma alias_nonempty (a : string) : In a websiteAliases -> js a <> [].
Proof.
  assert (H : forallb (fun a => negb (jseqb (js a) [])) websiteAliases = true)
    by (vm_compute; reflexivity).
  rewrite forallb_forall in H. intros Ha E. specialize (H a Ha). rewrite E in H.
  discriminate.
Qed.

Lemma leadOfRecord_None (record : obj jsstring) :
  leadOfRecord record = None <-> findWebsiteColumn (keys record) = None.
Proof.
  unfold leadOfRecord. rewrite findWebsiteColumn_ownKeys.
  destruct (findWebsiteColumn (keys record)); split; congruence.
Qed.

Lemma mapThrowing_None (A B : Type) (f : A -> option B) (l : list A) :
  mapThrowing f l = None -> exists x, In x l /\ f x = None.
Proof.
  induction l as [|x l IH]; [discriminate|]. cbn [mapThrowing].
  destruct (f x) eqn:E; [|intros _; exists x; split; [now left|exact E]].
  destruct (mapThrowing f l); [discriminate|]. intros _.
  destruct (IH eq_refl) as (y & Hy & Ey). exists y. split; [now right|exact Ey].
Qed.

Lemma keys_nil (V : Type) (o : obj V) : keys o = [] -> o = [].
Proof. destruct o; [reflexivity|discriminate]. Qed.

End WebsiteColumn.

(** X10.  The website column is the one whose name, lower-cased and
    stripped of [_], [-] and white space, is the earliest alias of the
    list that any column carries, and among the columns of that name the
    first; it is never the empty header.  No column is chosen exactly
    when no column carries an alias. *)
Theorem findWebsiteColumn_choice (columns : list jsstring) :
  match findWebsiteColumn columns with
  | Some k =>
      k <> []
      /\ exists pre a post before after,
           websiteAliases = pre ++ a :: post /\ columns = before ++ k :: after
           /\ normalizeColumn k = js a
           /\ (forall a' c, In a' pre -> In c columns -> normalizeColumn c <> js a')
           /\ (forall c, In c before -> normalizeColumn c <> js a)
  | None =>
      forall a c, In a websiteAliases -> In c columns -> normalizeColumn c <> js a
  end.
Proof.
  unfold findWebsiteColumn.
  destruct (firstAlias columns (map normalizeColumn columns) websiteAliases) as [k|] eqn:E.
  - pose proof (firstAlias_Some _ _ _ E) as H. split; [|exact H].
    destruct H as (pre & a & post & before & after & Ha & _ & Hk & _). intros K.
    rewrite K in Hk.
    apply (alias_nonempty a); [rewrite Ha; apply in_or_app; right; now left|].
    now rewrite <- Hk.
  - now apply firstAlias_None.
Qed.

(** X11.  The lead made from one record: the website is the value of the
    detected column, [company] and [name] are the values of the columns of
    exactly these names, and the extra fields are the non-empty values of
    all other columns, under their own headers, except that a column
    called [__proto__] never becomes an extra field; [extraFields] is
    absent rather than empty. *)
Theorem leadOfRecord_fields (record : obj jsstring) (lead : Lead) :
  NoDup (keys record) ->
  leadOfRecord record = Some lead ->
  exists websiteKey,
    findWebsiteColumn (ownKeys record) = Some websiteKey
    /\ get record websiteKey = Some (l_website lead)
    /\ l_company lead = get record (js "company")
    /\ l_name lead = get record (js "name")
    /\ l_extraFields lead <> Some []
    /\ let extra := match l_extraFields lead with Some e => e | None => [] end in
       NoDup (keys extra)
       /\ forall k v,
            get extra k = Some v <->
            get record k = Some v /\ v <> [] /\ k <> proto
            /\ k <> websiteKey /\ k <> js "company" /\ k <> js "name".
Proof.
  intros Hnd. unfold leadOfRecord.
  destruct (findWebsiteColumn (ownKeys record)) as [websiteKey|] eqn:F; [|discriminate].
  set (rest := without (js "name") (without (js "company") (without websiteKey record))).
  intros H. injection H as <-. cbn [l_website l_company l_name l_extraFields].
  exists websiteKey. split; [reflexivity|].
  apply findWebsiteColumn_In, ownKeys_In in F. apply get_keys in F.
  destruct F as [w Hw].
  rewrite Hw. split; [reflexivity|]. split; [reflexivity|]. split; [reflexivity|].
  assert (Hrest : NoDup (keys rest)) by (unfold rest; now repeat apply NoDup_without).
  assert (Hextra :
            match (if 0 <? length (keys (collectExtra rest))
                   then Some (collectExtra rest) else None) with
            | Some e => e
            | None => []
            end = collectExtra rest).
  { destruct (0 <? length (keys (collectExtra rest))) eqn:L; [reflexivity|].
    apply Nat.ltb_ge in L. symmetry. apply keys_nil.
    destruct (keys (collectExtra rest)); [reflexivity|cbn in L; lia]. }
  split.
  - destruct (0 <? length (keys (collectExtra rest))) eqn:L; [|intros E; discriminate E].
    intros E. inversion E as [E']. rewrite E' in L. discriminate.
  - cbv zeta. rewrite Hextra. split.
    + exact (NoDup_collect (entries rest) [] (NoDup_nil _)).
    + intros k v. rewrite (get_collectExtra rest k Hrest). unfold rest.
      rewrite get_rest.
      destruct (jseqb (js "name") k) eqn:En.
      { apply jseqb_eq in En. split; [discriminate|]. intros (_ & _ & _ & _ & _ & N).
        now destruct N. }
      destruct (jseqb (js "company") k) eqn:Ec.
      { apply jseqb_eq in Ec. split; [discriminate|]. intros (_ & _ & _ & _ & N & _).
        now destruct N. }
      destruct (jseqb websiteKey k) eqn:Ew.
      { apply jseqb_eq in Ew. split; [discriminate|]. intros (_ & _ & _ & N & _).
        now destruct N. }
      apply jseqb_neq in En, Ec, Ew.
      destruct (get record k) as [v0|]; [|split; [discriminate|now intros (? & _)]].
      destruct (jseqb k proto) eqn:Ep.
      { apply jseqb_eq in Ep. rewrite andb_false_r. split; [discriminate|].
        intros (_ & _ & N & _). now destruct N. }
      apply jseqb_neq in Ep. rewrite andb_true_r.
      destruct v0 as [|c v0]; cbn [truthy].
      * split; [discriminate|]. intros (E & N & _). inversion E; subst. now destruct N.
      * split.
        -- intros E. inversion E; subst. repeat split; try congruence.
        -- intros (E & _). exact E.
Qed.

Lemma leadOfRecord_fields_witness :
  NoDup (keys sampleRecord)
  /\ leadOfRecord sampleRecord = Some sampleLead
  /\ exists websiteKey,
       findWebsiteColumn (ownKeys sampleRecord) = Some websiteKey
       /\ get sampleRecord websiteKey = Some (l_website sampleLead).
Proof.
  assert (N : NoDup (keys sampleRecord)).
  { repeat constructor; cbn; intuition discriminate. }
  assert (L : leadOfRecord sampleRecord = Some sampleLead) by (vm_compute; reflexivity).
  split; [exact N|]. split; [exact L|].
  destruct (leadOfRecord_fields sampleRecord sampleLead N L) as (k & F & G & _).
  exists k. split; assumption.
Defined.

(** X12.  [parseCSV] is all or nothing: it returns one lead per record, in
    order, each made from its record, or it throws, which it does exactly
    when the parser throws or some record has no website column. *)
Theorem parseCSV_all_or_nothing
    (parse : jsstring -> option (list (obj jsstring))) (csv : jsstring) :
  match parseCSV parse csv with
  | Some leads =>
      exists records,
        parse csv = Some records
        /\ length leads = length records
        /\ Forall2 (fun record lead => leadOfRecord record = Some lead) records leads
  | None =>
      parse csv = None
      \/ exists records record,
           parse csv = Some records /\ In record records
           /\ findWebsiteColumn (keys record) = None
  end.
Proof.
  unfold parseCSV. destruct (parse csv) as [records|]; [|now left].
  destruct (mapThrowing leadOfRecord records) as [leads|] eqn:E.
  - exists records. apply mapThrowing_Forall2 in E. split; [reflexivity|].
    split; [symmetry; exact (Forall2_length E)|exact E].
  - right. apply mapThrowing_None in E. destruct E as (record & Hin & Hn).
    exists records, record. repeat split; auto. now apply leadOfRecord_None.
Qed.

Section LeadStatistics.

Lemma count_ext (A : Type) (p q : A -> bool) (l : list A) :
  (forall x, In x l -> p x = q x) -> count p l = count q l.
Proof. intros H. unfold count. now rewrite (filter_ext_in _ _ _ H). Qed.

Lemma count_none (A : Type) (p : A -> bool) (l : list A) :
  (forall x, In x l -> p x = false) -> count p l = 0.
Proof.
  intros H. unfold count. induction l as [|x l IH]; [reflexivity|].
  cbn [filter]. rewrite (H x (or_introl eq_refl)). apply IH. intros y Hy. apply H. now right.
Qed.

Lemma count_le (A : Type) (p q : A -> bool) (l : list A) :
  (forall x, In x l -> p x = true -> q x = true) -> count p l <= count q l.
Proof.
  intros H. unfold count. induction l as [|x l IH]; [reflexivity|].
  cbn [filter]. assert (IH' := IH (fun y Hy => H y (or_intror Hy))).
  pose proof (H x (or_introl eq_refl)) as Hx.
  destruct (p x); [rewrite (Hx eq_refl); cbn [length]; lia|].
  destruct (q x); cbn [length]; lia.
Qed.

Lemma count_map (A B : Type) (f : A -> B) (p : B -> bool) (l : list A) :
  count p (map f l) = count (fun x => p (f x)) l.
Proof. unfold count. now rewrite filter_map_swap, length_map. Qed.

Lemma initializeLead_status (l : Lead) :
  let e := initializeLead l in
  hasValidDomain e = isValid (validateDomain (l_website l))
  /\ if hasValidDomain e then enrichmentStatus e = pending /\ errorMessage e = None
     else enrichmentStatus e = skipped
          /\ exists reason,
               reason <> [] /\ error (validateDomain (l_website l)) = Some reason
               /\ errorMessage e = Some (js "Invalid domain: " ++ reason).
Proof.
  cbv zeta. unfold initializeLead, hasValidDomain.
  cbn [domainValidation dv_isValid enrichmentStatus errorMessage].
  split; [reflexivity|].
  destruct (isValid (validateDomain (l_website l))) eqn:V; [now split|].
  split; [reflexivity|].
  destruct (validateDomain_rejected _ V) as (reason & N & E).
  exists reason. rewrite E. auto.
Qed.

(** The entry [getValidationStats] lists for a rejected lead. *)
Let entry (lead : EnrichedLead) : jsstring * jsstring :=
  (website lead,
   match domainValidation lead with
   | Some v => if truthy (dv_error v)
               then match dv_error v with Some e => e | None => [] end
               else js "Unknown validation error"
   | None => js "Unknown validation error"
   end).

Lemma tally_fold (leads : list EnrichedLead) :
  forall v i d,
    fold_left tally leads (v, i, d)
    = (v + count hasValidDomain leads,
       i + count (fun l => negb (hasValidDomain l)) leads,
       d ++ map entry (filter (fun l => negb (hasValidDomain l)) leads)).
Proof.
  unfold count. induction leads as [|l leads IH]; intros v i d.
  - cbn. now rewrite !Nat.add_0_r, app_nil_r.
  - cbn [fold_left tally filter]. destruct (hasValidDomain l) eqn:V; cbn [negb].
    + rewrite IH. cbn [length]. f_equal. f_equal. lia.
    + rewrite IH. cbn [length map]. rewrite <- app_assoc. cbn [app].
      f_equal. f_equal. lia.
Qed.

Lemma getValidationStats_eq (leads : list EnrichedLead) :
  getValidationStats leads
  = mkValidationStats (length leads) (count hasValidDomain leads)
      (count (fun l => negb (hasValidDomain l)) leads)
      (map entry (filter (fun l => negb (hasValidDomain l)) leads)).
Proof. unfold getValidationStats. rewrite tally_fold. reflexivity. Qed.

Lemma entry_nonempty (lead : EnrichedLead) : snd (entry lead) <> [].
Proof.
  unfold entry. cbn [snd]. destruct (domainValidation lead) as [v|]; [|discriminate].
  destruct (dv_error v) as [[|c e]|]; cbn [truthy]; discriminate.
Qed.

Lemma keys_spread_prefix (V : Type) (b a : obj V) :
  exists more, keys (spread a b) = keys a ++ more.
Proof.
  unfold spread. revert a. induction b as [|[k v] b IH]; intros a.
  - exists []. now rewrite app_nil_r.
  - cbn [fold_left fst snd]. destruct (IH (set a k v)) as [more E]. rewrite E.
    rewrite keys_set. destruct (mem k (keys a)); [now exists more|].
    exists ([k] ++ more). now rewrite app_assoc.
Qed.

Lemma NoDup_enrichedColumns : NoDup enrichedColumns.
Proof. repeat constructor; cbn; intuition discriminate. Qed.

End LeadStatistics.

(** X13.  [initializeLeads] keeps every lead's own fields, sets neither
    [email] nor [icebreaker], and marks a lead [pending] exactly when its
    website passes [validateDomain]; the others are [skipped] with the
    validator's reason after ["Invalid domain: "].  Hence the statistics
    right after initialisation: as many pending as valid domains, as many
    skipped as invalid ones, nothing else. *)
Theorem initializeLeads_status (leads : list Lead) :
  let enriched := initializeLeads leads in
  Forall2
    (fun l e =>
       website e = l_website l /\ company e = l_company l /\ name e = l_name l
       /\ extraFields e = l_extraFields l /\ email e = None /\ icebreaker e = None
       /\ hasValidDomain e = isValid (validateDomain (l_website l))
       /\ if hasValidDomain e then enrichmentStatus e = pending /\ errorMessage e = None
          else enrichmentStatus e = skipped
               /\ exists reason,
                    reason <> [] /\ error (validateDomain (l_website l)) = Some reason
                    /\ errorMessage e = Some (js "Invalid domain: " ++ reason))
    leads enriched
  /\ let s := getEnrichmentStats enriched in
     n_pending s = validDomains s /\ n_skipped s = invalidDomains s
     /\ n_processing s = 0 /\ n_completed s = 0 /\ n_failed s = 0
     /\ withEmail s = 0 /\ withIcebreaker s = 0.
Proof.
  cbv zeta. split.
  - unfold initializeLeads. induction leads as [|l leads IH]; [constructor|].
    cbn [map]. constructor; [|exact IH].
    destruct (initializeLead_status l) as [H1 H2].
    do 6 (split; [reflexivity|]). split; [exact H1|exact H2].
  - unfold getEnrichmentStats, initializeLeads.
    cbn [n_pending n_skipped n_processing n_completed n_failed withEmail withIcebreaker
         validDomains invalidDomains].
    assert (S : forall l, In l (map initializeLead leads) ->
                          enrichmentStatus l = if hasValidDomain l then pending else skipped).
    { intros e He. apply in_map_iff in He. destruct He as (l & <- & _).
      destruct (initializeLead_status l) as [_ H].
      destruct (hasValidDomain (initializeLead l)); now destruct H. }
    repeat split.
    + apply count_ext. intros l Hl. rewrite (S l Hl). now destruct (hasValidDomain l).
    + apply count_ext. intros l Hl. rewrite (S l Hl). now destruct (hasValidDomain l).
    + apply count_none. intros l Hl. rewrite (S l Hl). now destruct (hasValidDomain l).
    + apply count_none. intros l Hl. rewrite (S l Hl). now destruct (hasValidDomain l).
    + apply count_none. intros l Hl. rewrite (S l Hl). now destruct (hasValidDomain l).
    + apply count_none. intros e He. apply in_map_iff in He. now destruct He as (l & <- & _).
    + apply count_none. intros e He. apply in_map_iff in He. now destruct He as (l & <- & _).
Qed.

(** X14.  [getValidationStats] splits the leads into valid and invalid,
    with the counts of [getEnrichmentStats]; it lists the invalid leads in
    order, each with a non-empty reason, and for freshly initialised leads
    the reason is the validator's own. *)
Theorem getValidationStats_counts (leads : list EnrichedLead) :
  let s := getValidationStats leads in
  vs_total s = length leads
  /\ vs_valid s + vs_invalid s = vs_total s
  /\ vs_valid s = validDomains (getEnrichmentStats leads)
  /\ vs_invalid s = invalidDomains (getEnrichmentStats leads)
  /\ map fst (vs_invalidDomains s)
     = map website (filter (fun l => negb (hasValidDomain l)) leads)
  /\ Forall (fun listed => snd listed <> []) (vs_invalidDomains s)
  /\ forall fresh,
       leads = initializeLeads fresh ->
       Forall (fun listed => error (validateDomain (fst listed)) = Some (snd listed))
         (vs_invalidDomains s).
Proof.
  cbv zeta. rewrite getValidationStats_eq.
  cbn [vs_total vs_valid vs_invalid vs_invalidDomains].
  split; [reflexivity|]. split; [apply filter_split_length|].
  split; [reflexivity|]. split; [reflexivity|].
  split; [now rewrite map_map|]. split.
  - apply Forall_forall. intros p Hp. apply in_map_iff in Hp.
    destruct Hp as (l & <- & _). apply entry_nonempty.
  - intros fresh ->. apply Forall_forall. intros p Hp. apply in_map_iff in Hp.
    destruct Hp as (e & <- & He). apply filter_In in He. destruct He as [He Hv].
    unfold initializeLeads in He. apply in_map_iff in He. destruct He as (l & <- & _).
    destruct (initializeLead_status l) as [H1 _]. rewrite H1 in Hv.
    apply negb_true_iff in Hv. destruct (validateDomain_rejected _ Hv) as (reason & N & E).
    cbn [initializeLead website domainValidation dv_error fst snd]. rewrite E.
    destruct reason; [congruence|reflexivity].
Qed.


Lemma filter_both (A : Type) (p q : A -> bool) (l : list A) :
  filter p (filter q l) = filter (fun x => q x && p x) l.
Proof.
  induction l as [|x l IH]; [reflexivity|]. cbn [filter].
  destruct (q x); cbn [filter andb]; [destruct (p x)|]; now rewrite IH.
Qed.

Lemma filter_unique (p : jsstring -> bool) (l : list jsstring) :
  filter p (unique l) = unique (filter p l).
Proof.
  induction l as [|x l IH]; [reflexivity|]. cbn [unique filter].
  assert (C : forall u, filter p (filter (fun y => negb (jseqb x y)) u)
                        = filter (fun y => negb (jseqb x y)) (filter p u)).
  { intros u. rewrite !filter_both. apply filter_ext. intros y. apply andb_comm. }
  destruct (p x) eqn:Px.
  - cbn [unique]. f_equal. now rewrite C, IH.
  - rewrite C, IH. apply forallb_filter_id. apply forallb_forall. intros y Hy.
    apply unique_In, filter_In in Hy. destruct Hy as [_ Py].
    apply negb_true_iff, jseqb_neq. intros <-. congruence.
Qed.

(** After phase 2 a lead has the own property [icebreaker], so its column
    is written even when no icebreaker was found. *)
Example toCSV_after_phase2 :
  orderedColumns [withOwnIcebreaker None (initializedObject sampleLead)]
  = [js "website"; js "company"; js "name"; js "Phone"; js "icebreaker";
     js "enrichmentStatus"; js "errorMessage"].
Proof. vm_compute. reflexivity. Qed.

(** Array indices are the numerals of 0 to 4294967294 without leading
    zero. *)
Example isArrayIndex_samples :
  map isArrayIndex
    [js "0"; js "7"; js "2024"; js "4294967294"; js "4294967295"; js "007";
     js "-1"; js "1.5"; []; js "website"]
  = [true; true; true; true; false; false; false; false; false; false]
  /\ ownKeys [(js "b", 1); (js "10", 2); (js "a", 3); (js "9", 4); (js "07", 5)]
     = [js "9"; js "10"; js "b"; js "a"; js "07"].
Proof. vm_compute. split; reflexivity. Qed.

Lemma enriched_not_index (k : jsstring) :
  isArrayIndex k = true -> mem k enrichedColumns = false.
Proof.
  intros H. destruct (mem k enrichedColumns) eqn:M; [|reflexivity].
  apply mem_In in M. unfold enrichedColumns in M. cbn [In] in M.
  repeat (destruct M as [<-|M]; [vm_compute in H; discriminate H|]). destruct M.
Qed.

Lemma keys_rest (lead : LeadObject) (key : jsstring) :
  In key (o_own lead) -> key <> js "extraFields" -> key <> js "domainValidation" ->
  In key (keys (restOfLead lead)).
Proof.
  intros Hin N1 N2. unfold restOfLead, keys. rewrite map_map. cbn [fst].
  rewrite map_id. apply filter_In. split; [exact Hin|].
  now rewrite (proj2 (jseqb_neq _ _) N1), (proj2 (jseqb_neq _ _) N2).
Qed.

(** X16.  The header [toCSV] writes: no column twice; exactly the names of
    the properties of the flattened rows, so that an own property of a
    lead has its column even when it holds [undefined]; the columns other
    than [email], [icebreaker], [enrichmentStatus] and [errorMessage]
    first, in the order in which the rows list them, and then those of
    these four that some row has, in this order.  A row lists the columns
    whose names are array indices first, in ascending order, and the
    others after them in the order of their creation. *)
Theorem orderedColumns_layout (leads : list LeadObject) :
  let rows := flattenedLeads leads in
  let header := orderedColumns leads in
  NoDup header
  /\ (forall column,
        In column header <-> exists row, In row rows /\ In column (keys row))
  /\ (forall lead key,
        In lead leads -> In key (o_own lead) ->
        key <> js "extraFields" -> key <> js "domainValidation" -> In key header)
  /\ header
     = unique (concat (map originalKeys rows))
       ++ filter (fun column => existsb (fun row => mem column (keys row)) rows)
            enrichedColumns
  /\ forall row,
       In row rows ->
       exists indices names,
         originalKeys row = indices ++ names
         /\ Forall (fun k => isArrayIndex k = true) indices
         /\ Sorted (fun a b => indexLeb a b = true) indices
         /\ names = filter (fun k => negb (isArrayIndex k)
                                     && negb (mem k enrichedColumns)) (keys row).
Proof.
  cbv zeta. split; [|split; [|split; [|split]]].
  - unfold orderedColumns. cbv zeta. apply NoDup_app.
    + apply NoDup_filter, unique_NoDup.
    + apply NoDup_filter, NoDup_enrichedColumns.
    + intros c Hc Hc'. apply filter_In in Hc, Hc'. destruct Hc as [_ Hc], Hc' as [Hc' _].
      apply negb_true_iff in Hc. apply mem_In in Hc'. congruence.
  - apply orderedColumns_In.
  - intros lead key Hlead Hkey N1 N2. apply orderedColumns_In.
    exists (flattenLead lead). split; [now apply in_map|].
    unfold flattenLead. apply keys_spread. left. now apply keys_rest.
  - unfold orderedColumns. cbv zeta. f_equal.
    + unfold allColumns. rewrite filter_unique. f_equal.
      rewrite <- concat_filter_map, map_map. reflexivity.
    + apply filter_ext. intros column.
      destruct (existsb (fun row => mem column (keys row)) (flattenedLeads leads)) eqn:E.
      * apply mem_In, allColumns_In. apply existsb_exists in E.
        destruct E as (row & Hrow & Hc). exists row. split; [exact Hrow|].
        now apply mem_In.
      * destruct (mem column (allColumns leads)) eqn:M; [|reflexivity].
        apply mem_In, allColumns_In in M. destruct M as (row & Hrow & Hc).
        assert (T : existsb (fun row => mem column (keys row)) (flattenedLeads leads)
                    = true); [|congruence].
        apply existsb_exists. exists row. split; [exact Hrow|now apply mem_In].
  - intros row _.
    exists (sortIndices (filter isArrayIndex (keys row))),
      (filter (fun k => negb (isArrayIndex k) && negb (mem k enrichedColumns)) (keys row)).
    assert (I : Forall (fun k => isArrayIndex k = true)
                  (sortIndices (filter isArrayIndex (keys row)))).
    { apply Forall_forall. intros k Hk.
      apply (Permutation_in _ (sortIndices_perm _)) in Hk.
      now apply filter_In in Hk. }
    split; [|split; [exact I|split; [apply sortIndices_sorted|reflexivity]]].
    unfold originalKeys, ownKeys. rewrite filter_app, filter_both. f_equal.
    apply forallb_filter_id. apply forallb_forall. intros k Hk.
    rewrite Forall_forall in I. now rewrite (enriched_not_index k (I k Hk)).
Qed.

(** ** One lead in the pipeline *)

Section OneLeadOutcome.

Variable url_hostname : jsstring -> option jsstring.
Variable backend : Backend.

Lemma tryContactPaths_outcome (normalizedUrl : jsstring) (paths : list jsstring)
    (mainResult : ScrapeResult) :
  exists t r,
    tryContactPaths backend normalizedUrl paths mainResult = (t, Returned r)
    /\ t = map ScrapeRequest (scrapeRequests t)
    /\ length t <= length paths
    /\ (r = mainResult
        \/ (foundEmail r = true
            /\ exists path, In path paths
                            /\ scrape backend (normalizedUrl ++ path) = Returned r)).
Proof.
  induction paths as [|path rest IH].
  - exists [], mainResult. cbn. auto.
  - destruct IH as (t & r & E & Ht & Hlen & Hr).
    assert (Hr' : r = mainResult
                  \/ (foundEmail r = true
                      /\ exists p, In p (path :: rest)
                                   /\ scrape backend (normalizedUrl ++ p) = Returned r)).
    { destruct Hr as [Hr|(Hf & p & Hp & Hs)]; [now left|right].
      split; [exact Hf|]. exists p. split; [now right|exact Hs]. }
    cbn [tryContactPaths]. rewrite scrapeUrl_run.
    destruct (ready backend).
    + destruct (scrape backend (normalizedUrl ++ path)) as [res|e] eqn:S.
      * cbn [bind try_catch ret app]. destruct (foundEmail res) eqn:F.
        -- exists [ScrapeRequest (normalizedUrl ++ path)], res.
           cbn [bind ret app]. split; [reflexivity|]. split; [reflexivity|].
           split; [cbn [length]; lia|].
           right. split; [exact F|]. exists path. split; [now left|exact S].
        -- exists (ScrapeRequest (normalizedUrl ++ path) :: t), r.
           cbn [bind ret app]. rewrite E. cbn [app]. split; [reflexivity|].
           split; [|split; [cbn [length]; lia|exact Hr']].
           cbn [scrapeRequests flat_map app map]. f_equal. exact Ht.
      * exists (ScrapeRequest (normalizedUrl ++ path) :: t), r.
        cbn [bind try_catch ret app]. rewrite E. cbn [app]. split; [reflexivity|].
        split; [|split; [cbn [length]; lia|exact Hr']].
        cbn [scrapeRequests flat_map app map]. f_equal. exact Ht.
    + exists t, r. cbn [bind try_catch throw ret app]. rewrite E.
      split; [reflexivity|]. split; [exact Ht|]. split; [cbn [length]; lia|exact Hr'].
Qed.

(** The scrape step: it asks for pages only, at most four of them; it
    throws exactly when the request for the main page does; what it returns
    is the main page's answer or the answer of a contact page that holds
    an address. *)
Lemma scrapeForContact_summary (baseUrl : jsstring) :
  let run := scrapeForContact backend baseUrl in
  fst run = map ScrapeRequest (scrapeRequests (fst run))
  /\ length (fst run) <= 4
  /\ (ready backend = false -> fst run = [])
  /\ match snd run with
     | Threw e => snd (scrapeUrl backend baseUrl) = Threw e
     | Returned r =>
         exists main,
           snd (scrapeUrl backend baseUrl) = Returned main
           /\ (r = main
               \/ (foundEmail main = false /\ foundEmail r = true
                   /\ exists path,
                        In path contactPaths
                        /\ scrape backend (withoutTrailingSlash baseUrl ++ path)
                           = Returned r))
     end.
Proof.
  cbv zeta. unfold scrapeForContact. rewrite scrapeUrl_run.
  destruct (ready backend).
  2:{ cbn. split; [reflexivity|]. split; [lia|]. split; reflexivity. }
  destruct (scrape backend baseUrl) as [main|e].
  2:{ cbn. split; [reflexivity|]. split; [lia|]. split; [discriminate|reflexivity]. }
  cbn [bind app fst snd]. destruct (foundEmail main) eqn:F.
  - cbn. split; [reflexivity|]. split; [lia|]. split; [discriminate|].
    exists main. auto.
  - destruct (tryContactPaths_outcome
                (remove_first false [chr "/"] true baseUrl) contactPaths main)
      as (t & r & E & Ht & Hlen & Hr).
    rewrite E. cbn [fst snd app]. split; [|split; [|split]].
    + cbn [scrapeRequests flat_map app map]. f_equal. exact Ht.
    + cbn [length contactPaths] in *. lia.
    + discriminate.
    + exists main. split; [reflexivity|]. destruct Hr as [Hr|(Hf & Hp)]; [now left|right].
      split; [exact F|]. split; assumption.
Qed.

End OneLeadOutcome.

(** X17.  [scrapeForContact] sends page requests only, at most four; an
    exception of a contact-page request never leaves it: it throws exactly
    when the main-page request throws, and otherwise returns the main
    page's answer or the answer of a contact page holding an address. *)
Theorem scrapeForContact_outcome (backend : Backend) (baseUrl : jsstring) :
  let run := scrapeForContact backend baseUrl in
  fst run = map ScrapeRequest (scrapeRequests (fst run))
  /\ length (fst run) <= 4
  /\ (ready backend = false -> fst run = [])
  /\ match snd run with
     | Threw e => snd (scrapeUrl backend baseUrl) = Threw e
     | Returned r =>
         exists main,
           snd (scrapeUrl backend baseUrl) = Returned main
           /\ (r = main
               \/ (foundEmail main = false /\ foundEmail r = true
                   /\ exists path,
                        In path contactPaths
                        /\ scrape backend (withoutTrailingSlash baseUrl ++ path)
                           = Returned r))
     end.
Proof. exact (scrapeForContact_summary backend baseUrl). Qed.

(** Runs the monad's plumbing on a goal. *)
Ltac settle :=
  cbn [bind try_catch catchBlock ret throw emit await set_lead fst snd app negb orb andb
       lead scrapeResult emailResult icebreakerResult
       with_status with_errorMessage with_email with_icebreaker
       website company name extraFields email icebreaker enrichmentStatus errorMessage
       domainValidation].

Ltac failed_case :=
  split; [repeat split|]; split; [reflexivity|];
  split; [left; split; [reflexivity|discriminate]|];
  split; [now left|]; split; [now left|]; split; [reflexivity|].

Section OneLeadSummary.

Variable url_hostname : jsstring -> option jsstring.
Variable backend : Backend.

(** Everything [enrichLead] does to a lead whose domain is valid. *)
Lemma enrichLead_valid (l : EnrichedLead) (options : EnrichOptions) :
  hasValidDomain l = true ->
  let domain := extractDomain url_hostname (website l) in
  let tone := match opt_icebreakerTone options with Some t => t | None => professional end in
  let scrapeRun := scrapeForContact backend (website l) in
  exists tail r,
    enrichLead url_hostname backend l options = (fst scrapeRun ++ tail, Returned r)
    /\ (website (lead r) = website l /\ company (lead r) = company l
        /\ name (lead r) = name l /\ extraFields (lead r) = extraFields l
        /\ domainValidation (lead r) = domainValidation l)
    /\ scrapeResult r
       = match snd scrapeRun with Returned sr => Some sr | Threw _ => None end
    /\ ((enrichmentStatus (lead r) = failed /\ errorMessage (lead r) <> None)
        \/ (enrichmentStatus (lead r) = completed
            /\ errorMessage (lead r) = errorMessage l
            /\ exists sr er,
                 scrapeResult r = Some sr /\ s_success sr = true
                 /\ truthy (s_markdown sr) = true /\ emailResult r = Some er))
    /\ (email (lead r) = email l
        \/ exists er,
             emailResult r = Some er /\ e_success er = true
             /\ truthy (e_primaryEmail er) = true
             /\ email (lead r) = e_primaryEmail er)
    /\ (icebreaker (lead r) = icebreaker l
        \/ (opt_generateIcebreaker options = true
            /\ exists ir,
                 icebreakerResult r = Some ir /\ i_success ir = true
                 /\ i_icebreaker ir <> []
                 /\ icebreaker (lead r) = Some (i_icebreaker ir)))
    /\ (opt_generateIcebreaker options = false -> icebreakerResult r = None)
    /\ (tail = []
        \/ exists sr markdown,
             snd scrapeRun = Returned sr /\ s_markdown sr = Some markdown
             /\ (tail = [ExtractRequest markdown domain]
                 \/ (opt_generateIcebreaker options = true
                     /\ tail = [ExtractRequest markdown domain;
                                IcebreakerRequest markdown (company l) domain tone]))).
Proof.
  intros V. cbv zeta. unfold enrichLead. rewrite V. cbn [negb].
  unfold extractEmails, generateIcebreaker.
  destruct (scrapeForContact backend (website l)) as [t1 [sr|e1]].
  2:{ settle. eexists [], _. split; [reflexivity|]. settle.
      failed_case. now left. }
  settle. destruct (s_success sr) eqn:Hs; cbn [negb orb].
  2:{ settle. eexists [], _. split; [rewrite app_nil_r; reflexivity|]. settle.
      failed_case. now left. }
  destruct (s_markdown sr) as [markdown|] eqn:Hm.
  2:{ settle. cbn [truthy negb]. settle. eexists [], _.
      split; [rewrite app_nil_r; reflexivity|]. settle.
      failed_case. now left. }
  destruct markdown as [|c markdown].
  { settle. cbn [truthy negb]. settle. eexists [], _.
    split; [rewrite app_nil_r; reflexivity|]. settle.
    failed_case. now left. }
  cbn [truthy negb andb]. rewrite andb_true_r.
  destruct (ready backend); cbn [negb].
  2:{ settle. eexists [], _. split; [reflexivity|]. settle.
      failed_case. now left. }
  set (md := (c :: markdown)) in *.
  set (domain := extractDomain url_hostname (website l)).
  destruct (extract backend md domain) as [er|e2].
  2:{ settle. eexists _, _. split; [reflexivity|]. settle.
      failed_case.
      right. exists sr, md. split; [reflexivity|]. split; [exact Hm|]. now left. }
  settle.
  assert (Hcompleted : forall x : EnrichedLead,
             errorMessage x = errorMessage l ->
             (enrichmentStatus (with_status completed x) = failed
              /\ errorMessage (with_status completed x) <> None)
             \/ (enrichmentStatus (with_status completed x) = completed
                 /\ errorMessage (with_status completed x) = errorMessage l
                 /\ exists sr0 er0,
                      Some sr = Some sr0 /\ s_success sr0 = true
                      /\ truthy (s_markdown sr0) = true /\ Some er = Some er0)).
  { intros x Hx. right. split; [reflexivity|]. split; [exact Hx|].
    exists sr, er. rewrite Hm. auto. }
  destruct (opt_generateIcebreaker options) eqn:Hopt.
  - destruct (icebreak backend md (company l) domain
                (match opt_icebreakerTone options with
                 | Some t => t
                 | None => professional
                 end)) as [ir|e3].
    + destruct (e_success er && truthy (e_primaryEmail er)) eqn:He;
        destruct (i_success ir) eqn:Hi1;
        destruct (i_icebreaker ir) as [|ci ib] eqn:Hi2;
        settle; eexists _, _; (split; [reflexivity|]); settle;
        (split; [repeat split|]); (split; [reflexivity|]);
        (split; [apply Hcompleted; reflexivity|]);
        (split; [first [now left | right; exists er; apply andb_prop in He;
                                   destruct He; auto]|]);
        (split; [first [now left | right; split; [reflexivity|]; exists ir;
                                   rewrite Hi2; repeat split; auto; discriminate]|]);
        (split; [discriminate|]);
        right; exists sr, md; (split; [reflexivity|]); (split; [exact Hm|]);
        right; split; reflexivity.
    + destruct (e_success er && truthy (e_primaryEmail er)) eqn:He;
        settle; eexists _, _; (split; [reflexivity|]); settle;
        (split; [repeat split|]); (split; [reflexivity|]);
        (split; [left; split; [reflexivity|discriminate]|]);
        (split; [first [now left | right; exists er; apply andb_prop in He;
                                   destruct He; auto]|]);
        (split; [now left|]); (split; [discriminate|]);
        right; exists sr, md; (split; [reflexivity|]); (split; [exact Hm|]);
        right; split; reflexivity.
  - destruct (e_success er && truthy (e_primaryEmail er)) eqn:He;
      settle; eexists _, _; (split; [reflexivity|]); settle;
      (split; [repeat split|]); (split; [reflexivity|]);
      (split; [apply Hcompleted; reflexivity|]);
      (split; [first [now left | right; exists er; apply andb_prop in He;
                                 destruct He; auto]|]);
      (split; [now left|]); (split; [reflexivity|]);
      right; exists sr, md; (split; [reflexivity|]); (split; [exact Hm|]);
      now left.
Qed.

End OneLeadSummary.

(** X18.  Whatever the backend does, [enrichLead] returns: it never
    throws.  It leaves the lead's website, company, name, extra fields and
    domain validation as they are.  A lead with an invalid domain comes
    back [skipped] without any request; any other lead comes back [failed]
    with an error message, or [completed], which requires a successful
    scrape with text and an extraction call that returned, and which
    leaves an earlier error message in place.  The email changes only to
    the primary address of a successful extraction, the icebreaker only to
    the non-empty text of a successful generation that was asked for. *)
Theorem enrichLead_outcome
    (url_hostname : jsstring -> option jsstring) (backend : Backend)
    (l : EnrichedLead) (options : EnrichOptions) :
  exists t r,
    enrichLead url_hostname backend l options = (t, Returned r)
    /\ (website (lead r) = website l /\ company (lead r) = company l
        /\ name (lead r) = name l /\ extraFields (lead r) = extraFields l
        /\ domainValidation (lead r) = domainValidation l)
    /\ (if hasValidDomain l then
          (enrichmentStatus (lead r) = failed /\ errorMessage (lead r) <> None)
          \/ (enrichmentStatus (lead r) = completed
              /\ errorMessage (lead r) = errorMessage l
              /\ exists sr er,
                   scrapeResult r = Some sr /\ s_success sr = true
                   /\ truthy (s_markdown sr) = true /\ emailResult r = Some er)
        else t = [] /\ r = skippedResult l)
    /\ (email (lead r) = email l
        \/ exists er,
             emailResult r = Some er /\ e_success er = true
             /\ truthy (e_primaryEmail er) = true
             /\ email (lead r) = e_primaryEmail er)
    /\ (icebreaker (lead r) = icebreaker l
        \/ (opt_generateIcebreaker options = true
            /\ exists ir,
                 icebreakerResult r = Some ir /\ i_success ir = true
                 /\ i_icebreaker ir <> []
                 /\ icebreaker (lead r) = Some (i_icebreaker ir))).
Proof.
  destruct (hasValidDomain l) eqn:V.
  - destruct (enrichLead_valid url_hostname backend l options V)
      as (tail & r & E & Hfields & _ & Hstatus & Hemail & Hice & _).
    eexists _, r. split; [exact E|]. auto.
  - exists [], (skippedResult l). split; [now apply enrichLead_invalid|].
    cbn. repeat split; auto.
Qed.

(** X19.  The requests [enrichLead] sends for one lead: first the page
    requests of the scrape step, at most four; then at most one extraction
    request, for the scraped text and the domain of the website; then, if
    icebreakers were asked for, at most one generation request for the
    same text.  Nothing is sent while the backend is not initialised. *)
Theorem enrichLead_requests_shape
    (url_hostname : jsstring -> option jsstring) (backend : Backend)
    (l : EnrichedLead) (options : EnrichOptions) :
  let domain := extractDomain url_hostname (website l) in
  let tone := match opt_icebreakerTone options with Some t => t | None => professional end in
  let t := fst (enrichLead url_hostname backend l options) in
  exists urls tail,
    t = map ScrapeRequest urls ++ tail
    /\ length urls <= 4
    /\ (tail = []
        \/ exists markdown,
             markdown <> []
             /\ (tail = [ExtractRequest markdown domain]
                 \/ (opt_generateIcebreaker options = true
                     /\ tail = [ExtractRequest markdown domain;
                                IcebreakerRequest markdown (company l) domain tone])))
    /\ (hasValidDomain l = false \/ ready backend = false -> t = []).
Proof.
  cbv zeta. destruct (hasValidDomain l) eqn:V.
  2:{ rewrite (enrichLead_invalid url_hostname backend l options V). exists [], [].
      cbn. repeat split; auto; lia. }
  destruct (enrichLead_valid url_hostname backend l options V)
    as (tail & r & E & _ & Hsr & Hstatus & _ & _ & _ & Htail).
  destruct (scrapeForContact_summary backend (website l)) as (Hreq & Hlen & Hready & Hout).
  rewrite E. cbn [fst].
  exists (scrapeRequests (fst (scrapeForContact backend (website l)))), tail.
  split; [now rewrite <- Hreq|]. split.
  { rewrite Hreq, length_map in Hlen. exact Hlen. }
  split.
  - destruct Htail as [->|(sr & markdown & Hs & Hm & Ht)]; [now left|right].
    exists markdown. split; [|exact Ht].
    rewrite Hs in Hsr. destruct Hstatus as [[Hf _]|(_ & _ & sr' & er & Hsr' & _ & Htruthy & _)].
    + (* a failed lead asked for an extraction only after a scrape with text *)
      intros ->. clear Hout Hready Hlen Hreq.
      revert E. unfold enrichLead. rewrite V. cbn [negb].
      destruct (scrapeForContact backend (website l)) as [t1 [sr0|e0]];
        cbn [fst snd] in *; [|discriminate].
      inversion Hs; subst sr0.
      settle. rewrite Hm. cbn [truthy negb orb].
      rewrite orb_true_r. settle.
      intros E. inversion E as [[E1 E2]].
      apply (f_equal (@length event)) in E1. rewrite !length_app in E1.
      destruct Ht as [->|[_ ->]]; cbn [length] in E1; lia.
    + rewrite Hsr in Hsr'. inversion Hsr'; subst sr'. rewrite Hm in Htruthy.
      intros ->. discriminate.
  - intros [?|Hr]; [discriminate|].
    rewrite (Hready Hr). cbn [app].
    destruct Htail as [->|(sr & markdown & Hs & _)]; [reflexivity|].
    rewrite Hs in Hout. destruct Hout as (main & Hmain & _).
    rewrite scrapeUrl_run, Hr in Hmain. discriminate.
Qed.

(** X20.  While the backend is not initialised, phase 1 fails each valid
    lead on its own, without a request, with the message of the thrown
    error; phase 2 has no such boundary: its first lead makes the whole
    call throw, after the one progress call. *)
Theorem backend_not_initialised
    (url_hostname : jsstring -> option jsstring) (backend : Backend) :
  ready backend = false ->
  (forall l options,
      hasValidDomain l = true ->
      enrichLead url_hostname backend l options
      = ([], Returned (mkResult
                         (with_errorMessage (Some (js "API not initialized"))
                            (with_status failed l))
                         None None None)))
  /\ (forall world l rest scrapedContent config,
         world 0 = backend ->
         generateIcebreakersForLeads url_hostname world (l :: rest) scrapedContent config
         = ([Progress icebreaker_stage 0 (length (l :: rest)) (website l)
               (mkResult l None None None)],
            Threw (JsError (js "API not initialized")))).
Proof.
  intros R. split.
  - intros l options V. unfold enrichLead, scrapeForContact, scrapeUrl.
    rewrite V, R. reflexivity.
  - intros world l rest cache config W.
    unfold generateIcebreakersForLeads. cbn [icebreakerLoop]. unfold icebreakerStep.
    rewrite W. unfold scrapeForContact, scrapeUrl, generateIcebreaker. rewrite R.
    destruct (get cache (website l)) as [[|c content]|]; reflexivity.
Qed.

Lemma backend_not_initialised_witness :
  ready offlineBackend = false
  /\ enrichLead (fun _ => None) offlineBackend acmeLead phase1Options
     = ([], Returned (mkResult
                        (with_errorMessage (Some (js "API not initialized"))
                           (with_status failed acmeLead))
                        None None None)).
Proof.
  split; [reflexivity|].
  exact (proj1 (backend_not_initialised (fun _ => None) offlineBackend eq_refl)
           acmeLead phase1Options eq_refl).
Defined.

(** ** Phase 1: the events of one lead, and the results *)

Section Schedules.

Lemma nth_error_update (A : Type) (j : nat) (x : A) (l : list A) (j' : nat) :
  nth_error (update j x l) j'
  = if j' =? j then (if j <? length l then Some x else None) else nth_error l j'.
Proof.
  revert j j'. induction l as [|y l IH]; intros j j'.
  - cbn [update length]. destruct j; cbn; destruct (j' =? _); now destruct j'.
  - destruct j as [|j]; cbn [update].
    + destruct j' as [|j']; reflexivity.
    + destruct j' as [|j']; [reflexivity|]. cbn [nth_error]. rewrite IH.
      change (S j' =? S j) with (j' =? j). change (S j <? length (y :: l)) with (j <? length l).
      reflexivity.
Qed.

Lemma all_empty_nth (A : Type) (pending : list (list A)) (j : nat) :
  forallb (@isEmpty A) pending = true -> nth j pending [] = [].
Proof.
  revert j. induction pending as [|l pending IH]; intros j H; [now destruct j|].
  cbn [forallb] in H. apply andb_prop in H. destruct H as [Hl Hp].
  destruct j as [|j]; cbn [nth]; [now destruct l|auto].
Qed.

(** A run keeps the events of each callback in their own order. *)
Lemma runSchedule_project (A : Type) (lab : A -> nat) (base : nat) (sched : schedule) :
  forall (pending : list (list A)) (tr : list A),
    runSchedule sched pending = Some tr ->
    (forall j l x, nth_error pending j = Some l -> In x l -> lab x = base + j) ->
    forall j, filter (fun x => lab x =? base + j) tr = nth j pending [].
Proof.
  induction sched as [|j0 sched IH]; intros pending tr H Hlab j.
  - cbn [runSchedule] in H. destruct (forallb (@isEmpty A) pending) eqn:E; [|discriminate].
    inversion H; subst. cbn [filter]. symmetry. now apply all_empty_nth.
  - cbn [runSchedule] in H.
    destruct (nth_error pending j0) as [[|x l]|] eqn:E; try discriminate.
    destruct (runSchedule sched (update j0 l pending)) as [tr'|] eqn:R; [|discriminate].
    inversion H; subst tr. clear H.
    assert (Hj0 : j0 < length pending) by (apply nth_error_Some; congruence).
    assert (Hlab' : forall j l' y,
               nth_error (update j0 l pending) j = Some l' -> In y l' -> lab y = base + j).
    { intros j1 l' y Hn Hy. rewrite nth_error_update in Hn.
      destruct (Nat.eqb_spec j1 j0) as [->|N].
      - apply Nat.ltb_lt in Hj0. rewrite Hj0 in Hn. inversion Hn; subst l'.
        apply (Hlab j0 (x :: l) y E). now right.
      - now apply (Hlab j1 l' y). }
    specialize (IH _ _ R Hlab' j). cbn [filter].
    rewrite (Hlab j0 (x :: l) x E (or_introl eq_refl)).
    destruct (Nat.eqb_spec (base + j0) (base + j)) as [Ej|Nj].
    + assert (j = j0) by lia. subst j. rewrite IH.
      rewrite (nth_error_nth pending j0 [] E).
      f_equal. apply nth_error_nth. rewrite nth_error_update, Nat.eqb_refl.
      apply Nat.ltb_lt in Hj0. now rewrite Hj0.
    + rewrite IH. assert (Nj' : j <> j0) by lia.
      destruct (nth_error pending j) as [lj|] eqn:Ej.
      * rewrite (nth_error_nth pending j [] Ej). apply nth_error_nth.
        rewrite nth_error_update. apply Nat.eqb_neq in Nj'. now rewrite Nj'.
      * rewrite !nth_overflow; [reflexivity| |].
        -- now apply nth_error_None.
        -- apply nth_error_None. rewrite nth_error_update.
           apply Nat.eqb_neq in Nj'. now rewrite Nj'.
Qed.

Lemma concat_single (X : Type) (ls : list (list X)) (b0 : nat) :
  (forall b l, nth_error ls b = Some l -> b <> b0 -> l = []) ->
  concat ls = nth b0 ls [].
Proof.
  revert b0. induction ls as [|l ls IH]; intros b0 H; [now destruct b0|].
  cbn [concat]. destruct b0 as [|b0]; cbn [nth].
  - assert (E : concat ls = []).
    { apply concat_nil_Forall, Forall_forall. intros x Hx.
      apply In_nth_error in Hx. destruct Hx as [b Hb].
      now apply (H (S b) x). }
    now rewrite E, app_nil_r.
  - rewrite (H 0 l eq_refl) by lia. cbn [app]. apply IH.
    intros b l' Hb Hn. apply (H (S b) l' Hb). lia.
Qed.

Lemma filter_none (X : Type) (p : X -> bool) (l : list X) :
  (forall x, In x l -> p x = false) -> filter p l = [].
Proof.
  induction l as [|x l IH]; intros H; [reflexivity|]. cbn [filter].
  rewrite (H x (or_introl eq_refl)). apply IH. intros y Hy. apply H. now right.
Qed.

End Schedules.

Section Phase1Order.

Variable url_hostname : jsstring -> option jsstring.
Variable world : nat -> Backend.
Variable validLeads : list EnrichedLead.
Variable k : nat.
Hypothesis k_positive : 0 < k.

(** Every batch trace is the run of a schedule on the batch's callbacks. *)
Lemma batchLoop_schedules (scheds : list schedule) :
  forall i results trs out,
    batchLoop url_hostname world validLeads k scheds i results = Some (trs, out) ->
    forall b tr,
      nth_error trs b = Some tr ->
      exists sched,
        runSchedule sched
          (labelled (i + b * k) (batchTasks url_hostname world validLeads k (i + b * k)))
        = Some tr.
Proof.
  induction scheds as [|sched scheds IH]; intros i results trs out;
    rewrite batchLoop_eq; destruct (length validLeads <=? i) eqn:E;
    try discriminate.
  - intros [= <- <-] [|b] tr; discriminate.
  - cbv zeta.
    destruct (runSchedule sched _) as [tr0|] eqn:R; [|discriminate].
    rewrite batch_results.
    destruct (batchLoop url_hostname world validLeads k scheds (i + k) _)
      as [[trs' out']|] eqn:L; [|discriminate].
    intros [= <- <-] [|b] tr; cbn [nth_error].
    + intros [= <-]. exists sched. now rewrite Nat.add_0_r.
    + intros Hb. destruct (IH _ _ _ _ L b tr Hb) as [s Hs]. exists s.
      now replace (i + S b * k) with (i + k + b * k) by lia.
Qed.

Lemma slice_nth_complete (i j : nat) (l : EnrichedLead) :
  j < k -> nth_error validLeads (i + j) = Some l ->
  nth_error (slice i (i + k) validLeads) j = Some l.
Proof.
  intros Hj H. unfold slice. replace (i + k - i) with k by lia.
  rewrite nth_error_firstn. apply Nat.ltb_lt in Hj. rewrite Hj.
  now rewrite nth_error_skipn.
Qed.

(** The events of one lead within the trace of its batch. *)
Lemma batch_projection (i : nat) (sched : schedule) (tr : list (nat * event)) :
  runSchedule sched (labelled i (batchTasks url_hostname world validLeads k i)) = Some tr ->
  forall g,
    eventsOf g tr
    = if (i <=? g) && (g <? i + k) then
        match nth_error validLeads g with
        | Some l => fst (leadTask url_hostname (world g) (length validLeads) i (g - i) l)
        | None => []
        end
      else [].
Proof.
  intros R g. unfold eventsOf.
  assert (Hlab : forall j l x,
             nth_error (labelled i (batchTasks url_hostname world validLeads k i)) j = Some l ->
             In x l -> fst x = i + j).
  { intros j l x Hn Hx. unfold labelled, mapi in Hn. rewrite nth_error_mapi_from in Hn.
    revert Hn.
    match goal with |- option_map _ ?t = _ -> _ => destruct t end;
      cbn [option_map]; intros Hn; [|discriminate Hn].
    inversion Hn; subst l. apply in_map_iff in Hx. destruct Hx as (e & <- & _). reflexivity. }
  destruct ((i <=? g) && (g <? i + k)) eqn:Hg.
  - apply andb_prop in Hg. destruct Hg as [H1 H2].
    apply Nat.leb_le in H1. apply Nat.ltb_lt in H2.
    assert (F : filter (fun x : nat * event => fst x =? g) tr
                = filter (fun x : nat * event => fst x =? i + (g - i)) tr)
      by (now replace (i + (g - i)) with g by lia).
    rewrite F.
    rewrite (runSchedule_project _ fst i sched _ tr R Hlab (g - i)).
    unfold labelled, batchTasks, mapi.
    destruct (nth_error validLeads g) as [l|] eqn:El.
    + assert (Hs : nth_error (slice i (i + k) validLeads) (g - i) = Some l).
      { apply slice_nth_complete; [lia|]. now replace (i + (g - i)) with g by lia. }
      erewrite nth_error_nth;
        [|rewrite nth_error_mapi_from, nth_error_mapi_from, Hs; reflexivity].
      cbn [Nat.add]. replace (i + (g - i)) with g by lia.
      rewrite map_map. cbn [snd]. now rewrite map_id.
    + rewrite nth_overflow; [reflexivity|].
      rewrite !length_mapi_from. unfold slice. rewrite length_firstn, length_skipn.
      apply nth_error_None in El. lia.
  - rewrite filter_none; [reflexivity|]. intros [g' e] Hin. cbn [fst].
    apply (Permutation_in _ (runSchedule_perm _ _ _ _ R)) in Hin.
    apply batch_events in Hin. destruct Hin as [Hr _].
    apply Nat.eqb_neq. intros ->.
    apply andb_false_iff in Hg. destruct Hg as [Hg|Hg];
      [apply Nat.leb_gt in Hg|apply Nat.ltb_ge in Hg]; lia.
Qed.

End Phase1Order.

Section Phase1Results.

Lemma eventsOf_concat (g : nat) (trs : list (list (nat * event))) :
  eventsOf g (concat trs) = concat (map (eventsOf g) trs).
Proof.
  unfold eventsOf. rewrite <- concat_filter_map, concat_map, map_map. reflexivity.
Qed.

Lemma Forall2_mapi_from (A B : Type) (R : A -> B -> Prop) (f : A -> nat -> B)
    (l : list A) :
  (forall x n, In x l -> R x (f x n)) -> forall c, Forall2 R l (mapi_from f c l).
Proof.
  induction l as [|x l IH]; intros H c; [constructor|].
  cbn [mapi_from]. constructor; [apply H; now left|].
  apply IH. intros y n Hy. apply H. now right.
Qed.

Lemma Forall2_map_right (A B : Type) (R : A -> B -> Prop) (f : A -> B) (l : list A) :
  (forall x, In x l -> R x (f x)) -> Forall2 R l (map f l).
Proof.
  induction l as [|x l IH]; intros H; [constructor|].
  cbn [map]. constructor; [apply H; now left|].
  apply IH. intros y Hy. apply H. now right.
Qed.

Lemma filter_partition (A : Type) (p : A -> bool) (l : list A) :
  Permutation (filter p l ++ filter (fun x => negb (p x)) l) l.
Proof.
  induction l as [|x l IH]; [constructor|]. cbn [filter].
  destruct (p x); cbn [negb app].
  - now constructor.
  - rewrite <- Permutation_middle. now constructor.
Qed.

End Phase1Results.

Section Phase1Run.

Variable url_hostname : jsstring -> option jsstring.
Variable world : nat -> Backend.
Variable leads : list EnrichedLead.
Variable config : EnrichmentConfig.

Let k := maxConcurrency config.
Let valid := filter hasValidDomain leads.

Hypothesis k_positive : 0 < k.

(** The events of the lead of index [g] in a run are those of its
    callback, in the callback's order. *)
Lemma eventsOf_run (scheds : list schedule) (trs : list (list (nat * event)))
    (out : outcome (list EnrichmentResult)) (g : nat) :
  findEmailsForLeads url_hostname world leads config scheds = Some (trs, out) ->
  eventsOf g (concat trs)
  = match nth_error valid g with
    | Some l => fst (leadTask url_hostname (world g) (length valid)
                       (g / k * k) (g - g / k * k) l)
    | None => []
    end.
Proof.
  intros Hrun.
  assert (Hloop : exists out',
             batchLoop url_hostname world valid k scheds 0 [] = Some (trs, out')).
  { unfold findEmailsForLeads in Hrun. fold valid in Hrun. fold k in Hrun.
    destruct (batchLoop url_hostname world valid k scheds 0 []) as [[trs' [res|e]]|];
      inversion Hrun; subst; eauto. }
  destruct Hloop as [out' Hloop].
  pose proof (batchLoop_schedules url_hostname world valid k k_positive scheds 0 [] trs
                out' Hloop) as Hsched.
  destruct (batchLoop_run url_hostname world valid k k_positive scheds 0 [] trs out' Hloop)
    as (_ & Hlen & _).
  rewrite Nat.sub_0_r in Hlen.
  assert (Hbatch : forall b tr,
             nth_error trs b = Some tr ->
             eventsOf g tr
             = if (b * k <=? g) && (g <? b * k + k) then
                 match nth_error valid g with
                 | Some l => fst (leadTask url_hostname (world g) (length valid)
                                    (b * k) (g - b * k) l)
                 | None => []
                 end
               else []).
  { intros b tr Hb. destruct (Hsched b tr Hb) as [sched R]. cbn [Nat.add] in R.
    exact (batch_projection url_hostname world valid k k_positive (b * k) sched tr R g). }
  assert (Hdiv : forall b, (b * k <=? g) && (g <? b * k + k) = true <-> b = g / k).
  { intros b. rewrite andb_true_iff, Nat.leb_le, Nat.ltb_lt. split.
    - intros [H1 H2]. apply (Nat.div_unique g k b (g - b * k)); lia.
    - intros ->. pose proof (Nat.div_mod_eq g k).
      pose proof (Nat.mod_upper_bound g k). lia. }
  rewrite eventsOf_concat.
  rewrite (concat_single _ (map (eventsOf g) trs) (g / k)).
  2:{ intros b evs Hb Hne. rewrite nth_error_map in Hb.
      destruct (nth_error trs b) as [tr|] eqn:Eb; [|discriminate].
      cbn [option_map] in Hb. inversion Hb; subst evs. rewrite (Hbatch b tr Eb).
      destruct ((b * k <=? g) && (g <? b * k + k)) eqn:Hr; [|reflexivity].
      apply Hdiv in Hr. contradiction. }
  destruct (nth_error trs (g / k)) as [tr|] eqn:Eb.
  - rewrite (nth_error_nth (map (eventsOf g) trs) (g / k) []
               (eq_trans (nth_error_map _ _ _) (f_equal (option_map _) Eb))).
    rewrite (Hbatch _ tr Eb). now rewrite (proj2 (Hdiv (g / k)) eq_refl).
  - rewrite nth_overflow by (rewrite length_map; now apply nth_error_None).
    destruct (nth_error valid g) as [l|] eqn:El; [|reflexivity].
    assert (Hg : g < length valid) by (apply nth_error_Some; congruence).
    pose proof (batch_index config k_positive _ _ Hg) as Hb. fold k in Hb.
    apply nth_error_None in Eb. lia.
Qed.

End Phase1Run.

(** X21.  In every run of phase 1 the events of one valid lead occur in
    the lead's own order, however the callbacks of its batch interleave:
    the progress call for the scraping stage, the lead's requests, the
    usage updates for its result, the progress call for the extracting
    stage; each lead thus reports progress exactly twice, and its usage is
    added after its last request.  No event belongs to any other index. *)
Theorem phase1_lead_events
    (url_hostname : jsstring -> option jsstring) (world : nat -> Backend)
    (leads : list EnrichedLead) (config : EnrichmentConfig) :
  let k := maxConcurrency config in
  let valid := filter hasValidDomain leads in
  0 < k ->
  forall scheds trs out,
    findEmailsForLeads url_hostname world leads config scheds = Some (trs, out) ->
    forall g,
      match nth_error valid g with
      | Some l =>
          exists t r,
            enrichLead url_hostname (world g) l phase1Options = (t, Returned r)
            /\ eventsOf g (concat trs)
               = Progress scraping g (length valid) (website l) (mkResult l None None None)
                 :: t ++ usageEvents r
                 ++ [Progress extracting (g + 1) (length valid) (website l) r]
      | None => eventsOf g (concat trs) = []
      end.
Proof.
  intros k valid Hk scheds trs out Hrun g.
  rewrite (eventsOf_run url_hostname world leads config Hk scheds trs out g Hrun).
  fold valid. destruct (nth_error valid g) as [l|]; [|reflexivity].
  destruct (leadTask_run url_hostname (world g) (length valid) (g / k * k)
              (g - g / k * k) l) as (t & r & Er & Et).
  exists t, r. split; [exact Er|]. fold k. rewrite Et. cbn [fst].
  pose proof (Nat.div_mod_eq g k). pose proof (Nat.mod_upper_bound g k).
  replace (g / k * k + (g - g / k * k)) with g by lia. reflexivity.
Qed.

Lemma phase1_lead_events_witness :
  0 < maxConcurrency sampleConfig
  /\ exists trs out,
       sampleRun = Some (trs, out)
       /\ map (fun e => match e with
                        | Progress stage current _ _ _ => Some (stage, current)
                        | _ => None
                        end)
              (eventsOf 1 (concat trs))
          = [Some (scraping, 1); None; None; None; None; Some (extracting, 2)].
Proof.
  split; [vm_compute; lia|].
  destruct sampleRun as [[trs out]|] eqn:E; [|discriminate E].
  exists trs, out. split; [reflexivity|].
  pose proof (phase1_lead_events (fun _ => None) sampleWorld sampleLeads sampleConfig
                ltac:(vm_compute; lia) sampleSchedules trs out E 1) as H.
  cbn [nth_error filter sampleLeads hasValidDomain domainValidation sampleValidation
       dv_isValid] in H.
  destruct H as (t & r & Er & ->).
  vm_compute in Er. inversion Er; subst t r. reflexivity.
Defined.

(** X22.  The results of phase 1 are listed valid leads first, in their
    order, then the leads with an invalid domain, in theirs: one result
    per lead, but not in the order of the input.  No result changes a
    lead's website, company, name, extra fields, domain validation or
    icebreaker; a skipped lead also keeps its email and error message. *)
Theorem phase1_results
    (url_hostname : jsstring -> option jsstring) (world : nat -> Backend)
    (leads : list EnrichedLead) (config : EnrichmentConfig) :
  let valid := filter hasValidDomain leads in
  let invalid := filter (fun l => negb (hasValidDomain l)) leads in
  0 < maxConcurrency config ->
  forall scheds trs out,
    findEmailsForLeads url_hostname world leads config scheds = Some (trs, out) ->
    exists results,
      out = Returned results
      /\ Permutation (valid ++ invalid) leads
      /\ Forall2
           (fun l r =>
              website (lead r) = website l /\ company (lead r) = company l
              /\ name (lead r) = name l /\ extraFields (lead r) = extraFields l
              /\ domainValidation (lead r) = domainValidation l
              /\ icebreaker (lead r) = icebreaker l /\ icebreakerResult r = None
              /\ if hasValidDomain l
                 then enrichmentStatus (lead r) = failed
                      \/ enrichmentStatus (lead r) = completed
                 else enrichmentStatus (lead r) = skipped
                      /\ email (lead r) = email l
                      /\ errorMessage (lead r) = errorMessage l
                      /\ scrapeResult r = None /\ emailResult r = None)
           (valid ++ invalid) results.
Proof.
  intros valid invalid Hk scheds trs out Hrun.
  destruct (findEmailsForLeads_run url_hostname world leads config Hk scheds trs out Hrun)
    as (-> & _ & _).
  eexists. split; [reflexivity|]. split; [apply filter_partition|].
  apply Forall2_app.
  - apply Forall2_mapi_from. intros l g Hl. apply filter_In in Hl. destruct Hl as [_ V].
    unfold resultOf.
    destruct (enrichLead_valid url_hostname (world g) l phase1Options V)
      as (tail & r & E & (F1 & F2 & F3 & F4 & F5) & _ & Hstatus & _ & Hice & Hnone & _).
    rewrite E. cbn [snd]. rewrite V.
    repeat (split; [assumption|]).
    split; [destruct Hice as [Hice|[Hice _]]; [exact Hice|discriminate Hice]|].
    split; [now apply Hnone|].
    destruct Hstatus as [[Hs _]|[Hs _]]; auto.
  - apply Forall2_map_right. intros l Hl. apply filter_In in Hl. destruct Hl as [_ V].
    apply negb_true_iff in V. rewrite V. cbn. repeat split; reflexivity.
Qed.

Lemma phase1_results_witness :
  0 < maxConcurrency sampleConfig
  /\ exists trs results,
       sampleRun = Some (trs, Returned results)
       /\ map (fun r => website (lead r)) results
          = [js "https://acme.io"; js "https://beta.io"; js "https://gamma.io";
             js "not a domain"].
Proof.
  split; [vm_compute; lia|].
  destruct sampleRun as [[trs out]|] eqn:E; [|discriminate E].
  destruct (phase1_results (fun _ => None) sampleWorld sampleLeads sampleConfig
              ltac:(vm_compute; lia) sampleSchedules trs out E) as (results & -> & _ & _).
  exists trs, results. split; [reflexivity|].
  vm_compute in E. inversion E. reflexivity.
Defined.

(** ** Phase 2 *)

Section Phase2Facts.

Variable url_hostname : jsstring -> option jsstring.
Variable world : nat -> Backend.
Variable scrapedContent : obj jsstring.
Variable config : EnrichmentConfig.

(** What one turn of the loop does once the text to write from is known:
    [t] are the events so far, after the first progress call. *)
Let finish (totalCount i : nat) (l : EnrichedLead) (t : list event) (content : jsstring)
  : M EnrichmentResult :=
  let domain := extractDomain url_hostname (website l) in
  let first := Progress icebreaker_stage i totalCount (website l) (mkResult l None None None) in
  let request := IcebreakerRequest content (company l) domain (icebreakerTone config) in
  let done ir :=
    [AddTokens (i_inputTokens ir) (i_outputTokens ir);
     Progress icebreaker_stage (i + 1) totalCount (website l) (icebreakerResultFor l ir)] in
  if truthy (Some content) then
    if ready (world i) then
      match icebreak (world i) content (company l) domain (icebreakerTone config) with
      | Returned ir =>
          (first :: t ++ request :: done ir, Returned (icebreakerResultFor l ir))
      | Threw e => (first :: t ++ [request], Threw e)
      end
    else (first :: t, Threw (JsError (js "API not initialized")))
  else (first :: t ++ done noContent, Returned (icebreakerResultFor l noContent)).

Lemma icebreakerStep_eq (totalCount i : nat) (l : EnrichedLead) :
  icebreakerStep url_hostname world scrapedContent config totalCount i l
  = let cached := match get scrapedContent (website l) with Some c => c | None => [] end in
    if truthy (Some cached) then finish totalCount i l [] cached
    else
      match scrapeForContact (world i) (website l) with
      | (t, Threw e) =>
          (Progress icebreaker_stage i totalCount (website l) (mkResult l None None None)
           :: t, Threw e)
      | (t, Returned sr) =>
          if s_success sr && truthy (s_markdown sr)
          then finish totalCount i l (t ++ [AddScrapedPage])
                 (match s_markdown sr with Some md => md | None => [] end)
          else finish totalCount i l t []
      end.
Proof.
  unfold icebreakerStep, finish, generateIcebreaker, icebreakerResultFor. cbv zeta.
  set (cached := match get scrapedContent (website l) with Some c => c | None => [] end).
  destruct cached as [|c cached]; cbn [truthy negb].
  - destruct (scrapeForContact (world i) (website l)) as [t [sr|e]]; [|reflexivity].
    settle.
    destruct (s_success sr), (s_markdown sr) as [[|c md]|], (ready (world i));
      cbn [truthy negb andb]; settle;
      try (destruct (icebreak (world i) _ _ _ _); settle);
      rewrite ?app_nil_r, <- ?app_assoc; reflexivity.
  - destruct (ready (world i)); cbn [negb]; settle; [|reflexivity].
    destruct (icebreak (world i) _ _ _ _); settle; reflexivity.
Qed.

Lemma finish_outcome (totalCount i : nat) (l : EnrichedLead) (t : list event)
    (content : jsstring) :
  let run := finish totalCount i l t content in
  let domain := extractDomain url_hostname (website l) in
  (exists rest,
      fst run = Progress icebreaker_stage i totalCount (website l)
                  (mkResult l None None None) :: rest)
  /\ scrapeRequests (fst run) = scrapeRequests t
  /\ icebreakerRequests (fst run)
     = icebreakerRequests t
       ++ (if truthy (Some content) && ready (world i) then [content] else [])
  /\ match snd run with
     | Returned r =>
         exists ir,
           r = icebreakerResultFor l ir
           /\ if truthy (Some content)
              then ready (world i) = true
                   /\ icebreak (world i) content (company l) domain (icebreakerTone config)
                      = Returned ir
              else ir = noContent
     | Threw e =>
         snd (generateIcebreaker (world i) content (company l) domain
                (icebreakerTone config)) = Threw e
         /\ truthy (Some content) = true
     end.
Proof.
  cbv zeta. unfold finish, generateIcebreaker. cbv zeta.
  assert (S1 : forall a b, scrapeRequests (a ++ b) = scrapeRequests a ++ scrapeRequests b)
    by (intros; apply flat_map_app).
  assert (S2 : forall a b,
             icebreakerRequests (a ++ b) = icebreakerRequests a ++ icebreakerRequests b)
    by (intros; apply flat_map_app).
  destruct (truthy (Some content)) eqn:T; cbn [andb].
  - destruct (ready (world i)); cbn [negb].
    + destruct (icebreak (world i) content (company l) _ _) as [ir|e] eqn:I;
        cbn [fst snd bind emit await throw app];
        (split; [eexists; reflexivity|]);
        change (?x :: t ++ ?y) with ([x] ++ t ++ y); rewrite !S1, !S2;
        cbn; rewrite ?app_nil_r; repeat split; eauto.
    + cbn [fst snd throw]. split; [eexists; reflexivity|].
      change (?x :: t) with ([x] ++ t). rewrite !S1, !S2.
      cbn. rewrite ?app_nil_r. repeat split; auto.
  - cbn [fst snd]. split; [eexists; reflexivity|].
    change (?x :: t ++ ?y) with ([x] ++ t ++ y). rewrite !S1, !S2.
    cbn. rewrite ?app_nil_r. repeat split; eauto.
Qed.

Lemma no_icebreakerRequests (urls : list jsstring) :
  icebreakerRequests (map ScrapeRequest urls) = [].
Proof. induction urls as [|u urls IH]; [reflexivity|exact IH]. Qed.

(** One turn of the loop of phase 2. *)
Lemma icebreakerStep_summary (totalCount i : nat) (l : EnrichedLead) :
  let run := icebreakerStep url_hostname world scrapedContent config totalCount i l in
  let cached := match get scrapedContent (website l) with Some c => c | None => [] end in
  let domain := extractDomain url_hostname (website l) in
  let tone := icebreakerTone config in
  let scrapeRun := scrapeForContact (world i) (website l) in
  (exists rest,
      fst run = Progress icebreaker_stage i totalCount (website l)
                  (mkResult l None None None) :: rest)
  /\ (if truthy (Some cached)
      then scrapeRequests (fst run) = []
           /\ icebreakerRequests (fst run) = (if ready (world i) then [cached] else [])
      else scrapeRequests (fst run) = scrapeRequests (fst scrapeRun))
  /\ match snd run with
     | Returned r =>
         exists ir,
           r = icebreakerResultFor l ir
           /\ ((ir = noContent /\ icebreakerRequests (fst run) = []
                /\ truthy (Some cached) = false
                /\ exists sr, snd scrapeRun = Returned sr
                              /\ s_success sr && truthy (s_markdown sr) = false)
               \/ exists content,
                    truthy (Some content) = true
                    /\ icebreak (world i) content (company l) domain tone = Returned ir
                    /\ icebreakerRequests (fst run) = [content]
                    /\ (content = cached
                        \/ (truthy (Some cached) = false
                            /\ exists sr, snd scrapeRun = Returned sr
                                          /\ s_success sr = true
                                          /\ s_markdown sr = Some content)))
     | Threw e =>
         (truthy (Some cached) = false
          /\ snd (scrapeUrl (world i) (website l)) = Threw e)
         \/ exists content,
              truthy (Some content) = true
              /\ snd (generateIcebreaker (world i) content (company l) domain tone)
                 = Threw e
     end.
Proof.
  cbv zeta. rewrite icebreakerStep_eq. cbv zeta.
  set (cached := match get scrapedContent (website l) with Some c => c | None => [] end).
  destruct (truthy (Some cached)) eqn:T.
  - destruct (finish_outcome totalCount i l [] cached) as (Hfirst & Hs & Hi & Ho).
    rewrite T in *. cbn [andb app] in Hi. split; [exact Hfirst|].
    split; [split; [exact Hs|exact Hi]|].
    destruct (snd (finish totalCount i l [] cached)) as [r|e].
    + destruct Ho as (ir & -> & Hready & Hir). exists ir. split; [reflexivity|].
      right. exists cached. rewrite Hready in Hi. auto.
    + destruct Ho as [Ho _]. right. exists cached. auto.
  - destruct (scrapeForContact_summary (world i) (website l)) as (Hreq & _ & _ & Hout).
    destruct (scrapeForContact (world i) (website l)) as [t [sr|e]]; cbn [fst snd] in *.
    2:{ split; [eexists; reflexivity|]. split; [reflexivity|]. left. auto. }
    assert (Ht : icebreakerRequests t = [])
      by (rewrite Hreq; apply no_icebreakerRequests).
    destruct (s_success sr && truthy (s_markdown sr)) eqn:U.
    + apply andb_prop in U. destruct U as [U1 U2].
      destruct (s_markdown sr) as [md|] eqn:Hm; [|discriminate].
      destruct (finish_outcome totalCount i l (t ++ [AddScrapedPage]) md)
        as (Hfirst & Hs & Hi & Ho).
      rewrite U2 in *. split; [exact Hfirst|].
      unfold scrapeRequests in Hs. rewrite flat_map_app in Hs. cbn [flat_map] in Hs.
      rewrite app_nil_r in Hs. split; [exact Hs|].
      unfold icebreakerRequests in Hi at 2. rewrite flat_map_app in Hi.
      fold (icebreakerRequests t) in Hi. rewrite Ht in Hi. cbn [flat_map app andb] in Hi.
      destruct (snd (finish totalCount i l (t ++ [AddScrapedPage]) md)) as [r|e].
      * destruct Ho as (ir & -> & Hready & Hir). exists ir. split; [reflexivity|].
        right. exists md. rewrite Hready in Hi. repeat split; auto.
        right. split; [reflexivity|]. exists sr. auto.
      * destruct Ho as [Ho _]. right. exists md. auto.
    + destruct (finish_outcome totalCount i l t []) as (Hfirst & Hs & Hi & Ho).
      cbn [truthy andb] in *. rewrite app_nil_r in Hi. split; [exact Hfirst|].
      split; [exact Hs|].
      destruct (snd (finish totalCount i l t [])) as [r|e].
      * destruct Ho as (ir & -> & ->). exists noContent. split; [reflexivity|].
        left. repeat split; [congruence|]. exists sr. auto.
      * destruct Ho as [_ Ho]. discriminate Ho.
Qed.

(** The loop runs the turns in order and stops at the first that throws. *)
Lemma icebreakerLoop_run (totalCount : nat) (todo : list EnrichedLead) :
  forall i results,
    let steps :=
      mapi_from (fun l n => icebreakerStep url_hostname world scrapedContent config
                              totalCount n l) i todo in
    let run := icebreakerLoop url_hostname world scrapedContent config totalCount i todo
                 results in
    match snd run with
    | Returned out =>
        exists rs, out = results ++ rs /\ map snd steps = map (@Returned _) rs
                   /\ fst run = concat (map fst steps)
    | Threw e =>
        exists done step rest rs,
          steps = done ++ step :: rest /\ map snd done = map (@Returned _) rs
          /\ snd step = Threw e
          /\ fst run = concat (map fst done) ++ fst step
    end.
Proof.
  induction todo as [|l todo IH]; intros i results; cbv zeta.
  - cbn. exists []. now rewrite app_nil_r.
  - cbn [icebreakerLoop mapi_from].
    destruct (icebreakerStep url_hostname world scrapedContent config totalCount i l)
      as [t [r|e]] eqn:Hstep.
    + cbn [bind]. specialize (IH (i + 1) (results ++ [r])). cbv zeta in IH.
      replace (i + 1) with (S i) in * by lia.
      destruct (icebreakerLoop url_hostname world scrapedContent config totalCount (S i)
                  todo (results ++ [r])) as [t' [out|e]]; cbn [fst snd] in *.
      * destruct IH as (rs & -> & Hrs & ->). exists (r :: rs).
        rewrite <- app_assoc. cbn [map concat fst snd app]. rewrite Hrs. auto.
      * destruct IH as (done & step & rest & rs & -> & Hrs & He & ->).
        exists ((t, Returned r) :: done), step, rest, (r :: rs).
        cbn [map concat fst snd app]. rewrite Hrs, app_assoc. auto.
    + cbn [bind fst snd]. eexists [], (t, Threw e), _, []. cbn.
      split; [reflexivity|]. auto.
Qed.

End Phase2Facts.

(** X23.  Phase 2 takes the leads one after the other and has no
    boundary around a lead.  When it returns, there is one result per lead,
    in the order of the input, each the lead itself with nothing but the
    icebreaker replaced (the enrichment status stays as it was), and the
    trace is the turns' traces one after the other.  When a turn throws,
    the whole call throws that error: the results of the turns before are
    lost and no later lead is touched. *)
Theorem generateIcebreakersForLeads_run
    (url_hostname : jsstring -> option jsstring) (world : nat -> Backend)
    (leads : list EnrichedLead) (scrapedContent : obj jsstring)
    (config : EnrichmentConfig) :
  let steps :=
    mapi (fun l n => icebreakerStep url_hostname world scrapedContent config
                       (length leads) n l) leads in
  let run := generateIcebreakersForLeads url_hostname world leads scrapedContent config in
  match snd run with
  | Returned results =>
      map snd steps = map (@Returned _) results
      /\ fst run = concat (map fst steps)
      /\ Forall2 (fun l r => exists ir, r = icebreakerResultFor l ir) leads results
  | Threw e =>
      exists done step rest results,
        steps = done ++ step :: rest
        /\ map snd done = map (@Returned _) results
        /\ snd step = Threw e
        /\ fst run = concat (map fst done) ++ fst step
  end.
Proof.
  cbv zeta. unfold generateIcebreakersForLeads, mapi.
  pose proof (icebreakerLoop_run url_hostname world scrapedContent config
                (length leads) leads 0 []) as H.
  cbv zeta in H.
  destruct (snd (icebreakerLoop url_hostname world scrapedContent config (length leads) 0
                   leads [])) as [results|e]; [|exact H].
  destruct H as (rs & -> & Hrs & Htrace). cbn [app].
  split; [exact Hrs|]. split; [exact Htrace|].
  clear Htrace. generalize 0 (length leads) rs Hrs. clear rs Hrs.
  induction leads as [|l ls IH]; intros i total rs Hrs.
  - destruct rs; [constructor|discriminate].
  - destruct rs as [|r rs]; [discriminate|]. cbn [mapi_from map] in Hrs.
    inversion Hrs as [[Hr Hrest]]. constructor; [|now apply (IH (S i) total)].
    pose proof (icebreakerStep_summary url_hostname world scrapedContent config total i l)
      as (_ & _ & Hout).
    rewrite Hr in Hout. destruct Hout as (ir & -> & _). now exists ir.
Qed.

(** X24.  One turn of phase 2.  It starts with a progress call.  With
    cached text for the website it scrapes nothing and asks for one
    icebreaker from that text; without, it runs the scrape step and writes
    from the page it returns.  A returned result is the lead with its
    icebreaker replaced by what the generation gave, and by nothing when
    there was no text to write from, in which case no generation is asked
    for and the fixed "No content available" result is entered.  The turn
    throws only when the main-page request or the generation call does. *)
Theorem icebreakerStep_outcome
    (url_hostname : jsstring -> option jsstring) (world : nat -> Backend)
    (scrapedContent : obj jsstring) (config : EnrichmentConfig)
    (totalCount i : nat) (l : EnrichedLead) :
  let run := icebreakerStep url_hostname world scrapedContent config totalCount i l in
  let cached := match get scrapedContent (website l) with Some c => c | None => [] end in
  let domain := extractDomain url_hostname (website l) in
  let tone := icebreakerTone config in
  let scrapeRun := scrapeForContact (world i) (website l) in
  (exists rest,
      fst run = Progress icebreaker_stage i totalCount (website l)
                  (mkResult l None None None) :: rest)
  /\ (if truthy (Some cached)
      then scrapeRequests (fst run) = []
           /\ icebreakerRequests (fst run) = (if ready (world i) then [cached] else [])
      else scrapeRequests (fst run) = scrapeRequests (fst scrapeRun))
  /\ match snd run with
     | Returned r =>
         exists ir,
           r = icebreakerResultFor l ir
           /\ ((ir = noContent /\ icebreakerRequests (fst run) = []
                /\ truthy (Some cached) = false
                /\ exists sr, snd scrapeRun = Returned sr
                              /\ s_success sr && truthy (s_markdown sr) = false)
               \/ exists content,
                    truthy (Some content) = true
                    /\ icebreak (world i) content (company l) domain tone = Returned ir
                    /\ icebreakerRequests (fst run) = [content]
                    /\ (content = cached
                        \/ (truthy (Some cached) = false
                            /\ exists sr, snd scrapeRun = Returned sr
                                          /\ s_success sr = true
                                          /\ s_markdown sr = Some content)))
     | Threw e =>
         (truthy (Some cached) = false
          /\ snd (scrapeUrl (world i) (website l)) = Threw e)
         \/ exists content,
              truthy (Some content) = true
              /\ snd (generateIcebreaker (world i) content (company l) domain tone)
                 = Threw e
     end.
Proof.
  exact (icebreakerStep_summary url_hostname world scrapedContent config totalCount i l).
Qed.

(** A lead that failed in phase 1 keeps its status in phase 2, and an
    icebreaker it had is dropped when there is no text to write from. *)
Example phase2_keeps_status :
  let l := mkEnrichedLead (js "https://acme.io") None None None None
             (Some (js "Loved your launch")) failed (Some (js "timeout"))
             (sampleValidation "acme.io" "io") in
  let down := mkBackend true
                (fun url => Returned (mkScrapeResult false url None None None None))
                (fun _ _ => Threw JsOther) (fun _ _ _ _ => Threw JsOther) in
  snd (generateIcebreakersForLeads (fun _ => None) (fun _ => down) [l] [] DEFAULT_CONFIG)
  = Returned [mkResult
                (mkEnrichedLead (js "https://acme.io") None None None None None failed
                   (Some (js "timeout")) (sampleValidation "acme.io" "io"))
                None None (Some noContent)].
Proof. vm_compute. reflexivity. Qed.

Section UsageTotals.

Variable weight : event -> nat.

(** A weight that only the usage updates carry. *)
Hypothesis usage_only : forall e, match e with
                                  | AddTokens _ _ | AddScrapedPage => True
                                  | _ => weight e = 0
                                  end.

Lemma added_app (t1 t2 : list event) :
  added weight (t1 ++ t2) = added weight t1 + added weight t2.
Proof. unfold added. now rewrite map_app, list_sum_app. Qed.

Lemma added_requests (t : list event) :
  forallb isRequest t = true -> added weight t = 0.
Proof.
  induction t as [|e t IH]; [reflexivity|]. cbn [forallb]. intros H.
  apply andb_prop in H. destruct H as [He Ht].
  change (added weight (e :: t)) with (weight e + added weight t).
  rewrite (IH Ht). pose proof (usage_only e) as U. destruct e; try discriminate; lia.
Qed.

Lemma indicator_sum (c g0 start n : nat) :
  list_sum (map (fun g => if g0 =? g then c else 0) (seq start n))
  = if (start <=? g0) && (g0 <? start + n) then c else 0.
Proof.
  revert start. induction n as [|n IH]; intros start.
  - cbn [seq map list_sum].
    destruct (Nat.leb_spec start g0), (Nat.ltb_spec g0 (start + 0)); cbn [andb];
      try reflexivity; lia.
  - cbn [seq map]. change (list_sum (?x :: ?l)) with (x + list_sum l). rewrite IH.
    destruct (Nat.eqb_spec g0 start), (Nat.leb_spec (S start) g0),
      (Nat.ltb_spec g0 (S start + n)), (Nat.leb_spec start g0),
      (Nat.ltb_spec g0 (start + S n)); cbn [andb]; lia.
Qed.

Lemma list_sum_add (A : Type) (f h : A -> nat) (l : list A) :
  list_sum (map (fun x => f x + h x) l) = list_sum (map f l) + list_sum (map h l).
Proof.
  induction l as [|x l IH]; [reflexivity|]. cbn [map].
  change (list_sum (?x :: ?l)) with (x + list_sum l). lia.
Qed.

(** A total is the sum of the totals of the leads' own events. *)
Lemma bucket_sum (n : nat) (trace : list (nat * event)) :
  (forall g, n <= g -> eventsOf g trace = []) ->
  added weight (map snd trace)
  = list_sum (map (fun g => added weight (eventsOf g trace)) (seq 0 n)).
Proof.
  induction trace as [|[g0 e] trace IH]; intros H.
  - unfold eventsOf, added. cbn. induction (seq 0 n); [reflexivity|assumption].
  - assert (Hg0 : g0 < n).
    { destruct (Nat.lt_ge_cases g0 n) as [L|L]; [exact L|].
      specialize (H g0 L). unfold eventsOf in H. cbn [filter fst] in H.
      rewrite Nat.eqb_refl in H. discriminate. }
    assert (H' : forall g, n <= g -> eventsOf g trace = []).
    { intros g L. specialize (H g L). unfold eventsOf in *. cbn [filter fst] in H.
      destruct (g0 =? g); [discriminate|exact H]. }
    rewrite (map_ext
               (fun g => added weight (eventsOf g ((g0, e) :: trace)))
               (fun g => (if g0 =? g then weight e else 0)
                         + added weight (eventsOf g trace))).
    2:{ intros g. unfold eventsOf. cbn [filter fst].
        destruct (g0 =? g); [reflexivity|reflexivity]. }
    rewrite list_sum_add, indicator_sum, <- (IH H').
    cbn [Nat.leb andb Nat.add]. apply Nat.ltb_lt in Hg0. rewrite Hg0.
    reflexivity.
Qed.

Lemma list_sum_indicator (A : Type) (p : A -> bool) (l : list A) :
  list_sum (map (fun x => if p x then 1 else 0) l) = length (filter p l).
Proof.
  induction l as [|x l IH]; [reflexivity|]. cbn [map filter].
  change (list_sum (?x :: ?l)) with (x + list_sum l). rewrite IH.
  destruct (p x); reflexivity.
Qed.

Lemma mapi_from_seq (A B : Type) (F : A -> nat -> B) (d : A) (l : list A) :
  forall c, mapi_from F c l = map (fun j => F (nth (j - c) l d) j) (seq c (length l)).
Proof.
  induction l as [|x l IH]; intros c; [reflexivity|].
  cbn [mapi_from length seq map]. rewrite Nat.sub_diag. cbn [nth]. f_equal.
  rewrite IH. apply map_ext_in. intros j Hj. apply in_seq in Hj.
  replace (j - c) with (S (j - S c)) by lia. reflexivity.
Qed.

End UsageTotals.

Section Phase1Usage.

Variable url_hostname : jsstring -> option jsstring.
Variable world : nat -> Backend.
Variable leads : list EnrichedLead.
Variable config : EnrichmentConfig.

Hypothesis k_positive : 0 < maxConcurrency config.

Lemma enrichLead_only_requests (backend : Backend) (l : EnrichedLead)
    (options : EnrichOptions) :
  forallb isRequest (fst (enrichLead url_hostname backend l options)) = true.
Proof.
  destruct (hasValidDomain l) eqn:V;
    [|now rewrite (enrichLead_invalid url_hostname backend l options V)].
  destruct (enrichLead_valid url_hostname backend l options V)
    as (tail & r & E & _ & _ & _ & _ & _ & _ & Htail).
  destruct (scrapeForContact_summary backend (website l)) as (Hreq & _).
  rewrite E. cbn [fst]. rewrite forallb_app. apply andb_true_intro. split.
  - rewrite Hreq. apply forallb_forall. intros e He. apply in_map_iff in He.
    now destruct He as (u & <- & _).
  - destruct Htail as [->|(sr & md & _ & _ & [->|[_ ->]])]; reflexivity.
Qed.

(** What a run of phase 1 adds to a usage counter, from the results. *)
Lemma usage_total (weight : event -> nat) (measure : EnrichmentResult -> nat)
    (scheds : list schedule) (trs : list (list (nat * event)))
    (out : outcome (list EnrichmentResult)) :
  (forall e, match e with
             | AddTokens _ _ | AddScrapedPage => True
             | _ => weight e = 0
             end) ->
  (forall r, added weight (usageEvents r) = measure r) ->
  findEmailsForLeads url_hostname world leads config scheds = Some (trs, out) ->
  exists results,
    out = Returned results
    /\ added weight (map snd (concat trs)) = list_sum (map measure results).
Proof.
  intros Hw Hm Hrun.
  destruct (findEmailsForLeads_run url_hostname world leads config k_positive scheds trs out
              Hrun) as (-> & _ & _).
  eexists. split; [reflexivity|].
  set (valid := filter hasValidDomain leads).
  set (dflt := mkEnrichedLead [] None None None None None pending None None).
  assert (Hev : forall g,
             eventsOf g (concat trs)
             = match nth_error valid g with
               | Some l => fst (leadTask url_hostname (world g) (length valid)
                                  (g / maxConcurrency config * maxConcurrency config)
                                  (g - g / maxConcurrency config * maxConcurrency config) l)
               | None => []
               end).
  { intros g. exact (eventsOf_run url_hostname world leads config k_positive scheds trs _ g
                       Hrun). }
  rewrite (bucket_sum weight (length valid)).
  2:{ intros g Hg. rewrite Hev. apply nth_error_None in Hg. now rewrite Hg. }
  assert (Hskip : forall ls, list_sum (map measure (map skippedResult ls)) = 0).
  { induction ls as [|l ls IH]; [reflexivity|].
    cbn [map]. change (list_sum (?x :: ?l)) with (x + list_sum l).
    rewrite IH, <- Hm. reflexivity. }
  rewrite map_app, list_sum_app, Hskip.
  rewrite Nat.add_0_r. rewrite (mapi_from_seq _ _ (resultOf url_hostname world) dflt valid 0).
  rewrite map_map. f_equal. apply map_ext_in. intros g Hg. apply in_seq in Hg.
  rewrite Nat.sub_0_r. rewrite Hev.
  destruct (nth_error valid g) as [l|] eqn:El; [|apply nth_error_None in El; lia].
  rewrite (nth_error_nth valid g dflt El).
  destruct (leadTask_run url_hostname (world g) (length valid)
              (g / maxConcurrency config * maxConcurrency config)
              (g - g / maxConcurrency config * maxConcurrency config) l)
    as (t & r & Er & ->).
  cbn [fst]. unfold resultOf. rewrite Er. cbn [snd].
  change (?x :: t ++ ?u ++ [?y]) with ([x] ++ t ++ u ++ [y]).
  rewrite !(added_app weight). rewrite (added_requests weight Hw t).
  2:{ pose proof (enrichLead_only_requests (world g) l phase1Options) as R.
      rewrite Er in R. exact R. }
  rewrite Hm. unfold added. cbn [map list_sum].
  pose proof (Hw (Progress scraping (g / maxConcurrency config * maxConcurrency config
                                    + (g - g / maxConcurrency config * maxConcurrency config))
                    (length valid) (website l) (mkResult l None None None))) as W1.
  pose proof (Hw (Progress extracting
                    (g / maxConcurrency config * maxConcurrency config
                     + (g - g / maxConcurrency config * maxConcurrency config) + 1)
                    (length valid) (website l) r)) as W2.
  cbn in W1, W2. change (list_sum [?x]) with (x + 0). rewrite W1, W2. lia.
Qed.

End Phase1Usage.

(** X25.  The usage totals of phase 1: in every run the input and output
    tokens added to the shared [usage] are the sums of the token counts of
    the results that carry an extraction result, whether or not the
    extraction succeeded, and the scraped pages are the results whose
    scrape step reported success, whether or not the lead completed. *)
Theorem phase1_usage_totals
    (url_hostname : jsstring -> option jsstring) (world : nat -> Backend)
    (leads : list EnrichedLead) (config : EnrichmentConfig) :
  0 < maxConcurrency config ->
  forall scheds trs out,
    findEmailsForLeads url_hostname world leads config scheds = Some (trs, out) ->
    exists results,
      out = Returned results
      /\ added inputTokensOf (map snd (concat trs))
         = list_sum (map (fun r => match emailResult r with
                                   | Some er => e_inputTokens er
                                   | None => 0
                                   end) results)
      /\ added outputTokensOf (map snd (concat trs))
         = list_sum (map (fun r => match emailResult r with
                                   | Some er => e_outputTokens er
                                   | None => 0
                                   end) results)
      /\ added scrapedPageOf (map snd (concat trs))
         = count (fun r => match scrapeResult r with
                           | Some sr => s_success sr
                           | None => false
                           end) results.
Proof.
  intros Hk scheds trs out Hrun.
  destruct (findEmailsForLeads_run url_hostname world leads config Hk scheds trs out Hrun)
    as (Hout & _ & _).
  eexists. split; [exact Hout|].
  assert (U : forall (weight : event -> nat) (measure : EnrichmentResult -> nat),
             (forall e, match e with
                        | AddTokens _ _ | AddScrapedPage => True
                        | _ => weight e = 0
                        end) ->
             (forall r, added weight (usageEvents r) = measure r) ->
             added weight (map snd (concat trs))
             = list_sum (map measure
                           (mapi_from (resultOf url_hostname world) 0
                              (filter hasValidDomain leads)
                            ++ map skippedResult
                                 (filter (fun l => negb (hasValidDomain l)) leads)))).
  { intros weight measure Hw Hm.
    destruct (usage_total url_hostname world leads config Hk weight measure scheds trs out
                Hw Hm Hrun) as (results & E & Ht).
    rewrite Hout in E. inversion E; subst results. exact Ht. }
  split; [|split].
  - apply U; [now intros []|]. intros r. unfold usageEvents, added.
    destruct (emailResult r), (scrapeResult r) as [sr|]; try destruct (s_success sr);
      cbn; lia.
  - apply U; [now intros []|]. intros r. unfold usageEvents, added.
    destruct (emailResult r), (scrapeResult r) as [sr|]; try destruct (s_success sr);
      cbn; lia.
  - unfold count.
    rewrite (U scrapedPageOf
               (fun r => if match scrapeResult r with
                            | Some sr => s_success sr
                            | None => false
                            end then 1 else 0)).
    + apply list_sum_indicator.
    + now intros [].
    + intros r. unfold usageEvents, added.
      destruct (emailResult r), (scrapeResult r) as [sr|]; try destruct (s_success sr);
        reflexivity.
Qed.

Lemma phase1_usage_totals_witness :
  0 < maxConcurrency sampleConfig
  /\ exists trs results,
       sampleRun = Some (trs, Returned results)
       /\ added inputTokensOf (map snd (concat trs)) = 120
       /\ added scrapedPageOf (map snd (concat trs)) = 1.
Proof.
  split; [vm_compute; lia|].
  destruct sampleRun as [[trs out]|] eqn:E; [|discriminate E].
  destruct (phase1_usage_totals (fun _ => None) sampleWorld sampleLeads sampleConfig
              ltac:(vm_compute; lia) sampleSchedules trs out E)
    as (results & -> & Hin & _ & Hpages).
  exists trs, results. split; [reflexivity|].
  rewrite Hin, Hpages. vm_compute in E. inversion E. split; reflexivity.
Defined.

(** ** From phase 1 to phase 2: the pages the application keeps *)

Section KeptPages.

Variable k : jsstring.

Let step (scrapedContent : obj jsstring) (e : event) : obj jsstring :=
  match e with
  | Progress _ _ _ _ result => storeScraped scrapedContent result
  | _ => scrapedContent
  end.

Lemma storeScraped_get (c : obj jsstring) (r : EnrichmentResult) :
  get (storeScraped c r) k
  = if jseqb (website (lead r)) k then
      match scrapeResult r with
      | Some sr => if truthy (s_markdown sr) then s_markdown sr else get c k
      | None => get c k
      end
    else get c k.
Proof.
  unfold storeScraped. destruct (scrapeResult r) as [sr|]; [|now destruct (jseqb _ k)].
  destruct (s_markdown sr) as [[|ch md]|]; cbn [truthy]; try now destruct (jseqb _ k).
  now rewrite get_set.
Qed.

Lemma step_respects (c1 c2 : obj jsstring) (e : event) :
  get c1 k = get c2 k -> get (step c1 e) k = get (step c2 e) k.
Proof.
  intros H. destruct e; cbn [step]; try exact H.
  rewrite !storeScraped_get, H. reflexivity.
Qed.

(** Only the progress calls about the website [k] matter for its entry. *)
Lemma kept_projection (g : nat) (trace : list (nat * event)) :
  (forall g' e c, In (g', e) trace -> g' <> g -> get (step c e) k = get c k) ->
  forall c1 c2,
    get c1 k = get c2 k ->
    get (fold_left step (map snd trace) c1) k
    = get (fold_left step (eventsOf g trace) c2) k.
Proof.
  induction trace as [|[g' e] trace IH]; intros H c1 c2 Hc; [exact Hc|].
  assert (H' : forall g' e c, In (g', e) trace -> g' <> g -> get (step c e) k = get c k)
    by (intros; apply (H g'0); [now right|assumption]).
  unfold eventsOf. cbn [map snd fold_left filter fst].
  destruct (Nat.eqb_spec g' g) as [->|N].
  - cbn [map snd fold_left]. apply (IH H'). now apply step_respects.
  - apply (IH H'). rewrite (H g' e c1 (or_introl eq_refl) N). exact Hc.
Qed.

Lemma requests_keep (t : list event) (c : obj jsstring) :
  (forall e, In e t -> match e with Progress _ _ _ _ _ => False | _ => True end) ->
  fold_left step t c = c.
Proof.
  revert c. induction t as [|e t IH]; intros c H; [reflexivity|].
  cbn [fold_left]. pose proof (H e (or_introl eq_refl)) as He.
  destruct e; try contradiction; cbn [step]; apply IH; intros e' He'; apply H; now right.
Qed.

End KeptPages.

(** X26.  The application keeps, for phase 2, the page of every progress
    call whose result has scraped text.  After any run of phase 1, for a
    valid lead whose website no other valid lead shares, the kept page is
    the text of that lead's scrape result, if it has any; so for a lead
    phase 1 completed, phase 2 sends no page request for that website and
    asks for the icebreaker from the very text the addresses were
    extracted from. *)
Theorem phase1_pages_feed_phase2
    (url_hostname : jsstring -> option jsstring) (world : nat -> Backend)
    (leads : list EnrichedLead) (config : EnrichmentConfig) :
  let valid := filter hasValidDomain leads in
  0 < maxConcurrency config ->
  forall scheds trs out,
    findEmailsForLeads url_hostname world leads config scheds = Some (trs, out) ->
    forall g l,
      nth_error valid g = Some l ->
      (forall g' l', nth_error valid g' = Some l' -> website l' = website l -> g' = g) ->
      let kept := scrapedContentAfter (map snd (concat trs)) in
      let r := resultOf url_hostname world l g in
      get kept (website l)
      = match scrapeResult r with
        | Some sr => if truthy (s_markdown sr) then s_markdown sr else None
        | None => None
        end
      /\ (enrichmentStatus (lead r) = completed ->
          exists markdown,
            get kept (website l) = Some markdown /\ markdown <> []
            /\ forall world2 config2 totalCount i l2,
                 website l2 = website l ->
                 let turn := icebreakerStep url_hostname world2 kept config2 totalCount i l2 in
                 scrapeRequests (fst turn) = []
                 /\ icebreakerRequests (fst turn)
                    = if ready (world2 i) then [markdown] else []).
Proof.
  intros valid Hk scheds trs out Hrun g l Hl Huniq kept r.
  assert (Hshape : forall g' l',
             nth_error valid g' = Some l' ->
             exists t r',
               enrichLead url_hostname (world g') l' phase1Options = (t, Returned r')
               /\ eventsOf g' (concat trs)
                  = Progress scraping g' (length valid) (website l')
                      (mkResult l' None None None)
                    :: t ++ usageEvents r'
                    ++ [Progress extracting (g' + 1) (length valid) (website l') r']).
  { intros g' l' Hl'.
    rewrite (eventsOf_run url_hostname world leads config Hk scheds trs out g' Hrun).
    fold valid. rewrite Hl'.
    destruct (leadTask_run url_hostname (world g') (length valid)
                (g' / maxConcurrency config * maxConcurrency config)
                (g' - g' / maxConcurrency config * maxConcurrency config) l')
      as (t & r' & Er & Et).
    exists t, r'. split; [exact Er|]. rewrite Et. cbn [fst].
    pose proof (Nat.div_mod_eq g' (maxConcurrency config)).
    pose proof (Nat.mod_upper_bound g' (maxConcurrency config)).
    replace (g' / maxConcurrency config * maxConcurrency config
             + (g' - g' / maxConcurrency config * maxConcurrency config)) with g' by lia.
    reflexivity. }
  assert (Hwebsite : forall backend l' t r',
             enrichLead url_hostname backend l' phase1Options = (t, Returned r') ->
             website (lead r') = website l').
  { intros backend l' t r' E. destruct (hasValidDomain l') eqn:V.
    - destruct (enrichLead_valid url_hostname backend l' phase1Options V)
        as (tail & r0 & E0 & (F1 & _) & _).
      rewrite E in E0. inversion E0; subst. exact F1.
    - rewrite (enrichLead_invalid url_hostname backend l' phase1Options V) in E.
      inversion E; subst. reflexivity. }
  assert (Hrequests : forall backend l' t r',
             enrichLead url_hostname backend l' phase1Options = (t, Returned r') ->
             forall e, In e t -> match e with Progress _ _ _ _ _ => False | _ => True end).
  { intros backend l' t r' E e He.
    pose proof (enrichLead_only_requests url_hostname backend l' phase1Options) as R.
    rewrite E in R. cbn [fst] in R. rewrite forallb_forall in R. specialize (R e He).
    destruct e; try exact I. discriminate R. }
  assert (Hkept : get kept (website l)
                  = match scrapeResult r with
                    | Some sr => if truthy (s_markdown sr) then s_markdown sr else None
                    | None => None
                    end).
  { unfold kept, scrapedContentAfter.
    rewrite (kept_projection (website l) g (concat trs)) with (c2 := []); [| |reflexivity].
    - destruct (Hshape g l Hl) as (t & r' & Er & ->).
      assert (r = r') by (unfold r, resultOf; now rewrite Er). subst r'.
      cbn [fold_left].
      change (storeScraped [] (mkResult l None None None))
        with (@nil (jsstring * jsstring)).
      rewrite fold_left_app.
      rewrite (requests_keep t); [|exact (Hrequests _ _ _ _ Er)].
      rewrite fold_left_app. rewrite (requests_keep (usageEvents r)).
      2:{ intros e He. unfold usageEvents in He.
          destruct (emailResult r), (scrapeResult r) as [sr|];
            try destruct (s_success sr); cbn in He; intuition (subst; exact I). }
      cbn [fold_left]. rewrite storeScraped_get.
      rewrite (Hwebsite _ _ _ _ Er), jseqb_refl. reflexivity.
    - intros g' e c Hin Hne.
      assert (He : In e (eventsOf g' (concat trs))).
      { unfold eventsOf. apply in_map_iff. exists (g', e). split; [reflexivity|].
        apply filter_In. split; [exact Hin|]. cbn [fst]. apply Nat.eqb_refl. }
      destruct (nth_error valid g') as [l'|] eqn:El'.
      2:{ rewrite (eventsOf_run url_hostname world leads config Hk scheds trs out g' Hrun)
            in He. fold valid in He. rewrite El' in He. destruct He. }
      destruct (Hshape g' l' El') as (t & r' & Er & Eev). rewrite Eev in He.
      assert (Hother : jseqb (website l') (website l) = false).
      { apply jseqb_neq. intros E. apply Hne. now apply (Huniq g' l'). }
      destruct He as [<-|He].
      { rewrite storeScraped_get. cbn [lead website]. now rewrite Hother. }
      apply in_app_or in He. destruct He as [He|He].
      { pose proof (Hrequests _ _ _ _ Er e He). destruct e; try reflexivity. contradiction. }
      apply in_app_or in He. destruct He as [He|[<-|[]]].
      { unfold usageEvents in He.
        destruct (emailResult r'), (scrapeResult r') as [sr|];
          try destruct (s_success sr); cbn in He; intuition (subst; reflexivity). }
      rewrite storeScraped_get. rewrite (Hwebsite _ _ _ _ Er). now rewrite Hother. }
  split; [exact Hkept|].
  intros Hcompleted.
  assert (V : hasValidDomain l = true).
  { assert (In l valid) by (eapply nth_error_In; eauto).
    unfold valid in H. apply filter_In in H. tauto. }
  destruct (enrichLead_valid url_hostname (world g) l phase1Options V)
    as (tail & r0 & E0 & _ & _ & Hstatus & _).
  assert (r = r0) by (unfold r, resultOf; now rewrite E0). subst r0.
  destruct Hstatus as [[Hf _]|(_ & _ & sr & er & Hsr & _ & Hmd & _)]; [congruence|].
  rewrite Hsr, Hmd in Hkept.
  destruct (s_markdown sr) as [markdown|] eqn:Em; [|discriminate Hmd].
  exists markdown. split; [exact Hkept|]. split; [now destruct markdown|].
  intros world2 config2 totalCount i l2 Hsame turn.
  pose proof (icebreakerStep_summary url_hostname world2 kept config2 totalCount i l2)
    as (_ & Hreq & _).
  cbv zeta in Hreq. rewrite Hsame, Hkept, Hmd in Hreq. exact Hreq.
Qed.

Lemma phase1_pages_feed_phase2_witness :
  0 < maxConcurrency sampleConfig
  /\ exists trs out,
       sampleRun = Some (trs, out)
       /\ get (scrapedContentAfter (map snd (concat trs))) (js "https://acme.io")
          = Some (js "Write to sales@acme.io").
Proof.
  split; [vm_compute; lia|].
  destruct sampleRun as [[trs out]|] eqn:E; [|discriminate E].
  exists trs, out. split; [reflexivity|].
  assert (U : forall g' l',
             nth_error (filter hasValidDomain sampleLeads) g' = Some l' ->
             website l' = website acmeLead -> g' = 0).
  { intros [|[|[|[|g']]]] l' Hn Hw; try reflexivity; vm_compute in Hn;
      try discriminate Hn; injection Hn as <-; vm_compute in Hw; discriminate Hw. }
  exact (proj1 (phase1_pages_feed_phase2 (fun _ => None) sampleWorld sampleLeads sampleConfig
                  ltac:(vm_compute; lia) sampleSchedules trs out E 0 acmeLead eq_refl U)).
Defined.

(** ** The model's answer *)

Section Response.

Lemma trim_fixed (c d : ascii) (m : jsstring) :
  is_space c = false -> is_space d = false -> trim (c :: m ++ [d]) = c :: m ++ [d].
Proof.
  intros Hc Hd. unfold trim. cbn [trimStart]. rewrite Hc.
  unfold trimEnd. change (c :: m ++ [d]) with ((c :: m) ++ [d]).
  rewrite rev_app_distr. cbn [rev app trimStart]. rewrite Hd.
  change (d :: rev m ++ [c]) with ([d] ++ rev (c :: m)).
  now rewrite rev_app_distr, rev_involutive.
Qed.

Lemma stripQuotes_length (s : jsstring) : length (stripQuotes s) <= length s.
Proof.
  unfold stripQuotes. cbv zeta.
  set (rest := match s with c :: s' => if is_quote c then s' else s | [] => [] end).
  assert (Hrest : length rest <= length s).
  { unfold rest. destruct s as [|c s']; [reflexivity|].
    destruct (is_quote c); cbn [length]; lia. }
  destruct (rev rest) as [|c r] eqn:E; [exact Hrest|].
  destruct (is_quote c); [|exact Hrest].
  apply (f_equal (@length ascii)) in E. rewrite length_rev in E. cbn [length] in E.
  rewrite length_rev. lia.
Qed.

Lemma stripLabel_length (s : jsstring) : length (stripLabel s) <= length s.
Proof.
  unfold stripLabel.
  repeat match goal with
         | |- context [match match_here ?p false s with _ => _ end] =>
             destruct (match_here p false s)
         end; rewrite ?length_skipn; lia.
Qed.

(** One character of a class, then the rest. *)
Lemma match_here_one (p : ascii -> bool) (rest : pattern) (c : ascii) (s : jsstring) :
  p c = true ->
  match_here (Atom p 1 (Some 1) :: rest) false (c :: s)
  = option_map S (match_here rest false s).
Proof.
  intros Hc. cbn [match_here cls lo hi span]. rewrite Hc.
  replace (Nat.min (S (span p s)) 1) with 1 by lia.
  cbn [try_down Nat.ltb Nat.leb skipn].
  destruct (match_here rest false s); reflexivity.
Qed.

Lemma match_here_none (p : ascii -> bool) (rest : pattern) (s : jsstring) :
  match s with c :: _ => p c = false | [] => True end ->
  match_here (Atom p 1 (Some 1) :: rest) false s = None.
Proof.
  intros H. cbn [match_here cls lo hi]. destruct s as [|c s]; cbn [span].
  - reflexivity.
  - rewrite H. reflexivity.
Qed.

Lemma match_here_star_end (p : ascii -> bool) (u : jsstring) :
  match_here [Atom p 0 None] false u = Some (span p u + 0).
Proof.
  cbn [match_here cls lo hi]. destruct (span p u); reflexivity.
Qed.

Lemma match_here_opt_taken (p : ascii -> bool) (rest : pattern) (c : ascii) (s : jsstring)
    (r : nat) :
  p c = true -> match_here rest false s = Some r ->
  match_here (Atom p 0 (Some 1) :: rest) false (c :: s) = Some (S r).
Proof.
  intros Hc H. cbn [match_here cls lo hi span]. rewrite Hc.
  replace (Nat.min (S (span p s)) 1) with 1 by lia.
  cbn [try_down Nat.ltb Nat.leb skipn]. now rewrite H.
Qed.

(** A colon and the white space after it are part of the label. *)
Lemma label_end_colon (u : jsstring) :
  match_here label_end false (":"%char :: u) = Some (S (span is_space u + 0)).
Proof.
  unfold label_end, opt, star. apply match_here_opt_taken; [reflexivity|].
  apply match_here_star_end.
Qed.

Lemma skipn_span (u : jsstring) : skipn (span is_space u) u = trimStart u.
Proof.
  induction u as [|c u IH]; [reflexivity|]. cbn [span trimStart].
  destruct (is_space c); [exact IH|reflexivity].
Qed.

(** The label [Icebreaker:] goes, with the white space after it. *)
Lemma stripLabel_plain (u : jsstring) :
  stripLabel (js "Icebreaker:" ++ u) = trimStart u.
Proof.
  unfold stripLabel, label_plain, lit_ci. cbn [js list_ascii_of_string map app].
  rewrite !match_here_one by reflexivity. rewrite label_end_colon.
  cbn [option_map skipn]. rewrite Nat.add_0_r. apply skipn_span.
Qed.

Lemma stripLabel_other (s : jsstring) :
  match s with
  | c :: _ => ci "i" c = false /\ ci "h" c = false
  | [] => True
  end ->
  stripLabel s = s.
Proof.
  intros H. unfold stripLabel, label_plain, label_here, lit_ci.
  cbn [list_ascii_of_string map app].
  rewrite !match_here_none; [reflexivity| | |]; destruct s; try exact I; tauto.
Qed.

End Response.

(** X27.  [parseIcebreakerResponse] passes context and tone through and
    never returns more text than it was given.  A trimmed answer that
    neither starts with a quote, an [i] or an [h] nor ends with a quote is
    returned as it is.  Quotes around the whole answer go before the label
    does, so a labelled answer in quotes comes back clean; but when the
    label stands outside the quotes only the closing quote goes and the
    opening one stays. *)
Theorem parseIcebreakerResponse_cleaning (context : jsstring) (tone : Tone) :
  (forall response,
      let parsed := parseIcebreakerResponse response context tone in
      p_context parsed = context /\ p_tone parsed = tone
      /\ length (p_icebreaker parsed) <= length response
      /\ (match trim response with
          | c :: _ => is_quote c = false /\ ci "i" c = false /\ ci "h" c = false
          | [] => True
          end ->
          match rev (trim response) with
          | c :: _ => is_quote c = false
          | [] => True
          end ->
          p_icebreaker parsed = trim response))
  /\ (forall q q' text,
         is_quote q = true -> is_quote q' = true ->
         p_icebreaker
           (parseIcebreakerResponse (q :: js "Icebreaker: " ++ text ++ [q']) context tone)
         = trimStart text)
  /\ (forall q text,
         is_quote q = true ->
         p_icebreaker
           (parseIcebreakerResponse (js "Icebreaker: " ++ q :: text ++ [q]) context tone)
         = q :: text).
Proof.
  assert (Q : forall q, is_quote q = true -> is_space q = false).
  { intros q H. unfold is_quote in H. apply orb_prop in H. destruct H as [H|H].
    - apply Nat.eqb_eq in H. unfold code in H.
      rewrite <- (ascii_nat_embedding q), H. reflexivity.
    - unfold is_char in H. apply Ascii.eqb_eq in H. now subst q. }
  split; [|split].
  - intros response. cbv zeta. unfold parseIcebreakerResponse.
    cbn [p_context p_tone p_icebreaker]. split; [reflexivity|]. split; [reflexivity|].
    split.
    + etransitivity; [apply stripLabel_length|].
      etransitivity; [apply stripQuotes_length|]. apply trim_length.
    + intros Hfirst Hlast.
      assert (E : stripQuotes (trim response) = trim response).
      { unfold stripQuotes. cbv zeta. destruct (trim response) as [|c t]; [reflexivity|].
        destruct Hfirst as (Hq & _). rewrite Hq.
        destruct (rev (c :: t)) as [|d r]; [reflexivity|]. now rewrite Hlast. }
      rewrite E. apply stripLabel_other.
      destruct (trim response) as [|c t]; [exact I|]. tauto.
  - intros q q' text Hq Hq'. unfold parseIcebreakerResponse. cbn [p_icebreaker].
    change (q :: js "Icebreaker: " ++ text ++ [q'])
      with (q :: (js "Icebreaker: " ++ text) ++ [q']).
    rewrite (trim_fixed q q' (js "Icebreaker: " ++ text) (Q q Hq) (Q q' Hq')).
    unfold stripQuotes. cbv zeta. rewrite Hq.
    rewrite rev_app_distr. cbn [rev app]. rewrite Hq', rev_involutive.
    change (js "Icebreaker: " ++ text) with (js "Icebreaker:" ++ " "%char :: text).
    rewrite stripLabel_plain. reflexivity.
  - intros q text Hq. unfold parseIcebreakerResponse. cbn [p_icebreaker].
    change (js "Icebreaker: " ++ q :: text ++ [q])
      with ("I"%char :: (js "cebreaker: " ++ q :: text) ++ [q]).
    rewrite (trim_fixed "I" q _ eq_refl (Q q Hq)).
    unfold stripQuotes. cbv zeta. cbn [is_quote].
    change (is_quote "I") with false. cbv iota.
    change ("I"%char :: (js "cebreaker: " ++ q :: text) ++ [q])
      with ((js "Icebreaker: " ++ q :: text) ++ [q]).
    rewrite rev_app_distr. cbn [rev app]. rewrite Hq, rev_involutive.
    change (js "Icebreaker: " ++ q :: text) with (js "Icebreaker:" ++ " "%char :: q :: text).
    rewrite stripLabel_plain. cbn [trimStart]. now rewrite (Q q Hq).
Qed.

Example parseIcebreakerResponse_samples :
  p_icebreaker (parseIcebreakerResponse (js "  Here's an icebreaker: Loved the launch. ")
                  [] professional)
  = js "Loved the launch."
  /\ p_icebreaker (parseIcebreakerResponse (js "HERES ICEBREAKER Loved it") [] casual)
     = js "Loved it"
  /\ p_icebreaker (parseIcebreakerResponse (js "Icebreaker: 'Loved it'") [] casual)
     = js "'Loved it"
  /\ p_icebreaker (parseIcebreakerResponse (js "Here n icebreaker: Loved it") [] casual)
     = js "Here n icebreaker: Loved it".
Proof. vm_compute. repeat split. Qed.

(* ================================================================== *)
(** ** The CSV reader of the upload form *)
(* ================================================================== *)

Section Scan.

Variables (rest : jsstring) (rows : list (list jsstring))
          (currentRow : list jsstring) (currentField : jsstring).

Lemma scan_open :
  scan (dquote :: rest) rows currentRow currentField false
  = scan rest rows currentRow currentField true.
Proof. reflexivity. Qed.

Lemma scan_comma :
  scan (comma :: rest) rows currentRow currentField false
  = scan rest rows (currentRow ++ [trim currentField]) [] false.
Proof. reflexivity. Qed.

Lemma scan_LF :
  scan (LF :: rest) rows currentRow currentField false
  = scan rest (closeRow rows currentRow currentField) [] [] false.
Proof. reflexivity. Qed.

(** Outside quotes a carriage return changes nothing: before a line feed
    the pair ends the row as the line feed alone would, elsewhere it is
    dropped. *)
Lemma scan_CR :
  scan (CR :: rest) rows currentRow currentField false
  = scan rest rows currentRow currentField false.
Proof.
  destruct rest as [|n r]; [reflexivity|].
  change (scan (CR :: n :: r) rows currentRow currentField false)
    with (if Ascii.eqb n LF
          then scan r (closeRow rows currentRow currentField) [] [] false
          else scan (n :: r) rows currentRow currentField false).
  destruct (Ascii.eqb_spec n LF) as [->|N]; reflexivity.
Qed.

Lemma scan_other (c : ascii) :
  special c = false -> c <> CR ->
  scan (c :: rest) rows currentRow currentField false
  = scan rest rows currentRow (currentField ++ [c]) false.
Proof.
  unfold special. intros S N. apply orb_false_elim in S as [S S3].
  apply orb_false_elim in S as [S1 S2].
  cbn [scan]. rewrite S1, S2, S3.
  now rewrite (proj2 (Ascii.eqb_neq c CR) N).
Qed.

End Scan.

Lemma fieldsOf_pending (line : jsstring) : pendingFields [] line = fieldsOf line.
Proof.
  unfold pendingFields, fieldsOf.
  destruct (split_char comma line) as [|f fs]; reflexivity.
Qed.

Lemma pendingRows_start (text : jsstring) :
  pendingRows [] [] text = map fieldsOf (split_char LF text).
Proof.
  unfold pendingRows. destruct (split_char LF text) as [|l ls]; [reflexivity|].
  cbn [map app]. now rewrite fieldsOf_pending.
Qed.

Lemma split_char_cons (c x : ascii) (s : jsstring) :
  x <> c ->
  exists p ps, split_char c s = p :: ps /\ split_char c (x :: s) = (x :: p) :: ps.
Proof.
  intros N. cbn [split_char]. rewrite (proj2 (Ascii.eqb_neq x c) N).
  destruct (split_char c s) as [|p ps] eqn:E; [now apply split_char_nonempty in E|].
  now exists p, ps.
Qed.

Lemma pendingRows_comma (cr : list jsstring) (cf text : jsstring) :
  pendingRows cr cf (comma :: text) = pendingRows (cr ++ [trim cf]) [] text.
Proof.
  unfold pendingRows.
  destruct (split_char_cons LF comma text) as (l & ls & E & ->); [discriminate|].
  rewrite E. f_equal. unfold pendingFields at 1. cbn [split_char].
  rewrite Ascii.eqb_refl, app_nil_r, fieldsOf_pending. unfold fieldsOf.
  now rewrite <- app_assoc.
Qed.

Lemma pendingRows_LF (cr : list jsstring) (cf text : jsstring) :
  pendingRows cr cf (LF :: text) = (cr ++ [trim cf]) :: pendingRows [] [] text.
Proof.
  rewrite pendingRows_start. unfold pendingRows. cbn [split_char].
  rewrite Ascii.eqb_refl. unfold pendingFields. cbn [split_char map].
  now rewrite app_nil_r.
Qed.

Lemma pendingRows_other (c : ascii) (cr : list jsstring) (cf text : jsstring) :
  c <> comma -> c <> LF ->
  pendingRows cr cf (c :: text) = pendingRows cr (cf ++ [c]) text.
Proof.
  intros N1 N2. unfold pendingRows.
  destruct (split_char_cons LF c text N2) as (l & ls & E & ->).
  rewrite E. f_equal. f_equal. unfold pendingFields.
  destruct (split_char_cons comma c l N1) as (f & fs & E' & ->).
  rewrite E'. now rewrite <- app_assoc.
Qed.

Lemma closeRow_filter (rows : list (list jsstring)) (cr : list jsstring) (cf : jsstring)
    (more : list (list jsstring)) :
  closeRow rows cr cf ++ filter someNonEmpty more
  = rows ++ filter someNonEmpty ((cr ++ [trim cf]) :: more).
Proof.
  unfold closeRow. cbn [filter].
  destruct (someNonEmpty (cr ++ [trim cf])); [now rewrite <- app_assoc|reflexivity].
Qed.

Lemma trim_nil : trim [] = [].
Proof. reflexivity. Qed.

(** The state the reader ends in on a text without quotes, whatever it
    held before. *)
Lemma scan_plain (content : jsstring) :
  ~ In dquote content ->
  forall rows cr cf,
    lastRow (scan content rows cr cf false)
    = rows ++ filter someNonEmpty (pendingRows cr cf (dropCR content)).
Proof.
  induction content as [|c content IH]; intros Q rows cr cf.
  - cbn [scan lastRow dropCR filter]. unfold pendingRows, pendingFields.
    cbn [split_char map]. rewrite app_nil_r.
    destruct (truthy (Some cf) || (0 <? length cr)) eqn:T.
    + rewrite <- (app_nil_r (closeRow rows cr cf)).
      change (@nil (list jsstring)) with (filter someNonEmpty []) at 1.
      apply closeRow_filter.
    + apply orb_false_elim in T as [T1 T2].
      destruct cf; [|discriminate]. destruct cr; [|discriminate].
      cbn. now rewrite app_nil_r.
  - assert (Q' : ~ In dquote content) by (intros H; apply Q; now right).
    assert (Nq : c <> dquote) by (intros ->; apply Q; now left).
    destruct (Ascii.eqb_spec c CR) as [->|Ncr].
    { rewrite scan_CR. change (dropCR (CR :: content)) with (dropCR content).
      now apply IH. }
    assert (D : dropCR (c :: content) = c :: dropCR content).
    { unfold dropCR. cbn [filter]. now rewrite (proj2 (Ascii.eqb_neq c CR) Ncr). }
    rewrite D.
    destruct (Ascii.eqb_spec c comma) as [->|Nc].
    { rewrite scan_comma, pendingRows_comma. now apply IH. }
    destruct (Ascii.eqb_spec c LF) as [->|Nl].
    { rewrite scan_LF, pendingRows_LF, IH by assumption. apply closeRow_filter. }
    rewrite scan_other, pendingRows_other by
      (try assumption; unfold special;
       now rewrite (proj2 (Ascii.eqb_neq _ _) Nq), (proj2 (Ascii.eqb_neq _ _) Nc),
         (proj2 (Ascii.eqb_neq _ _) Nl)).
    now apply IH.
Qed.

(** X28.  On a text without double quotes [parseCSVContent] reads the
    lines between the line feeds, carriage returns dropped, splits each
    at its commas, trims every field and leaves out the lines whose fields
    are all empty; the first line left gives the headers, and it throws
    unless a second one is left. *)
Theorem parseCSVContent_plain (content : jsstring) :
  ~ In dquote content ->
  parseCSVContent content
  = headersAndRows
      (filter someNonEmpty (map fieldsOf (split_char LF (dropCR content)))).
Proof.
  intros Q. unfold parseCSVContent.
  now rewrite (scan_plain content Q), pendingRows_start.
Qed.

Lemma parseCSVContent_plain_witness :
  ~ In dquote uploadedText
  /\ parseCSVContent uploadedText
     = Some ([js "website"; js "company"],
             [[js "acme.io"; js "Acme"]; [js "beta.io"]]).
Proof.
  assert (Q : ~ In dquote uploadedText).
  { intros H. vm_compute in H.
    repeat (destruct H as [H|H]; [discriminate H|]). exact H. }
  split; [exact Q|]. rewrite (parseCSVContent_plain _ Q). reflexivity.
Defined.

(* ================================================================== *)
(** ** Reading back what [generateCSV] writes *)
(* ================================================================== *)

Lemma includes_char (c : ascii) (s : jsstring) : includes s [c] = false -> ~ In c s.
Proof.
  induction s as [|x s IH]; intros H I; [destruct I|].
  cbn [includes startsWith] in H. apply orb_false_elim in H as [H1 H2].
  destruct I as [E|I]; [|now apply IH].
  subst x. now rewrite Ascii.eqb_refl in H1.
Qed.

(** Inside quotes: the text up to the closing quote is taken as it is, a
    doubled quote standing for one. *)
Lemma scan_quoted (v rest : jsstring) (rows : list (list jsstring))
    (cr : list jsstring) :
  startsWith [dquote] rest = false ->
  forall cf,
    scan (doubleQuotes v ++ dquote :: rest) rows cr cf true
    = scan rest rows cr (cf ++ v) false.
Proof.
  intros R. induction v as [|c v IH]; intros cf.
  - rewrite app_nil_r. cbn [doubleQuotes flat_map app].
    destruct rest as [|n r]; [reflexivity|].
    cbn [startsWith] in R. rewrite andb_true_r, Ascii.eqb_sym in R.
    change (scan (dquote :: n :: r) rows cr cf true)
      with (if Ascii.eqb n dquote
            then scan r rows cr (cf ++ [dquote]) true
            else scan (n :: r) rows cr cf false).
    now rewrite R.
  - change (doubleQuotes (c :: v))
      with ((if Ascii.eqb c dquote then [dquote; dquote] else [c]) ++ doubleQuotes v).
    destruct (Ascii.eqb_spec c dquote) as [->|N].
    + change (scan (([dquote; dquote] ++ doubleQuotes v) ++ dquote :: rest) rows cr cf true)
        with (scan (doubleQuotes v ++ dquote :: rest) rows cr (cf ++ [dquote]) true).
      rewrite IH. now rewrite <- app_assoc.
    + cbn [app scan]. rewrite (proj2 (Ascii.eqb_neq c dquote) N).
      rewrite IH. now rewrite <- app_assoc.
Qed.

(** Outside quotes: a text without quote, comma and line feed is taken as
    it is, carriage returns apart. *)
Lemma scan_unquoted (v rest : jsstring) (rows : list (list jsstring))
    (cr : list jsstring) :
  Forall (fun c => special c = false) v ->
  forall cf,
    scan (v ++ rest) rows cr cf false = scan rest rows cr (cf ++ dropCR v) false.
Proof.
  induction 1 as [|c v Hc Hv IH]; intros cf; [now rewrite app_nil_r|].
  cbn [app]. destruct (Ascii.eqb_spec c CR) as [->|N].
  - rewrite scan_CR. apply IH.
  - rewrite scan_other by assumption. rewrite IH.
    unfold dropCR. cbn [filter]. rewrite (proj2 (Ascii.eqb_neq c CR) N).
    now rewrite <- app_assoc.
Qed.

Lemma plain_reads (h : jsstring) :
  Forall (fun c => special c = false) h -> reads h (dropCR h).
Proof. intros H rest rows cr cf _. now apply scan_unquoted. Qed.

Lemma csvValue_reads (row : obj jsstring) (h enc : jsstring) :
  csvValue row h = Some enc -> reads enc (readBack (ownValue row h)).
Proof.
  unfold csvValue. intros E.
  assert (E' : enc = if needsQuotes (ownValue row h)
                     then dquote :: doubleQuotes (ownValue row h) ++ [dquote]
                     else ownValue row h).
  { unfold valueOf, ownValue in *. destruct (get row h) as [value|].
    - now injection E as <-.
    - destruct (mem h prototypeNames); [discriminate E|now injection E as <-]. }
  subst enc. clear E.
  intros rest rows cr cf R. unfold readBack.
  destruct (needsQuotes (ownValue row h)) eqn:N.
  - cbn [app]. rewrite scan_open, <- app_assoc. now apply scan_quoted.
  - apply scan_unquoted. unfold needsQuotes in N.
    apply orb_false_elim in N as [N _]. apply orb_false_elim in N as [N N3].
    apply orb_false_elim in N as [N1 N2].
    apply includes_char in N1, N2, N3. apply Forall_forall. intros c I.
    unfold special.
    destruct (Ascii.eqb_spec c dquote) as [->|]; [contradiction|].
    destruct (Ascii.eqb_spec c comma) as [->|]; [contradiction|].
    destruct (Ascii.eqb_spec c LF) as [->|]; [contradiction|reflexivity].
Qed.

Lemma join_cons (sep x y : jsstring) (l : list jsstring) :
  join sep (x :: y :: l) = x ++ sep ++ join sep (y :: l).
Proof. cbn [join flat_map]. now rewrite <- app_assoc. Qed.

(** A written line is read as its fields: all but the last are pushed,
    the last is the text held when the line ends. *)
Lemma scan_line (encs vs : list jsstring) :
  Forall2 reads encs vs -> encs <> [] ->
  forall rest rows cr,
    startsWith [dquote] rest = false ->
    scan (join [comma] encs ++ rest) rows cr [] false
    = scan rest rows (cr ++ map trim (removelast vs)) (last vs []) false.
Proof.
  induction 1 as [|enc v encs vs Hr Hrs IH]; intros N rest rows cr R; [congruence|]; clear N.
  destruct Hrs as [|enc' v' encs vs Hr' Hrs].
  - cbn [join flat_map removelast last map]. rewrite !app_nil_r.
    now rewrite (Hr rest rows cr [] R).
  - rewrite join_cons, <- !app_assoc.
    change ([comma] ++ join [comma] (enc' :: encs) ++ rest)
      with (comma :: join [comma] (enc' :: encs) ++ rest).
    rewrite (Hr (comma :: join [comma] (enc' :: encs) ++ rest) rows cr [] eq_refl).
    cbn [app]. rewrite scan_comma.
    rewrite IH by (congruence || assumption).
    change (removelast (v :: v' :: vs)) with (v :: removelast (v' :: vs)).
    change (last (v :: v' :: vs) []) with (last (v' :: vs) []).
    cbn [map]. now rewrite <- app_assoc.
Qed.

Lemma map_trim_last (vs : list jsstring) :
  vs <> [] -> map trim (removelast vs) ++ [trim (last vs [])] = map trim vs.
Proof.
  intros N. rewrite (app_removelast_last [] N) at 3. now rewrite map_app.
Qed.

(** Written lines are read as rows. *)
Lemma scan_lines (encss vss : list (list jsstring)) :
  Forall2 (fun encs vs => encs <> [] /\ Forall2 reads encs vs) encss vss ->
  encss <> [] ->
  forall rows,
    lastRow (scan (join [LF] (map (join [comma]) encss)) rows [] [] false)
    = rows ++ filter someNonEmpty (map (map trim) vss).
Proof.
  induction 1 as [|encs vs encss vss [Hn Hr] Hrs IH]; intros N rows; [congruence|]; clear N.
  assert (Nv : vs <> []) by (intros ->; inversion Hr; congruence).
  destruct Hrs as [|encs' vs' encss vss H' Hrs].
  - cbn [map join flat_map]. rewrite app_nil_r.
    rewrite <- (app_nil_r (join [comma] encs)).
    rewrite (scan_line encs vs Hr Hn [] rows [] eq_refl).
    cbn [scan lastRow app].
    destruct (truthy (Some (last vs [])) || (0 <? length (map trim (removelast vs)))) eqn:T.
    + rewrite <- (app_nil_r (closeRow _ _ _)).
      change (@nil (list jsstring)) with (filter someNonEmpty []) at 1.
      rewrite closeRow_filter. now rewrite map_trim_last.
    + apply orb_false_elim in T as [T1 T2].
      rewrite <- (map_trim_last vs Nv).
      destruct (last vs []); [|discriminate].
      destruct (map trim (removelast vs)); [|discriminate].
      cbn. now rewrite app_nil_r.
  - change (map (join [comma]) (encs :: encs' :: encss))
      with (join [comma] encs :: join [comma] encs' :: map (join [comma]) encss).
    rewrite join_cons.
    change (join [LF] (join [comma] encs' :: map (join [comma]) encss))
      with (join [LF] (map (join [comma]) (encs' :: encss))).
    change ([LF] ++ join [LF] (map (join [comma]) (encs' :: encss)))
      with (LF :: join [LF] (map (join [comma]) (encs' :: encss))).
    rewrite (scan_line encs vs Hr Hn
               (LF :: join [LF] (map (join [comma]) (encs' :: encss))) rows [] eq_refl).
    cbn [app]. rewrite scan_LF.
    rewrite IH by congruence. rewrite closeRow_filter.
    cbn [app]. rewrite map_trim_last by assumption. reflexivity.
Qed.

(** Without headers every written line is empty, and none is read. *)
Lemma scan_blank_lines (lines : list jsstring) (acc : list (list jsstring)) :
  Forall (fun line => line = []) lines ->
  lastRow (scan (flat_map (fun y => [LF] ++ y) lines) acc [] [] false) = acc.
Proof.
  induction 1 as [|line lines -> _ IH]; [reflexivity|].
  cbn [flat_map app]. rewrite scan_LF. exact IH.
Qed.

Lemma mapThrowing_In_None (A B : Type) (f : A -> option B) (l : list A) (x : A) :
  In x l -> f x = None -> mapThrowing f l = None.
Proof.
  induction l as [|y l IH]; intros Hin Hx; [destruct Hin|]. cbn [mapThrowing].
  destruct Hin as [->|Hin]; [now rewrite Hx|].
  destruct (f y); [|reflexivity]. now rewrite (IH Hin Hx).
Qed.

(** A value throws exactly when its header names something the row
    inherits and does not have itself. *)
Lemma csvValue_None (row : obj jsstring) (h : jsstring) :
  csvValue row h = None <-> get row h = None /\ In h prototypeNames.
Proof.
  unfold csvValue, valueOf. destruct (get row h) as [v|].
  - split; [discriminate|]. intros [E _]. discriminate E.
  - destruct (mem h prototypeNames) eqn:M.
    + split; [|reflexivity]. intros _. split; [reflexivity|now apply mem_In].
    + split; [discriminate|]. intros [_ Hin]. apply mem_In in Hin. congruence.
Qed.

Lemma values_read (row : obj jsstring) (headers encs : list jsstring) :
  mapThrowing (csvValue row) headers = Some encs ->
  Forall2 reads encs (map (fun h => readBack (ownValue row h)) headers).
Proof.
  intros H. apply mapThrowing_Forall2 in H.
  induction H as [|h enc headers encs Hh _ IH]; cbn [map]; constructor;
    [now apply csvValue_reads|exact IH].
Qed.

(** The lines written for the rows, as lists of written values. *)
Lemma written_lines (rows : list (obj jsstring)) (headers lines : list jsstring) :
  mapThrowing
    (fun row => option_map (join [comma]) (mapThrowing (csvValue row) headers)) rows
  = Some lines ->
  exists encss,
    lines = map (join [comma]) encss
    /\ Forall2 (fun encs vs => length encs = length headers /\ Forall2 reads encs vs)
         encss (map (fun row => map (fun h => readBack (ownValue row h)) headers) rows).
Proof.
  intros H. apply mapThrowing_Forall2 in H.
  induction H as [|row line rows lines Hrow _ (encss & -> & IH)].
  - exists []. split; [reflexivity|constructor].
  - destruct (mapThrowing (csvValue row) headers) as [encs|] eqn:E; [|discriminate Hrow].
    cbn [option_map] in Hrow. injection Hrow as <-.
    exists (encs :: encss). split; [reflexivity|]. cbn [map]. constructor; [|exact IH].
    split; [|now apply values_read].
    apply mapThrowing_Forall2 in E. symmetry. now apply (Forall2_length E).
Qed.

(** X29.  [generateCSV] throws exactly when a header names a property that
    some row inherits from [Object.prototype] and does not have itself.
    Otherwise [parseCSVContent] reads back what it writes, when no header
    holds a quote, a comma or a line feed: the headers and the value of
    every row under every header, trimmed, a quoted value as it was with
    its commas, line feeds and quotes, an unquoted one without its
    carriage returns.  Rows and a header line left with empty fields only
    are not read, and reading throws when fewer than two lines are left. *)
Theorem generateCSV_read_back (rows : list (obj jsstring)) (headers : list jsstring) :
  Forall (Forall (fun c => special c = false)) headers ->
  (generateCSV rows headers = None
   <-> exists row h,
         In row rows /\ In h headers /\ get row h = None /\ In h prototypeNames)
  /\ forall text,
       generateCSV rows headers = Some text ->
       parseCSVContent text
       = headersAndRows
           (filter someNonEmpty
              (map (map trim)
                 (map dropCR headers
                  :: map (fun row => map (fun h => readBack (ownValue row h)) headers)
                       rows))).
Proof.
  intros P. split.
  - unfold generateCSV. split.
    + intros H.
      destruct (mapThrowing _ rows) as [lines|] eqn:E; [discriminate H|]. clear H.
      apply mapThrowing_None in E. destruct E as (row & Hrow & E).
      destruct (mapThrowing (csvValue row) headers) as [encs|] eqn:E'; [discriminate E|].
      apply mapThrowing_None in E'. destruct E' as (h & Hh & E').
      apply csvValue_None in E'. now exists row, h.
    + intros (row & h & Hrow & Hh & Hget & Hproto).
      rewrite (mapThrowing_In_None _ _ _ rows row Hrow); [reflexivity|].
      rewrite (mapThrowing_In_None _ _ _ headers h Hh); [reflexivity|].
      now apply csvValue_None.
  - intros text G. unfold generateCSV in G.
    destruct (mapThrowing _ rows) as [lines|] eqn:E; [|discriminate G].
    cbn [option_map] in G. injection G as <-.
    apply written_lines in E. destruct E as (encss & -> & F).
    unfold parseCSVContent.
    destruct headers as [|h0 hs0] eqn:Eh.
    { cbn [map join app]. rewrite scan_blank_lines.
      - f_equal. cbn [filter someNonEmpty existsb]. clear P F.
        induction rows as [|row rows IH]; [reflexivity|].
        cbn [map filter someNonEmpty existsb]. exact IH.
      - clear P. revert F.
        generalize (map (fun row : obj jsstring =>
                           map (fun h => readBack (ownValue row h)) (@nil jsstring)) rows).
        intros vss F. induction F as [|encs vs encss vss [L _] _ IH]; cbn [map];
          constructor; [|exact IH].
        destruct encs; [reflexivity|discriminate L]. }
    rewrite <- Eh in *.
    assert (N : headers <> []) by (rewrite Eh; discriminate).
    clear Eh h0 hs0.
    change (join [comma] headers
            ++ flat_map (fun y : jsstring => LF :: y) (map (join [comma]) encss))
      with (join [LF] (map (join [comma]) (headers :: encss))).
    rewrite (scan_lines _
               (map dropCR headers
                :: map (fun row => map (fun h => readBack (ownValue row h)) headers) rows));
      [reflexivity| |discriminate].
    constructor.
    + split; [exact N|]. clear N F. induction P as [|h hs Hh Hhs IH]; cbn [map].
      * constructor.
      * constructor; [now apply plain_reads|exact IH].
    + clear P. revert F.
      generalize (map (fun row => map (fun h => readBack (ownValue row h)) headers) rows).
      intros vss F. induction F as [|encs vs encss vss [L R] _ IH]; constructor;
        [|exact IH].
      split; [|exact R]. intros ->. cbn [length] in L. destruct headers; [congruence|].
      discriminate L.
Qed.

Lemma generateCSV_read_back_witness :
  Forall (Forall (fun c => special c = false)) exportHeaders
  /\ exists text,
       generateCSV exportRows exportHeaders = Some text
       /\ parseCSVContent text
          = Some (exportHeaders, [[js "a@b.io"; exportNote]; [js "c@d.io"; []]]).
Proof.
  assert (P : Forall (Forall (fun c => special c = false)) exportHeaders)
    by (repeat constructor).
  split; [exact P|].
  destruct (generateCSV exportRows exportHeaders) as [text|] eqn:G;
    [|vm_compute in G; discriminate G].
  exists text. split; [reflexivity|].
  rewrite (proj2 (generateCSV_read_back exportRows exportHeaders P) text G).
  reflexivity.
Defined.

(** A header that names what every object inherits makes the writer
    throw, unless every row has a property of that name. *)
Example generateCSV_throws :
  generateCSV [[(js "email", js "c@d.io")]] [js "email"; js "constructor"] = None
  /\ generateCSV [[(js "email", js "c@d.io"); (js "constructor", js "x")]]
       [js "email"; js "constructor"]
     = Some (js "email,constructor" ++ LF :: js "c@d.io,x").
Proof. vm_compute. split; reflexivity. Qed.

(* ================================================================== *)
(** ** The leads built from an uploaded table *)
(* ================================================================== *)

(** Every extra field comes from a column that is kept: its key is the
    column's header, which is not [__proto__], its value the row's
    non-empty cell there. *)
Lemma forEachHeader_fields (keep : nat -> bool) (row headers : list jsstring) :
  forall idx acc k v,
    get (forEachHeader keep row idx headers acc) k = Some v ->
    get acc k = Some v
    \/ exists i, nth_error headers i = Some k /\ keep (idx + i) = true
                 /\ index row (idx + i) = Some v /\ v <> [] /\ k <> proto.
Proof.
  induction headers as [|header rest IH]; intros idx acc k v H; [now left|].
  cbn [forEachHeader] in H. apply IH in H as [H|(i & Hi & Hk & Hv & Hn)].
  - destruct (index row idx) as [v0|] eqn:E; [|now left].
    destruct (keep idx && truthy (Some v0)) eqn:K; [|now left].
    rewrite get_assign in H.
    destruct (jseqb header proto) eqn:P; [now left|].
    destruct (jseqb header k) eqn:J; [|now left].
    apply jseqb_eq in J. subst k. injection H as <-.
    apply andb_true_iff in K as [K1 K2]. right. exists 0.
    rewrite Nat.add_0_r. repeat split; try assumption.
    + intros ->. discriminate K2.
    + now apply jseqb_neq.
  - right. exists (S i). rewrite Nat.add_succ_r. now repeat split.
Qed.

Lemma forEachHeader_ext (keep keep2 : nat -> bool) (row headers : list jsstring) :
  (forall i, keep i = keep2 i) ->
  forall idx acc,
    forEachHeader keep row idx headers acc = forEachHeader keep2 row idx headers acc.
Proof.
  intros E. induction headers as [|header rest IH]; intros idx acc; [reflexivity|].
  cbn [forEachHeader]. now rewrite E, IH.
Qed.

Lemma truthy_Some (o : option jsstring) :
  truthy o = true -> exists v, o = Some v /\ v <> [].
Proof.
  destruct o as [[|c v]|]; try discriminate. intros _. now exists (c :: v).
Qed.

(** X30.  The two ways the upload form builds a lead agree in the values
    of all properties: for a website and a company column and no e-mail
    column, a row gives a lead on the path of the column selector exactly
    when it gives one on the automatic path of [handleFile], and every
    property reads the same in both.  The objects differ: the selector's
    has the own property [email], the automatic path's has not.  On the
    selector's path a row gives no lead exactly when it has no website and
    no e-mail address.  The properties of a lead built without an e-mail
    address read as those of the lead [initializeLead] builds for the
    row's website and company; a lead with one is [completed] and holds
    the trimmed cell, which has an [@].  Whether a lead counts as having a
    valid domain depends on its website alone, so a [completed] lead with
    a valid website is still among those phase 1 works on.  Every extra
    field is a non-empty cell of a column that is not selected, under that
    column's header, which is not [__proto__]. *)
Theorem selectedLead_outcome (headers : list jsstring) (w c e : column)
    (row : list jsstring) :
  (forall websiteCol,
     match autoLead headers websiteCol c row,
           selectedLead headers (Some websiteCol) c None row with
     | Some a, Some s =>
         o_fields a = o_fields s /\ o_own a = autoNames /\ o_own s = selectedNames
     | None, None => True
     | _, _ => False
     end)
  /\ match selectedLead headers w c e row with
     | None =>
         truthy (cellAt row w) = false
         /\ forall raw, cellAt row e = Some raw -> includes (trim raw) (js "@") = false
     | Some l =>
         o_own l = selectedNames
         /\ hasValidDomain (o_fields l)
            = match cellAt row w with
              | Some website => isValid (validateDomain website)
              | None => false
              end
         /\ match email (o_fields l) with
            | Some address =>
                enrichmentStatus (o_fields l) = completed
                /\ exists raw, cellAt row e = Some raw /\ address = trim raw
                               /\ includes address (js "@") = true
            | None =>
                exists website,
                  cellAt row w = Some website /\ website <> []
                  /\ o_fields l
                     = initializeLead
                         (mkLead website (cellAt row c) None
                            (extraFields (o_fields l)))
            end
         /\ forall fields k v,
              extraFields (o_fields l) = Some fields -> get fields k = Some v ->
              exists i, nth_error headers i = Some k /\ index row i = Some v
                        /\ v <> [] /\ k <> proto /\ differs i w = true
                        /\ differs i c = true /\ differs i e = true
     end.
Proof.
  split.
  { intros websiteCol. unfold autoLead, selectedLead.
    cbn [cellAt option_map truthy andb negb differs].
    destruct (truthy (index row websiteCol)) eqn:T; cbn [negb andb orb]; [|exact I].
    cbn [o_fields o_own]. split; [|split; reflexivity].
    rewrite (forEachHeader_ext
               (fun idx => negb (idx =? websiteCol) && differs idx c && true)
               (fun idx => negb (idx =? websiteCol) && differs idx c))
      by (intros i; apply andb_true_r).
    destruct (isValid (validateDomain _)); reflexivity. }
  unfold selectedLead.
  set (websiteValue := cellAt row w).
  set (existingEmail := option_map trim (cellAt row e)).
  set (address := match existingEmail with Some a => a | None => [] end).
  set (hasExistingEmail := truthy existingEmail && includes address (js "@")).
  set (fields := forEachHeader _ row 0 headers []).
  assert (F : forall k v, get fields k = Some v ->
              exists i, nth_error headers i = Some k /\ index row i = Some v
                        /\ v <> [] /\ k <> proto /\ differs i w = true
                        /\ differs i c = true /\ differs i e = true).
  { intros k v G. apply forEachHeader_fields in G as [G|(i & Hi & Hk & Hv & Hn & Hp)];
      [discriminate G|].
    cbn [Nat.add] in Hk, Hv. apply andb_true_iff in Hk as [Hk K3].
    apply andb_true_iff in Hk as [K1 K2]. now exists i. }
  assert (X : forall fs k v, orUndefined fields = Some fs -> get fs k = Some v ->
              exists i, nth_error headers i = Some k /\ index row i = Some v
                        /\ v <> [] /\ k <> proto /\ differs i w = true
                        /\ differs i c = true /\ differs i e = true).
  { intros fs k v O. unfold orUndefined in O.
    destruct (0 <? length (keys fields)); [|discriminate O].
    injection O as <-. apply F. }
  clearbody fields. clear F.
  assert (A : hasExistingEmail = true ->
              exists raw, cellAt row e = Some raw /\ existingEmail = Some (trim raw)
                          /\ includes (trim raw) (js "@") = true).
  { unfold hasExistingEmail, address, existingEmail. intros H.
    apply andb_true_iff in H as [_ H].
    destruct (cellAt row e) as [raw|]; [now exists raw|discriminate H]. }
  assert (B : hasExistingEmail = false ->
              forall raw, cellAt row e = Some raw -> includes (trim raw) (js "@") = false).
  { unfold hasExistingEmail, address, existingEmail. intros H raw E. rewrite E in H.
    cbn [option_map] in H. apply andb_false_iff in H as [H|H]; [|exact H].
    destruct (trim raw); [reflexivity|discriminate H]. }
  clearbody hasExistingEmail. clear address.
  destruct (truthy websiteValue) eqn:T.
  - apply truthy_Some in T as (website & Ew & Nw). rewrite Ew.
    cbn [negb andb orb hasValidDomain domainValidation domainValidationOf dv_isValid
         email enrichmentStatus extraFields o_fields o_own].
    split; [reflexivity|]. split; [reflexivity|]. split; [|exact X].
    destruct hasExistingEmail.
    + destruct (A eq_refl) as (raw & Er & -> & I). split; [reflexivity|].
      now exists raw.
    + exists website. repeat split; try assumption.
      unfold initializeLead. cbn [l_website l_company l_name l_extraFields].
      unfold invalidDomain, domainValidationOf.
      destruct (isValid (validateDomain website)); reflexivity.
  - cbn [negb andb]. destruct hasExistingEmail.
    + cbn [negb hasValidDomain domainValidation email enrichmentStatus extraFields
           o_fields o_own].
      split; [reflexivity|]. split; [|split; [|exact X]].
      * destruct websiteValue as [website|]; [|reflexivity].
        destruct website; [|discriminate T].
        symmetry. now apply blank_is_invalid.
      * destruct (A eq_refl) as (raw & Er & -> & I). split; [reflexivity|].
        now exists raw.
    + split; [reflexivity|]. now apply B.
Qed.

(** The own property [email] shows when the leads are written: the
    selector's lead gets an [email] column, the automatic path's does not,
    and neither has the [name] column of the leads of [initializeLeads];
    a column called [__proto__] is left out of the extra fields. *)
Example upload_paths_headers :
  option_map (fun l => orderedColumns [l])
    (autoLead uploadHeaders 0 (Some 1) uploadRow)
  = Some [js "website"; js "company"; js "phone"; js "enrichmentStatus";
          js "errorMessage"]
  /\ option_map (fun l => orderedColumns [l])
       (selectedLead uploadHeaders (Some 0) (Some 1) None uploadRow)
     = Some [js "website"; js "company"; js "phone"; js "email";
             js "enrichmentStatus"; js "errorMessage"].
Proof. vm_compute. split; reflexivity. Qed.
